(** * Static condensation (exposed/private dof splitting) of fem/ep.cpp

    A shallow embedding of the classes of [src/fem/ep.cpp]
    ([EPDoFs], [ParEPDoFs], [EPField], [ParEPField], [EPMatrix]) and the
    properties the specification states about them.

    Conventions of the embedding.
    - A C++ [int] is a [Z]; counts and loop bounds that the code only ever
      uses as sizes are [nat].  Signed overflow is undefined in C++ and is
      not modelled: the development covers executions without it.
    - A [double] is an element of a commutative ring ([Scalar]); every
      operation the code performs on doubles is a ring operation, and the
      statements are about exact arithmetic (rounding is not modelled).
      The inverse of a dense matrix is a parameter.
    - Undefined behaviour (an index outside an array, the use of a pointer
      that is NULL) and a failed [assert] end the execution with a
      [fault]; code that can hit one returns a [result]. *)

From Stdlib Require Import ZArith Lia Ring.
From stdpp Require Import base tactics option list numbers.

Set Default Proof Using "Type".

(** ** Outcomes *)

(** The ways an execution can end without a value.  The first three are
    what the code of ep.cpp can run into; the last four are the error
    names of the specification's taxonomy. *)
Inductive fault : Set :=
  | AssertionFailure
  | NullDereference
  | OutOfBounds
  | InvalidFieldIndex
  | NullInternalState
  | PartitionInconsistency
  | UnsupportedConfiguration.

Inductive result (A : Type) : Type :=
  | Ok (a : A)
  | Fail (f : fault).
Arguments Ok {A} a.
Arguments Fail {A} f.

#[export] Instance fault_eq_dec : EqDecision fault.
Proof. solve_decision. Defined.

#[export] Instance result_ret : MRet result := @Ok.
#[export] Instance result_bind : MBind result :=
  fun A B (k : A -> result B) (m : result A) =>
    match m with
    | Ok a => k a
    | Fail f => Fail f
    end.
#[export] Instance result_fmap : FMap result :=
  fun A B (g : A -> B) (m : result A) =>
    match m with
    | Ok a => Ok (g a)
    | Fail f => Fail f
    end.

(** A pointer that may be NULL is an [option]; dereferencing NULL is
    undefined. *)
Definition deref {A} (p : option A) : result A :=
  match p with
  | Some a => Ok a
  | None => Fail NullDereference
  end.

(** [for (i = 0; i < n; i++) body(i)] over a state. *)
Fixpoint for_loop {St : Type} (body : nat -> St -> result St)
    (idx : list nat) (s : St) : result St :=
  match idx with
  | [] => Ok s
  | i :: idx' => s' ← body i s; for_loop body idx' s'
  end.

Definition for_upto {St : Type} (n : nat) (body : nat -> St -> result St)
    (s : St) : result St :=
  for_loop body (seq 0 n) s.

(** ** Scalars *)

Class Scalar (R : Type) := {
  rzero : R;
  rone : R;
  radd : R -> R -> R;
  rmul : R -> R -> R;
  rsub : R -> R -> R;
  ropp : R -> R;
  scalar_eq_dec :: EqDecision R;
  scalar_ring : ring_theory rzero rone radd rmul rsub ropp eq
}.

Declare Scope scalar_scope.
Delimit Scope scalar_scope with S.
Infix "+" := radd : scalar_scope.
Infix "*" := rmul : scalar_scope.
Infix "-" := rsub : scalar_scope.
Notation "- x" := (ropp x) : scalar_scope.

#[export] Instance Z_scalar : Scalar Z := {|
  rzero := 0%Z; rone := 1%Z;
  radd := Z.add; rmul := Z.mul; rsub := Z.sub; ropp := Z.opp;
  scalar_ring := Zth
|}.

(** [rsum n f] is f 0 + ... + f (n-1), accumulated from the left as a
    C loop [s = 0; for (k...) s += f(k)] does. *)
Definition rsum {R} `{!Scalar R} (n : nat) (f : nat -> R) : R :=
  fold_left (fun acc k => (acc + f k)%S) (seq 0 n) rzero.

(** ** Arrays *)

(** [a[i]] for a C array or an [Array<int>]/[Vector]: no bounds check in
    the code, so an index outside the array is undefined. *)
Definition aget {A} (a : list A) (i : Z) : result A :=
  if bool_decide (0 <= i)%Z then
    match a !! Z.to_nat i with
    | Some x => Ok x
    | None => Fail OutOfBounds
    end
  else Fail OutOfBounds.

Definition aset {A} (a : list A) (i : Z) (x : A) : result (list A) :=
  if bool_decide (0 <= i < Z.of_nat (length a))%Z
  then Ok (<[Z.to_nat i := x]> a)
  else Fail OutOfBounds.

(** ** EPMatrix::Mult(const Vector &, Vector &)   (ep.cpp 771-775) *)

Section VectorMult.
Context {R : Type} `{!Scalar R}.

(** The body is [assert(false);]: whatever the operator and the
    vectors are, the assertion fails. *)
Definition EPMatrix_Mult_Vector {M : Type} (this : M) (x y : list R)
  : result (list R) :=
  Fail AssertionFailure.

End VectorMult.


(** ** What ep.cpp consumes from the mesh and the finite element space

    [Mesh], [FiniteElementCollection] and [FiniteElementSpace] are
    collaborators whose code is outside ep.cpp; each member function the
    code calls is a field. *)

Inductive Geometry : Set :=
  | POINT | SEGMENT | TRIANGLE | SQUARE | TETRAHEDRON | CUBE.

Record Mesh := {
  Dimension : Z;
  GetNV : Z;
  GetNEdges : Z;
  GetNE : Z;
  GetElementBaseGeometry : Z -> Geometry;
  GetFaceBaseGeometry : Z -> Geometry;
  (** [GetElementVertices(elem, V)] *)
  GetElementVertices : Z -> list Z;
  (** [GetElementEdges(elem, E, Eo)]: edge ids and their orientations *)
  GetElementEdges : Z -> list Z * list Z;
  (** [GetElementFaces(elem, F, Fo)] *)
  GetElementFaces : Z -> list Z * list Z
}.

Record FiniteElementCollection := {
  DofForGeometry : Geometry -> Z;
  HasFaceDofs : Geometry -> bool;
  (** the array [DofOrderForOrientation(geom, orientation)] points to *)
  DofOrderForOrientation : Geometry -> Z -> list Z
}.

Record FiniteElementSpace := {
  GetMesh : Mesh;
  FEColl : FiniteElementCollection;
  GetNDofs : Z;
  (** [fes->GetElementDofs(i, dofs)]: all dof ids of element i in the
      interleaved (unreduced) numbering, sign-tagged *)
  fes_GetElementDofs : Z -> list Z;
  (** [fes->GetElementInteriorDofs(i, dofs)] *)
  GetElementInteriorDofs : Z -> list Z
}.

(** [fes->GetNE()] is the number of elements of the mesh of the space. *)
Definition fes_GetNE (fes : FiniteElementSpace) : Z := GetNE (GetMesh fes).

(** ** Table (the element-to-dof table of EPDoFs) *)

(** Modelled from the spec: the element to exposed-dof-id table ("row per
    element, ordered, sign-tagged") is an object of class Table, whose
    code (general/table.cpp) is not under src/.  It is kept in compressed
    rows: [tI] holds the row offsets and [tJ] the ids, row after row; the
    builder calls are the ones BuildElementToDofTable makes, in its two
    passes (count the row sizes, then fill the rows). *)
Record Table := {
  tsize : nat;
  tI : list Z;
  tJ : list Z
}.

(** Modelled from the spec: [Table::MakeI(nrows)], the start of the
    counting pass: one counter per row and one more, all zero. *)
Definition Table_MakeI (nrows : Z) : Table :=
  {| tsize := Z.to_nat nrows;
     tI := replicate (S (Z.to_nat nrows)) 0%Z;
     tJ := [] |}.

(** Modelled from the spec: [Table::AddColumnsInRow(r, ncol)], row [r]
    is to hold [ncol] more ids: [I[r] += ncol]. *)
Definition Table_AddColumnsInRow (t : Table) (r ncol : Z) : result Table :=
  c ← aget (tI t) r;
  I' ← aset (tI t) r (c + ncol)%Z;
  Ok {| tsize := tsize t; tI := I'; tJ := tJ t |}.

(** Modelled from the spec: [Table::MakeJ()], the end of the counting
    pass: turn the counters into offsets,
    [for (k = i = 0; i < size; i++) { j = I[i]; I[i] = k; k += j; }],
    and allocate [J = new int[I[size] = k]]. *)
Definition Table_MakeJ (t : Table) : result Table :=
  '(I', k) ← for_upto (tsize t)
      (fun i '(I0, k) =>
         j ← aget I0 (Z.of_nat i);
         I1 ← aset I0 (Z.of_nat i) k;
         Ok (I1, (k + j)%Z))
      (tI t, 0%Z);
  I'' ← aset I' (Z.of_nat (tsize t)) k;
  Ok {| tsize := tsize t; tI := I''; tJ := replicate (Z.to_nat k) 0%Z |}.

(** Modelled from the spec: [Table::AddConnections(r, c, nc)], the ids
    [c[0..nc-1]] are appended to row [r]:
    [jp = J + I[r]; for (i = 0; i < nc; i++) jp[i] = c[i]; I[r] += nc]. *)
Definition Table_AddConnections (t : Table) (r : Z) (c : list Z) (nc : Z)
  : result Table :=
  start ← aget (tI t) r;
  J' ← for_upto (Z.to_nat nc)
      (fun i J0 => ci ← aget c (Z.of_nat i); aset J0 (start + Z.of_nat i)%Z ci)
      (tJ t);
  I' ← aset (tI t) r (start + nc)%Z;
  Ok {| tsize := tsize t; tI := I'; tJ := J' |}.

(** Modelled from the spec: [Table::ShiftUpI()], the end of the filling
    pass, which left in [I[r]] the end of row [r]:
    [for (i = size; i > 0; i--) I[i] = I[i-1]; I[0] = 0]. *)
Definition Table_ShiftUpI (t : Table) : result Table :=
  I' ← for_loop
      (fun i I0 => p ← aget I0 (Z.of_nat i - 1)%Z; aset I0 (Z.of_nat i) p)
      (reverse (seq 1 (tsize t))) (tI t);
  I'' ← aset I' 0%Z 0%Z;
  Ok {| tsize := tsize t; tI := I''; tJ := tJ t |}.

(** Modelled from the spec: [Table::GetRow(i, row)], the table lookup:
    [row] becomes a copy of [J[I[i]] .. J[I[i+1]-1]]. *)
Definition Table_GetRow (t : Table) (i : Z) : result (list Z) :=
  lo ← aget (tI t) i;
  hi ← aget (tI t) (i + 1)%Z;
  for_upto (Z.to_nat (hi - lo))
    (fun k row => x ← aget (tJ t) (lo + Z.of_nat k)%Z; Ok (row ++ [x]))
    [].

(** ** EPDoFs *)

Record EPDoFs := {
  fes_ : FiniteElementSpace;
  nExposedDofs_ : Z;
  nPrivateDofs_ : Z;
  expDoFsByElem_ : option Table;
  priOffset_ : option (list Z)
}.

(** The number of interior dofs of element [i]:
    [fec->DofForGeometry(mesh->GetElementBaseGeometry(i))]. *)
Definition interiorDofs (fes : FiniteElementSpace) (i : Z) : Z :=
  DofForGeometry (FEColl fes) (GetElementBaseGeometry (GetMesh fes) i).

(** The loop of the constructor:
    [for (i = 0; i < fes_->GetNE(); i++) nPrivateDofs_ += ...]. *)
Definition countPrivate (fes : FiniteElementSpace) : Z :=
  fold_left (fun acc i => (acc + interiorDofs fes (Z.of_nat i))%Z)
            (seq 0 (Z.to_nat (fes_GetNE fes))) 0%Z.

(** [EPDoFs::EPDoFs(FiniteElementSpace &)] (ep.cpp 41-52). *)
Definition EPDoFs_new (fes : FiniteElementSpace) : EPDoFs :=
  let nPrivate := countPrivate fes in
  {| fes_ := fes;
     nExposedDofs_ := (GetNDofs fes - nPrivate)%Z;
     nPrivateDofs_ := nPrivate;
     expDoFsByElem_ := None;
     priOffset_ := None |}.

Definition GetNExposedDofs (d : EPDoFs) : Z := nExposedDofs_ d.
Definition GetNPrivateDofs (d : EPDoFs) : Z := nPrivateDofs_ d.
Definition GetNElements (d : EPDoFs) : Z := fes_GetNE (fes_ d).

(** Modelled from the spec: [Array<int>::SetSize(nd)] (general/array.hpp
    is not under src/): the first entries are kept, new entries are not
    initialised (0 here). *)
Definition Array_SetSize (a : list Z) (nd : Z) : list Z :=
  take (Z.to_nat nd) a ++ replicate (Z.to_nat nd - length a) 0%Z.

(** [for (j = 0; j < n; j++) a[base + j] = f(j)]. *)
Definition fill_block (a : list Z) (base : Z) (n : Z)
    (f : Z -> result Z) : result (list Z) :=
  for_upto (Z.to_nat n)
    (fun j a0 => v ← f (Z.of_nat j); aset a0 (base + Z.of_nat j)%Z v) a.

(** The id of local dof [ind_j] of entity [ent] (an edge or a face with
    [n] dofs, numbered from [first]); a negative [ind_j] encodes
    "dof [-1 - ind_j], negated", and so does the id that is returned. *)
Definition oriented_id (first ent n ind_j : Z) : Z :=
  if bool_decide (ind_j < 0)%Z
  then (-1 - (first + ent * n + (-1 - ind_j)))%Z
  else (first + ent * n + ind_j)%Z.

(** The [else] branch of [EPDoFs::GetElementDofs(elem, ExpDoFs)]
    (ep.cpp 96-159): the ids derived from the vertices, edges and faces
    of the element. *)
Definition deriveElementDofs (fes : FiniteElementSpace) (elem : Z)
    (ExpDoFs : list Z) : result (list Z) :=
  let mesh := GetMesh fes in
  let fec := FEColl fes in
  let nvdofs := (GetNV mesh * DofForGeometry fec POINT)%Z in
  let nedofs :=
    if bool_decide (Dimension mesh > 1)%Z
    then (GetNEdges mesh * DofForGeometry fec SEGMENT)%Z else 0%Z in
  let dim := Dimension mesh in
  let nv := DofForGeometry fec POINT in
  let ne := if bool_decide (dim > 1)%Z then DofForGeometry fec SEGMENT else 0%Z in
  let V := if bool_decide (nv > 0)%Z then GetElementVertices mesh elem else [] in
  let '(E, Eo) :=
    if bool_decide (ne > 0)%Z then GetElementEdges mesh elem else ([], []) in
  '(F, Fo, nf) ←
    (if bool_decide (dim = 3)%Z
     then if HasFaceDofs fec (GetElementBaseGeometry mesh elem)
          then let '(F, Fo) := GetElementFaces mesh elem in
               F0 ← aget F 0%Z;
               Ok (F, Fo, DofForGeometry fec (GetFaceBaseGeometry mesh F0))
          else Ok ([], [], 0%Z)
     else Ok ([], [], 0%Z));
  let sz (l : list Z) := Z.of_nat (length l) in
  let nd := (sz V * nv + sz E * ne + sz F * nf)%Z in
  let a0 := Array_SetSize ExpDoFs nd in
  '(a1, nv1) ←
    (if bool_decide (nv > 0)%Z
     then a ← for_upto (length V)
                 (fun k a =>
                    fill_block a (Z.of_nat k * nv)%Z nv
                      (fun j => vk ← aget V (Z.of_nat k); Ok (vk * nv + j)%Z))
                 a0;
          Ok (a, (nv * sz V)%Z)
     else Ok (a0, nv));
  a2 ←
    (if bool_decide (ne > 0)%Z
     then for_upto (length E)
            (fun k a =>
               eo ← aget Eo (Z.of_nat k);
               let ind := DofOrderForOrientation fec SEGMENT eo in
               fill_block a (nv1 + Z.of_nat k * ne)%Z ne
                 (fun j =>
                    ij ← aget ind j;
                    ek ← aget E (Z.of_nat k);
                    Ok (oriented_id nvdofs ek ne ij)))
            a1
     else Ok a1);
  let ne1 := (nv1 + ne * sz E)%Z in
  if bool_decide (nf > 0)%Z
  then for_upto (length F)
         (fun k a =>
            fk ← aget F (Z.of_nat k);
            fo ← aget Fo (Z.of_nat k);
            let ind :=
              DofOrderForOrientation fec (GetFaceBaseGeometry mesh fk) fo in
            fill_block a (ne1 + Z.of_nat k * nf)%Z nf
              (fun j =>
                 ij ← aget ind j;
                 Ok (oriented_id (nvdofs + nedofs) fk nf ij)))
         a2
  else Ok a2.

(** [EPDoFs::GetElementDofs(elem, ExpDoFs)] (ep.cpp 86-161): a lookup in
    the table when there is one, the derivation otherwise.  No member of
    the object is assigned; the object is returned next to the ids so
    that its state after the call can be spoken of. *)
Definition GetElementDofs (this : EPDoFs) (elem : Z) (ExpDoFs : list Z)
  : result (EPDoFs * list Z) :=
  match expDoFsByElem_ this with
  | Some t => row ← Table_GetRow t elem; Ok (this, row)
  | None => ids ← deriveElementDofs (fes_ this) elem ExpDoFs; Ok (this, ids)
  end.

(** [EPDoFs::BuildElementToDofTable()] (ep.cpp 60-84). *)
Definition BuildElementToDofTable (this : EPDoFs) : result EPDoFs :=
  match expDoFsByElem_ this with
  | Some _ => Ok this
  | None =>
    let mesh := GetMesh (fes_ this) in
    let ne := Z.to_nat (GetNE mesh) in
    '(el_dof, dofs) ← for_upto ne
        (fun i '(t, dofs) =>
           '(_, dofs') ← GetElementDofs this (Z.of_nat i) dofs;
           t' ← Table_AddColumnsInRow t (Z.of_nat i) (Z.of_nat (length dofs'));
           Ok (t', dofs'))
        (Table_MakeI (GetNE mesh), []);
    el_dof ← Table_MakeJ el_dof;
    '(el_dof, dofs) ← for_upto ne
        (fun i '(t, dofs) =>
           '(_, dofs') ← GetElementDofs this (Z.of_nat i) dofs;
           t' ← Table_AddConnections t (Z.of_nat i) dofs'
                   (Z.of_nat (length dofs'));
           Ok (t', dofs'))
        (el_dof, dofs);
    el_dof ← Table_ShiftUpI el_dof;
    Ok {| fes_ := fes_ this;
          nExposedDofs_ := nExposedDofs_ this;
          nPrivateDofs_ := nPrivateDofs_ this;
          expDoFsByElem_ := Some el_dof;
          priOffset_ := priOffset_ this |}
  end.

(** The prefix sums built on the first call of the four-argument
    [GetElementDofs] (ep.cpp 176-180); [new int[n]] is not initialised
    (0 here), every entry is assigned before it is read. *)
Definition buildPriOffset (fes : FiniteElementSpace) : result (list Z) :=
  let n := Z.to_nat (fes_GetNE fes) in
  p0 ← aset (replicate (Z.to_nat (fes_GetNE fes + 1)) 0%Z) 0%Z 0%Z;
  for_upto n
    (fun i p =>
       pi ← aget p (Z.of_nat i);
       aset p (Z.of_nat i + 1)%Z (pi + interiorDofs fes (Z.of_nat i))%Z)
    p0.

(** [EPDoFs::GetElementDofs(elem, ExpDoFs, PriOffset, numPri)]
    (ep.cpp 163-185); returns the object (whose [priOffset_] may have
    been built by this call), the ids, [PriOffset] and [numPri]. *)
Definition GetElementDofsPri (this : EPDoFs) (elem : Z) (ExpDoFs : list Z)
  : result (EPDoFs * list Z * Z * Z) :=
  '(this, ExpDoFs') ← GetElementDofs this elem ExpDoFs;
  this' ←
    match priOffset_ this with
    | Some _ => Ok this
    | None =>
      p ← buildPriOffset (fes_ this);
      Ok {| fes_ := fes_ this;
            nExposedDofs_ := nExposedDofs_ this;
            nPrivateDofs_ := nPrivateDofs_ this;
            expDoFsByElem_ := expDoFsByElem_ this;
            priOffset_ := Some p |}
    end;
  po ← deref (priOffset_ this');
  PriOffset ← aget po elem;
  next ← aget po (elem + 1)%Z;
  Ok (this', ExpDoFs', PriOffset, (next - PriOffset)%Z).

(** [GetPrivateOffsets()]: the pointer [priOffset_] (NULL until built). *)
Definition GetPrivateOffsets (this : EPDoFs) : option (list Z) :=
  priOffset_ this.

(** ** ParEPDoFs *)

(** The merged (diagonal and off-diagonal) compressed-row form of a
    hypre matrix, as [hypre_MergeDiagAndOffd] returns it; its values are
    not touched by ep.cpp and stay abstract. *)
Record hypre_CSRMatrix (R : Type) := {
  hypre_CSRMatrixNumNonzeros : Z;
  hypre_CSRMatrixI : list Z;
  hypre_CSRMatrixJ : list Z;
  hypre_CSRMatrixData : list R
}.
Arguments hypre_CSRMatrixNumNonzeros {R} _.
Arguments hypre_CSRMatrixI {R} _.
Arguments hypre_CSRMatrixJ {R} _.
Arguments hypre_CSRMatrixData {R} _.

(** What the constructor of [HypreParMatrix] that ParEPDoFs calls is
    given: local and global sizes, the three arrays and the two
    partitions. *)
Record HypreParMatrixArgs (R : Type) := {
  hpm_local_rows : Z;
  hpm_glob_rows : Z;
  hpm_glob_cols : Z;
  hpm_I : list Z;
  hpm_J : list Z;
  hpm_data : list R;
  hpm_rows : list Z;
  hpm_cols : list Z
}.
Arguments hpm_local_rows {R} _.
Arguments hpm_glob_rows {R} _.
Arguments hpm_glob_cols {R} _.
Arguments hpm_I {R} _.
Arguments hpm_J {R} _.
Arguments hpm_data {R} _.
Arguments hpm_rows {R} _.
Arguments hpm_cols {R} _.

(** What the constructor reads from MPI and from the dof to true-dof
    matrix [P] of the unreduced space. *)
Record ParEnv (R : Type) := {
  (** [pfes_->GetNRanks()] *)
  numProcs : Z;
  (** [MPI_Comm_rank] *)
  myRank : Z;
  (** what [MPI_Allgather] delivers: the [nExposed] of rank p *)
  allExposed : nat -> Z;
  (** [P->RowPart()] *)
  DoFPart : list Z;
  (** [P->ColPart()] *)
  TDoFPart : list Z;
  (** [hypre_MergeDiagAndOffd(P)] *)
  csr_P : hypre_CSRMatrix R
}.
Arguments numProcs {R} _.
Arguments myRank {R} _.
Arguments allExposed {R} _.
Arguments DoFPart {R} _.
Arguments TDoFPart {R} _.
Arguments csr_P {R} _.

Record ParEPDoFs (R : Type) := {
  par_base : EPDoFs;
  Pe_ : HypreParMatrixArgs R;
  nParExposedDofs_ : Z;
  ExposedPart_ : list Z;
  TExposedPart_ : list Z
}.
Arguments par_base {R} _.
Arguments Pe_ {R} _.
Arguments nParExposedDofs_ {R} _.
Arguments ExposedPart_ {R} _.
Arguments TExposedPart_ {R} _.

(** [r = 0; while (c >= TDoFPart[r+1]) r++;] (ep.cpp 234-235), where
    [bounds] is what is left of the array from index r+1 on.  The loop
    has no other exit: past the end of the array the read is undefined. *)
Fixpoint scan_rank (bounds : list Z) (c : Z) (r : nat) : result nat :=
  match bounds with
  | [] => Fail OutOfBounds
  | b :: bounds' =>
    if bool_decide (c >= b)%Z then scan_rank bounds' c (S r) else Ok r
  end.

(** The body of the loop over the nonzeros (ep.cpp 233-239), for the
    nonzero [j]: find the rank [r] whose column range holds [J[j]], then
    [for (p = 0; p < r; p++) J[j] -= nPri[p]]. *)
Definition rewrite_column (TDoFPart nPri : list Z) (j : nat) (J : list Z)
  : result (list Z) :=
  c ← aget J (Z.of_nat j);
  r ← scan_rank (drop 1 TDoFPart) c 0;
  for_upto r
    (fun p J0 =>
       n ← aget nPri (Z.of_nat p);
       cur ← aget J0 (Z.of_nat j);
       aset J0 (Z.of_nat j) (cur - n)%Z)
    J.

Definition rewrite_columns (TDoFPart nPri : list Z) (nnz : Z) (J : list Z)
  : result (list Z) :=
  for_upto (Z.to_nat nnz) (rewrite_column TDoFPart nPri) J.

(** [ParEPDoFs::ParEPDoFs(ParFiniteElementSpace &)] (ep.cpp 187-254).
    The arrays from [new int[n]] are not initialised (0 here); every
    entry is assigned before it is read. *)
Definition ParEPDoFs_new {R} (fes : FiniteElementSpace) (env : ParEnv R)
  : result (ParEPDoFs R) :=
  let base := EPDoFs_new fes in
  let np := Z.to_nat (numProcs env) in
  let fresh := replicate (Z.to_nat (numProcs env + 1)) 0%Z in
  E0 ← aset fresh 0%Z 0%Z;
  T0 ← aset fresh 0%Z 0%Z;
  (* MPI_Allgather(&nExposed, 1, MPI_INT, &ExposedPart_[1], ...) *)
  E1 ← for_upto np
         (fun p E => aset E (Z.of_nat p + 1)%Z (allExposed env p)) E0;
  E2 ← for_loop
         (fun p E =>
            prev ← aget E (Z.of_nat p - 1)%Z;
            cur ← aget E (Z.of_nat p);
            aset E (Z.of_nat p) (cur + prev)%Z)
         (seq 1 np) E1;
  '(nPri, T1) ← for_upto np
      (fun p '(nPri, T) =>
         let zp := Z.of_nat p in
         d1 ← aget (DoFPart env) (zp + 1)%Z;
         d0 ← aget (DoFPart env) zp;
         e1 ← aget E2 (zp + 1)%Z;
         e0 ← aget E2 zp;
         nPri' ← aset nPri zp ((d1 - d0) - (e1 - e0))%Z;
         t0 ← aget T zp;
         c1 ← aget (TDoFPart env) (zp + 1)%Z;
         c0 ← aget (TDoFPart env) zp;
         np' ← aget nPri' zp;
         T' ← aset T (zp + 1)%Z (t0 + (c1 - c0) - np')%Z;
         Ok (nPri', T'))
      (replicate np 0%Z, T0);
  tr1 ← aget T1 (myRank env + 1)%Z;
  tr0 ← aget T1 (myRank env);
  J' ← rewrite_columns (TDoFPart env) nPri
         (hypre_CSRMatrixNumNonzeros (csr_P env))
         (hypre_CSRMatrixJ (csr_P env));
  er1 ← aget E2 (myRank env + 1)%Z;
  er0 ← aget E2 (myRank env);
  eN ← aget E2 (numProcs env);
  tN ← aget T1 (numProcs env);
  Ok {| par_base := base;
        Pe_ := {| hpm_local_rows := (er1 - er0)%Z;
                  hpm_glob_rows := eN;
                  hpm_glob_cols := tN;
                  hpm_I := hypre_CSRMatrixI (csr_P env);
                  hpm_J := J';
                  hpm_data := hypre_CSRMatrixData (csr_P env);
                  hpm_rows := E2;
                  hpm_cols := T1 |};
        nParExposedDofs_ := (tr1 - tr0)%Z;
        ExposedPart_ := E2;
        TExposedPart_ := T1 |}.

(** A one-rank environment whose merged matrix has one nonzero, in
    column 5, while the only column range is [0, 3). *)
Definition fec_none : FiniteElementCollection :=
  {| DofForGeometry := fun _ => 0%Z;
     HasFaceDofs := fun _ => false;
     DofOrderForOrientation := fun _ _ => [] |}.

Definition mesh_empty : Mesh :=
  {| Dimension := 2%Z; GetNV := 0%Z; GetNEdges := 0%Z; GetNE := 0%Z;
     GetElementBaseGeometry := fun _ => TRIANGLE;
     GetFaceBaseGeometry := fun _ => SEGMENT;
     GetElementVertices := fun _ => [];
     GetElementEdges := fun _ => ([], []);
     GetElementFaces := fun _ => ([], []) |}.

Definition fes_empty : FiniteElementSpace :=
  {| GetMesh := mesh_empty; FEColl := fec_none; GetNDofs := 3%Z;
     fes_GetElementDofs := fun _ => [];
     GetElementInteriorDofs := fun _ => [] |}.

Definition env_stray_column : ParEnv Z :=
  {| numProcs := 1%Z; myRank := 0%Z;
     allExposed := fun _ => 3%Z;
     DoFPart := [0; 3]%Z;
     TDoFPart := [0; 3]%Z;
     csr_P := {| hypre_CSRMatrixNumNonzeros := 1%Z;
                 hypre_CSRMatrixI := [0; 1; 1; 1]%Z;
                 hypre_CSRMatrixJ := [5]%Z;
                 hypre_CSRMatrixData := [1]%Z |} |}.

(** The same environment with its nonzero in column -2, below the only
    column range. *)
Definition env_low_column : ParEnv Z :=
  {| numProcs := 1%Z; myRank := 0%Z;
     allExposed := fun _ => 3%Z;
     DoFPart := [0; 3]%Z;
     TDoFPart := [0; 3]%Z;
     csr_P := {| hypre_CSRMatrixNumNonzeros := 1%Z;
                 hypre_CSRMatrixI := [0; 1; 1; 1]%Z;
                 hypre_CSRMatrixJ := [-2]%Z;
                 hypre_CSRMatrixData := [1]%Z |} |}.

(** Element [e] owns the global dof [g]: counted from the first private
    dof (the exposed dofs come first, [nExposedDofs_] of them), [g] lies
    in the private range [priOffset[e], priOffset[e+1]) of [e]. *)
Definition owns_private (d : EPDoFs) (po : list Z) (e : nat) (g : Z) : Prop :=
  (Z.of_nat e < GetNElements d)%Z /\
  exists lo hi, po !! e = Some lo /\ po !! S e = Some hi /\
                (lo <= g - nExposedDofs_ d < hi)%Z.

(** A space on a mesh of two triangles and a square between them, with
    one dof per vertex, one interior dof per triangle and four per
    square: 3 elements, 5 exposed and 6 private dofs, 11 in all. *)
Definition fec_interior : FiniteElementCollection :=
  {| DofForGeometry := fun g =>
       match g with
       | POINT => 1 | SEGMENT => 0 | TRIANGLE => 1 | SQUARE => 4 | _ => 0
       end%Z;
     HasFaceDofs := fun _ => false;
     DofOrderForOrientation := fun _ _ => [] |}.

Definition mesh_three : Mesh :=
  {| Dimension := 2%Z; GetNV := 5%Z; GetNEdges := 7%Z; GetNE := 3%Z;
     GetElementBaseGeometry := fun i => if bool_decide (i = 1)%Z then SQUARE else TRIANGLE;
     GetFaceBaseGeometry := fun _ => SEGMENT;
     GetElementVertices := fun i =>
       if bool_decide (i = 0)%Z then [0; 1; 2]%Z
       else if bool_decide (i = 1)%Z then [1; 3; 4; 2]%Z else [0; 2; 4]%Z;
     GetElementEdges := fun _ => ([], []);
     GetElementFaces := fun _ => ([], []) |}.

Definition fes_three : FiniteElementSpace :=
  {| GetMesh := mesh_three; FEColl := fec_interior; GetNDofs := 11%Z;
     fes_GetElementDofs := fun i =>
       if bool_decide (i = 0)%Z then [0; 1; 2; 5]%Z
       else if bool_decide (i = 1)%Z then [1; 3; 4; 2; 6; 7; 8; 9]%Z
       else [0; 2; 4; 10]%Z;
     GetElementInteriorDofs := fun i =>
       if bool_decide (i = 0)%Z then [5]%Z
       else if bool_decide (i = 1)%Z then [6; 7; 8; 9]%Z else [10]%Z |}.

(** ** EPField *)

(** Modelled from the spec: [new Vector(n)], a "dense vector of length"
    n (linalg/vector.hpp is not under src/): [n] doubles that are not
    initialised; [junk] is what the memory happens to hold. *)
Definition Vector_new {R} (n : Z) (junk : nat -> R) : list R :=
  map junk (seq 0 (Z.to_nat n)).

Record EPField (R : Type) := {
  numFields_ : nat;
  (** the object [epdofs_] points to *)
  epdofs_ : EPDoFs;
  ExposedDoFs_ : option (list (list R));
  PrivateDoFs_ : option (list (list R))
}.
Arguments numFields_ {R} _.
Arguments epdofs_ {R} _.
Arguments ExposedDoFs_ {R} _.
Arguments PrivateDoFs_ {R} _.

(** [EPField::EPField(ParEPDoFs &)] (ep.cpp 263-268). *)
Definition EPField_new {R} (epdofs : EPDoFs) : EPField R :=
  {| numFields_ := 0; epdofs_ := epdofs;
     ExposedDoFs_ := None; PrivateDoFs_ := None |}.

(** [EPField::initVectors(num)] (ep.cpp 284-296); [junkE i] and
    [junkP i] are the contents of the memory the vectors of field [i]
    are given. *)
Definition EPField_initVectors {R} (this : EPField R) (num : nat)
    (junkE junkP : nat -> nat -> R) : EPField R :=
  {| numFields_ := num;
     epdofs_ := epdofs_ this;
     ExposedDoFs_ :=
       Some (map (fun i => Vector_new (GetNExposedDofs (epdofs_ this)) (junkE i))
                 (seq 0 num));
     PrivateDoFs_ :=
       Some (map (fun i => Vector_new (GetNPrivateDofs (epdofs_ this)) (junkP i))
                 (seq 0 num)) |}.

(** The loop over the exposed local dofs of one element
    (ep.cpp 354-359). *)
Definition copyExposed {R} (x : list R) (allDoFs expDoFs : list Z)
    (xE : list R) : result (list R) :=
  for_upto (length expDoFs)
    (fun j xE0 =>
       a ← aget allDoFs (Z.of_nat j);
       e ← aget expDoFs (Z.of_nat j);
       if bool_decide (a >= 0)%Z
       then v ← aget x a; aset xE0 e v
       else v ← aget x (1 - a)%Z; aset xE0 (1 - e)%Z v)
    xE.

(** The loop over the private dofs of one element (ep.cpp 361-363). *)
Definition copyPrivate {R} (x : list R) (priDoFs : list Z)
    (priOffset nPri : Z) (xP : list R) : result (list R) :=
  for_upto (Z.to_nat nPri)
    (fun j xP0 =>
       p ← aget priDoFs (Z.of_nat j);
       v ← aget x p;
       aset xP0 (priOffset + Z.of_nat j)%Z v)
    xP.

(** [EPField::initFromInterleavedVector(x)] (ep.cpp 327-365). *)
Definition initFromInterleavedVector {R} (this : EPField R) (x : list R)
    (junkE junkP : nat -> nat -> R) : result (EPField R) :=
  let this1 := EPField_initVectors this 1 junkE junkP in
  let fes := fes_ (epdofs_ this1) in
  xE ← (E ← deref (ExposedDoFs_ this1); aget E 0%Z);
  xP ← (P ← deref (PrivateDoFs_ this1); aget P 0%Z);
  '(epdofs, _, xE, xP) ←
    for_upto (Z.to_nat (fes_GetNE fes))
      (fun i '(epdofs, expDoFs, xE, xP) =>
         let allDoFs := fes_GetElementDofs fes (Z.of_nat i) in
         let priDoFs := GetElementInteriorDofs fes (Z.of_nat i) in
         '(epdofs, expDoFs, priOffset, nPri) ←
            GetElementDofsPri epdofs (Z.of_nat i) expDoFs;
         xE ← copyExposed x allDoFs expDoFs xE;
         xP ← copyPrivate x priDoFs priOffset nPri xP;
         Ok (epdofs, expDoFs, xE, xP))
      (epdofs_ this1, [], xE, xP);
  Ok {| numFields_ := numFields_ this1;
        epdofs_ := epdofs;
        ExposedDoFs_ := Some [xE];
        PrivateDoFs_ := Some [xP] |}.

(** The true id and the sign of a sign-tagged id: a negative id [i]
    stands for "id [-1 - i], negated". *)
Definition decode_id (i : Z) : Z := if bool_decide (i < 0)%Z then (-1 - i)%Z else i.
Definition is_negated (i : Z) : bool := bool_decide (i < 0)%Z.

(** Modelled from the spec: the inverse of [initFromInterleavedVector]
    ("Inverse operation reconstructs the interleaved vector"), whose code
    is not under src/.  For each element, the value of each exposed
    local dof is copied back from [exposed[expDoFs[j]]] to
    [x[allDoFs[j]]] (negated if sign-tagged) and the private values are
    copied back from [private[priOffset + j]] to [x[priDoFs[j]]]. *)
Definition toInterleavedVector {R} `{!Scalar R} (this : EPField R)
    (x0 : list R) : result (list R) :=
  let fes := fes_ (epdofs_ this) in
  xE ← (E ← deref (ExposedDoFs_ this); aget E 0%Z);
  xP ← (P ← deref (PrivateDoFs_ this); aget P 0%Z);
  '(_, _, x) ←
    for_upto (Z.to_nat (fes_GetNE fes))
      (fun i '(epdofs, expDoFs, x) =>
         let allDoFs := fes_GetElementDofs fes (Z.of_nat i) in
         let priDoFs := GetElementInteriorDofs fes (Z.of_nat i) in
         '(epdofs, expDoFs, priOffset, nPri) ←
            GetElementDofsPri epdofs (Z.of_nat i) expDoFs;
         x ← for_upto (length expDoFs)
               (fun j x0 =>
                  a ← aget allDoFs (Z.of_nat j);
                  e ← aget expDoFs (Z.of_nat j);
                  v ← aget xE (decode_id e);
                  aset x0 (decode_id a) (if is_negated e then (- v)%S else v))
               x;
         x ← for_upto (Z.to_nat nPri)
               (fun j x0 =>
                  p ← aget priDoFs (Z.of_nat j);
                  v ← aget xP (priOffset + Z.of_nat j)%Z;
                  aset x0 p v)
               x;
         Ok (epdofs, expDoFs, x))
      (epdofs_ this, [], x0);
  Ok x.

(** One triangle carrying one dof on each of its three edges and none
    elsewhere (a lowest-order edge element); its first edge runs against
    the direction of the element, so the id of its dof is sign-tagged:
    the element's ids are -1, 1, 2. *)
Definition fec_edge : FiniteElementCollection :=
  {| DofForGeometry := fun g => match g with SEGMENT => 1 | _ => 0 end%Z;
     HasFaceDofs := fun _ => false;
     DofOrderForOrientation := fun _ o => if bool_decide (o < 0)%Z then [-1]%Z else [0]%Z |}.

Definition mesh_triangle : Mesh :=
  {| Dimension := 2%Z; GetNV := 3%Z; GetNEdges := 3%Z; GetNE := 1%Z;
     GetElementBaseGeometry := fun _ => TRIANGLE;
     GetFaceBaseGeometry := fun _ => SEGMENT;
     GetElementVertices := fun _ => [0; 1; 2]%Z;
     GetElementEdges := fun _ => ([0; 1; 2]%Z, [-1; 1; 1]%Z);
     GetElementFaces := fun _ => ([], []) |}.

Definition fes_edge : FiniteElementSpace :=
  {| GetMesh := mesh_triangle; FEColl := fec_edge; GetNDofs := 3%Z;
     fes_GetElementDofs := fun _ => [-1; 1; 2]%Z;
     GetElementInteriorDofs := fun _ => [] |}.

(** ** Vectors and matrices

    Vector, DenseMatrix, DenseMatrixInverse and SparseMatrix (the "dense
    vectors", "dense sub-blocks", "cached inverses" and "global sparse"
    accumulators of the specification) are classes of linalg/, whose code
    is not under src/; what ep.cpp calls of them is modelled here.  A
    [Vector] is the list of its entries.  Products are written with the
    entries; a product whose operands do not have the sizes of the
    matrix reads or writes outside an array. *)

Section LinearAlgebra.
Context {R : Type} `{!Scalar R}.

(** Entry [i] of a vector, 0 outside. *)
Definition vnth (x : list R) (i : nat) : R := default rzero (x !! i).

(** Modelled from the spec: DenseMatrix, a "dense sub-block".  The
    entries are stored column by column: entry (i, j) of a matrix of
    height h is [data[i + j*h]].  Assemble depends on this order where
    it reads [mep.Data()] directly. *)
Record DenseMatrix := {
  dm_height : nat;
  dm_width : nat;
  dm_data : list R
}.

(** Modelled from the spec: [A(i, j)] of a DenseMatrix, as the code
    reads it (no test of i and j against the sizes). *)
Definition dm_get (A : DenseMatrix) (i j : Z) : result R :=
  aget (dm_data A) (i + j * Z.of_nat (dm_height A))%Z.

(** Entry (i, j), 0 outside the storage. *)
Definition dm_at (A : DenseMatrix) (i j : nat) : R :=
  vnth (dm_data A) (i + j * dm_height A).

(** A matrix of height h and width w whose entries are assigned column
    after column: [for (j...) for (i...) this(i,j) = f(i,j)]. *)
Definition dm_tabulate (h w : nat) (f : nat -> nat -> result R)
  : result DenseMatrix :=
  d ← for_upto w
        (fun j d0 => for_upto h (fun i d1 => v ← f i j; Ok (d1 ++ [v])) d0)
        [];
  Ok {| dm_height := h; dm_width := w; dm_data := d |}.

(** Modelled from the spec: [this->CopyMN(A, m, n, Aro, Aco)], with
    which Assemble "splits rows/cols" of the element matrix: the m x n
    block of A whose first entry is A(Aro, Aco). *)
Definition DenseMatrix_CopyMN (A : DenseMatrix) (m n Aro Aco : Z)
  : result DenseMatrix :=
  dm_tabulate (Z.to_nat m) (Z.to_nat n)
    (fun i j => dm_get A (Aro + Z.of_nat i) (Aco + Z.of_nat j)).

Definition dm_sized (A : DenseMatrix) : Prop :=
  length (dm_data A) = (dm_height A * dm_width A)%nat.

#[export] Instance dm_sized_dec A : Decision (dm_sized A).
Proof. unfold dm_sized. apply _. Defined.

(** Modelled from the spec: [A.Mult(x, y)] of a DenseMatrix, y = A x,
    for [x] an array of [width] entries. *)
Definition DenseMatrix_Mult (A : DenseMatrix) (x : list R) : result (list R) :=
  if bool_decide (dm_sized A /\ length x = dm_width A)
  then Ok (map (fun i => rsum (dm_width A) (fun j => (dm_at A i j * vnth x j)%S))
               (seq 0 (dm_height A)))
  else Fail OutOfBounds.

(** Modelled from the spec: [A += B] on DenseMatrix ([mrr += mee]),
    over the entries of [A]. *)
Definition DenseMatrix_add (A B : DenseMatrix) : result DenseMatrix :=
  dm_tabulate (dm_height A) (dm_width A)
    (fun i j => a ← dm_get A (Z.of_nat i) (Z.of_nat j);
                b ← dm_get B (Z.of_nat i) (Z.of_nat j);
                Ok (a + b)%S).

(** The [n] entries of [v] from index [off] on (a Vector set up with
    [SetDataAndSize(&v[off], n)], or a pointer into [v]). *)
Definition view (v : list R) (off : Z) (n : nat) : result (list R) :=
  for_upto n (fun k acc => a ← aget v (off + Z.of_nat k)%Z; Ok (acc ++ [a])) [].

(** Writing the entries of [w] into [v] from index [off] on. *)
Definition store (v : list R) (off : Z) (w : list R) : result (list R) :=
  for_upto (length w)
    (fun k v0 => a ← aget w (Z.of_nat k); aset v0 (off + Z.of_nat k)%Z a) v.

(** Modelled from the spec: SparseMatrix, a "global sparse" matrix that
    element blocks are accumulated into; it is known by its entries. *)
Record SparseMatrix := {
  sm_height : nat;
  sm_width : nat;
  sm_elem : nat -> nat -> R;
  sm_finalized : bool
}.

(** Modelled from the spec: [new SparseMatrix(nrows, ncols)], no entry
    yet. *)
Definition SparseMatrix_new (nrows ncols : Z) : SparseMatrix :=
  {| sm_height := Z.to_nat nrows; sm_width := Z.to_nat ncols;
     sm_elem := fun _ _ => rzero; sm_finalized := false |}.

(** Modelled from the spec: [A.Add(i, j, a)] of a SparseMatrix, entry
    (i, j) grows by [a]. *)
Definition SparseMatrix_Add (A : SparseMatrix) (i j : Z) (a : R)
  : result SparseMatrix :=
  if bool_decide ((0 <= i < Z.of_nat (sm_height A))%Z /\
                  (0 <= j < Z.of_nat (sm_width A))%Z)
  then Ok {| sm_height := sm_height A; sm_width := sm_width A;
             sm_elem := fun r c =>
               if bool_decide (r = Z.to_nat i /\ c = Z.to_nat j)
               then (sm_elem A r c + a)%S else sm_elem A r c;
             sm_finalized := sm_finalized A |}
  else Fail OutOfBounds.

(** Modelled from the spec: [A.AddSubMatrix(rows, cols, subm)], the
    dense block is accumulated at the rows and columns given by the two
    id arrays, "sign applied": a negative id [i] stands for [-1 - i] and
    flips the sign of the entry; entries that are zero are skipped. *)
Definition SparseMatrix_AddSubMatrix (A : SparseMatrix)
    (rows cols : list Z) (subm : DenseMatrix) : result SparseMatrix :=
  for_upto (length rows)
    (fun i A0 =>
       gi0 ← aget rows (Z.of_nat i);
       let '(gi, s) :=
         if bool_decide (gi0 < 0)%Z then ((-1 - gi0)%Z, false) else (gi0, true) in
       for_upto (length cols)
         (fun j A1 =>
            gj0 ← aget cols (Z.of_nat j);
            let '(gj, t) :=
              if bool_decide (gj0 < 0)%Z then ((-1 - gj0)%Z, negb s) else (gj0, s) in
            a ← dm_get subm (Z.of_nat i) (Z.of_nat j);
            if bool_decide (a = rzero) then Ok A1
            else SparseMatrix_Add A1 gi gj (if t then a else (- a)%S))
         A0)
    A.

(** Modelled from the spec: [A.Finalize()], which closes the
    accumulation and leaves the entries as they are. *)
Definition SparseMatrix_Finalize (A : SparseMatrix) : SparseMatrix :=
  {| sm_height := sm_height A; sm_width := sm_width A;
     sm_elem := sm_elem A; sm_finalized := true |}.

(** [(A x)_i] and [(A^t x)_j]. *)
Definition sm_row_dot (A : SparseMatrix) (x : list R) (i : nat) : R :=
  rsum (sm_width A) (fun j => (sm_elem A i j * vnth x j)%S).
Definition sm_col_dot (A : SparseMatrix) (x : list R) (j : nat) : R :=
  rsum (sm_height A) (fun i => (sm_elem A i j * vnth x i)%S).

(** Modelled from the spec: [A.Mult(x, y)] of a SparseMatrix, y = A x. *)
Definition SparseMatrix_Mult (A : SparseMatrix) (x y : list R)
  : result (list R) :=
  if bool_decide (length x = sm_width A /\ length y = sm_height A)
  then Ok (map (sm_row_dot A x) (seq 0 (sm_height A)))
  else Fail OutOfBounds.

(** Modelled from the spec: [A.AddMult(x, y, a)] of a SparseMatrix,
    y += a * (A x). *)
Definition SparseMatrix_AddMult (A : SparseMatrix) (x y : list R) (a : R)
  : result (list R) :=
  if bool_decide (length x = sm_width A /\ length y = sm_height A)
  then Ok (imap (fun i yi => (yi + a * sm_row_dot A x i)%S) y)
  else Fail OutOfBounds.

(** Modelled from the spec: [A.AddMultTranspose(x, y, a)] of a
    SparseMatrix, y += a * (A^t x). *)
Definition SparseMatrix_AddMultTranspose (A : SparseMatrix) (x y : list R)
    (a : R) : result (list R) :=
  if bool_decide (length x = sm_height A /\ length y = sm_width A)
  then Ok (imap (fun j yj => (yj + a * sm_col_dot A x j)%S) y)
  else Fail OutOfBounds.

(** Modelled from the spec: [v.Set(a, x)] of a Vector, v = a * x, over
    the entries of [v]. *)
Definition Vector_Set (v : list R) (a : R) (x : list R) : result (list R) :=
  if bool_decide (length v <= length x)%nat
  then Ok (imap (fun i _ => (a * vnth x i)%S) v)
  else Fail OutOfBounds.

End LinearAlgebra.

Arguments DenseMatrix R : clear implicits.
Arguments SparseMatrix R : clear implicits.

(** ** EPField accessors *)

Section FieldAccess.
Context {R : Type}.

(** [ExposedDoFs(i) const] and [PrivateDoFs(i) const]
    (ep.cpp 367-383, 398-414): NULL, after a message on [cerr], for a
    field index that is too large or when the vectors have not been
    allocated. *)
Definition ExposedDoFs_const (this : EPField R) (i : nat) : option (list R) :=
  if bool_decide (numFields_ this <= i)%nat then None
  else match ExposedDoFs_ this with
       | None => None
       | Some E => E !! i
       end.

Definition PrivateDoFs_const (this : EPField R) (i : nat) : option (list R) :=
  if bool_decide (numFields_ this <= i)%nat then None
  else match PrivateDoFs_ this with
       | None => None
       | Some P => P !! i
       end.

(** The default argument of [initVectors], declared in ep.hpp (not
    under src/), and the contents of the memory a lazily allocated
    vector is given. *)
Variable default_num : nat.
Variable junkE junkP : nat -> nat -> R.

(** [ExposedDoFs(i)] and [PrivateDoFs(i)] (ep.cpp 385-396, 416-427):
    the vectors are allocated first when they have not been. *)
Definition ExposedDoFs (this : EPField R) (i : nat)
  : EPField R * option (list R) :=
  let this1 :=
    match ExposedDoFs_ this with
    | None => EPField_initVectors this default_num junkE junkP
    | Some _ => this
    end in
  if bool_decide (numFields_ this1 <= i)%nat then (this1, None)
  else (this1, E ← ExposedDoFs_ this1; E !! i).

Definition PrivateDoFs (this : EPField R) (i : nat)
  : EPField R * option (list R) :=
  let this1 :=
    match PrivateDoFs_ this with
    | None => EPField_initVectors this default_num junkE junkP
    | Some _ => this
    end in
  if bool_decide (numFields_ this1 <= i)%nat then (this1, None)
  else (this1, P ← PrivateDoFs_ this1; P !! i).

(** Assigning through the pointer an accessor returned. *)
Definition set_Exposed (this : EPField R) (i : nat) (v : list R) : EPField R :=
  {| numFields_ := numFields_ this; epdofs_ := epdofs_ this;
     ExposedDoFs_ := (fun E => <[i := v]> E) <$> ExposedDoFs_ this;
     PrivateDoFs_ := PrivateDoFs_ this |}.

Definition set_Private (this : EPField R) (i : nat) (v : list R) : EPField R :=
  {| numFields_ := numFields_ this; epdofs_ := epdofs_ this;
     ExposedDoFs_ := ExposedDoFs_ this;
     PrivateDoFs_ := (fun P => <[i := v]> P) <$> PrivateDoFs_ this |}.

End FieldAccess.

(** ** EPMatrix *)

(** The pointers [epdofsL_] and [epdofsR_] point to one object or to
    two; [epdofsL_ == epdofsR_] tells which. *)
Inductive DofPair : Type :=
  | SameDofs (d : EPDoFs)
  | TwoDofs (l r : EPDoFs).

Definition same_dofs (p : DofPair) : bool :=
  match p with SameDofs _ => true | TwoDofs _ _ => false end.
Definition dofsL (p : DofPair) : EPDoFs :=
  match p with SameDofs d => d | TwoDofs l _ => l end.
Definition dofsR (p : DofPair) : EPDoFs :=
  match p with SameDofs d => d | TwoDofs _ r => r end.
Definition setL (p : DofPair) (d : EPDoFs) : DofPair :=
  match p with SameDofs _ => SameDofs d | TwoDofs _ r => TwoDofs d r end.
Definition setR (p : DofPair) (d : EPDoFs) : DofPair :=
  match p with SameDofs _ => SameDofs d | TwoDofs l _ => TwoDofs l d end.

Section Condensation.
Context {R : Type} `{!Scalar R}.

(** Modelled from the spec: DenseMatrixInverse, the "cached inverse" of
    a private block: the size of the matrix it was made from and the
    matrix of the inverse operator. *)
Record DenseMatrixInverse := {
  inv_size : nat;
  inv_matrix : DenseMatrix R
}.

(** What stands for the factorisation: the matrix that [A.Inverse()]
    applies. *)
Variable Inverse : DenseMatrix R -> DenseMatrix R.

(** Modelled from the spec: [A.Inverse()]; [Size()] of the result is
    the width of [A]. *)
Definition DenseMatrix_Inverse (A : DenseMatrix R) : DenseMatrixInverse :=
  {| inv_size := dm_width A; inv_matrix := Inverse A |}.

(** Modelled from the spec: [inv.Mult(x, y)] of a DenseMatrixInverse,
    y = A^-1 x. *)
Definition DenseMatrixInverse_Mult (inv : DenseMatrixInverse) (x : list R)
  : result (list R) :=
  if bool_decide (dm_height (inv_matrix inv) = inv_size inv /\
                  dm_width (inv_matrix inv) = inv_size inv)
  then DenseMatrix_Mult (inv_matrix inv) x
  else Fail OutOfBounds.

Record EPMatrix := {
  (** the object or objects [epdofsL_] and [epdofsR_] point to, in the
      state the calls made through the two pointers have left them *)
  epdofs : DofPair;
  (** [bfi_->AssembleElementMatrix(fe, eltrans, elmat)] for element i *)
  bfi_ : Z -> DenseMatrix R;
  Mee_ : option (SparseMatrix R);
  Mep_ : option (SparseMatrix R);
  Mpe_ : option (SparseMatrix R);
  Mrr_ : option (SparseMatrix R);
  Mpp_ : option (list (DenseMatrix R));
  MppInv_ : option (list DenseMatrixInverse);
  reducedRHS_ : option (list R);
  vecp_ : option (list R)
}.

(** [EPMatrix::EPMatrix(epdofsL, epdofsR, bfi)] (ep.cpp 621-634). *)
Definition EPMatrix_new (p : DofPair) (bfi : Z -> DenseMatrix R) : EPMatrix :=
  {| epdofs := p; bfi_ := bfi;
     Mee_ := None; Mep_ := None; Mpe_ := None; Mrr_ := None;
     Mpp_ := None; MppInv_ := None; reducedRHS_ := None; vecp_ := None |}.

(** What the loop of Assemble carries from one element to the next. *)
Record AsmState := {
  as_dofs : DofPair;
  as_expL : list Z;
  as_expR : list Z;
  as_Mee : SparseMatrix R;
  as_Mep : SparseMatrix R;
  as_Mpe : option (SparseMatrix R);
  as_Mrr : SparseMatrix R;
  as_Mpp : list (DenseMatrix R);
  as_MppInv : option (list DenseMatrixInverse);
  as_mrr : DenseMatrix R
}.

(** [for (ii...) for (jj...) M->Add(row(ii, jj), col(ii, jj), m(ii, jj))]. *)
Definition add_entries (M : SparseMatrix R) (m : DenseMatrix R) (n1 n2 : nat)
    (row col : nat -> nat -> result Z) : result (SparseMatrix R) :=
  for_upto n1
    (fun ii M0 =>
       for_upto n2
         (fun jj M1 =>
            r ← row ii jj;
            c ← col ii jj;
            a ← dm_get m (Z.of_nat ii) (Z.of_nat jj);
            SparseMatrix_Add M1 r c a)
         M0)
    M.

(** The block [if (MppInv_ != NULL)] of Assemble (ep.cpp 721-739),
    after [MppInv_[i]] has been set: column jj of [mrr] is
    [-(mep * (MppInv * vcMpe))], where [vcMpe] is the run of
    [MppInv->Size()] entries of [mep.Data()] that starts at
    [jj * nPriR]. *)
Definition reduce_columns (inv : DenseMatrixInverse) (mep : DenseMatrix R)
    (nL nR : nat) (nPriR : Z) : result (DenseMatrix R) :=
  d ← for_upto nR
        (fun jj d0 =>
           vcMpe ← view (dm_data mep) (Z.of_nat jj * nPriR)%Z (inv_size inv);
           vpR ← DenseMatrixInverse_Mult inv vcMpe;
           veL ← DenseMatrix_Mult mep vpR;
           for_upto nL
             (fun ii d1 => v ← aget veL (Z.of_nat ii); Ok (d1 ++ [(- v)%S]))
             d0)
        [];
  Ok {| dm_height := nL; dm_width := nR; dm_data := d |}.

(** The body of the loop over the elements (ep.cpp 691-743). *)
Definition Assemble_element (bfi : Z -> DenseMatrix R) (i : nat)
    (st : AsmState) : result AsmState :=
  let elmat := bfi (Z.of_nat i) in
  '(dL, expDoFsL, priOffsetL, nPriL) ←
     GetElementDofsPri (dofsL (as_dofs st)) (Z.of_nat i) (as_expL st);
  let p1 := setL (as_dofs st) dL in
  '(dR, expDoFsR, priOffsetR, nPriR) ←
     GetElementDofsPri (dofsR p1) (Z.of_nat i) (as_expR st);
  let p2 := setR p1 dR in
  let nL := length expDoFsL in
  let nR := length expDoFsR in
  mee ← DenseMatrix_CopyMN elmat (Z.of_nat nL) (Z.of_nat nR) 0 0;
  Mee ← SparseMatrix_AddSubMatrix (as_Mee st) expDoFsL expDoFsR mee;
  mep ← DenseMatrix_CopyMN elmat (Z.of_nat nL) nPriR 0 (Z.of_nat nR);
  Mep ← add_entries (as_Mep st) mep nL (Z.to_nat nPriR)
          (fun ii _ => aget expDoFsL (Z.of_nat ii))
          (fun _ jj => Ok (priOffsetR + Z.of_nat jj)%Z);
  Mpe ←
    match as_Mpe st with
    | Some Mpe0 =>
      mpe ← DenseMatrix_CopyMN elmat nPriL (Z.of_nat nR) (Z.of_nat nL) 0;
      Some <$> add_entries Mpe0 mpe (Z.to_nat nPriL) nR
                 (fun _ jj => Ok (priOffsetR + Z.of_nat jj)%Z)
                 (fun ii _ => aget expDoFsR (Z.of_nat ii))
    | None => Ok None
    end;
  mpp ← DenseMatrix_CopyMN elmat nPriL nPriR (Z.of_nat nL) (Z.of_nat nR);
  '(MppInv, mrr) ←
    match as_MppInv st with
    | Some invs =>
      let inv := DenseMatrix_Inverse mpp in
      mrr ← reduce_columns inv mep nL nR nPriR;
      Ok (Some (invs ++ [inv]), mrr)
    | None => Ok (None, as_mrr st)
    end;
  mrr ← DenseMatrix_add mrr mee;
  Mrr ← SparseMatrix_AddSubMatrix (as_Mrr st) expDoFsL expDoFsR mrr;
  Ok {| as_dofs := p2; as_expL := expDoFsL; as_expR := expDoFsR;
        as_Mee := Mee; as_Mep := Mep; as_Mpe := Mpe; as_Mrr := Mrr;
        as_Mpp := as_Mpp st ++ [mpp]; as_MppInv := MppInv; as_mrr := mrr |}.

(** [EPMatrix::Assemble()] (ep.cpp 655-748).  [junkR] and [junkP] are
    what the memory of the two work vectors holds.  The arrays [Mpp_]
    and [MppInv_] are filled element after element. *)
Definition Assemble (this : EPMatrix) (junkR junkP : nat -> R)
  : result EPMatrix :=
  let p := epdofs this in
  let L := dofsL p in
  let Rt := dofsR p in
  let same := same_dofs p in
  let st0 :=
    {| as_dofs := p; as_expL := []; as_expR := [];
       as_Mee := SparseMatrix_new (GetNExposedDofs L) (GetNExposedDofs Rt);
       as_Mep := SparseMatrix_new (GetNExposedDofs L) (GetNPrivateDofs Rt);
       as_Mpe := if same then None
                 else Some (SparseMatrix_new (GetNPrivateDofs L) (GetNExposedDofs Rt));
       as_Mrr := SparseMatrix_new (GetNExposedDofs L) (GetNExposedDofs Rt);
       as_Mpp := [];
       as_MppInv := if same then Some [] else None;
       as_mrr := {| dm_height := 0; dm_width := 0; dm_data := [] |} |} in
  st ← for_upto (Z.to_nat (GetNElements Rt)) (Assemble_element (bfi_ this)) st0;
  Ok {| epdofs := as_dofs st; bfi_ := bfi_ this;
        Mee_ := Some (SparseMatrix_Finalize (as_Mee st));
        Mep_ := Some (SparseMatrix_Finalize (as_Mep st));
        Mpe_ := SparseMatrix_Finalize <$> as_Mpe st;
        Mrr_ := Some (SparseMatrix_Finalize (as_Mrr st));
        Mpp_ := Some (as_Mpp st);
        MppInv_ := as_MppInv st;
        reducedRHS_ := if same then Some (Vector_new (GetNExposedDofs Rt) junkR)
                       else reducedRHS_ this;
        vecp_ := if same then Some (Vector_new (GetNPrivateDofs Rt) junkP)
                 else vecp_ this |}.

(** The default arguments of [initVectors(num)] and of
    [ExposedDoFs(i)], declared in ep.hpp (not under src/), and the
    memory given to lazily allocated vectors. *)
Variable default_num : nat.
Variable default_field : nat.
Variable junkE junkP : nat -> nat -> R.

(** [EPMatrix::Mult(const EPField & x, EPField & y)] (ep.cpp 750-769);
    [x] and [y] are two objects. *)
Definition EPMatrix_Mult (this : EPMatrix) (x y : EPField R)
  : result (EPField R) :=
  (* Mee_->Mult of x.ExposedDoFs(0) into y.ExposedDoFs(0) *)
  xE ← deref (ExposedDoFs_const x 0);
  let '(y, pyE) := ExposedDoFs default_num junkE junkP y 0 in
  yE ← deref pyE;
  Mee ← deref (Mee_ this);
  yE ← SparseMatrix_Mult Mee xE yE;
  let y := set_Exposed y 0 yE in
  (* Mep_->AddMult of x.PrivateDoFs(0) into y.ExposedDoFs(0) *)
  xP ← deref (PrivateDoFs_const x 0);
  let '(y, pyE) := ExposedDoFs default_num junkE junkP y 0 in
  yE ← deref pyE;
  Mep ← deref (Mep_ this);
  yE ← SparseMatrix_AddMult Mep xP yE rone;
  let y := set_Exposed y 0 yE in
  let nElems := GetNElements (dofsR (epdofs this)) in
  let priOffR := GetPrivateOffsets (dofsR (epdofs this)) in
  let priOffL := GetPrivateOffsets (dofsL (epdofs this)) in
  y ← for_upto (Z.to_nat nElems)
        (fun i y =>
           Mpps ← deref (Mpp_ this);
           Mpp ← aget Mpps (Z.of_nat i);
           xP ← deref (PrivateDoFs_const x 0);
           poL ← deref priOffL;
           oL ← aget poL (Z.of_nat i);
           let '(y, pyP) := PrivateDoFs default_num junkE junkP y 0 in
           yP ← deref pyP;
           poR ← deref priOffR;
           oR ← aget poR (Z.of_nat i);
           xi ← view xP oL (dm_width Mpp);
           yi ← DenseMatrix_Mult Mpp xi;
           yP ← store yP oR yi;
           Ok (set_Private y 0 yP))
        y;
  xE ← deref (ExposedDoFs_const x 0);
  let '(y, pyP) := PrivateDoFs default_num junkE junkP y 0 in
  yP ← deref pyP;
  match Mpe_ this with
  | Some Mpe =>
    yP ← SparseMatrix_AddMult Mpe xE yP rone;
    Ok (set_Private y 0 yP)
  | None =>
    Mep ← deref (Mep_ this);
    yP ← SparseMatrix_AddMultTranspose Mep xE yP rone;
    Ok (set_Private y 0 yP)
  end.

(** [EPMatrix::ReducedRHS(const EPField & x)] (ep.cpp 777-799); the
    object with its two work vectors as the call leaves them, and the
    vector the returned pointer points to. *)
Definition EPMatrix_ReducedRHS (this : EPMatrix) (x : EPField R)
  : result (EPMatrix * list R) :=
  let nElems := GetNElements (dofsR (epdofs this)) in
  let priOffR := GetPrivateOffsets (dofsR (epdofs this)) in
  let priOffL := GetPrivateOffsets (dofsL (epdofs this)) in
  vecp ← for_upto (Z.to_nat nElems)
        (fun i (vecp : option (list R)) =>
           invs ← deref (MppInv_ this);
           inv ← aget invs (Z.of_nat i);
           let size := inv_size inv in
           xP ← deref (PrivateDoFs_const x 0);
           poL ← deref priOffL;
           oL ← aget poL (Z.of_nat i);
           v1 ← view xP oL size;
           vp ← deref vecp;
           poR ← deref priOffR;
           oR ← aget poR (Z.of_nat i);
           v2 ← DenseMatrixInverse_Mult inv v1;
           vp ← store vp oR v2;
           Ok (Some vp))
        (vecp_ this);
  rr ← deref (reducedRHS_ this);
  xE ← deref (ExposedDoFs_const x default_field);
  rr ← Vector_Set rr rone xE;
  Mep ← deref (Mep_ this);
  vp ← deref vecp;
  rr ← SparseMatrix_AddMult Mep vp rr (- rone)%S;
  Ok ({| epdofs := epdofs this; bfi_ := bfi_ this;
         Mee_ := Mee_ this; Mep_ := Mep_ this; Mpe_ := Mpe_ this;
         Mrr_ := Mrr_ this; Mpp_ := Mpp_ this; MppInv_ := MppInv_ this;
         reducedRHS_ := Some rr; vecp_ := vecp |}, rr).

End Condensation.

Arguments DenseMatrixInverse R : clear implicits.
Arguments EPMatrix R : clear implicits.
Arguments AsmState R : clear implicits.

(** ** ParEPField *)

Section Distributed.
Context {R : Type} `{!Scalar R}.

(** Modelled from the spec: the exposed restriction operator [Pe] is a
    HypreParMatrix, whose code (linalg/hypre.cpp and the hypre library)
    is not under src/.  All the ranks are taken together: row i is a
    rank-local exposed dof (the ranks' exposed vectors laid end to
    end), column j a true exposed dof.  [MultTranspose] "sums every
    rank's contribution to each shared exposed dof into the
    true-exposed vector", [Mult] "redistributes the summed value back
    to every owning rank". *)
Record HypreParMatrix := {
  hp_rows : nat;
  hp_cols : nat;
  hp_entry : nat -> nat -> R
}.

(** Modelled from the spec: [Pe->Mult(x, y)], y = Pe x ("apply the
    operator forward"). *)
Definition HypreParMatrix_Mult (A : HypreParMatrix) (x y : list R)
  : result (list R) :=
  if bool_decide (length x = hp_cols A /\ length y = hp_rows A)
  then Ok (map (fun i => rsum (hp_cols A) (fun j => (hp_entry A i j * vnth x j)%S))
               (seq 0 (hp_rows A)))
  else Fail OutOfBounds.

(** Modelled from the spec: [Pe->MultTranspose(x, y)], y = Pe^t x
    ("apply exposed-restriction-operator transpose"). *)
Definition HypreParMatrix_MultTranspose (A : HypreParMatrix) (x y : list R)
  : result (list R) :=
  if bool_decide (length x = hp_rows A /\ length y = hp_cols A)
  then Ok (map (fun j => rsum (hp_rows A) (fun i => (hp_entry A i j * vnth x i)%S))
               (seq 0 (hp_cols A)))
  else Fail OutOfBounds.

(** A ParEPField whose vectors have been allocated, all ranks taken
    together: per field, the exposed vector and the true-exposed
    vector.  (On an object without vectors the accessors would
    allocate first, through [initVectors] and its default argument of
    ep.hpp.) *)
Record ParEPField := {
  par_numFields_ : nat;
  (** [pepdofs_->EDof_TrueEDof_Matrix()] *)
  EDof_TrueEDof_Matrix : HypreParMatrix;
  par_ExposedDoFs_ : list (list R);
  ParExposedDoFs_ : list (list R)
}.

(** [ParEPField::updateParExposedDoFs()] (ep.cpp 458-471). *)
Definition updateParExposedDoFs (this : ParEPField) : result ParEPField :=
  let Pe := EDof_TrueEDof_Matrix this in
  for_upto (par_numFields_ this)
    (fun i st =>
       (* Sums together contributions to shared DoFs from all ranks *)
       E ← aget (par_ExposedDoFs_ st) (Z.of_nat i);
       T ← aget (ParExposedDoFs_ st) (Z.of_nat i);
       T ← HypreParMatrix_MultTranspose Pe E T;
       let st1 :=
         {| par_numFields_ := par_numFields_ st;
            EDof_TrueEDof_Matrix := EDof_TrueEDof_Matrix st;
            par_ExposedDoFs_ := par_ExposedDoFs_ st;
            ParExposedDoFs_ := <[i := T]> (ParExposedDoFs_ st) |} in
       (* Redistributes the summed DoFs to all ranks *)
       T ← aget (ParExposedDoFs_ st1) (Z.of_nat i);
       E ← aget (par_ExposedDoFs_ st1) (Z.of_nat i);
       E ← HypreParMatrix_Mult Pe T E;
       Ok {| par_numFields_ := par_numFields_ st1;
             EDof_TrueEDof_Matrix := EDof_TrueEDof_Matrix st1;
             par_ExposedDoFs_ := <[i := E]> (par_ExposedDoFs_ st1);
             ParExposedDoFs_ := ParExposedDoFs_ st1 |})
    this.

End Distributed.

Arguments HypreParMatrix R : clear implicits.
Arguments ParEPField R : clear implicits.

(** Two ranks that share one exposed dof: rank 0 and rank 1 each hold
    one exposed value, both for the only true exposed dof. *)
Definition Pe_shared : HypreParMatrix Z :=
  {| hp_rows := 2; hp_cols := 1; hp_entry := fun _ _ => 1%Z |}.

Definition field_shared : ParEPField Z :=
  {| par_numFields_ := 1; EDof_TrueEDof_Matrix := Pe_shared;
     par_ExposedDoFs_ := [[1; 0]%Z]; ParExposedDoFs_ := [[0]%Z] |}.

(** Two exposed dofs, none shared. *)
Definition Pe_unshared : HypreParMatrix Z :=
  {| hp_rows := 2; hp_cols := 2;
     hp_entry := fun i j => if bool_decide (i = j) then 1%Z else 0%Z |}.

Definition field_unshared : ParEPField Z :=
  {| par_numFields_ := 1; EDof_TrueEDof_Matrix := Pe_unshared;
     par_ExposedDoFs_ := [[3; 4]%Z]; ParExposedDoFs_ := [[0; 0]%Z] |}.

(** ** A worked example: one quadrilateral

    Four corner dofs (exposed, ids 0..3) and one interior dof (private):
    nExposed = 4, nPrivate = 1.  The element matrix is

       4 0 0 0 | 2
       0 5 0 0 | 0
       0 0 6 0 | 1
       0 0 0 7 | 0
       --------+--
       3 0 1 0 | 1

    so that mep = (2, 0, 1, 0)^t, mpe = (3, 0, 1, 0) and mpp = (1). *)
Definition fec_quad : FiniteElementCollection :=
  {| DofForGeometry := fun g =>
       match g with POINT => 1 | SQUARE => 1 | _ => 0 end%Z;
     HasFaceDofs := fun _ => false;
     DofOrderForOrientation := fun _ _ => [] |}.

Definition mesh_quad : Mesh :=
  {| Dimension := 2%Z; GetNV := 4%Z; GetNEdges := 4%Z; GetNE := 1%Z;
     GetElementBaseGeometry := fun _ => SQUARE;
     GetFaceBaseGeometry := fun _ => SEGMENT;
     GetElementVertices := fun _ => [0; 1; 2; 3]%Z;
     GetElementEdges := fun _ => ([0; 1; 2; 3]%Z, [1; 1; 1; 1]%Z);
     GetElementFaces := fun _ => ([], []) |}.

Definition fes_quad : FiniteElementSpace :=
  {| GetMesh := mesh_quad; FEColl := fec_quad; GetNDofs := 5%Z;
     fes_GetElementDofs := fun _ => [0; 1; 2; 3; 4]%Z;
     GetElementInteriorDofs := fun _ => [4]%Z |}.

Definition elmat_quad : DenseMatrix Z :=
  {| dm_height := 5; dm_width := 5;
     dm_data := [4; 0; 0; 0; 3;
                 0; 5; 0; 0; 0;
                 0; 0; 6; 0; 1;
                 0; 0; 0; 7; 0;
                 2; 0; 1; 0; 1]%Z |}.

(** The inverse of a 1 x 1 matrix whose entry is 1 or -1 is the matrix
    itself. *)
Definition Inverse_unit (A : DenseMatrix Z) : DenseMatrix Z := A.

Definition epmatrix_quad : EPMatrix Z :=
  EPMatrix_new (SameDofs (EPDoFs_new fes_quad)) (fun _ => elmat_quad).

(** The same space on the left and on the right, as two objects. *)
Definition epmatrix_quad_two : EPMatrix Z :=
  EPMatrix_new (TwoDofs (EPDoFs_new fes_quad) (EPDoFs_new fes_quad))
               (fun _ => elmat_quad).

Definition field_quad : EPField Z :=
  {| numFields_ := 1; epdofs_ := EPDoFs_new fes_quad;
     ExposedDoFs_ := Some [[1; 2; 3; 4]%Z];
     PrivateDoFs_ := Some [[5]%Z] |}.

Definition field_quad_out : EPField Z :=
  {| numFields_ := 1; epdofs_ := EPDoFs_new fes_quad;
     ExposedDoFs_ := Some [[0; 0; 0; 0]%Z];
     PrivateDoFs_ := Some [[0]%Z] |}.

(** ** The shape of an assembled operator *)

(** The offset of the private range of element [e] when element [k]
    has [np k] private dofs. *)
Fixpoint poff (np : nat -> nat) (e : nat) : nat :=
  match e with
  | O => O
  | S e' => (poff np e' + np e')%nat
  end.

(** [po] is the private-offset table of [n] elements with [np k]
    private dofs each. *)
Definition private_layout (po : list Z) (n : nat) (np : nat -> nat) : Prop :=
  length po = S n /\
  forall e, (e <= n)%nat -> po !! e = Some (Z.of_nat (poff np e)).

Section Shape.
Context {R : Type} `{!Scalar R}.

(** A stored inverse for [n] private dofs: an n x n matrix. *)
Definition inverse_fits (inv : DenseMatrixInverse R) (n : nat) : Prop :=
  inv_size inv = n /\ dm_height (inv_matrix inv) = n /\
  dm_width (inv_matrix inv) = n /\ dm_sized (inv_matrix inv).

(** A stored private block for [n] private dofs: an n x n matrix. *)
Definition block_fits (A : DenseMatrix R) (n : nat) : Prop :=
  dm_height A = n /\ dm_width A = n /\ dm_sized A.

(** [(A^-1 x_e)_k] for the stored inverse [inv] of an element whose
    private range starts at [off]. *)
Definition inv_dot (inv : DenseMatrixInverse R) (xP : list R) (off k : nat) : R :=
  rsum (inv_size inv)
       (fun l => (dm_at (inv_matrix inv) k l * vnth xP (off + l))%S).

(** [(mpp x_e)_r] for the private block [A] of an element whose
    private range starts at [off]. *)
Definition block_dot (A : DenseMatrix R) (xP : list R) (off r : nat) : R :=
  rsum (dm_width A) (fun c => (dm_at A r c * vnth xP (off + c))%S).

End Shape.

(** The operator of the worked example, assembled. *)
Definition epmatrix_quad_assembled : EPMatrix Z :=
  match Assemble Inverse_unit epmatrix_quad (fun _ => 0%Z) (fun _ => 0%Z) with
  | Ok m => m
  | Fail _ => epmatrix_quad
  end.

(** The parts of the assembled example. *)
Definition dofs_quad_assembled : EPDoFs := dofsR (epdofs epmatrix_quad_assembled).
Definition Mee_quad : SparseMatrix Z :=
  default (SparseMatrix_new 0 0) (Mee_ epmatrix_quad_assembled).
Definition Mep_quad : SparseMatrix Z :=
  default (SparseMatrix_new 0 0) (Mep_ epmatrix_quad_assembled).
Definition Mpp_quad : list (DenseMatrix Z) :=
  default [] (Mpp_ epmatrix_quad_assembled).
Definition MppInv_quad : list (DenseMatrixInverse Z) :=
  default [] (MppInv_ epmatrix_quad_assembled).

(** ** The reduction, as the specification writes it *)

Section SchurComplement.
Context {R : Type} `{!Scalar R}.
Variable Inverse : DenseMatrix R -> DenseMatrix R.

(** The matrix of height h and width w with entries [v i j]. *)
Definition dm_of (h w : nat) (v : nat -> nat -> R) : DenseMatrix R :=
  {| dm_height := h; dm_width := w;
     dm_data := flat_map (fun j => map (fun i => v i j) (seq 0 h)) (seq 0 w) |}.

(** The four blocks of the (n + np) x (n + np) element matrix of an
    element with n exposed and np private dofs. *)
Definition block_ee (elmat : DenseMatrix R) (ii jj : nat) : R := dm_at elmat ii jj.
Definition block_ep (elmat : DenseMatrix R) (n : nat) (ii k : nat) : R :=
  dm_at elmat ii (n + k).
Definition block_pe (elmat : DenseMatrix R) (n : nat) (k jj : nat) : R :=
  dm_at elmat (n + k) jj.
Definition block_pp (elmat : DenseMatrix R) (n np : nat) : DenseMatrix R :=
  dm_of np np (fun k l => dm_at elmat (n + k) (n + l)).

(** Entry (ii, jj) of [mee - mep * mpp^-1 * X] for an np x n matrix X. *)
Definition schur_entry (elmat : DenseMatrix R) (n np : nat)
    (X : nat -> nat -> R) (ii jj : nat) : R :=
  (block_ee elmat ii jj
   - rsum np (fun k =>
       block_ep elmat n ii k
       * rsum np (fun l => dm_at (Inverse (block_pp elmat n np)) k l * X l jj)))%S.

(** The Schur complement of the claim, [mee - mep * mpp^-1 * mpe]. *)
Definition schur_complement (elmat : DenseMatrix R) (n np : nat) (ii jj : nat) : R :=
  schur_entry elmat n np (block_pe elmat n) ii jj.

(** With the transpose of [mep] in the place of [mpe]:
    [mee - mep * mpp^-1 * mep^t]. *)
Definition schur_complement_sym (elmat : DenseMatrix R) (n np : nat)
    (ii jj : nat) : R :=
  schur_entry elmat n np (fun l jj' => block_ep elmat n jj' l) ii jj.

(** With the np x n matrix that lies over the storage of [mep] (the
    entries Assemble reads): its column jj is the run of np entries of
    [mep.Data()] from [jj * np] on. *)
Definition schur_complement_run (elmat : DenseMatrix R) (n np : nat)
    (ii jj : nat) : R :=
  schur_entry elmat n np
    (fun l jj' => vnth (dm_data (dm_of n np (block_ep elmat n))) (jj' * np + l))
    ii jj.

(** A dense block [S] scattered to global position (r, c) through the
    sign-tagged id arrays [rows] and [cols]. *)
Definition scatter (rows cols : list Z) (S : nat -> nat -> R) (r c : nat) : R :=
  rsum (length rows) (fun ii =>
    rsum (length cols) (fun jj =>
      let gi := default 0%Z (rows !! ii) in
      let gj := default 0%Z (cols !! jj) in
      if bool_decide (Z.to_nat (decode_id gi) = r /\ Z.to_nat (decode_id gj) = c)
      then (if bool_decide (is_negated gi = is_negated gj)
            then S ii jj else (- S ii jj)%S)
      else rzero)).

(** The sum over the elements of the scattered blocks [S e], where
    [ids e] are the exposed ids of element e. *)
Definition sum_over_elements (ne : nat) (ids : nat -> list Z)
    (S : nat -> nat -> nat -> R) (r c : nat) : R :=
  rsum ne (fun e => scatter (ids e) (ids e) (S e) r c).

End SchurComplement.

(** ** What Assemble is run on *)

(** The exposed ids of element [e] are [ids e], whatever array the
    caller passes in. *)
Definition ids_known (d : EPDoFs) (ids : nat -> list Z) : Prop :=
  forall (e : nat) (old : list Z), (Z.of_nat e < GetNElements d)%Z ->
    GetElementDofs d (Z.of_nat e) old = Ok (d, ids e).

(** The private-offset table of the object, if it has been built, is
    the one [buildPriOffset] builds. *)
Definition priOffset_ok (d : EPDoFs) : Prop :=
  match priOffset_ d with
  | None => True
  | Some po => buildPriOffset (fes_ d) = Ok po
  end.

(** The number of private dofs of element [e]. *)
Definition numPri (d : EPDoFs) (e : nat) : nat :=
  Z.to_nat (interiorDofs (fes_ d) (Z.of_nat e)).

(** ** A second example: one segment with two private dofs

    Two end-point dofs (exposed, ids 0 and 1) and two interior dofs
    (private).  The element matrix is symmetric,

       10  0 | 1 2
        0 10 | 3 4
       ------+----
        1  3 | 1 0
        2  4 | 0 1

    so that mpe is the transpose of mep and mpp is its own inverse. *)
Definition fec_cubic : FiniteElementCollection :=
  {| DofForGeometry := fun g =>
       match g with POINT => 1 | SEGMENT => 2 | _ => 0 end%Z;
     HasFaceDofs := fun _ => false;
     DofOrderForOrientation := fun _ _ => [] |}.

Definition mesh_segment : Mesh :=
  {| Dimension := 1%Z; GetNV := 2%Z; GetNEdges := 0%Z; GetNE := 1%Z;
     GetElementBaseGeometry := fun _ => SEGMENT;
     GetFaceBaseGeometry := fun _ => POINT;
     GetElementVertices := fun _ => [0; 1]%Z;
     GetElementEdges := fun _ => ([], []);
     GetElementFaces := fun _ => ([], []) |}.

Definition fes_cubic : FiniteElementSpace :=
  {| GetMesh := mesh_segment; FEColl := fec_cubic; GetNDofs := 4%Z;
     fes_GetElementDofs := fun _ => [0; 1; 2; 3]%Z;
     GetElementInteriorDofs := fun _ => [2; 3]%Z |}.

Definition elmat_cubic : DenseMatrix Z :=
  {| dm_height := 4; dm_width := 4;
     dm_data := [10; 0; 1; 2;
                 0; 10; 3; 4;
                 1; 3; 1; 0;
                 2; 4; 0; 1]%Z |}.

Definition epmatrix_cubic : EPMatrix Z :=
  EPMatrix_new (SameDofs (EPDoFs_new fes_cubic)) (fun _ => elmat_cubic).

(** ** Notions used in the statements *)

(** The only fault an array access can produce is [OutOfBounds]. *)
Definition oob_only {A} (m : result A) : Prop :=
  match m with
  | Ok _ => True
  | Fail f => f = OutOfBounds
  end.

(** The sum of the interior dof counts of the elements before [k]. *)
Definition offset_of (fes : FiniteElementSpace) (k : nat) : Z :=
  fold_left (fun acc i => (acc + interiorDofs fes (Z.of_nat i))%Z) (seq 0 k) 0%Z.

(** Two computations end the same way: both with values related by
    [Rl], or both with the same fault. *)
Definition lock {A} (Rl : A -> A -> Prop) (m1 m2 : result A) : Prop :=
  match m1, m2 with
  | Ok a, Ok b => Rl a b
  | Fail f, Fail g => f = g
  | _, _ => False
  end.

(** Two arrays of length [L] that agree below index [m]. *)
Definition agree_upto (L : nat) (m : Z) (a a' : list Z) : Prop :=
  length a = L /\ length a' = L /\
  (forall i : nat, (Z.of_nat i < m)%Z -> a !! i = a' !! i).

(** Every dof count of the collection is non-negative. *)
Definition fec_counts_nonneg (fec : FiniteElementCollection) : Prop :=
  forall g, (0 <= DofForGeometry fec g)%Z.

(** [d'] is [d] up to its private-offset table. *)
Definition same_space (d d' : EPDoFs) : Prop :=
  fes_ d' = fes_ d /\ expDoFsByElem_ d' = expDoFsByElem_ d /\
  nExposedDofs_ d' = nExposedDofs_ d /\ nPrivateDofs_ d' = nPrivateDofs_ d.

Section TableRows.
(** [rows i] is what row [i] of the table has to hold, for [i < n]. *)
Variable n : nat.
Variable rows : nat -> list Z.

Definition row_len (k : nat) : Z := Z.of_nat (length (rows k)).

(** The offset of row [k]: the sum of the lengths of the rows before. *)
Definition row_off (k : nat) : Z :=
  fold_left (fun acc i => (acc + row_len i)%Z) (seq 0 k) 0%Z.

(** The offsets array holds [f k] at every index [k <= n]. *)
Definition I_holds (I : list Z) (f : nat -> Z) : Prop :=
  length I = S n /\ forall k, (k <= n)%nat -> I !! k = Some (f k).

(** The rows [0 .. i-1] are in place in [J]. *)
Definition J_holds (i : nat) (J : list Z) : Prop :=
  length J = Z.to_nat (row_off n) /\
  forall k q, (k < i)%nat -> (q < length (rows k))%nat ->
    J !! (Z.to_nat (row_off k) + q)%nat = rows k !! q.

End TableRows.

Section StatementNotions.
Context {R : Type} `{!Scalar R}.

(** [Pe^t x] and [Pe t], as vectors. *)
Definition PeT (A : HypreParMatrix R) (x : list R) : list R :=
  map (fun j => rsum (hp_rows A) (fun i => (hp_entry A i j * vnth x i)%S))
      (seq 0 (hp_cols A)).

Definition PeF (A : HypreParMatrix R) (t : list R) : list R :=
  map (fun i => rsum (hp_cols A) (fun j => (hp_entry A i j * vnth t j)%S))
      (seq 0 (hp_rows A)).

(** The state in which every field has vectors of the sizes of Pe. *)
Definition par_sized (s : ParEPField R) : Prop :=
  length (par_ExposedDoFs_ s) = par_numFields_ s /\
  length (ParExposedDoFs_ s) = par_numFields_ s /\
  Forall (fun E => length E = hp_rows (EDof_TrueEDof_Matrix s)) (par_ExposedDoFs_ s) /\
  Forall (fun T => length T = hp_cols (EDof_TrueEDof_Matrix s)) (ParExposedDoFs_ s).

(** One call of reduce(), in closed form. *)
Definition reduced (s : ParEPField R) : ParEPField R :=
  let Pe := EDof_TrueEDof_Matrix s in
  {| par_numFields_ := par_numFields_ s;
     EDof_TrueEDof_Matrix := Pe;
     par_ExposedDoFs_ := map (fun E => PeF Pe (PeT Pe E)) (par_ExposedDoFs_ s);
     ParExposedDoFs_ := map (PeT Pe) (par_ExposedDoFs_ s) |}.

(** A field whose vectors are there: field 0 holds [vE] and [vP]. *)
Definition field_holds (y : EPField R) (vE vP : list R) : Prop :=
  (0 < numFields_ y)%nat /\
  (exists E, ExposedDoFs_ y = Some E /\ E !! 0%nat = Some vE) /\
  (exists P, PrivateDoFs_ y = Some P /\ P !! 0%nat = Some vP).

(** What Mult adds to y.private at the end: [Mpe x.exposed], or
    [Mep^t x.exposed] when there is no [Mpe]. *)
Definition coupling (this : EPMatrix R) (Mep : SparseMatrix R) (xE : list R)
    (p : nat) : R :=
  match Mpe_ this with
  | Some Mpe => sm_row_dot Mpe xE p
  | None => sm_col_dot Mep xE p
  end.

(** The value of a computation that has one, 0 otherwise. *)
Definition value_of (m : result R) : R :=
  match m with Ok x => x | Fail _ => rzero end.

(** What local entry (ii, jj) of a block adds at global position
    (r, c). *)
Definition contribution (rows cols : list Z) (S : nat -> nat -> R)
    (r c ii jj : nat) : R :=
  let gi := default 0%Z (rows !! ii) in
  let gj := default 0%Z (cols !! jj) in
  if bool_decide (Z.to_nat (decode_id gi) = r /\ Z.to_nat (decode_id gj) = c)
  then (if bool_decide (is_negated gi = is_negated gj)
        then S ii jj else (- S ii jj)%S)
  else rzero.

(** The entries [reduce_columns] computes. *)
Definition reduced_entry (inv : DenseMatrixInverse R) (mep : DenseMatrix R)
    (np : nat) (ii jj : nat) : R :=
  (- rsum np (fun k =>
       dm_at mep ii k
       * rsum np (fun l => dm_at (inv_matrix inv) k l
                           * vnth (dm_data mep) (jj * np + l))))%S.

(** Element [e] can be assembled into global matrices with [nE] rows:
    its matrix is square, of the size of its exposed and private dofs
    together, its ids decode to rows below [nE], and, where the element
    has private dofs, no id is sign-tagged (the rows of Mep are
    addressed with the ids as they are). *)
Definition element_fits (bfi : Z -> DenseMatrix R) (d : EPDoFs)
    (ids : nat -> list Z) (nE : nat) (e : nat) : Prop :=
  let elmat := bfi (Z.of_nat e) in
  let n := length (ids e) in
  let np := numPri d e in
  dm_sized elmat /\ dm_height elmat = (n + np)%nat /\ dm_width elmat = (n + np)%nat /\
  Forall (fun g => (0 <= decode_id g < Z.of_nat nE)%Z) (ids e) /\
  ((0 < np)%nat -> Forall (fun g => (0 <= g)%Z) (ids e)).

Section WithInverse.
Variable Inverse : DenseMatrix R -> DenseMatrix R.

(** An operator as the constructor leaves it, or as one call of
    Assemble leaves it. *)
Definition built_from (p : DofPair) (bfi : Z -> DenseMatrix R) (m : EPMatrix R) : Prop :=
  m = EPMatrix_new p bfi \/
  exists junkR junkP, Assemble Inverse (EPMatrix_new p bfi) junkR junkP = Ok m.

Variable bfi : Z -> DenseMatrix R.
Variable d : EPDoFs.
Variable ids : nat -> list Z.

(** The block Assemble scatters for element [e]. *)
Definition run_block (e : nat) : nat -> nat -> R :=
  schur_complement_run Inverse (bfi (Z.of_nat e)) (length (ids e)) (numPri d e).

Definition pp_block (e : nat) : DenseMatrix R :=
  block_pp (bfi (Z.of_nat e)) (length (ids e)) (numPri d e).

(** What holds of the state of the loop after [m] elements. *)
Definition assembled_upto (m : nat) (st : AsmState R) : Prop :=
  (exists d', as_dofs st = SameDofs d' /\ same_space d d' /\ priOffset_ok d' /\
     ((0 < m)%nat -> exists tbl, priOffset_ d' = Some tbl /\
                                 buildPriOffset (fes_ d) = Ok tbl)) /\
  as_Mpe st = None /\
  as_MppInv st =
    Some (map (fun e => DenseMatrix_Inverse Inverse (pp_block e)) (seq 0 m)) /\
  as_Mpp st = map (pp_block) (seq 0 m) /\
  (sm_height (as_Mee st) = Z.to_nat (GetNExposedDofs d) /\
   sm_width (as_Mee st) = Z.to_nat (GetNExposedDofs d) /\
   sm_height (as_Mep st) = Z.to_nat (GetNExposedDofs d) /\
   sm_width (as_Mep st) = Z.to_nat (GetNPrivateDofs d)) /\
  forall r c, sm_elem (as_Mrr st) r c =
    sum_over_elements m ids (run_block) r c.

End WithInverse.
End StatementNotions.

(** * Further code of the repository *)

(** ** fem/kernels/geometry.cpp: the node arrays

    The functions below only move array entries; the entries (doubles,
    or ints for the element map) are of any type [A].  [MFEM_FORALL(i, n,
    body)] (general/okina.hpp, not under src/) runs [body] for
    i = 0 .. n-1; the bodies below write to places of their own, and the
    loop is taken in this order. *)

(** [new double[size]]: not initialised; [junk] is what the memory
    holds. *)
Definition new_array {A} (size : Z) (junk : nat -> A) : list A :=
  map junk (seq 0 (Z.to_nat size)).

(** [for (i = 0; i < size; i++) data[i] = temp[i];] *)
Definition copy_back {A} (size : Z) (temp data : list A) : result (list A) :=
  for_upto (Z.to_nat size)
    (fun i data0 => t ← aget temp (Z.of_nat i); aset data0 (Z.of_nat i) t) data.

(** [Geometry::ReorderByVDim(nodes)] (geometry.cpp 240-260), on the
    data of the grid function: [size = nodes->Size()],
    [vdim = fes->GetVDim()], [ndofs = fes->GetNDofs()]. *)
Definition ReorderByVDim {A} (size vdim ndofs : Z) (junk : nat -> A)
    (data : list A) : result (list A) :=
  '(temp, _) ← for_upto (Z.to_nat ndofs)
      (fun d '(temp, k) =>
         for_upto (Z.to_nat vdim)
           (fun v '(temp, k) =>
              x ← aget data (Z.of_nat d + Z.of_nat v * ndofs)%Z;
              temp' ← aset temp k x;
              Ok (temp', (k + 1)%Z))
           (temp, k))
      (new_array size junk, 0%Z);
  copy_back size temp data.

(** [Geometry::ReorderByNodes(nodes)] (geometry.cpp 262-281). *)
Definition ReorderByNodes {A} (size vdim ndofs : Z) (junk : nat -> A)
    (data : list A) : result (list A) :=
  '(temp, _) ← for_upto (Z.to_nat ndofs)
      (fun j '(temp, k) =>
         for_upto (Z.to_nat vdim)
           (fun i '(temp, k) =>
              x ← aget data k;
              temp' ← aset temp (Z.of_nat j + Z.of_nat i * ndofs)%Z x;
              Ok (temp', (k + 1)%Z))
           (temp, k))
      (new_array size junk, 0%Z);
  copy_back size temp data.

(** [GeomFill(dims, elements, numDofs, elementMap, eMap, nodes,
    meshNodes)] (geometry.cpp 94-119); returns [eMap] and
    [meshNodes]. *)
Definition GeomFill {A} (dims : Z) (elements numDofs : nat)
    (elementMap : list Z) (eMap : list Z) (nodes : list A) (meshNodes : list A)
  : result (list Z * list A) :=
  for_upto elements
    (fun e st =>
       for_upto numDofs
         (fun d '(eMap, meshNodes) =>
            let lid := (Z.of_nat d + Z.of_nat numDofs * Z.of_nat e)%Z in
            gid ← aget elementMap lid;
            eMap ← aset eMap lid gid;
            meshNodes ← for_upto (Z.to_nat dims)
              (fun v meshNodes =>
                 let moffset := (Z.of_nat v + dims * lid)%Z in
                 let xoffset := (Z.of_nat v + dims * gid)%Z in
                 x ← aget nodes xoffset;
                 aset meshNodes moffset x)
              meshNodes;
            Ok (eMap, meshNodes))
         st)
    (eMap, meshNodes).

(** [NodeCopyByVDim(elements, numDofs, ndofs, dims, eMap, Sx, nodes)]
    (geometry.cpp 129-152). *)
Definition NodeCopyByVDim {A} (elements numDofs ndofs dims : Z)
    (eMap : list Z) (Sx : list A) (nodes : list A) : result (list A) :=
  for_upto (Z.to_nat elements)
    (fun e nodes =>
       for_upto (Z.to_nat numDofs)
         (fun dof nodes =>
            let lid := (Z.of_nat dof + numDofs * Z.of_nat e)%Z in
            gid ← aget eMap lid;
            for_upto (Z.to_nat dims)
              (fun v nodes =>
                 let moffset := (Z.of_nat v + dims * lid)%Z in
                 let voffset := (gid + Z.of_nat v * ndofs)%Z in
                 x ← aget Sx voffset;
                 aset nodes moffset x)
              nodes)
         nodes)
    nodes.

(** ** fem/ep.cpp: the rest of ParEPField, EPField and EPMatrix *)

Section MoreDistributed.
Context {R : Type} `{!Scalar R}.

(** [ParEPField::updateExposedDoFs()] (ep.cpp 473-484). *)
Definition updateExposedDoFs (this : ParEPField R) : result (ParEPField R) :=
  let Pe := EDof_TrueEDof_Matrix this in
  for_upto (par_numFields_ this)
    (fun i st =>
       (* Redistributes the summed DoFs to all ranks *)
       T ← aget (ParExposedDoFs_ st) (Z.of_nat i);
       E ← aget (par_ExposedDoFs_ st) (Z.of_nat i);
       E ← HypreParMatrix_Mult Pe T E;
       Ok {| par_numFields_ := par_numFields_ st;
             EDof_TrueEDof_Matrix := EDof_TrueEDof_Matrix st;
             par_ExposedDoFs_ := <[i := E]> (par_ExposedDoFs_ st);
             ParExposedDoFs_ := ParExposedDoFs_ st |})
    this.

(** One call of updateExposedDoFs, in closed form. *)
Definition redistributed (s : ParEPField R) : ParEPField R :=
  let Pe := EDof_TrueEDof_Matrix s in
  {| par_numFields_ := par_numFields_ s;
     EDof_TrueEDof_Matrix := Pe;
     par_ExposedDoFs_ := map (PeF Pe) (ParExposedDoFs_ s);
     ParExposedDoFs_ := ParExposedDoFs_ s |}.

End MoreDistributed.

Section MoreFields.
Context {R : Type} `{!Scalar R}.

(** Modelled from the spec: [v -= w] on Vector (linalg/vector.cpp is not
    under src/), entry by entry over the entries of [v]. *)
Definition Vector_sub (v w : list R) : result (list R) :=
  if bool_decide (length v <= length w)%nat
  then Ok (imap (fun i vi => (vi - vnth w i)%S) v)
  else Fail OutOfBounds.

(** [EPField::operator-=(const EPField & v)] (ep.cpp 314-325). *)
Definition EPField_sub (this v : EPField R) : result (EPField R) :=
  for_upto (numFields_ this)
    (fun i this =>
       E ← deref (ExposedDoFs_ this);
       Ei ← aget E (Z.of_nat i);
       vE ← deref (ExposedDoFs_const v i);
       Ei ← Vector_sub Ei vE;
       let this := set_Exposed this i Ei in
       P ← deref (PrivateDoFs_ this);
       Pi ← aget P (Z.of_nat i);
       vP ← deref (PrivateDoFs_const v i);
       Pi ← Vector_sub Pi vP;
       Ok (set_Private this i Pi))
    this.

End MoreFields.

Section MoreCondensation.
Context {R : Type} `{!Scalar R}.
Variable default_num : nat.
Variable default_field : nat.
Variable junkE junkP : nat -> nat -> R.

(** [EPMatrix::SolvePrivateDoFs(const Vector & x, EPField & y)]
    (ep.cpp 801-824); returns the operator with its work vector as the
    call leaves it, and [y]. *)
Definition EPMatrix_SolvePrivateDoFs (this : EPMatrix R) (x : list R)
    (y : EPField R) : result (EPMatrix R * EPField R) :=
  vp ← deref (vecp_ this);
  vp ← Vector_Set vp rone x;
  '(y, vp) ←
    match Mpe_ this with
    | Some Mpe =>
      let '(y, pyE) := ExposedDoFs default_num junkE junkP y default_field in
      yE ← deref pyE;
      vp ← SparseMatrix_AddMult Mpe yE vp (- rone)%S;
      Ok (y, vp)
    | None =>
      Mep ← deref (Mep_ this);
      let '(y, pyE) := ExposedDoFs default_num junkE junkP y default_field in
      yE ← deref pyE;
      vp ← SparseMatrix_AddMultTranspose Mep yE vp (- rone)%S;
      Ok (y, vp)
    end;
  let nElems := GetNElements (dofsR (epdofs this)) in
  let priOffR := GetPrivateOffsets (dofsR (epdofs this)) in
  let priOffL := GetPrivateOffsets (dofsL (epdofs this)) in
  y ← for_upto (Z.to_nat nElems)
        (fun i y =>
           invs ← deref (MppInv_ this);
           inv ← aget invs (Z.of_nat i);
           let size := inv_size inv in
           poL ← deref priOffL;
           oL ← aget poL (Z.of_nat i);
           v1 ← view vp oL size;
           let '(y, pyP) := PrivateDoFs default_num junkE junkP y 0 in
           yP ← deref pyP;
           poR ← deref priOffR;
           oR ← aget poR (Z.of_nat i);
           v2 ← DenseMatrixInverse_Mult inv v1;
           yP ← store yP oR v2;
           Ok (set_Private y 0 yP))
        y;
  Ok ({| epdofs := epdofs this; bfi_ := bfi_ this;
         Mee_ := Mee_ this; Mep_ := Mep_ this; Mpe_ := Mpe_ this;
         Mrr_ := Mrr_ this; Mpp_ := Mpp_ this; MppInv_ := MppInv_ this;
         reducedRHS_ := reducedRHS_ this; vecp_ := Some vp |}, y).

(** [EPMatrix::~EPMatrix()] (ep.cpp 636-653): what the destructor reads
    before it frees; the tests of the pointers against NULL read
    nothing. *)
Definition EPMatrix_destroy (this : EPMatrix R) : result unit :=
  for_upto (Z.to_nat (GetNElements (dofsR (epdofs this))))
    (fun i _ =>
       Mpps ← deref (Mpp_ this);
       _ ← aget Mpps (Z.of_nat i);
       invs ← deref (MppInv_ this);
       _ ← aget invs (Z.of_nat i);
       Ok tt)
    tt.

End MoreCondensation.

(** [inv] undoes the block [A] of [n] private dofs:
    A (inv w) = w for every w. *)
Definition right_inverse {R} `{!Scalar R} (inv : DenseMatrixInverse R)
    (A : DenseMatrix R) (n : nat) : Prop :=
  forall (w : nat -> R) (r : nat), (r < n)%nat ->
    rsum n (fun c => (dm_at A r c
                      * rsum n (fun l => dm_at (inv_matrix inv) c l * w l))%S) = w r.

(** ** A third example: one segment of a discontinuous space

    Both dofs of the element are interior: the element has no exposed
    dof and two private ones. *)
Definition fec_dg : FiniteElementCollection :=
  {| DofForGeometry := fun g => match g with SEGMENT => 2 | _ => 0 end%Z;
     HasFaceDofs := fun _ => false;
     DofOrderForOrientation := fun _ _ => [] |}.

Definition fes_dg : FiniteElementSpace :=
  {| GetMesh := mesh_segment; FEColl := fec_dg; GetNDofs := 2%Z;
     fes_GetElementDofs := fun _ => [0; 1]%Z;
     GetElementInteriorDofs := fun _ => [0; 1]%Z |}.

Definition elmat_dg : DenseMatrix Z :=
  {| dm_height := 2; dm_width := 2; dm_data := [1; 0; 0; 1]%Z |}.

Definition epmatrix_dg_two : EPMatrix Z :=
  EPMatrix_new (TwoDofs (EPDoFs_new fes_dg) (EPDoFs_new fes_dg)) (fun _ => elmat_dg).

(** ** The layout of the derived ids *)

(** The ids of the vertex dofs: [nv] consecutive ids for each vertex. *)
Definition ids_of_vertices (nv : Z) (V : list Z) : list Z :=
  flat_map (fun vk => map (fun j => (vk * nv + Z.of_nat j)%Z) (seq 0 (Z.to_nat nv))) V.

(** The ids of the dofs of edges or faces: [n] ids for each entity, in
    the order its orientation gives. *)
Definition ids_of_entities (first n : Z) (ind : Z -> Z -> list Z)
    (E Eo : list Z) : list Z :=
  flat_map (fun '(ek, eo) =>
              map (fun j => oriented_id first ek n (default 0%Z (ind ek eo !! j)))
                  (seq 0 (Z.to_nat n)))
           (zip E Eo).

(** Each entity has an orientation, whose dof order has [n] entries. *)
Definition orientations_fit (n : Z) (ind : Z -> Z -> list Z) (E Eo : list Z) : Prop :=
  length Eo = length E /\
  Forall (fun '(ek, eo) => (Z.to_nat n <= length (ind ek eo))%nat) (zip E Eo).

(** The faces [GetElementDofs] looks at: none below dimension 3 or when
    the collection has no face dofs on the element. *)
Definition faces_used (fes : FiniteElementSpace) (elem : Z) : list Z * list Z :=
  let mesh := GetMesh fes in
  if bool_decide (Dimension mesh = 3)%Z
  then if HasFaceDofs (FEColl fes) (GetElementBaseGeometry mesh elem)
       then GetElementFaces mesh elem else ([], [])
  else ([], []).

(** The edges it looks at: none when an edge carries no dof. *)
Definition edge_dofs (fes : FiniteElementSpace) : Z :=
  if bool_decide (Dimension (GetMesh fes) > 1)%Z
  then DofForGeometry (FEColl fes) SEGMENT else 0%Z.

Definition edges_used (fes : FiniteElementSpace) (elem : Z) : list Z * list Z :=
  if bool_decide (edge_dofs fes > 0)%Z
  then GetElementEdges (GetMesh fes) elem else ([], []).

(** The number of dofs of a face: that of the first face of the
    element. *)
Definition face_dofs (fes : FiniteElementSpace) (elem : Z) : Z :=
  match (faces_used fes elem).1 with
  | f0 :: _ => DofForGeometry (FEColl fes) (GetFaceBaseGeometry (GetMesh fes) f0)
  | [] => 0%Z
  end.

Definition edge_order (fes : FiniteElementSpace) : Z -> Z -> list Z :=
  fun _ eo => DofOrderForOrientation (FEColl fes) SEGMENT eo.

Definition face_order (fes : FiniteElementSpace) : Z -> Z -> list Z :=
  fun fk fo =>
    DofOrderForOrientation (FEColl fes) (GetFaceBaseGeometry (GetMesh fes) fk) fo.

(** The ids of an element, group after group: vertices, edges, faces. *)
Definition derived_ids (fes : FiniteElementSpace) (elem : Z) : list Z :=
  let mesh := GetMesh fes in
  let fec := FEColl fes in
  let nv := DofForGeometry fec POINT in
  let nvdofs := (GetNV mesh * nv)%Z in
  let nedofs := (GetNEdges mesh * edge_dofs fes)%Z in
  ids_of_vertices nv (GetElementVertices mesh elem)
  ++ ids_of_entities nvdofs (edge_dofs fes) (edge_order fes)
       (edges_used fes elem).1 (edges_used fes elem).2
  ++ ids_of_entities (nvdofs + nedofs) (face_dofs fes elem) (face_order fes)
       (faces_used fes elem).1 (faces_used fes elem).2.

(** What the mesh and the collection have to provide for element
    [elem]: an orientation for each edge and face that is looked at,
    with a dof order as long as the entity has dofs, and a first face
    where faces are looked at. *)
Definition derivable (fes : FiniteElementSpace) (elem : Z) : Prop :=
  orientations_fit (edge_dofs fes) (edge_order fes)
    (edges_used fes elem).1 (edges_used fes elem).2 /\
  orientations_fit (face_dofs fes elem) (face_order fes)
    (faces_used fes elem).1 (faces_used fes elem).2 /\
  ((Dimension (GetMesh fes) = 3)%Z ->
   HasFaceDofs (FEColl fes) (GetElementBaseGeometry (GetMesh fes) elem) = true ->
   (GetElementFaces (GetMesh fes) elem).1 <> []).

(** ** The partitions ParEPDoFs builds *)

(** [f 0 + ... + f (k-1)]. *)
Definition sum_below (f : nat -> Z) (k : nat) : Z :=
  fold_left (fun acc i => (acc + f i)%Z) (seq 0 k) 0%Z.

(** Boundary [k] of a partition array. *)
Definition part_at (T : list Z) (k : nat) : Z := default 0%Z (T !! k).

(** The number of private dofs of rank [p]: its dofs that are not
    exposed. *)
Definition nPri_of {R} (env : ParEnv R) (p : nat) : Z :=
  ((part_at (DoFPart env) (S p) - part_at (DoFPart env) p) - allExposed env p)%Z.

(** The number of true exposed dofs of rank [p]: its true dofs that are
    not private. *)
Definition true_exposed_of {R} (env : ParEnv R) (p : nat) : Z :=
  ((part_at (TDoFPart env) (S p) - part_at (TDoFPart env) p) - nPri_of env p)%Z.

(** What the constructor relies on: a rank among the ranks, the two
    partitions of [P] with a boundary for each rank and one more, and
    every column of the merged matrix below the last boundary of the
    column partition. *)
Definition well_partitioned {R} (env : ParEnv R) : Prop :=
  let np := Z.to_nat (numProcs env) in
  (0 <= myRank env < numProcs env)%Z /\
  length (DoFPart env) = S np /\ length (TDoFPart env) = S np /\
  (Z.to_nat (hypre_CSRMatrixNumNonzeros (csr_P env))
     <= length (hypre_CSRMatrixJ (csr_P env)))%nat /\
  forall (j : nat) c,
    (j < Z.to_nat (hypre_CSRMatrixNumNonzeros (csr_P env)))%nat ->
    hypre_CSRMatrixJ (csr_P env) !! j = Some c ->
    (c < part_at (TDoFPart env) np)%Z.

(** Rank [r] is the first whose upper boundary is above the column [c]
    (with sorted boundaries and [c] not below the first: the rank whose
    range holds [c]). *)
Definition first_above (T : list Z) (c : Z) (r : nat) : Prop :=
  (forall q, (q < r)%nat -> (part_at T (S q) <= c)%Z) /\ (c < part_at T (S r))%Z.

(** Two ranks, two exposed dofs each of which one is shared: three true
    dofs; rank 0 has one private dof and rank 1 has two. *)
Definition env_two_ranks : ParEnv Z :=
  {| numProcs := 2%Z; myRank := 1%Z;
     allExposed := fun _ => 2%Z;
     DoFPart := [0; 3; 7]%Z;
     TDoFPart := [0; 3; 6]%Z;
     csr_P := {| hypre_CSRMatrixNumNonzeros := 3%Z;
                 hypre_CSRMatrixI := [0; 1; 2; 3]%Z;
                 hypre_CSRMatrixJ := [1; 3; 5]%Z;
                 hypre_CSRMatrixData := [1; 1; 1]%Z |} |}.

(** ** Notions used in the statements on the further code *)

(** [K] blocks of [w] entries, entry [j] of block [k] being [g k j]. *)
Definition blocks (K w : nat) (g : nat -> nat -> Z) : list Z :=
  flat_map (fun k => map (g k) (seq 0 w)) (seq 0 K).

Section TwoObjectsNotions.
Context {R : Type} `{!Scalar R}.
Variable l r : EPDoFs.

(** The matrix [mrr] as its constructor leaves it. *)
Definition mrr_unsized : DenseMatrix R :=
  {| dm_height := 0; dm_width := 0; dm_data := [] |}.

(** What holds of the state of the loop of Assemble over two dof
    objects [l] and [r]. *)
Definition two_upto (s : AsmState R) : Prop :=
  (exists l' r', as_dofs s = TwoDofs l' r' /\ same_space l l' /\ same_space r r' /\
     priOffset_ok l' /\ priOffset_ok r') /\
  as_MppInv s = None /\ as_mrr s = mrr_unsized.

End TwoObjectsNotions.

Section ScatterNotions.
Context {R : Type}.
Variable d : EPDoFs.
Variable ids : nat -> list Z.
Variable x : list R.
Variable sigma : Z -> Z.

(** The interleaved vector can be split: the element ids of the space
    and of the partition name the same dofs in the same order (the
    interleaved id of the exposed id [g] is [sigma g]), within the
    vector and within the exposed range, and no id is sign-tagged. *)
Definition splittable : Prop :=
  forall e : nat, (Z.of_nat e < GetNElements d)%Z ->
    let allDoFs := fes_GetElementDofs (fes_ d) (Z.of_nat e) in
    let priDoFs := GetElementInteriorDofs (fes_ d) (Z.of_nat e) in
    (length (ids e) <= length allDoFs)%nat /\
    Forall (fun a => (0 <= a < Z.of_nat (length x))%Z) allDoFs /\
    Forall (fun g => (0 <= g < GetNExposedDofs d)%Z) (ids e) /\
    (forall j a g, allDoFs !! j = Some a -> ids e !! j = Some g -> a = sigma g) /\
    (0 <= interiorDofs (fes_ d) (Z.of_nat e))%Z /\
    (Z.to_nat (interiorDofs (fes_ d) (Z.of_nat e)) <= length priDoFs)%nat /\
    Forall (fun q => (0 <= q < Z.of_nat (length x))%Z) priDoFs.

(** What holds after the first [m] elements. *)
Definition split_upto (m : nat) (st : EPDoFs * list Z * list R * list R) : Prop :=
  let '(d', _, xE, xP) := st in
  same_space d d' /\ priOffset_ok d' /\
  length xE = Z.to_nat (GetNExposedDofs d) /\
  length xP = Z.to_nat (GetNPrivateDofs d) /\
  (forall e j g, (e < m)%nat -> ids e !! j = Some g ->
     xE !! Z.to_nat g = x !! Z.to_nat (sigma g)) /\
  (forall e j q, (e < m)%nat ->
     (j < Z.to_nat (interiorDofs (fes_ d) (Z.of_nat e)))%nat ->
     GetElementInteriorDofs (fes_ d) (Z.of_nat e) !! j = Some q ->
     xP !! (Z.to_nat (offset_of (fes_ d) e) + j)%nat = x !! Z.to_nat q).

End ScatterNotions.

Section SubtractionNotions.
Context {R : Type} `{!Scalar R}.

(** The vectors of [this] less those of [v], entry by entry. *)
Definition sub_rows (E vE : list (list R)) : list (list R) :=
  imap (fun i Ei => imap (fun k a => (a - vnth (default [] (vE !! i)) k)%S) Ei) E.

(** [v] has a vector at least as long for each vector of [this]. *)
Definition covers (E vE : list (list R)) : Prop :=
  forall i Ei, E !! i = Some Ei ->
    exists vEi, vE !! i = Some vEi /\ (length Ei <= length vEi)%nat.

End SubtractionNotions.

(** ** Notions for repeated reductions *)

Section ReduceNotions.
Context {R : Type} `{!Scalar R}.

(** [v + ... + v], [k] times. *)
Definition times (k : nat) (v : R) : R := rsum k (fun _ => v).

(** No exposed dof is shared: [Pe^t Pe] is the identity. *)
Definition unshared (Pe : HypreParMatrix R) : Prop :=
  forall j j', (j < hp_cols Pe)%nat -> (j' < hp_cols Pe)%nat ->
    rsum (hp_rows Pe) (fun i => (hp_entry Pe i j * hp_entry Pe i j')%S)
    = if bool_decide (j = j') then rone else rzero.

(** Every rank-local exposed dof [i] is a copy of one true exposed dof,
    [owner i]: row [i] of [Pe] has the entry 1 in column [owner i] and
    0 elsewhere. *)
Definition copies_of (Pe : HypreParMatrix R) (owner : nat -> nat) : Prop :=
  forall i, (i < hp_rows Pe)%nat ->
    (owner i < hp_cols Pe)%nat /\
    forall j, (j < hp_cols Pe)%nat ->
      hp_entry Pe i j = if bool_decide (owner i = j) then rone else rzero.

(** The number of rank-local copies of the true exposed dof [j]. *)
Definition shared_by (Pe : HypreParMatrix R) (owner : nat -> nat) (j : nat) : nat :=
  length (filter (fun i => owner i = j) (seq 0 (hp_rows Pe))).

(** [n] calls of reduce() in succession. *)
Fixpoint reduce_calls (n : nat) (s : ParEPField R) : result (ParEPField R) :=
  match n with
  | O => Ok s
  | S n => s' ← updateParExposedDoFs s; reduce_calls n s'
  end.

End ReduceNotions.

(** ** A fourth example: two segments, two discontinuous spaces

    No exposed dof; the left space has one interior dof on each
    segment, the right space two.  The element matrix of a segment,
    rows by the left dofs and columns by the right dofs, is (2 3). *)
Definition mesh_two_segments : Mesh :=
  {| Dimension := 1%Z; GetNV := 3%Z; GetNEdges := 0%Z; GetNE := 2%Z;
     GetElementBaseGeometry := fun _ => SEGMENT;
     GetFaceBaseGeometry := fun _ => POINT;
     GetElementVertices := fun i => [i; i + 1]%Z;
     GetElementEdges := fun _ => ([], []);
     GetElementFaces := fun _ => ([], []) |}.

Definition fec_one_interior : FiniteElementCollection :=
  {| DofForGeometry := fun g => match g with SEGMENT => 1 | _ => 0 end%Z;
     HasFaceDofs := fun _ => false;
     DofOrderForOrientation := fun _ _ => [] |}.

Definition fec_two_interior : FiniteElementCollection :=
  {| DofForGeometry := fun g => match g with SEGMENT => 2 | _ => 0 end%Z;
     HasFaceDofs := fun _ => false;
     DofOrderForOrientation := fun _ _ => [] |}.

Definition fes_left : FiniteElementSpace :=
  {| GetMesh := mesh_two_segments; FEColl := fec_one_interior; GetNDofs := 2%Z;
     fes_GetElementDofs := fun i => [i];
     GetElementInteriorDofs := fun i => [i] |}.

Definition fes_right : FiniteElementSpace :=
  {| GetMesh := mesh_two_segments; FEColl := fec_two_interior; GetNDofs := 4%Z;
     fes_GetElementDofs := fun i => [2 * i; 2 * i + 1]%Z;
     GetElementInteriorDofs := fun i => [2 * i; 2 * i + 1]%Z |}.

Definition elmat_left_right : DenseMatrix Z :=
  {| dm_height := 1; dm_width := 2; dm_data := [2; 3]%Z |}.

Definition epmatrix_left_right : EPMatrix Z :=
  EPMatrix_new (TwoDofs (EPDoFs_new fes_left) (EPDoFs_new fes_right))
               (fun _ => elmat_left_right).

(** A field of the right space, private values (1, 2 | 3, 4), and a
    field of the left space to receive the product. *)
Definition field_right : EPField Z :=
  {| numFields_ := 1; epdofs_ := EPDoFs_new fes_right;
     ExposedDoFs_ := Some [[]];
     PrivateDoFs_ := Some [[1; 2; 3; 4]%Z] |}.

Definition field_left_out : EPField Z :=
  {| numFields_ := 1; epdofs_ := EPDoFs_new fes_left;
     ExposedDoFs_ := Some [[]];
     PrivateDoFs_ := Some [[0; 0]%Z] |}.


(** ** A fifth example: a triangle, a square and a triangle

    No exposed dof; the left space has 1, 2, 1 interior dofs on the
    three elements, the right space 2, 1, 1. *)
Definition mesh_mixed : Mesh :=
  {| Dimension := 2%Z; GetNV := 6%Z; GetNEdges := 8%Z; GetNE := 3%Z;
     GetElementBaseGeometry := fun i => if (i =? 1)%Z then SQUARE else TRIANGLE;
     GetFaceBaseGeometry := fun _ => SEGMENT;
     GetElementVertices := fun i =>
       if (i =? 0)%Z then [0; 1; 2]%Z
       else if (i =? 1)%Z then [1; 3; 4; 2]%Z else [3; 5; 4]%Z;
     GetElementEdges := fun i =>
       if (i =? 0)%Z then ([0; 1; 2]%Z, [1; 1; 1]%Z)
       else if (i =? 1)%Z then ([3; 4; 5; 1]%Z, [1; 1; 1; -1]%Z)
       else ([6; 7; 4]%Z, [1; 1; -1]%Z);
     GetElementFaces := fun _ => ([], []) |}.

Definition fec_mixed_left : FiniteElementCollection :=
  {| DofForGeometry := fun g =>
       match g with TRIANGLE => 1 | SQUARE => 2 | _ => 0 end%Z;
     HasFaceDofs := fun _ => false;
     DofOrderForOrientation := fun _ _ => [] |}.

Definition fec_mixed_right : FiniteElementCollection :=
  {| DofForGeometry := fun g =>
       match g with TRIANGLE => 2 | SQUARE => 1 | _ => 0 end%Z;
     HasFaceDofs := fun _ => false;
     DofOrderForOrientation := fun _ _ => [] |}.

Definition fes_mixed_left : FiniteElementSpace :=
  {| GetMesh := mesh_mixed; FEColl := fec_mixed_left; GetNDofs := 4%Z;
     fes_GetElementDofs := fun i =>
       if (i =? 0)%Z then [0]%Z else if (i =? 1)%Z then [1; 2]%Z else [3]%Z;
     GetElementInteriorDofs := fun i =>
       if (i =? 0)%Z then [0]%Z else if (i =? 1)%Z then [1; 2]%Z else [3]%Z |}.

Definition fes_mixed_right : FiniteElementSpace :=
  {| GetMesh := mesh_mixed; FEColl := fec_mixed_right; GetNDofs := 5%Z;
     fes_GetElementDofs := fun i =>
       if (i =? 0)%Z then [0; 1]%Z else if (i =? 1)%Z then [2]%Z else [3; 4]%Z;
     GetElementInteriorDofs := fun i =>
       if (i =? 0)%Z then [0; 1]%Z else if (i =? 1)%Z then [2]%Z else [3; 4]%Z |}.

(** The element matrices, rows by the left dofs and columns by the
    right dofs: (2 3), (5 7)^t and (11 13). *)
Definition elmat_mixed (i : Z) : DenseMatrix Z :=
  if (i =? 0)%Z then {| dm_height := 1; dm_width := 2; dm_data := [2; 3]%Z |}
  else if (i =? 1)%Z then {| dm_height := 2; dm_width := 1; dm_data := [5; 7]%Z |}
  else {| dm_height := 1; dm_width := 2; dm_data := [11; 13]%Z |}.

Definition epmatrix_mixed : EPMatrix Z :=
  EPMatrix_new (TwoDofs (EPDoFs_new fes_mixed_left) (EPDoFs_new fes_mixed_right))
               elmat_mixed.

Definition field_mixed_right : EPField Z :=
  {| numFields_ := 1; epdofs_ := EPDoFs_new fes_mixed_right;
     ExposedDoFs_ := Some [[]];
     PrivateDoFs_ := Some [[1; 2; 3; 4; 5]%Z] |}.

Definition field_mixed_left_out : EPField Z :=
  {| numFields_ := 1; epdofs_ := EPDoFs_new fes_mixed_left;
     ExposedDoFs_ := Some [[]];
     PrivateDoFs_ := Some [[0; 0; 0; 0]%Z] |}.
(** * Properties *)

(** C10: for every pair of plain vectors (x, y) the Vector overload of
    EPMatrix::Mult fails its assertion (assertions enabled), whatever the
    state of the operator: this entry point never yields a result. *)
Theorem C10_Mult_Vector_asserts {R : Type} `{!Scalar R} {M : Type}
    (this : M) (x y : list R) :
  EPMatrix_Mult_Vector this x y = Fail AssertionFailure.
Proof. reflexivity. Qed.

(** Case analysis on the first [bool_decide] of the goal. *)
Ltac case_bd :=
  match goal with
  | |- context [@bool_decide ?P ?d] => destruct (@bool_decide_reflect P d)
  end.

(** ** Faults of array code *)

Lemma oob_only_aget {A} (a : list A) i : oob_only (aget a i).
Proof.
  unfold aget. case_bool_decide; [|reflexivity].
  destruct (a !! Z.to_nat i); simpl; auto.
Qed.

Lemma oob_only_aset {A} (a : list A) i x : oob_only (aset a i x).
Proof. unfold aset. case_bool_decide; simpl; auto. Qed.

Lemma oob_only_bind {A B} (m : result A) (k : A -> result B) :
  oob_only m -> (forall a, m = Ok a -> oob_only (k a)) -> oob_only (m ≫= k).
Proof. destruct m as [a|f]; simpl; intros Hm Hk; [apply Hk; reflexivity|exact Hm]. Qed.

Lemma oob_only_for_loop {St} (body : nat -> St -> result St) idx s :
  (forall i s0, oob_only (body i s0)) -> oob_only (for_loop body idx s).
Proof.
  intros Hb. revert s. induction idx as [|i idx IH]; intros s; simpl; [exact I|].
  apply oob_only_bind; [apply Hb | intros; apply IH].
Qed.

Lemma oob_only_scan_rank bounds c r : oob_only (scan_rank bounds c r).
Proof.
  revert r. induction bounds as [|b bs IH]; intros r; simpl; [reflexivity|].
  case_bool_decide; [apply IH | exact I].
Qed.

Create HintDb oob.
#[local] Hint Resolve oob_only_aget oob_only_aset oob_only_scan_rank : oob.

Ltac oob_step :=
  first [ apply oob_only_bind; [| intros ? _]
        | apply oob_only_for_loop; first [intros ? [? ?] | intros ? ?]
        | solve [auto with oob]
        | exact I ].

Lemma oob_only_rewrite_column T nPri j J : oob_only (rewrite_column T nPri j J).
Proof. unfold rewrite_column, for_upto. repeat oob_step. Qed.

(** If a computation can only fail out of bounds and what follows it
    does, the whole does. *)
Lemma bind_fails_oob {A B} (m : result A) (k : A -> result B) :
  oob_only m -> (forall a, m = Ok a -> k a = Fail OutOfBounds) ->
  m ≫= k = Fail OutOfBounds.
Proof.
  destruct m as [a|f]; simpl; intros Hm Hk; [apply Hk; reflexivity | congruence].
Qed.

(** ** The rewrite of the column indices (ParEPDoFs) *)

Lemma scan_rank_past_end bounds c r :
  Forall (fun b => (b <= c)%Z) bounds -> scan_rank bounds c r = Fail OutOfBounds.
Proof.
  intros H. revert r. induction H as [|b bs Hb _ IH]; intros r; simpl; [reflexivity|].
  rewrite bool_decide_true by lia. apply IH.
Qed.

Lemma aget_lookup {A} (a : list A) (i : nat) x :
  a !! i = Some x -> aget a (Z.of_nat i) = Ok x.
Proof.
  intros H. unfold aget. rewrite bool_decide_true by lia.
  rewrite Nat2Z.id, H. reflexivity.
Qed.

Lemma aget_Ok {A} (a : list A) i x :
  aget a i = Ok x <-> (0 <= i)%Z /\ a !! Z.to_nat i = Some x.
Proof.
  unfold aget. case_bool_decide.
  - destruct (a !! Z.to_nat i) eqn:E; split; intros H1; try discriminate.
    + injection H1 as ->. auto.
    + destruct H1 as [_ H1]. injection H1 as ->. reflexivity.
    + destruct H1 as [_ H1]. discriminate.
  - split; [discriminate | intros [? _]; lia].
Qed.

Lemma aset_Ok {A} (a : list A) i x a' :
  aset a i x = Ok a' <->
  (0 <= i < Z.of_nat (length a))%Z /\ a' = <[Z.to_nat i := x]> a.
Proof.
  unfold aset. case_bool_decide.
  - split; [intros [= <-]; auto | intros [_ ->]; reflexivity].
  - split; [discriminate | intros [? _]; lia].
Qed.

(** Rewriting the nonzero [j] leaves the other columns as they are. *)
Lemma rewrite_column_other T nPri j J J' i :
  rewrite_column T nPri j J = Ok J' -> i <> j -> J' !! i = J !! i.
Proof.
  unfold rewrite_column. intros H Hij.
  destruct (aget J (Z.of_nat j)) as [c|] eqn:Hc; [simpl in H|discriminate].
  destruct (scan_rank (drop 1 T) c 0) as [r|] eqn:Hr; [simpl in H|discriminate].
  clear Hc Hr. unfold for_upto in H. revert J H.
  generalize (seq 0 r) as ps. induction ps as [|p ps IH]; intros J H; simpl in H.
  - injection H as ->. reflexivity.
  - destruct (aget nPri (Z.of_nat p)) as [n|]; [simpl in H|discriminate].
    destruct (aget J (Z.of_nat j)) as [cur|]; [simpl in H|discriminate].
    destruct (aset J (Z.of_nat j) (cur - n)%Z) as [J1|] eqn:HJ1; [simpl in H|discriminate].
    rewrite (IH _ H). apply aset_Ok in HJ1 as [_ ->].
    apply list_lookup_insert_ne. lia.
Qed.

Lemma rewrite_column_past_end T nPri j J c :
  J !! j = Some c -> Forall (fun b => (b <= c)%Z) (drop 1 T) ->
  rewrite_column T nPri j J = Fail OutOfBounds.
Proof.
  intros Hj Hc. unfold rewrite_column.
  rewrite (aget_lookup _ _ _ Hj). simpl.
  rewrite (scan_rank_past_end _ _ _ Hc). reflexivity.
Qed.

Lemma rewrite_loop_past_end T nPri (js : list nat) J j c :
  j ∈ js -> NoDup js -> J !! j = Some c ->
  Forall (fun b => (b <= c)%Z) (drop 1 T) ->
  for_loop (rewrite_column T nPri) js J = Fail OutOfBounds.
Proof.
  intros Hin Hnd Hj Hc. revert J Hj.
  induction js as [|i js IH]; intros J Hj; [inversion Hin|].
  simpl. apply list.NoDup_cons in Hnd as [Hi Hnd].
  apply elem_of_cons in Hin as [->|Hin].
  - rewrite (rewrite_column_past_end _ _ _ _ _ Hj Hc). reflexivity.
  - apply bind_fails_oob; [apply oob_only_rewrite_column|].
    intros J1 HJ1. apply IH; auto.
    rewrite (rewrite_column_other _ _ _ _ _ j HJ1); [exact Hj|].
    intros ->. contradiction.
Qed.

Lemma rewrite_columns_past_end T nPri nnz J (j : nat) c :
  (Z.of_nat j < nnz)%Z -> J !! j = Some c ->
  Forall (fun b => (b <= c)%Z) (drop 1 T) ->
  rewrite_columns T nPri nnz J = Fail OutOfBounds.
Proof.
  intros Hlt Hj Hc. unfold rewrite_columns, for_upto.
  apply (rewrite_loop_past_end T nPri _ J j c); auto.
  - apply elem_of_seq. lia.
  - apply NoDup_seq.
Qed.

(** The scan stops at the first boundary above the column: a column
    below TDoFPart[1] is taken to belong to rank 0, whether or not it is
    at or above TDoFPart[0], and is left as it is. *)
Lemma rewrite_column_below T nPri j J c b :
  J !! j = Some c -> T !! 1%nat = Some b -> (c < b)%Z ->
  rewrite_column T nPri j J = Ok J.
Proof.
  intros Hj Hb Hc. unfold rewrite_column. rewrite (aget_lookup _ _ _ Hj). simpl.
  destruct T as [|t0 [|t1 T']]; try discriminate Hb. injection Hb as ->. simpl.
  rewrite bool_decide_false by lia. reflexivity.
Qed.

(** C8 (as the code has it): the constructor has no PartitionInconsistency
    check; the rewrite only looks for the first boundary above the
    column.  When a nonzero of the merged operator has a column index that
    is not below any of the boundaries TDoFPart[1..] (for a sorted
    partition: at or beyond the last boundary, hence outside every rank's
    range), the boundary scan runs past the end of the partition array:
    the construction ends in the undefined out-of-bounds read and yields
    no compacted index.  When the column index is below TDoFPart[1]
    (also when it is below TDoFPart[0], outside every rank's range on
    the other side), the rewrite step returns and leaves the index as it
    is. *)
Theorem C8_stray_column_unchecked {R : Type}
    (fes : FiniteElementSpace) (env : ParEnv R) (j : nat) (c : Z) :
  (Z.of_nat j < hypre_CSRMatrixNumNonzeros (csr_P env))%Z ->
  hypre_CSRMatrixJ (csr_P env) !! j = Some c ->
  (Forall (fun b => (b <= c)%Z) (drop 1 (TDoFPart env)) ->
     ParEPDoFs_new fes env = Fail OutOfBounds) /\
  (forall b, TDoFPart env !! 1%nat = Some b -> (c < b)%Z ->
     forall nPri J, J !! j = Some c ->
       rewrite_column (TDoFPart env) nPri j J = Ok J).
Proof.
  intros Hlt Hj. split.
  - intros Hc. unfold ParEPDoFs_new.
    repeat (lazymatch goal with
            | |- rewrite_columns _ _ _ _ ≫= _ = _ => fail
            | |- _ => idtac
            end;
            apply bind_fails_oob;
            [ solve [unfold for_upto; repeat oob_step]
            | first [intros [? ?] _ | intros ? _] ]).
    rewrite (rewrite_columns_past_end _ _ _ _ j c Hlt Hj Hc). reflexivity.
  - intros b Hb Hc nPri J HJ. apply (rewrite_column_below _ _ _ _ c b); assumption.
Qed.

(** The environment [env_stray_column] has its only nonzero in column 5
    and the boundaries 0 and 3; [env_low_column] has it in column -2. *)
Lemma C8_stray_column_witness :
  ParEPDoFs_new fes_empty env_stray_column = Fail OutOfBounds /\
  rewrite_column (TDoFPart env_low_column) [0%Z] 0 [-2]%Z = Ok [-2]%Z.
Proof.
  split.
  - apply (C8_stray_column_unchecked fes_empty env_stray_column 0 5%Z).
    + simpl. lia.
    + reflexivity.
    + simpl. repeat constructor. lia.
  - apply (proj2 (C8_stray_column_unchecked fes_empty env_low_column 0 (-2)%Z
                    ltac:(simpl; lia) eq_refl) 3%Z).
    + reflexivity.
    + lia.
    + reflexivity.
Defined.

(** C8 as stated fails: column 5 lies outside the only column range
    [0, 3), yet the construction does not end with PartitionInconsistency
    (it ends in the out-of-bounds read of TDoFPart[2]); column -2 lies
    outside it too, and the construction returns, with -2 as the column
    index of the nonzero in the arrays given to Pe. *)
Lemma C8_counterexample :
  (forall r : nat, (Z.of_nat r < numProcs env_stray_column)%Z ->
     forall lo hi, TDoFPart env_stray_column !! r = Some lo ->
                   TDoFPart env_stray_column !! (S r) = Some hi ->
                   ~ (lo <= 5 < hi)%Z /\ ~ (lo <= -2 < hi)%Z) /\
  hypre_CSRMatrixJ (csr_P env_stray_column) !! 0%nat = Some 5%Z /\
  ParEPDoFs_new fes_empty env_stray_column <> Fail PartitionInconsistency /\
  TDoFPart env_low_column = TDoFPart env_stray_column /\
  hypre_CSRMatrixJ (csr_P env_low_column) !! 0%nat = Some (-2)%Z /\
  exists p, ParEPDoFs_new fes_empty env_low_column = Ok p /\
            hpm_J (Pe_ p) = [-2]%Z.
Proof.
  split; [|split; [|split; [|split; [|split]]]].
  - intros r Hr lo hi Hlo Hhi. simpl in Hr.
    assert (r = 0%nat) as -> by lia. simpl in Hlo, Hhi.
    injection Hlo as <-. injection Hhi as <-. lia.
  - reflexivity.
  - vm_compute. discriminate.
  - reflexivity.
  - reflexivity.
  - eexists. split; [vm_compute; reflexivity|]. reflexivity.
Qed.

(** ** Loops *)

Lemma for_loop_app {St} (body : nat -> St -> result St) l1 l2 s :
  for_loop body (l1 ++ l2) s = for_loop body l1 s ≫= for_loop body l2.
Proof.
  revert s. induction l1 as [|i l1 IH]; intros s; simpl; [reflexivity|].
  destruct (body i s); simpl; [apply IH | reflexivity].
Qed.

Lemma for_upto_S {St} (body : nat -> St -> result St) n s :
  for_upto (S n) body s = for_upto n body s ≫= body n.
Proof.
  unfold for_upto. rewrite seq_S, for_loop_app. simpl.
  destruct (for_loop body (seq 0 n) s); simpl; [|reflexivity].
  destruct (body n a); reflexivity.
Qed.

(** Total correctness of a counted loop from an invariant. *)
Lemma for_upto_inv {St} (P : nat -> St -> Prop) n (body : nat -> St -> result St) s :
  P 0%nat s ->
  (forall i s0, (i < n)%nat -> P i s0 -> exists s1, body i s0 = Ok s1 /\ P (S i) s1) ->
  exists s', for_upto n body s = Ok s' /\ P n s'.
Proof.
  intros H0 Hstep. induction n as [|n IH].
  - exists s. split; [reflexivity | exact H0].
  - destruct IH as (s1 & Hs1 & HP).
    { intros i s0 Hi. apply Hstep. lia. }
    destruct (Hstep n s1 ltac:(lia) HP) as (s2 & Hs2 & HP2).
    exists s2. rewrite for_upto_S, Hs1. simpl. auto.
Qed.

(** Partial correctness: what holds when the loop has run to its end. *)
Lemma for_upto_post {St} (P : nat -> St -> Prop) n (body : nat -> St -> result St) s s' :
  for_upto n body s = Ok s' ->
  P 0%nat s ->
  (forall i s0 s1, (i < n)%nat -> P i s0 -> body i s0 = Ok s1 -> P (S i) s1) ->
  P n s'.
Proof.
  revert s'. induction n as [|n IH]; intros s' Hrun H0 Hstep.
  - injection Hrun as <-. exact H0.
  - rewrite for_upto_S in Hrun.
    destruct (for_upto n body s) as [s1|] eqn:Hs1; [simpl in Hrun|discriminate].
    apply (Hstep n s1 s'); [lia| |exact Hrun].
    apply IH; [reflexivity|exact H0|]. intros i s0 s2 Hi. apply Hstep. lia.
Qed.

(** ** The private ranges (EPDoFs) *)

Lemma offset_of_S fes k :
  offset_of fes (S k) = (offset_of fes k + interiorDofs fes (Z.of_nat k))%Z.
Proof. unfold offset_of. rewrite seq_S, fold_left_app. reflexivity. Qed.

Lemma countPrivate_offset fes :
  countPrivate fes = offset_of fes (Z.to_nat (fes_GetNE fes)).
Proof. reflexivity. Qed.

(** The table built by [buildPriOffset] holds the prefix sums. *)
Lemma buildPriOffset_spec fes :
  (0 <= fes_GetNE fes)%Z ->
  exists po, buildPriOffset fes = Ok po /\
    length po = S (Z.to_nat (fes_GetNE fes)) /\
    forall k, (k <= Z.to_nat (fes_GetNE fes))%nat -> po !! k = Some (offset_of fes k).
Proof.
  intros Hne. unfold buildPriOffset.
  set (n := Z.to_nat (fes_GetNE fes)).
  replace (Z.to_nat (fes_GetNE fes + 1)) with (S n) by lia.
  assert (H0 : aset (replicate (S n) 0%Z) 0 0%Z = Ok (0%Z :: replicate n 0%Z)).
  { apply aset_Ok. split; [rewrite length_replicate; lia | reflexivity]. }
  rewrite H0. simpl.
  destruct (for_upto_inv
    (fun i p => length p = S n /\ forall k, (k <= i)%nat -> p !! k = Some (offset_of fes k))
    n
    (fun i p => pi ← aget p (Z.of_nat i);
                aset p (Z.of_nat i + 1)%Z (pi + interiorDofs fes (Z.of_nat i))%Z)
    (0%Z :: replicate n 0%Z)) as (po & Hpo & Hlen & Hval).
  - split; [simpl; rewrite length_replicate; reflexivity|].
    intros k Hk. assert (k = 0%nat) as -> by lia. reflexivity.
  - intros i p Hi [Hlen Hval].
    rewrite (aget_lookup _ _ _ (Hval i (le_n i))). simpl.
    eexists. split.
    + apply aset_Ok. split; [lia|reflexivity].
    + replace (Z.to_nat (Z.of_nat i + 1)) with (S i) by lia.
      split; [rewrite length_insert; exact Hlen|].
      intros k Hk. destruct (decide (k = S i)) as [->|Hne'].
      * rewrite list_lookup_insert_eq by lia. rewrite offset_of_S. reflexivity.
      * rewrite list_lookup_insert_ne by lia. apply Hval. lia.
  - exists po. auto.
Qed.

(** A value between the first and the last of a non-decreasing sequence
    lies in exactly one of its steps. *)
Lemma step_exists (f : nat -> Z) n x :
  (forall k, (k < n)%nat -> (f k <= f (S k))%Z) ->
  (f 0%nat <= x < f n)%Z ->
  exists e, (e < n)%nat /\ (f e <= x < f (S e))%Z.
Proof.
  intros Hmono. induction n as [|n IH]; intros Hx; [lia|].
  destruct (decide (x < f n)%Z) as [Hlt|Hge].
  - destruct IH as (e & He & Hr); [intros; apply Hmono; lia | lia |].
    exists e. split; [lia|exact Hr].
  - exists n. split; [lia|lia].
Qed.

Lemma mono_le (f : nat -> Z) n :
  (forall k, (k < n)%nat -> (f k <= f (S k))%Z) ->
  forall a b, (a <= b <= n)%nat -> (f a <= f b)%Z.
Proof.
  intros Hmono a b [Hab Hbn]. induction Hab as [|b Hab IH]; [lia|].
  specialize (Hmono b ltac:(lia)). lia.
Qed.

Lemma step_unique (f : nat -> Z) n x e1 e2 :
  (forall k, (k < n)%nat -> (f k <= f (S k))%Z) ->
  (e1 < n)%nat -> (e2 < n)%nat ->
  (f e1 <= x < f (S e1))%Z -> (f e2 <= x < f (S e2))%Z -> e1 = e2.
Proof.
  intros Hmono H1 H2 Hx1 Hx2.
  destruct (lt_eq_lt_dec e1 e2) as [[Hlt|Heq]|Hgt]; [|exact Heq|].
  - pose proof (mono_le f n Hmono (S e1) e2 ltac:(lia)). lia.
  - pose proof (mono_le f n Hmono (S e2) e1 ltac:(lia)). lia.
Qed.

(** C2: for every field space (non-negative element count and interior
    dof counts), the partition built from it has
    nExposed + nPrivate = totalDofs; the private-offset table exists,
    starts at 0, ends at nPrivate and each element's range follows the
    previous one with the element's interior dof count as its length;
    and every global dof index is either exposed (below nExposed) or in
    the private range of exactly one element, never both. *)
Theorem C2_partition_total_disjoint (fes : FiniteElementSpace) :
  (0 <= fes_GetNE fes)%Z ->
  (forall i : Z, (0 <= i < fes_GetNE fes)%Z -> (0 <= interiorDofs fes i)%Z) ->
  let d := EPDoFs_new fes in
  (GetNExposedDofs d + GetNPrivateDofs d = GetNDofs fes)%Z /\
  exists po,
    buildPriOffset fes = Ok po /\
    po !! 0%nat = Some 0%Z /\
    po !! Z.to_nat (fes_GetNE fes) = Some (GetNPrivateDofs d) /\
    (forall e : nat, (Z.of_nat e < fes_GetNE fes)%Z ->
       exists lo, po !! e = Some lo /\
                  po !! S e = Some (lo + interiorDofs fes (Z.of_nat e))%Z) /\
    (forall g : Z, (0 <= g < GetNDofs fes)%Z ->
       ((0 <= g < GetNExposedDofs d)%Z /\ forall e, ~ owns_private d po e g) \/
       (~ (g < GetNExposedDofs d)%Z /\
        exists e, owns_private d po e g /\
                  forall e', owns_private d po e' g -> e' = e)).
Proof.
  intros Hne Hcount d.
  set (n := Z.to_nat (fes_GetNE fes)).
  assert (Hstep : forall k, (k < n)%nat -> (offset_of fes k <= offset_of fes (S k))%Z).
  { intros k Hk. rewrite offset_of_S. specialize (Hcount (Z.of_nat k) ltac:(lia)). lia. }
  assert (Hexp : (GetNExposedDofs d + GetNPrivateDofs d = GetNDofs fes)%Z).
  { unfold d, GetNExposedDofs, GetNPrivateDofs, EPDoFs_new. simpl. lia. }
  assert (Hpri : GetNPrivateDofs d = offset_of fes n) by reflexivity.
  split; [exact Hexp|].
  destruct (buildPriOffset_spec fes Hne) as (po & Hpo & Hlen & Hval). fold n in Hlen, Hval.
  assert (Howns : forall e g, owns_private d po e g <->
            (e < n)%nat /\ (offset_of fes e <= g - nExposedDofs_ d < offset_of fes (S e))%Z).
  { intros e g. unfold owns_private, GetNElements. simpl. split.
    - intros (He & lo & hi & Hlo & Hhi & Hr).
      assert (e < n)%nat by lia.
      rewrite Hval in Hlo by lia. rewrite Hval in Hhi by lia.
      injection Hlo as <-. injection Hhi as <-. auto.
    - intros (He & Hr). split; [lia|].
      exists (offset_of fes e), (offset_of fes (S e)).
      rewrite !Hval by lia. auto. }
  exists po. split; [exact Hpo|]. split; [apply (Hval 0%nat); lia|].
  split; [rewrite Hpri; apply Hval; lia|]. split.
  - intros e He. exists (offset_of fes e).
    rewrite !Hval by lia. rewrite offset_of_S. auto.
  - intros g Hg.
    destruct (decide (g < GetNExposedDofs d)%Z) as [Hlt|Hge].
    + left. split; [lia|]. intros e Ho. apply Howns in Ho as (He & Hr).
      pose proof (mono_le _ n Hstep 0%nat e ltac:(lia)) as H0.
      change (offset_of fes 0) with 0%Z in H0.
      unfold GetNExposedDofs in Hlt. lia.
    + right. split; [exact Hge|].
      destruct (step_exists (offset_of fes) n (g - nExposedDofs_ d)%Z Hstep) as (e & He & Hr).
      { change (offset_of fes 0) with 0%Z.
        unfold GetNExposedDofs, GetNPrivateDofs in *. lia. }
      exists e. split; [apply Howns; auto|].
      intros e' Ho. apply Howns in Ho as (He' & Hr').
      apply (step_unique (offset_of fes) n (g - nExposedDofs_ d)%Z e' e Hstep); auto.
Qed.

(** The constructor run on [fes_three] (interior counts 1, 4, 1). *)
Lemma C2_partition_witness :
  let d := EPDoFs_new fes_three in
  (GetNExposedDofs d + GetNPrivateDofs d = GetNDofs fes_three)%Z /\
  exists po,
    buildPriOffset fes_three = Ok po /\
    po !! 0%nat = Some 0%Z /\
    po !! Z.to_nat (fes_GetNE fes_three) = Some (GetNPrivateDofs d) /\
    (forall e : nat, (Z.of_nat e < fes_GetNE fes_three)%Z ->
       exists lo, po !! e = Some lo /\
                  po !! S e = Some (lo + interiorDofs fes_three (Z.of_nat e))%Z) /\
    (forall g : Z, (0 <= g < GetNDofs fes_three)%Z ->
       ((0 <= g < GetNExposedDofs d)%Z /\ forall e, ~ owns_private d po e g) \/
       (~ (g < GetNExposedDofs d)%Z /\
        exists e, owns_private d po e g /\
                  forall e', owns_private d po e' g -> e' = e)).
Proof.
  apply (C2_partition_total_disjoint fes_three).
  - vm_compute. discriminate.
  - intros i Hi. unfold interiorDofs. simpl.
    case_bool_decide; lia.
Defined.

(** ** Two runs in lockstep *)

Lemma lock_eq {A} (m1 m2 : result A) : lock eq m1 m2 -> m1 = m2.
Proof. destruct m1, m2; simpl; intros H; congruence || contradiction. Qed.

Lemma lock_bind {A B} (Ra : A -> A -> Prop) (Rb : B -> B -> Prop)
    (m1 m2 : result A) (k1 k2 : A -> result B) :
  lock Ra m1 m2 -> (forall a b, Ra a b -> lock Rb (k1 a) (k2 b)) ->
  lock Rb (m1 ≫= k1) (m2 ≫= k2).
Proof. destruct m1, m2; simpl; intros H Hk; auto; contradiction. Qed.

Lemma lock_bind_same {A B} (Rb : B -> B -> Prop) (m : result A)
    (k1 k2 : A -> result B) :
  (forall a, m = Ok a -> lock Rb (k1 a) (k2 a)) -> lock Rb (m ≫= k1) (m ≫= k2).
Proof. destruct m; simpl; intros Hk; auto. Qed.

Lemma lock_for_loop {St} (Rl : nat -> St -> St -> Prop)
    (body1 body2 : nat -> St -> result St) idx c0 s1 s2 :
  Rl c0 s1 s2 ->
  (forall c i a b, idx !! c = Some i -> Rl (c0 + c)%nat a b ->
     lock (Rl (S (c0 + c))) (body1 i a) (body2 i b)) ->
  lock (Rl (c0 + length idx)%nat) (for_loop body1 idx s1) (for_loop body2 idx s2).
Proof.
  revert c0 s1 s2. induction idx as [|i idx IH]; intros c0 s1 s2 H0 Hstep; simpl.
  - rewrite Nat.add_0_r. exact H0.
  - apply (lock_bind (Rl (S c0))).
    + specialize (Hstep 0%nat i s1 s2 eq_refl). rewrite Nat.add_0_r in Hstep. auto.
    + intros a b Hab. replace (c0 + S (length idx))%nat with (S c0 + length idx)%nat by lia.
      apply IH; [exact Hab|].
      intros c i' a' b' Hi' Hr.
      replace (S c0 + c)%nat with (c0 + S c)%nat in * by lia.
      apply Hstep; assumption.
Qed.

Lemma lock_for_upto {St} (Rl : nat -> St -> St -> Prop)
    (body1 body2 : nat -> St -> result St) n s1 s2 :
  Rl 0%nat s1 s2 ->
  (forall i a b, (i < n)%nat -> Rl i a b -> lock (Rl (S i)) (body1 i a) (body2 i b)) ->
  lock (Rl n) (for_upto n body1 s1) (for_upto n body2 s2).
Proof.
  intros H0 Hstep. unfold for_upto.
  pose proof (lock_for_loop Rl body1 body2 (seq 0 n) 0 s1 s2 H0) as H.
  rewrite length_seq in H. simpl in H. apply H.
  intros c i a b Hi. apply lookup_seq in Hi as [-> Hlt]. simpl. apply Hstep. exact Hlt.
Qed.

(** ** The derivation does not depend on the array it is given *)

Lemma agree_upto_weaken L m m' a a' :
  (m' <= m)%Z -> agree_upto L m a a' -> agree_upto L m' a a'.
Proof.
  intros Hle (Hl & Hl' & Hag). split; [exact Hl|]. split; [exact Hl'|].
  intros i Hi. apply Hag. lia.
Qed.

Lemma agree_upto_all L m a a' :
  (Z.of_nat L <= m)%Z -> agree_upto L m a a' -> a = a'.
Proof.
  intros Hm (Hl & Hl' & Hag). apply list_eq. intros i.
  destruct (decide (i < L)%nat) as [Hi|Hi].
  - apply Hag. lia.
  - rewrite !lookup_ge_None_2 by lia. reflexivity.
Qed.

Lemma lock_weaken {A} (R1 R2 : A -> A -> Prop) m1 m2 :
  (forall a b, R1 a b -> R2 a b) -> lock R1 m1 m2 -> lock R2 m1 m2.
Proof. destruct m1, m2; simpl; auto. Qed.

Lemma lock_aset L (a a' : list Z) (i v : Z) :
  agree_upto L i a a' ->
  lock (agree_upto L (i + 1)) (aset a i v) (aset a' i v).
Proof.
  intros (Hl & Hl' & Hag). unfold aset. rewrite Hl, Hl'.
  case_bool_decide as Hb; simpl; [|reflexivity].
  split; [rewrite length_insert; exact Hl|].
  split; [rewrite length_insert; exact Hl'|].
  intros k Hk. destruct (decide (k = Z.to_nat i)) as [->|Hne].
  - rewrite !list_lookup_insert_eq by lia. reflexivity.
  - rewrite !list_lookup_insert_ne by lia. apply Hag. lia.
Qed.

Lemma lock_fill_block L (a a' : list Z) base n f :
  agree_upto L base a a' ->
  lock (agree_upto L (base + Z.max n 0)) (fill_block a base n f) (fill_block a' base n f).
Proof.
  intros H0. unfold fill_block.
  replace (base + Z.max n 0)%Z with (base + Z.of_nat (Z.to_nat n))%Z by lia.
  apply (lock_for_upto (fun j => agree_upto L (base + Z.of_nat j))).
  - replace (base + Z.of_nat 0)%Z with base by lia. exact H0.
  - intros j b b' Hj Hag. apply lock_bind_same. intros v _.
    replace (base + Z.of_nat (S j))%Z with (base + Z.of_nat j + 1)%Z by lia.
    apply lock_aset. exact Hag.
Qed.

(** A loop of block fills, block [k] starting at [base + k * w]. *)
Lemma lock_fill_blocks L (a a' : list Z) base w K
    (blk : nat -> list Z -> result (list Z)) :
  (0 <= w)%Z ->
  (forall k b b', agree_upto L (base + Z.of_nat k * w) b b' ->
     lock (agree_upto L (base + Z.of_nat k * w + Z.max w 0)) (blk k b) (blk k b')) ->
  agree_upto L base a a' ->
  lock (agree_upto L (base + Z.of_nat K * w)) (for_upto K blk a) (for_upto K blk a').
Proof.
  intros Hw Hblk H0.
  apply (lock_for_upto (fun k => agree_upto L (base + Z.of_nat k * w))).
  - replace (base + Z.of_nat 0 * w)%Z with base by lia. exact H0.
  - intros k b b' Hk Hag.
    replace (base + Z.of_nat (S k) * w)%Z with (base + Z.of_nat k * w + Z.max w 0)%Z by lia.
    apply Hblk. exact Hag.
Qed.

Lemma length_Array_SetSize a nd : length (Array_SetSize a nd) = Z.to_nat nd.
Proof.
  unfold Array_SetSize. rewrite length_app, length_take, length_replicate. lia.
Qed.

Lemma deriveElementDofs_any_array fes elem old old' :
  fec_counts_nonneg (FEColl fes) ->
  deriveElementDofs fes elem old = deriveElementDofs fes elem old'.
Proof.
  intros Hwf. apply lock_eq. unfold deriveElementDofs.
  set (mesh := GetMesh fes). set (fec := FEColl fes).
  set (nv := DofForGeometry fec POINT).
  set (ne := if bool_decide (Dimension mesh > 1)%Z then DofForGeometry fec SEGMENT else 0%Z).
  assert (Hnv : (0 <= nv)%Z) by apply Hwf.
  assert (Hne : (0 <= ne)%Z).
  { unfold ne. case_bd; [apply Hwf|lia]. }
  set (V := if bool_decide (nv > 0)%Z then GetElementVertices mesh elem else []).
  assert (HV : nv = 0%Z -> V = []).
  { intros H0. unfold V. rewrite bool_decide_false by lia. reflexivity. }
  destruct (if bool_decide (ne > 0)%Z then GetElementEdges mesh elem else ([], []))
    as [E Eo] eqn:HE.
  assert (HE0 : ne = 0%Z -> E = []).
  { intros H0. rewrite bool_decide_false in HE by lia. congruence. }
  apply lock_bind_same. intros [[F Fo] nf] HF.
  assert (Hnf : (0 <= nf)%Z).
  { revert HF. case_bd; [|intros ?; simplify_eq; lia].
    destruct (HasFaceDofs _ _); [|intros ?; simplify_eq; lia].
    destruct (GetElementFaces mesh elem) as [F' Fo'].
    destruct (aget F' 0%Z); simpl; [|discriminate]. intros ?; simplify_eq. apply Hwf. }
  set (sV := Z.of_nat (length V)). set (sE := Z.of_nat (length E)).
  set (sF := Z.of_nat (length F)).
  set (nd := (sV * nv + sE * ne + sF * nf)%Z).
  set (L := Z.to_nat nd).
  assert (Hag0 : agree_upto L 0 (Array_SetSize old nd) (Array_SetSize old' nd)).
  { split; [apply length_Array_SetSize|]. split; [apply length_Array_SetSize|].
    intros i Hi. lia. }
  apply (lock_bind (fun x y => agree_upto L (sV * nv) x.1 y.1
                               /\ x.2 = y.2 /\ x.2 = (sV * nv)%Z)).
  { case_bd.
    - apply (lock_bind (agree_upto L (sV * nv))).
      + pose proof (lock_fill_blocks L (Array_SetSize old nd) (Array_SetSize old' nd)
                      0 nv (length V)) as H.
        simpl in H. apply H; [lia| |exact Hag0].
        intros k b b' Hag. apply lock_fill_block. exact Hag.
      + intros b b' Hag. simpl. split; [exact Hag|]. split; [reflexivity|lia].
    - simpl. assert (nv = 0%Z) as Hz by lia. unfold sV. rewrite (HV Hz). simpl.
      split; [exact Hag0|]. split; [reflexivity|lia]. }
  intros [a1 nv1] [a1' nv1'] (Hag1 & Heq & Hnv1). simpl in Hag1, Heq, Hnv1. subst nv1' nv1.
  apply (lock_bind (agree_upto L (sV * nv + sE * ne))).
  { case_bd.
    - apply lock_fill_blocks; [lia| |exact Hag1].
      intros k b b' Hag. apply lock_bind_same. intros eo _.
      apply lock_fill_block. exact Hag.
    - simpl. assert (ne = 0%Z) as Hz by lia. unfold sE. rewrite (HE0 Hz). simpl.
      rewrite Z.add_0_r. exact Hag1. }
  intros a2 a2' Hag2.
  case_bd.
  - apply (lock_weaken (agree_upto L (sV * nv + ne * sE + sF * nf))).
    { intros b b'. apply agree_upto_all. lia. }
    apply lock_fill_blocks; [lia| |].
    + intros k b b' Hag. apply lock_bind_same. intros fk _.
      apply lock_bind_same. intros fo _. apply lock_fill_block. exact Hag.
    + eapply agree_upto_weaken; [|exact Hag2]. lia.
  - simpl. apply (agree_upto_all L (sV * nv + sE * ne)); [|exact Hag2].
    assert (nf = 0%Z) by lia. lia.
Qed.

Lemma for_loop_inv {St} (P : nat -> St -> Prop) (body : nat -> St -> result St) idx s :
  P 0%nat s ->
  (forall c i s0, idx !! c = Some i -> P c s0 ->
     exists s1, body i s0 = Ok s1 /\ P (S c) s1) ->
  exists s', for_loop body idx s = Ok s' /\ P (length idx) s'.
Proof.
  revert P s. induction idx as [|i idx IH]; intros P s H0 Hstep; simpl.
  - exists s. auto.
  - destruct (Hstep 0%nat i s eq_refl H0) as (s1 & Hs1 & HP1).
    rewrite Hs1. simpl.
    apply (IH (fun c => P (S c))); [exact HP1|].
    intros c j s0 Hj HP. apply (Hstep (S c)); assumption.
Qed.

(** ** The element-to-dof table *)

(** [for (q = 0; q < nc; q++) J[start + q] = c[q]]: the block is
    written, the rest of the array is left as it was. *)
Lemma write_block (J c : list Z) (start : nat) :
  (start + length c <= length J)%nat ->
  exists J',
    for_upto (length c)
      (fun q J0 => ci ← aget c (Z.of_nat q);
                   aset J0 (Z.of_nat start + Z.of_nat q)%Z ci) J = Ok J' /\
    length J' = length J /\
    (forall q, (q < length c)%nat -> J' !! (start + q)%nat = c !! q) /\
    (forall p, (p < start \/ start + length c <= p)%nat -> J' !! p = J !! p).
Proof.
  intros Hfit.
  destruct (for_upto_inv
    (fun m J0 => length J0 = length J /\
       (forall q, (q < m)%nat -> J0 !! (start + q)%nat = c !! q) /\
       (forall p, (p < start \/ start + m <= p)%nat -> J0 !! p = J !! p))
    (length c)
    (fun q J0 => ci ← aget c (Z.of_nat q);
                 aset J0 (Z.of_nat start + Z.of_nat q)%Z ci) J)
    as (J' & Hrun & Hlen & Hblk & Hrest).
  - split; [reflexivity|]. split; [intros q Hq; lia|]. intros p _. reflexivity.
  - intros m J0 Hm (Hlen & Hblk & Hrest).
    destruct (lookup_lt_is_Some_2 c m Hm) as [x Hx].
    rewrite (aget_lookup _ _ _ Hx). simpl.
    eexists. split; [apply aset_Ok; split; [lia|reflexivity]|].
    replace (Z.to_nat (Z.of_nat start + Z.of_nat m)) with (start + m)%nat by lia.
    split; [rewrite length_insert; exact Hlen|]. split.
    + intros q Hq. destruct (decide (q = m)) as [->|Hne].
      * rewrite list_lookup_insert_eq by lia. symmetry. exact Hx.
      * rewrite list_lookup_insert_ne by lia. apply Hblk. lia.
    + intros p Hp. rewrite list_lookup_insert_ne by lia. apply Hrest. lia.
  - exists J'. auto.
Qed.

Section TableBuild.
(** [rows i] is what row [i] has to hold, for [i < n]. *)
Variable n : nat.
Variable rows : nat -> list Z.

Lemma row_off_S k : (row_off rows) (S k) = ((row_off rows) k + (row_len rows) k)%Z.
Proof. unfold row_off. rewrite seq_S, fold_left_app. reflexivity. Qed.

Lemma row_off_nonneg k : (0 <= (row_off rows) k)%Z.
Proof.
  induction k as [|k IH]; [unfold row_off; simpl; lia|].
  rewrite row_off_S. unfold row_len. lia.
Qed.

Lemma row_off_mono a b : (a <= b)%nat -> ((row_off rows) a <= (row_off rows) b)%Z.
Proof.
  induction 1 as [|b Hab IH]; [lia|]. rewrite row_off_S. unfold row_len. lia.
Qed.

Lemma I_holds_update I f (k : nat) v :
  (I_holds n) I f -> (k <= n)%nat ->
  exists I', aset I (Z.of_nat k) v = Ok I' /\
             (I_holds n) I' (fun j => if decide (j = k) then v else f j).
Proof.
  intros [Hlen Hval] Hk. eexists. split; [apply aset_Ok; split; [lia|reflexivity]|].
  rewrite Nat2Z.id. split; [rewrite length_insert; exact Hlen|].
  intros j Hj. destruct (decide (j = k)) as [->|Hne].
  - apply list_lookup_insert_eq. lia.
  - rewrite list_lookup_insert_ne by lia. apply Hval. exact Hj.
Qed.

Lemma I_holds_ext I f g :
  (I_holds n) I f -> (forall k, (k <= n)%nat -> f k = g k) -> (I_holds n) I g.
Proof.
  intros [Hlen Hval] Hfg. split; [exact Hlen|].
  intros k Hk. rewrite Hval by exact Hk. rewrite Hfg by exact Hk. reflexivity.
Qed.

Lemma I_holds_get I f (k : nat) :
  (I_holds n) I f -> (k <= n)%nat -> aget I (Z.of_nat k) = Ok (f k).
Proof. intros [_ Hval] Hk. apply aget_lookup, Hval, Hk. Qed.

(** The first pass: the counters hold the row sizes. *)
Lemma count_pass (getdofs : nat -> list Z -> result (list Z)) :
  (forall i old, (i < n)%nat -> getdofs i old = Ok (rows i)) ->
  exists t dofs,
    for_upto n
      (fun i '(t, dofs) =>
         dofs' ← getdofs i dofs;
         t' ← Table_AddColumnsInRow t (Z.of_nat i) (Z.of_nat (length dofs'));
         Ok (t', dofs'))
      (Table_MakeI (Z.of_nat n), []) = Ok (t, dofs) /\
    tsize t = n /\ tJ t = [] /\
    (I_holds n) (tI t) (fun k => if decide (k < n)%nat then (row_len rows) k else 0%Z).
Proof.
  intros Hget.
  destruct (for_upto_inv
    (fun i (s : Table * list Z) =>
       tsize s.1 = n /\ tJ s.1 = [] /\
       (I_holds n) (tI s.1) (fun k => if decide (k < i)%nat then (row_len rows) k else 0%Z))
    n
    (fun i '(t, dofs) =>
         dofs' ← getdofs i dofs;
         t' ← Table_AddColumnsInRow t (Z.of_nat i) (Z.of_nat (length dofs'));
         Ok (t', dofs'))
    (Table_MakeI (Z.of_nat n), [])) as ([t dofs] & Hrun & Hsz & HJ & HI).
  - unfold Table_MakeI. cbn [fst tsize tJ tI]. rewrite Nat2Z.id.
    split; [reflexivity|]. split; [reflexivity|].
    split; [rewrite length_replicate; reflexivity|].
    intros k Hk. rewrite lookup_replicate_2 by lia.
    destruct (decide (k < 0)%nat); [lia|reflexivity].
  - intros i [t dofs] Hi (Hsz & HJ & HI). simpl in Hsz, HJ, HI.
    rewrite (Hget i dofs Hi). simpl. unfold Table_AddColumnsInRow.
    rewrite (I_holds_get _ _ i HI) by lia. simpl.
    destruct (I_holds_update _ _ i
                ((if decide (i < i)%nat then (row_len rows) i else 0) + (row_len rows) i)%Z HI)
      as (I' & HI' & Hnew); [lia|].
    fold ((row_len rows) i). rewrite HI'. simpl.
    eexists. split; [reflexivity|]. simpl.
    split; [exact Hsz|]. split; [exact HJ|].
    eapply I_holds_ext; [exact Hnew|].
    intros k Hk. simpl.
    destruct (decide (k = i)) as [->|Hne].
    + destruct (decide (i < i)%nat); [lia|].
      destruct (decide (i < S i)%nat); [lia|lia].
    + destruct (decide (k < i)%nat), (decide (k < S i)%nat); lia || reflexivity.
  - exists t, dofs. auto.
Qed.

(** [MakeJ]: the counters become the offsets. *)
Lemma MakeJ_offsets t :
  tsize t = n -> tJ t = [] ->
  (I_holds n) (tI t) (fun k => if decide (k < n)%nat then (row_len rows) k else 0%Z) ->
  exists t', Table_MakeJ t = Ok t' /\
    tsize t' = n /\ tJ t' = replicate (Z.to_nat ((row_off rows) n)) 0%Z /\
    (I_holds n) (tI t') (row_off rows).
Proof.
  intros Hsz HJ HI. unfold Table_MakeJ. rewrite Hsz.
  destruct (for_upto_inv
    (fun i (s : list Z * Z) =>
       s.2 = (row_off rows) i /\
       (I_holds n) s.1 (fun k => if decide (k < i)%nat then (row_off rows) k
                             else if decide (k < n)%nat then (row_len rows) k else 0%Z))
    n
    (fun i '(I0, k) =>
       j ← aget I0 (Z.of_nat i);
       I1 ← aset I0 (Z.of_nat i) k;
       Ok (I1, (k + j)%Z))
    (tI t, 0%Z)) as ([I' k] & Hrun & Hk & HI').
  - simpl. split; [reflexivity|].
    eapply I_holds_ext; [exact HI|]. intros k Hk. simpl.
    destruct (decide (k < 0)%nat); [lia|reflexivity].
  - intros i [I0 k] Hi (Hk & HI0). simpl in Hk, HI0. subst k.
    rewrite (I_holds_get _ _ i HI0) by lia. simpl.
    destruct (decide (i < i)%nat); [lia|]. destruct (decide (i < n)%nat); [|lia].
    destruct (I_holds_update _ _ i ((row_off rows) i) HI0) as (I1 & HI1 & Hnew); [lia|].
    rewrite HI1. simpl. eexists. split; [reflexivity|]. simpl.
    split; [rewrite row_off_S; reflexivity|].
    eapply I_holds_ext; [exact Hnew|]. intros k Hk. simpl.
    destruct (decide (k = i)) as [->|Hne].
    + destruct (decide (i < S i)%nat); [reflexivity|lia].
    + destruct (decide (k < i)%nat), (decide (k < S i)%nat); lia || reflexivity.
  - rewrite Hrun. simpl. simpl in Hk, HI'. subst k.
    destruct (I_holds_update _ _ n ((row_off rows) n) HI') as (I2 & HI2 & Hnew); [lia|].
    rewrite HI2. simpl. eexists. split; [reflexivity|]. simpl.
    split; [reflexivity|]. split; [reflexivity|].
    eapply I_holds_ext; [exact Hnew|]. intros k Hk. simpl.
    destruct (decide (k = n)) as [->|Hne]; [reflexivity|].
    destruct (decide (k < n)%nat); [reflexivity|lia].
Qed.

Lemma AddConnections_row t (i : nat) :
  (i < n)%nat -> tsize t = n ->
  (I_holds n) (tI t) (fun k => if decide (k < i)%nat then (row_off rows) (S k) else (row_off rows) k) ->
  (J_holds n rows) i (tJ t) ->
  exists t',
    Table_AddConnections t (Z.of_nat i) (rows i) (Z.of_nat (length (rows i))) = Ok t' /\
    tsize t' = n /\
    (I_holds n) (tI t') (fun k => if decide (k < S i)%nat then (row_off rows) (S k) else (row_off rows) k) /\
    (J_holds n rows) (S i) (tJ t').
Proof.
  intros Hi Hsz HI [HJlen HJ]. unfold Table_AddConnections.
  rewrite (I_holds_get _ _ i HI) by lia. simpl.
  destruct (decide (i < i)%nat); [lia|].
  rewrite Nat2Z.id.
  pose proof (row_off_nonneg i) as Hnn.
  pose proof (row_off_S i) as HS. unfold row_len in HS.
  pose proof (row_off_mono (S i) n ltac:(lia)) as Hmono.
  destruct (write_block (tJ t) (rows i) (Z.to_nat ((row_off rows) i))) as
    (J' & Hrun & Hlen' & Hblk & Hrest); [lia|].
  rewrite Z2Nat.id in Hrun by exact Hnn. rewrite Hrun. simpl.
  destruct (I_holds_update _ _ i ((row_off rows) i + Z.of_nat (length (rows i)))%Z HI)
    as (I' & HI' & Hnew); [lia|].
  rewrite HI'. simpl. eexists. split; [reflexivity|]. simpl.
  split; [exact Hsz|]. split.
  - eapply I_holds_ext; [exact Hnew|]. intros k Hk. simpl.
    destruct (decide (k = i)) as [->|Hne].
    + destruct (decide (i < S i)%nat); [|lia]. rewrite HS. reflexivity.
    + destruct (decide (k < i)%nat), (decide (k < S i)%nat); lia || reflexivity.
  - split; [rewrite Hlen'; exact HJlen|].
    intros k q Hk Hq. destruct (decide (k = i)) as [->|Hne].
    + apply Hblk. exact Hq.
    + rewrite Hrest; [apply HJ; [lia|exact Hq]|].
      left. pose proof (row_off_mono (S k) i ltac:(lia)) as Hm.
      pose proof (row_off_S k) as HSk. unfold row_len in HSk.
      pose proof (row_off_nonneg k). lia.
Qed.

(** The second pass: every row is written and the offsets have moved
    one row up. *)
Lemma fill_pass (getdofs : nat -> list Z -> result (list Z)) t0 dofs0 :
  (forall i old, (i < n)%nat -> getdofs i old = Ok (rows i)) ->
  tsize t0 = n -> tJ t0 = replicate (Z.to_nat ((row_off rows) n)) 0%Z ->
  (I_holds n) (tI t0) (row_off rows) ->
  exists t dofs,
    for_upto n
      (fun i '(t, dofs) =>
         dofs' ← getdofs i dofs;
         t' ← Table_AddConnections t (Z.of_nat i) dofs' (Z.of_nat (length dofs'));
         Ok (t', dofs'))
      (t0, dofs0) = Ok (t, dofs) /\
    tsize t = n /\
    (I_holds n) (tI t) (fun k => if decide (k < n)%nat then (row_off rows) (S k) else (row_off rows) k) /\
    (J_holds n rows) n (tJ t).
Proof.
  intros Hget Hsz HJ0 HI0.
  destruct (for_upto_inv
    (fun i (s : Table * list Z) =>
       tsize s.1 = n /\
       (I_holds n) (tI s.1) (fun k => if decide (k < i)%nat then (row_off rows) (S k) else (row_off rows) k) /\
       (J_holds n rows) i (tJ s.1))
    n
    (fun i '(t, dofs) =>
         dofs' ← getdofs i dofs;
         t' ← Table_AddConnections t (Z.of_nat i) dofs' (Z.of_nat (length dofs'));
         Ok (t', dofs'))
    (t0, dofs0)) as ([t dofs] & Hrun & Hsz' & HI & HJ).
  - simpl. split; [exact Hsz|]. split.
    + eapply I_holds_ext; [exact HI0|]. intros k _. simpl.
      destruct (decide (k < 0)%nat); [lia|reflexivity].
    + split; [rewrite HJ0, length_replicate; reflexivity|]. intros k q Hk. lia.
  - intros i [t dofs] Hi (Hsz' & HI & HJ). simpl in Hsz', HI, HJ.
    rewrite (Hget i dofs Hi). simpl.
    destruct (AddConnections_row t i Hi Hsz' HI HJ) as (t' & Ht' & H1 & H2 & H3).
    rewrite Ht'. simpl. eexists. split; [reflexivity|]. simpl. auto.
  - exists t, dofs. auto.
Qed.

(** [ShiftUpI]: the offsets move back down. *)
Lemma ShiftUpI_offsets t :
  tsize t = n ->
  (I_holds n) (tI t) (fun k => if decide (k < n)%nat then (row_off rows) (S k) else (row_off rows) k) ->
  exists t', Table_ShiftUpI t = Ok t' /\
    tsize t' = n /\ tJ t' = tJ t /\ (I_holds n) (tI t') (row_off rows).
Proof.
  intros Hsz HI. unfold Table_ShiftUpI. rewrite Hsz.
  destruct (for_loop_inv
    (fun c I0 =>
       (I_holds n) I0 (fun k => if decide (n - c < k)%nat then (row_off rows) k
                            else if decide (k < n)%nat then (row_off rows) (S k) else (row_off rows) k))
    (fun i I0 => p ← aget I0 (Z.of_nat i - 1)%Z; aset I0 (Z.of_nat i) p)
    (reverse (seq 1 n)) (tI t)) as (I' & Hrun & HI').
  - eapply I_holds_ext; [exact HI|]. intros k Hk. simpl.
    destruct (decide (n - 0 < k)%nat); [lia|reflexivity].
  - intros c i I0 Hci HI0.
    apply reverse_lookup_Some in Hci as [Hci Hc]. rewrite length_seq in Hci, Hc.
    apply lookup_seq in Hci as [-> _].
    replace (Z.of_nat (1 + (n - S c)) - 1)%Z with (Z.of_nat (n - S c)) by lia.
    rewrite (I_holds_get _ _ _ HI0) by lia. cbn [mbind result_bind].
    destruct (decide (n - c < n - S c)%nat); [lia|].
    destruct (decide (n - S c < n)%nat); [|lia].
    destruct (I_holds_update _ _ (1 + (n - S c)) ((row_off rows) (S (n - S c))) HI0)
      as (I1 & HI1 & Hnew); [lia|].
    rewrite HI1. eexists. split; [reflexivity|].
    eapply I_holds_ext; [exact Hnew|]. intros k Hk. simpl.
    destruct (decide (k = S (n - S c))) as [->|Hne].
    + destruct (decide (n - S c < S (n - S c))%nat); [reflexivity|lia].
    + destruct (decide (n - c < k)%nat), (decide (n - S c < k)%nat);
        lia || reflexivity.
  - rewrite Hrun. simpl. rewrite length_reverse, length_seq in HI'.
    destruct (I_holds_update _ _ 0 0%Z HI') as (I2 & HI2 & Hnew); [lia|].
    change (Z.of_nat 0) with 0%Z in HI2. rewrite HI2. simpl.
    eexists. split; [reflexivity|]. simpl.
    split; [reflexivity|]. split; [reflexivity|].
    eapply I_holds_ext; [exact Hnew|]. intros k Hk. simpl.
    destruct (decide (k = 0%nat)) as [->|Hne]; [reflexivity|].
    destruct (decide (n - n < k)%nat); [reflexivity|lia].
Qed.

(** [GetRow] on a finished table returns the row. *)
Lemma GetRow_row t (i : nat) :
  (i < n)%nat -> (I_holds n) (tI t) (row_off rows) -> (J_holds n rows) n (tJ t) ->
  Table_GetRow t (Z.of_nat i) = Ok (rows i).
Proof.
  intros Hi HI [HJlen HJ]. unfold Table_GetRow.
  rewrite (I_holds_get _ _ i HI) by lia. simpl.
  replace (Z.of_nat i + 1)%Z with (Z.of_nat (S i)) by lia.
  rewrite (I_holds_get _ _ (S i) HI) by lia. simpl.
  rewrite row_off_S. unfold row_len.
  replace (Z.to_nat ((row_off rows) i + Z.of_nat (length (rows i)) - (row_off rows) i))
    with (length (rows i)) by lia.
  pose proof (row_off_nonneg i) as Hnn.
  destruct (for_upto_inv
    (fun k row => row = take k (rows i))
    (length (rows i))
    (fun k row => x ← aget (tJ t) ((row_off rows) i + Z.of_nat k)%Z; Ok (row ++ [x]))
    []) as (row & Hrun & Hrow).
  - reflexivity.
  - intros k row Hk ->.
    destruct (lookup_lt_is_Some_2 (rows i) k Hk) as [x Hx].
    assert (Hget : aget (tJ t) ((row_off rows) i + Z.of_nat k)%Z = Ok x).
    { apply aget_Ok. split; [lia|].
      replace (Z.to_nat ((row_off rows) i + Z.of_nat k)) with (Z.to_nat ((row_off rows) i) + k)%nat by lia.
      rewrite HJ by assumption. exact Hx. }
    rewrite Hget. simpl. eexists. split; [reflexivity|].
    symmetry. apply take_S_r. exact Hx.
  - rewrite Hrun, Hrow. rewrite firstn_all. reflexivity.
Qed.

End TableBuild.

Lemma for_upto_ext {St} (body1 body2 : nat -> St -> result St) n s :
  (forall i s0, (i < n)%nat -> body1 i s0 = body2 i s0) ->
  for_upto n body1 s = for_upto n body2 s.
Proof.
  intros Hext. induction n as [|n IH]; [reflexivity|].
  rewrite !for_upto_S, IH by (intros; apply Hext; lia).
  destruct (for_upto n body2 s); simpl; [apply Hext; lia | reflexivity].
Qed.

(** ** GetElementDofs and the table *)

(** Without a table, [GetElementDofs] derives the ids and leaves the
    object as it is. *)
Lemma GetElementDofs_derives this elem old ids :
  expDoFsByElem_ this = None ->
  deriveElementDofs (fes_ this) elem old = Ok ids ->
  GetElementDofs this elem old = Ok (this, ids).
Proof. intros Hnone Hd. unfold GetElementDofs. rewrite Hnone, Hd. reflexivity. Qed.

Lemma Table_MakeI_to_nat nrows :
  Table_MakeI nrows = Table_MakeI (Z.of_nat (Z.to_nat nrows)).
Proof. unfold Table_MakeI. rewrite Nat2Z.id. reflexivity. Qed.

(** What [BuildElementToDofTable] builds, when every element's ids can
    be derived: a table whose row [i] is the derived array of [i]. *)
Lemma BuildElementToDofTable_rows (this : EPDoFs) (rows : nat -> list Z) :
  expDoFsByElem_ this = None ->
  (forall (i : nat) old, (Z.of_nat i < GetNE (GetMesh (fes_ this)))%Z ->
     deriveElementDofs (fes_ this) (Z.of_nat i) old = Ok (rows i)) ->
  exists t,
    BuildElementToDofTable this =
      Ok {| fes_ := fes_ this;
            nExposedDofs_ := nExposedDofs_ this;
            nPrivateDofs_ := nPrivateDofs_ this;
            expDoFsByElem_ := Some t;
            priOffset_ := priOffset_ this |} /\
    forall i : nat, (Z.of_nat i < GetNE (GetMesh (fes_ this)))%Z ->
      Table_GetRow t (Z.of_nat i) = Ok (rows i).
Proof.
  intros Hnone Hrows. unfold BuildElementToDofTable. rewrite Hnone.
  set (n := Z.to_nat (GetNE (GetMesh (fes_ this)))).
  assert (Hget : forall (i : nat) old, (i < n)%nat ->
            GetElementDofs this (Z.of_nat i) old = Ok (this, rows i)).
  { intros i old Hi. apply GetElementDofs_derives; [exact Hnone|].
    apply Hrows. lia. }
  rewrite Table_MakeI_to_nat. fold n.
  destruct (count_pass n rows (fun i _ => Ok (rows i))) as (t1 & d1 & Hp1 & Hsz1 & HJ1 & HI1);
    [reflexivity|].
  rewrite (for_upto_ext _
    (fun i '(t, dofs) =>
       dofs' ← (fun i (_ : list Z) => Ok (rows i)) i dofs;
       t' ← Table_AddColumnsInRow t (Z.of_nat i) (Z.of_nat (length dofs'));
       Ok (t', dofs'))).
  2:{ intros i [t dofs] Hi. rewrite (Hget i dofs Hi). reflexivity. }
  rewrite Hp1. cbn [mbind result_bind].
  destruct (MakeJ_offsets n rows t1 Hsz1 HJ1 HI1) as (t2 & Ht2 & Hsz2 & HJ2 & HI2).
  rewrite Ht2. cbn [mbind result_bind].
  destruct (fill_pass n rows (fun i _ => Ok (rows i)) t2 d1) as
    (t3 & d3 & Hp3 & Hsz3 & HI3 & HJ3); [reflexivity|exact Hsz2|exact HJ2|exact HI2|].
  rewrite (for_upto_ext _
    (fun i '(t, dofs) =>
       dofs' ← (fun i (_ : list Z) => Ok (rows i)) i dofs;
       t' ← Table_AddConnections t (Z.of_nat i) dofs' (Z.of_nat (length dofs'));
       Ok (t', dofs'))).
  2:{ intros i [t dofs] Hi. rewrite (Hget i dofs Hi). reflexivity. }
  rewrite Hp3. cbn [mbind result_bind].
  destruct (ShiftUpI_offsets n rows t3 Hsz3 HI3) as (t4 & Ht4 & Hsz4 & HJ4 & HI4).
  rewrite Ht4. cbn [mbind result_bind].
  exists t4. split; [reflexivity|].
  intros i Hi. apply (GetRow_row n rows); [lia|exact HI4|rewrite HJ4; exact HJ3].
Qed.

(** C9 (as the code has it): a call of GetElementDofs never builds the
    table, it derives the ids each time and leaves the object as it is;
    the table is built by BuildElementToDofTable only.  Once that has
    run (it does, when every dof count is non-negative and the ids of
    every element can be derived), every call returns by table lookup
    exactly the ordered sign-tagged array that the direct derivation
    returns, whatever array the caller passes in. *)
Theorem C9_lookup_after_build_equals_derivation (this : EPDoFs) :
  expDoFsByElem_ this = None ->
  fec_counts_nonneg (FEColl (fes_ this)) ->
  (forall i : Z, (0 <= i < GetNElements this)%Z ->
     exists ids, deriveElementDofs (fes_ this) i [] = Ok ids) ->
  exists this' t,
    BuildElementToDofTable this = Ok this' /\
    expDoFsByElem_ this' = Some t /\
    forall (elem : Z) (old old' : list Z), (0 <= elem < GetNElements this)%Z ->
      exists ids,
        deriveElementDofs (fes_ this) elem old = Ok ids /\
        GetElementDofs this elem old = Ok (this, ids) /\
        Table_GetRow t elem = Ok ids /\
        GetElementDofs this' elem old' = Ok (this', ids).
Proof.
  intros Hnone Hwf Hder.
  set (rows := fun i : nat =>
         match deriveElementDofs (fes_ this) (Z.of_nat i) [] with
         | Ok ids => ids
         | Fail _ => []
         end).
  assert (Hrows : forall (i : nat) old, (Z.of_nat i < GetNE (GetMesh (fes_ this)))%Z ->
            deriveElementDofs (fes_ this) (Z.of_nat i) old = Ok (rows i)).
  { intros i old Hi.
    rewrite (deriveElementDofs_any_array _ _ old [] Hwf).
    destruct (Hder (Z.of_nat i)) as [ids Hids]; [unfold GetNElements, fes_GetNE; lia|].
    unfold rows. rewrite Hids. reflexivity. }
  destruct (BuildElementToDofTable_rows this rows Hnone Hrows) as (t & Hbuild & Hrow).
  eexists. exists t. split; [exact Hbuild|]. split; [reflexivity|].
  intros elem old old' Helem. unfold GetNElements, fes_GetNE in Helem.
  exists (rows (Z.to_nat elem)).
  assert (He : elem = Z.of_nat (Z.to_nat elem)) by lia.
  assert (Hd : deriveElementDofs (fes_ this) elem old = Ok (rows (Z.to_nat elem))).
  { rewrite He at 1. apply Hrows. lia. }
  assert (Hr : Table_GetRow t elem = Ok (rows (Z.to_nat elem))).
  { rewrite He at 1. apply Hrow. lia. }
  split; [exact Hd|]. split; [apply GetElementDofs_derives; assumption|].
  split; [exact Hr|].
  unfold GetElementDofs. cbn [expDoFsByElem_]. rewrite Hr. reflexivity.
Qed.

Lemma fec_interior_nonneg : fec_counts_nonneg fec_interior.
Proof. intros g. destruct g; simpl; lia. Qed.

(** The space [fes_three]: three elements, ids from the vertices. *)
Lemma C9_lookup_witness :
  exists this' t,
    BuildElementToDofTable (EPDoFs_new fes_three) = Ok this' /\
    expDoFsByElem_ this' = Some t /\
    forall (elem : Z) (old old' : list Z),
      (0 <= elem < GetNElements (EPDoFs_new fes_three))%Z ->
      exists ids,
        deriveElementDofs (fes_ (EPDoFs_new fes_three)) elem old = Ok ids /\
        GetElementDofs (EPDoFs_new fes_three) elem old = Ok (EPDoFs_new fes_three, ids) /\
        Table_GetRow t elem = Ok ids /\
        GetElementDofs this' elem old' = Ok (this', ids).
Proof.
  apply (C9_lookup_after_build_equals_derivation (EPDoFs_new fes_three)).
  - reflexivity.
  - exact fec_interior_nonneg.
  - intros i Hi. change (GetNElements (EPDoFs_new fes_three)) with 3%Z in Hi.
    assert (i = 0 \/ i = 1 \/ i = 2)%Z as [->|[->| ->]] by lia;
      eexists; vm_compute; reflexivity.
Defined.

(** C9 as stated fails: the first call of GetElementDofs on a freshly
    constructed object returns the derived ids of element 0 and leaves
    the object without a table (nothing has been cached). *)
Lemma C9_counterexample :
  exists this' ids,
    GetElementDofs (EPDoFs_new fes_three) 0%Z [] = Ok (this', ids) /\
    ids = [0; 1; 2]%Z /\
    expDoFsByElem_ this' = None.
Proof. eexists. eexists. split; [vm_compute; reflexivity|]. split; reflexivity. Qed.

(** ** initFromInterleavedVector and sign-tagged ids *)

(** On an element without sign-tagged ids the loop over the exposed
    local dofs does what the specification says: slot [expDoFs[j]] of
    the exposed vector receives [x[allDoFs[j]]], unchanged (from the
    last j that names the slot), and the other slots are left alone. *)
Lemma copyExposed_nonneg {R} (x : list R) (allDoFs expDoFs : list Z) (xE : list R) :
  (length expDoFs <= length allDoFs)%nat ->
  Forall (fun a => (0 <= a < Z.of_nat (length x))%Z) allDoFs ->
  Forall (fun e => (0 <= e < Z.of_nat (length xE))%Z) expDoFs ->
  exists xE', copyExposed x allDoFs expDoFs xE = Ok xE' /\
    length xE' = length xE /\
    (forall j a e, allDoFs !! j = Some a -> expDoFs !! j = Some e ->
       (forall j', (j < j')%nat -> expDoFs !! j' <> Some e) ->
       xE' !! Z.to_nat e = x !! Z.to_nat a) /\
    (forall p : nat, (forall j, expDoFs !! j <> Some (Z.of_nat p)) -> xE' !! p = xE !! p).
Proof.
  intros Hlen Hall Hexp. unfold copyExposed.
  destruct (for_upto_inv
    (fun m xE0 =>
       length xE0 = length xE /\
       (forall j a e, (j < m)%nat -> allDoFs !! j = Some a -> expDoFs !! j = Some e ->
          (forall j', (j < j' < m)%nat -> expDoFs !! j' <> Some e) ->
          xE0 !! Z.to_nat e = x !! Z.to_nat a) /\
       (forall p : nat, (forall j, (j < m)%nat -> expDoFs !! j <> Some (Z.of_nat p)) ->
          xE0 !! p = xE !! p))
    (length expDoFs)
    (fun j xE0 =>
       a ← aget allDoFs (Z.of_nat j);
       e ← aget expDoFs (Z.of_nat j);
       if bool_decide (a >= 0)%Z
       then v ← aget x a; aset xE0 e v
       else v ← aget x (1 - a)%Z; aset xE0 (1 - e)%Z v)
    xE) as (xE' & Hrun & Hl & Hset & Hkeep).
  - split; [reflexivity|]. split; [intros; lia|]. reflexivity.
  - intros m xE0 Hm (Hl0 & Hset0 & Hkeep0).
    destruct (lookup_lt_is_Some_2 allDoFs m ltac:(lia)) as [a Ha].
    destruct (lookup_lt_is_Some_2 expDoFs m Hm) as [e He].
    pose proof (proj1 (Forall_lookup _ _) Hall m a Ha) as Har.
    pose proof (proj1 (Forall_lookup _ _) Hexp m e He) as Her.
    cbv beta in Har, Her.
    rewrite (aget_lookup _ _ _ Ha), (aget_lookup _ _ _ He). cbn [mbind result_bind].
    rewrite bool_decide_true by lia.
    destruct (lookup_lt_is_Some_2 x (Z.to_nat a) ltac:(lia)) as [v Hv].
    assert (Hget : aget x a = Ok v).
    { replace a with (Z.of_nat (Z.to_nat a)) at 1 by lia. apply aget_lookup. exact Hv. }
    rewrite Hget. cbn [mbind result_bind].
    unfold aset. rewrite bool_decide_true by lia.
    eexists. split; [reflexivity|].
    split; [rewrite length_insert; exact Hl0|]. split.
    + intros j a' e' Hj Ha' He' Hlast.
      destruct (decide (j = m)) as [->|Hne].
      * assert (a' = a) as -> by congruence. assert (e' = e) as -> by congruence.
        rewrite list_lookup_insert_eq by lia. symmetry. exact Hv.
      * assert (Hee : e' <> e).
        { intros ->. apply (Hlast m); [lia|exact He]. }
        pose proof (proj1 (Forall_lookup _ _) Hexp j e' He') as Her'.
        cbv beta in Her'.
        rewrite list_lookup_insert_ne by lia.
        apply (Hset0 j a' e'); [lia|exact Ha'|exact He'|].
        intros j' Hj'. apply Hlast. lia.
    + intros p Hp.
      assert (Hpe : Z.of_nat p <> e).
      { intros <-. apply (Hp m); [lia|exact He]. }
      rewrite list_lookup_insert_ne by lia.
      apply Hkeep0. intros j Hj. apply Hp. lia.
  - exists xE'. split; [exact Hrun|]. split; [exact Hl|]. split.
    + intros j a e Ha He Hlast.
      apply (Hset j a e); [apply lookup_lt_Some in He; exact He|exact Ha|exact He|].
      intros j' Hj'. apply Hlast. lia.
    + intros p Hp. apply Hkeep. intros j _. apply Hp.
Qed.

(** C4 at its failing inputs.  On the single triangle of [fes_edge] the
    first local dof has the sign-tagged ids allDoFs[0] = expDoFs[0] = -1,
    that is dof 0, negated: for x = (x0, x1, x2) the claim puts -x0 into
    slot 0 of the exposed vector.  The code computes the indices as
    [1 - id] (2 here, not 0) and does not negate: slot 0 is never
    written and keeps what the fresh vector held, and slot 2 receives
    x[2].  With x = (10, 20, 30) and fresh vectors holding 7 the exposed
    vector ends as (7, 20, 30), not (-10, 20, 30). *)
Lemma C4_sign_tagged_dof_miscopied (x0 x1 x2 : Z) (junkE junkP : nat -> nat -> Z) :
  exists f,
    initFromInterleavedVector (EPField_new (EPDoFs_new fes_edge))
      [x0; x1; x2] junkE junkP = Ok f /\
    fes_GetElementDofs fes_edge 0%Z = [-1; 1; 2]%Z /\
    GetElementDofs (EPDoFs_new fes_edge) 0%Z [] = Ok (EPDoFs_new fes_edge, [-1; 1; 2]%Z) /\
    ExposedDoFs_ f = Some [[junkE 0%nat 0%nat; x1; x2]].
Proof.
  eexists. split; [vm_compute; reflexivity|].
  split; [reflexivity|]. split; [vm_compute; reflexivity|]. reflexivity.
Qed.

(** C3 at its failing inputs.  On [fes_edge] the value of dof 0 never
    reaches the exposed/private storage: two vectors that differ in
    entry 0 only are stored identically, whatever the fresh vectors
    held, so no reconstruction can return both; for x = (10, 20, 30) and
    fresh vectors holding 7, the reconstruction modelled from the spec
    returns (-7, 20, 30). *)
Lemma C3_round_trip_loses_sign_tagged_dof :
  (forall (x0 x0' x1 x2 : Z) (junkE junkP : nat -> nat -> Z),
     initFromInterleavedVector (EPField_new (EPDoFs_new fes_edge))
       [x0; x1; x2] junkE junkP =
     initFromInterleavedVector (EPField_new (EPDoFs_new fes_edge))
       [x0'; x1; x2] junkE junkP) /\
  exists f,
    initFromInterleavedVector (EPField_new (EPDoFs_new fes_edge))
      [10; 20; 30]%Z (fun _ _ => 7%Z) (fun _ _ => 7%Z) = Ok f /\
    toInterleavedVector f [0; 0; 0]%Z = Ok [-7; 20; 30]%Z.
Proof.
  split.
  - intros x0 x0' x1 x2 junkE junkP. vm_compute. reflexivity.
  - eexists. split; vm_compute; reflexivity.
Qed.

(** ** reduce() (ParEPField::updateParExposedDoFs) *)

Section Reduce.
Context {R : Type} `{!Scalar R}.

Lemma length_PeT A x : length (PeT A x) = hp_cols A.
Proof. unfold PeT. rewrite length_map, length_seq. reflexivity. Qed.
Lemma length_PeF A t : length (PeF A t) = hp_rows A.
Proof. unfold PeF. rewrite length_map, length_seq. reflexivity. Qed.

Lemma MultTranspose_Ok A x y :
  length x = hp_rows A -> length y = hp_cols A ->
  HypreParMatrix_MultTranspose A x y = Ok (PeT A x).
Proof.
  intros Hx Hy. unfold HypreParMatrix_MultTranspose.
  rewrite bool_decide_true by auto. reflexivity.
Qed.

Lemma Mult_Ok A x y :
  length x = hp_cols A -> length y = hp_rows A ->
  HypreParMatrix_Mult A x y = Ok (PeF A x).
Proof.
  intros Hx Hy. unfold HypreParMatrix_Mult.
  rewrite bool_decide_true by auto. reflexivity.
Qed.

Lemma updateParExposedDoFs_reduced (s : ParEPField R) :
  par_sized s -> updateParExposedDoFs s = Ok (reduced s).
Proof.
  intros (HlE & HlT & HE & HT). unfold updateParExposedDoFs.
  set (Pe := EDof_TrueEDof_Matrix s).
  set (n := par_numFields_ s) in *.
  destruct (for_upto_inv
    (fun i st =>
       par_numFields_ st = n /\ EDof_TrueEDof_Matrix st = Pe /\
       par_ExposedDoFs_ st =
         map (fun E => PeF Pe (PeT Pe E)) (take i (par_ExposedDoFs_ s))
         ++ drop i (par_ExposedDoFs_ s) /\
       ParExposedDoFs_ st =
         map (PeT Pe) (take i (par_ExposedDoFs_ s)) ++ drop i (ParExposedDoFs_ s))
    n
    (fun i st =>
       E ← aget (par_ExposedDoFs_ st) (Z.of_nat i);
       T ← aget (ParExposedDoFs_ st) (Z.of_nat i);
       T ← HypreParMatrix_MultTranspose Pe E T;
       let st1 :=
         {| par_numFields_ := par_numFields_ st;
            EDof_TrueEDof_Matrix := EDof_TrueEDof_Matrix st;
            par_ExposedDoFs_ := par_ExposedDoFs_ st;
            ParExposedDoFs_ := <[i := T]> (ParExposedDoFs_ st) |} in
       T ← aget (ParExposedDoFs_ st1) (Z.of_nat i);
       E ← aget (par_ExposedDoFs_ st1) (Z.of_nat i);
       E ← HypreParMatrix_Mult Pe T E;
       Ok {| par_numFields_ := par_numFields_ st1;
             EDof_TrueEDof_Matrix := EDof_TrueEDof_Matrix st1;
             par_ExposedDoFs_ := <[i := E]> (par_ExposedDoFs_ st1);
             ParExposedDoFs_ := ParExposedDoFs_ st1 |})
    s) as (s' & Hrun & Hn & HPe & HE' & HT').
  - rewrite !take_0, !drop_0. simpl. auto.
  - intros i st Hi (Hn & HPe & HEi & HTi).
    destruct (lookup_lt_is_Some_2 (par_ExposedDoFs_ s) i ltac:(lia)) as [E HEs].
    destruct (lookup_lt_is_Some_2 (ParExposedDoFs_ s) i ltac:(lia)) as [T HTs].
    assert (HlenE : length E = hp_rows Pe).
    { eapply Forall_lookup_1 in HE; [exact HE|exact HEs]. }
    assert (HlenT : length T = hp_cols Pe).
    { eapply Forall_lookup_1 in HT; [exact HT|exact HTs]. }
    assert (Hti : length (take i (par_ExposedDoFs_ s)) = i)
      by (rewrite length_take; lia).
    assert (HgE : par_ExposedDoFs_ st !! i = Some E).
    { rewrite HEi, lookup_app_r by (rewrite length_map; lia).
      rewrite length_map, Hti, lookup_drop, Nat.sub_diag, Nat.add_0_r. exact HEs. }
    assert (HgT : ParExposedDoFs_ st !! i = Some T).
    { rewrite HTi, lookup_app_r by (rewrite length_map; lia).
      rewrite length_map, Hti, lookup_drop, Nat.sub_diag, Nat.add_0_r. exact HTs. }
    assert (HlT' : (i < length (ParExposedDoFs_ st))%nat)
      by (apply lookup_lt_is_Some_1; eauto).
    assert (HlE' : (i < length (par_ExposedDoFs_ st))%nat)
      by (apply lookup_lt_is_Some_1; eauto).
    rewrite (aget_lookup _ _ _ HgE), (aget_lookup _ _ _ HgT). cbn [mbind result_bind].
    rewrite (MultTranspose_Ok Pe E T HlenE HlenT). cbn [mbind result_bind].
    cbn [ParExposedDoFs_ par_ExposedDoFs_ par_numFields_ EDof_TrueEDof_Matrix].
    rewrite (aget_lookup (<[i:=PeT Pe E]> (ParExposedDoFs_ st)) i (PeT Pe E))
      by (apply list_lookup_insert_eq; exact HlT').
    rewrite (aget_lookup _ _ _ HgE). cbn [mbind result_bind].
    rewrite (Mult_Ok Pe (PeT Pe E) E (length_PeT _ _) HlenE). cbn [mbind result_bind].
    eexists. split; [reflexivity|].
    cbn [ParExposedDoFs_ par_ExposedDoFs_ par_numFields_ EDof_TrueEDof_Matrix].
    split; [exact Hn|]. split; [exact HPe|].
    rewrite (take_S_r _ _ _ HEs), !map_app. simpl.
    rewrite HEi, HTi. split.
    + rewrite insert_app_r_alt by (rewrite length_map; lia).
      rewrite length_map, Hti, Nat.sub_diag.
      rewrite (drop_S _ _ _ HEs). simpl. rewrite <- app_assoc. reflexivity.
    + rewrite insert_app_r_alt by (rewrite length_map; lia).
      rewrite length_map, Hti, Nat.sub_diag.
      rewrite (drop_S _ _ _ HTs). simpl. rewrite <- app_assoc. reflexivity.
  - transitivity (Ok s'); [exact Hrun|]. f_equal. unfold reduced. fold Pe. fold n.
    rewrite firstn_all2 in HE', HT' by lia.
    rewrite drop_ge, app_nil_r in HE' by lia.
    rewrite drop_ge, app_nil_r in HT' by lia.
    destruct s'. simpl in *. congruence.
Qed.

Lemma par_sized_reduced s : par_sized s -> par_sized (reduced s).
Proof.
  intros (HlE & HlT & HE & HT). unfold par_sized, reduced. simpl.
  rewrite !length_map. split; [exact HlE|]. split; [exact HlE|]. split.
  - apply Forall_map. apply Forall_true. intros E. apply length_PeF.
  - apply Forall_map. apply Forall_true. intros E. apply length_PeT.
Qed.

End Reduce.

(** ** Sums *)

Section Sums.
Context {R : Type} `{!Scalar R}.
Add Ring scalar_ring_sums : scalar_ring.

Lemma rsum_0 (f : nat -> R) : rsum 0 f = rzero.
Proof. reflexivity. Qed.

Lemma rsum_S n (f : nat -> R) : rsum (S n) f = (rsum n f + f n)%S.
Proof. unfold rsum. rewrite seq_S, fold_left_app. reflexivity. Qed.

Lemma rsum_ext n (f g : nat -> R) :
  (forall k, (k < n)%nat -> f k = g k) -> rsum n f = rsum n g.
Proof.
  intros Hfg. induction n as [|n IH]; [reflexivity|].
  rewrite !rsum_S, IH, Hfg by (intros; try apply Hfg; lia). reflexivity.
Qed.

Lemma radd_opp_comm (a b : R) : (- a + b)%S = (b - a)%S.
Proof. ring. Qed.

End Sums.

(** ** Results of sequenced computations *)

Lemma bind_Ok_inv {A B} (m : result A) (k : A -> result B) b :
  m ≫= k = Ok b -> exists a, m = Ok a /\ k a = Ok b.
Proof. destruct m as [a|f]; simpl; intros H; [eauto|discriminate]. Qed.

(** Splits a hypothesis [x ← m; k = Ok b] into [m = Ok a] and
    [k a = Ok b]. *)
Ltac bind_inv H :=
  let a := fresh "a" in
  let Ha := fresh "H" a in
  apply bind_Ok_inv in H; destruct H as (a & Ha & H).

Tactic Notation "bind_split" hyp(H) "as" ident(a) ident(Ha) :=
  apply bind_Ok_inv in H; destruct H as (a & Ha & H).

(** ** Blocks of a vector *)

Lemma view_Ok {A} (v : list A) (off n : nat) :
  (off + n <= length v)%nat ->
  view v (Z.of_nat off) n = Ok (take n (drop off v)).
Proof.
  intros Hfit. unfold view.
  destruct (for_upto_inv (fun k acc => acc = take k (drop off v)) n
    (fun k acc => a ← aget v (Z.of_nat off + Z.of_nat k)%Z; Ok (acc ++ [a])) [])
    as (w & Hrun & ->).
  - reflexivity.
  - intros k acc Hk ->.
    destruct (lookup_lt_is_Some_2 v (off + k) ltac:(lia)) as [a Ha].
    replace (Z.of_nat off + Z.of_nat k)%Z with (Z.of_nat (off + k)) by lia.
    rewrite (aget_lookup _ _ _ Ha). simpl. eexists. split; [reflexivity|].
    symmetry. apply take_S_r. rewrite lookup_drop. exact Ha.
  - exact Hrun.
Qed.

Lemma store_Ok {A} (v w : list A) (off : nat) :
  (off + length w <= length v)%nat ->
  exists v', store v (Z.of_nat off) w = Ok v' /\
    length v' = length v /\
    (forall q, (q < length w)%nat -> v' !! (off + q)%nat = w !! q) /\
    (forall p, (p < off \/ off + length w <= p)%nat -> v' !! p = v !! p).
Proof.
  intros Hfit. unfold store.
  destruct (for_upto_inv
    (fun m v0 => length v0 = length v /\
       (forall q, (q < m)%nat -> v0 !! (off + q)%nat = w !! q) /\
       (forall p, (p < off \/ off + m <= p)%nat -> v0 !! p = v !! p))
    (length w)
    (fun k v0 => a ← aget w (Z.of_nat k); aset v0 (Z.of_nat off + Z.of_nat k)%Z a) v)
    as (v' & Hrun & Hlen & Hblk & Hrest).
  - split; [reflexivity|]. split; [intros q Hq; lia|]. intros p _. reflexivity.
  - intros m v0 Hm (Hlen & Hblk & Hrest).
    destruct (lookup_lt_is_Some_2 w m Hm) as [x Hx].
    rewrite (aget_lookup _ _ _ Hx). simpl.
    eexists. split; [apply aset_Ok; split; [lia|reflexivity]|].
    replace (Z.to_nat (Z.of_nat off + Z.of_nat m)) with (off + m)%nat by lia.
    split; [rewrite length_insert; exact Hlen|]. split.
    + intros q Hq. destruct (decide (q = m)) as [->|Hne].
      * rewrite list_lookup_insert_eq by lia. symmetry. exact Hx.
      * rewrite list_lookup_insert_ne by lia. apply Hblk. lia.
    + intros p Hp. rewrite list_lookup_insert_ne by lia. apply Hrest. lia.
  - exists v'. auto.
Qed.

(** ** EPMatrix with two dof objects *)

Section TwoObjects.
Context {R : Type} `{!Scalar R}.
Variable Inverse : DenseMatrix R -> DenseMatrix R.

Lemma same_dofs_setL p d : same_dofs (setL p d) = same_dofs p.
Proof. destruct p; reflexivity. Qed.
Lemma same_dofs_setR p d : same_dofs (setR p d) = same_dofs p.
Proof. destruct p; reflexivity. Qed.

Lemma Assemble_element_two bfi i (st st' : AsmState R) :
  Assemble_element Inverse bfi i st = Ok st' ->
  same_dofs (as_dofs st) = false -> as_MppInv st = None ->
  same_dofs (as_dofs st') = false /\ as_MppInv st' = None.
Proof.
  intros H Hsame Hnone. unfold Assemble_element in H.
  bind_inv H. destruct a as [[[dL expL] poL] nPriL].
  bind_inv H. destruct a as [[[dR expR] poR] nPriR].
  do 6 bind_inv H. rewrite Hnone in H. simpl in H.
  do 2 bind_inv H. injection H as <-. simpl.
  rewrite same_dofs_setR, same_dofs_setL. auto.
Qed.

(** With two dof objects, Assemble allocates neither the inverses nor
    the work vectors. *)
Lemma Assemble_two_keeps_null (m m' : EPMatrix R) junkR junkP :
  Assemble Inverse m junkR junkP = Ok m' ->
  same_dofs (epdofs m) = false ->
  same_dofs (epdofs m') = false /\ MppInv_ m' = None /\
  reducedRHS_ m' = reducedRHS_ m /\ vecp_ m' = vecp_ m.
Proof.
  intros H Hsame. unfold Assemble in H. rewrite Hsame in H.
  bind_inv H. injection H as <-. simpl.
  apply (for_upto_post
           (fun _ st => same_dofs (as_dofs st) = false /\ as_MppInv st = None))
    in Ha.
  - destruct Ha as [H1 H2]. auto.
  - simpl. auto.
  - intros i s0 s1 _ [H1 H2] Hstep.
    apply (Assemble_element_two _ _ _ _ Hstep H1 H2).
Qed.

Lemma built_from_two_null l r bfi m :
  built_from Inverse (TwoDofs l r) bfi m ->
  MppInv_ m = None /\ reducedRHS_ m = None.
Proof.
  intros [->|(jR & jP & HA)]; [auto|].
  apply Assemble_two_keeps_null in HA as (_ & H1 & H2 & _); auto.
Qed.

(** Without inverses and without the work vector, ReducedRHS
    dereferences a NULL pointer: [MppInv_] when there is an element,
    [reducedRHS_] otherwise. *)
Lemma ReducedRHS_null default_field (m : EPMatrix R) (x : EPField R) :
  MppInv_ m = None -> reducedRHS_ m = None ->
  EPMatrix_ReducedRHS default_field m x = Fail NullDereference.
Proof.
  intros Hinv Hrr. unfold EPMatrix_ReducedRHS. rewrite Hinv, Hrr.
  unfold for_upto.
  destruct (Z.to_nat (GetNElements (dofsR (epdofs m)))) as [|n]; simpl; [|reflexivity].
  reflexivity.
Qed.

End TwoObjects.

(** ** ReducedRHS on one dof object *)

Section ReducedRHS.
Context {R : Type} `{!Scalar R}.
Add Ring scalar_ring_rhs : scalar_ring.

Lemma vnth_lookup (x : list R) i a : x !! i = Some a -> vnth x i = a.
Proof. unfold vnth. intros ->. reflexivity. Qed.

Lemma vnth_take_drop (x : list R) off n l :
  (l < n)%nat -> vnth (take n (drop off x)) l = vnth x (off + l).
Proof.
  intros Hl. unfold vnth. rewrite lookup_take_lt by exact Hl.
  rewrite lookup_drop. reflexivity.
Qed.

Lemma DenseMatrix_Mult_Ok (A : DenseMatrix R) (x : list R) :
  dm_sized A -> length x = dm_width A ->
  DenseMatrix_Mult A x =
    Ok (map (fun i => rsum (dm_width A) (fun j => (dm_at A i j * vnth x j)%S))
            (seq 0 (dm_height A))).
Proof.
  intros Hs Hx. unfold DenseMatrix_Mult. rewrite bool_decide_true by auto. reflexivity.
Qed.

Lemma poff_mono np a b : (a <= b)%nat -> (poff np a <= poff np b)%nat.
Proof. induction 1 as [|b Hab IH]; simpl; lia. Qed.

Lemma poff_S_le np e n : (e < n)%nat -> (poff np e + np e <= poff np n)%nat.
Proof. intros He. apply (poff_mono np (S e) n). lia. Qed.

(** The loop of ReducedRHS over the elements: the inverse of each
    element is applied to its private range of x and the result is
    written to the same range of the work vector. *)
Lemma solve_private_loop (invs : list (DenseMatrixInverse R)) (po : list Z)
    (np : nat -> nat) (n : nat) (xP vp0 : list R) (pxP : option (list R)) :
  pxP = Some xP ->
  private_layout po n np ->
  length invs = n ->
  (forall e inv, invs !! e = Some inv -> inverse_fits inv (np e)) ->
  (poff np n <= length xP)%nat ->
  (poff np n <= length vp0)%nat ->
  exists vp,
    for_upto n
      (fun i (vecp : option (list R)) =>
         invs0 ← deref (Some invs);
         inv ← aget invs0 (Z.of_nat i);
         let size := inv_size inv in
         xP0 ← deref pxP;
         poL ← deref (Some po);
         oL ← aget poL (Z.of_nat i);
         v1 ← view xP0 oL size;
         vp ← deref vecp;
         poR ← deref (Some po);
         oR ← aget poR (Z.of_nat i);
         v2 ← DenseMatrixInverse_Mult inv v1;
         vp ← store vp oR v2;
         Ok (Some vp))
      (Some vp0) = Ok (Some vp) /\
    length vp = length vp0 /\
    (forall e inv k, invs !! e = Some inv -> (k < np e)%nat ->
       vp !! (poff np e + k)%nat = Some (inv_dot inv xP (poff np e) k)) /\
    (forall p, (poff np n <= p)%nat -> vp !! p = vp0 !! p).
Proof.
  intros -> [Hpolen Hpo] Hlen Hfits HxP Hvp.
  destruct (for_upto_inv
    (fun m (vecp : option (list R)) =>
       exists vp, vecp = Some vp /\ length vp = length vp0 /\
         (forall e inv k, (e < m)%nat -> invs !! e = Some inv -> (k < np e)%nat ->
            vp !! (poff np e + k)%nat = Some (inv_dot inv xP (poff np e) k)) /\
         (forall p, (poff np m <= p)%nat -> vp !! p = vp0 !! p))
    n
    (fun i (vecp : option (list R)) =>
         invs0 ← deref (Some invs);
         inv ← aget invs0 (Z.of_nat i);
         let size := inv_size inv in
         xP0 ← deref (Some xP);
         poL ← deref (Some po);
         oL ← aget poL (Z.of_nat i);
         v1 ← view xP0 oL size;
         vp ← deref vecp;
         poR ← deref (Some po);
         oR ← aget poR (Z.of_nat i);
         v2 ← DenseMatrixInverse_Mult inv v1;
         vp ← store vp oR v2;
         Ok (Some vp))
    (Some vp0)) as (vecp & Hrun & vp & -> & Hl & Hdone & Hrest).
  - exists vp0. split; [reflexivity|]. split; [reflexivity|].
    split; [intros e inv k He; lia|]. intros p _. reflexivity.
  - intros i vecp Hi (vp & -> & Hl & Hdone & Hrest).
    destruct (lookup_lt_is_Some_2 invs i ltac:(lia)) as [inv Hinv].
    destruct (Hfits i inv Hinv) as (Hsz & Hh & Hw & Hsized).
    pose proof (poff_S_le np i n Hi) as Hle.
    cbn [deref mbind result_bind].
    rewrite (aget_lookup _ _ _ Hinv). cbn [mbind result_bind].
    rewrite (aget_lookup _ _ _ (Hpo i ltac:(lia))). cbn [mbind result_bind].
    rewrite Hsz. rewrite view_Ok by lia. cbn [mbind result_bind].
    unfold DenseMatrixInverse_Mult. rewrite bool_decide_true by (rewrite Hsz; auto).
    rewrite DenseMatrix_Mult_Ok
      by (try exact Hsized; rewrite length_take, length_drop; lia).
    cbn [mbind result_bind]. rewrite Hh, Hw.
    set (w := map _ (seq 0 (np i))).
    assert (Hwlen : length w = np i) by (unfold w; rewrite length_map, length_seq; reflexivity).
    destruct (store_Ok vp w (poff np i)) as (vp' & Hst & Hl' & Hblk & Hkeep); [lia|].
    rewrite Hst. cbn [mbind result_bind].
    eexists. split; [reflexivity|]. exists vp'. split; [reflexivity|].
    split; [lia|]. split.
    + intros e inv' k He Hinv' Hk.
      destruct (decide (e = i)) as [->|Hne].
      * assert (inv' = inv) as -> by congruence.
        rewrite Hblk by lia. unfold w.
        rewrite list_lookup_fmap, lookup_seq_lt by exact Hk. simpl.
        f_equal. unfold inv_dot. rewrite Hsz. apply rsum_ext. intros l Hlt.
        rewrite vnth_take_drop by exact Hlt. reflexivity.
      * rewrite Hkeep; [apply Hdone; [lia|exact Hinv'|exact Hk]|].
        left. pose proof (poff_S_le np e i ltac:(lia)). lia.
    + intros p Hp. simpl in Hp. rewrite Hkeep by lia. apply Hrest.
      pose proof (poff_mono np i (S i) ltac:(lia)). simpl in *. lia.
  - exists vp. split; [exact Hrun|]. split; [exact Hl|]. split; [|exact Hrest].
    intros e inv k Hinv Hk. apply Hdone; [|exact Hinv|exact Hk].
    apply lookup_lt_Some in Hinv. lia.
Qed.

End ReducedRHS.

Section ReducedRHSTheorem.
Context {R : Type} `{!Scalar R}.
Add Ring scalar_ring_rhs2 : scalar_ring.

Lemma Vector_Set_Ok (v x : list R) a :
  (length v <= length x)%nat ->
  Vector_Set v a x = Ok (imap (fun i _ => (a * vnth x i)%S) v).
Proof. intros H. unfold Vector_Set. rewrite bool_decide_true by exact H. reflexivity. Qed.

Lemma SparseMatrix_AddMult_Ok (A : SparseMatrix R) (x y : list R) a :
  length x = sm_width A -> length y = sm_height A ->
  SparseMatrix_AddMult A x y a = Ok (imap (fun i yi => (yi + a * sm_row_dot A x i)%S) y).
Proof.
  intros Hx Hy. unfold SparseMatrix_AddMult. rewrite bool_decide_true by auto. reflexivity.
Qed.

Lemma SparseMatrix_AddMultTranspose_Ok (A : SparseMatrix R) (x y : list R) a :
  length x = sm_height A -> length y = sm_width A ->
  SparseMatrix_AddMultTranspose A x y a =
    Ok (imap (fun j yj => (yj + a * sm_col_dot A x j)%S) y).
Proof.
  intros Hx Hy. unfold SparseMatrix_AddMultTranspose.
  rewrite bool_decide_true by auto. reflexivity.
Qed.

Lemma SparseMatrix_Mult_Ok (A : SparseMatrix R) (x y : list R) :
  length x = sm_width A -> length y = sm_height A ->
  SparseMatrix_Mult A x y = Ok (map (sm_row_dot A x) (seq 0 (sm_height A))).
Proof.
  intros Hx Hy. unfold SparseMatrix_Mult. rewrite bool_decide_true by auto. reflexivity.
Qed.

Variable Inverse : DenseMatrix R -> DenseMatrix R.
Variable default_field : nat.

Lemma ReducedRHS_same (this : EPMatrix R) (x : EPField R)
    d po np invs Mep rr0 vp0 xE xP :
  epdofs this = SameDofs d ->
  priOffset_ d = Some po ->
  private_layout po (Z.to_nat (GetNElements d)) np ->
  MppInv_ this = Some invs ->
  length invs = Z.to_nat (GetNElements d) ->
  (forall e inv, invs !! e = Some inv -> inverse_fits inv (np e)) ->
  Mep_ this = Some Mep ->
  sm_width Mep = poff np (Z.to_nat (GetNElements d)) ->
  vecp_ this = Some vp0 -> length vp0 = sm_width Mep ->
  reducedRHS_ this = Some rr0 -> length rr0 = sm_height Mep ->
  PrivateDoFs_const x 0 = Some xP -> length xP = sm_width Mep ->
  ExposedDoFs_const x default_field = Some xE -> length xE = sm_height Mep ->
  exists this' r v,
    EPMatrix_ReducedRHS default_field this x = Ok (this', r) /\
    reducedRHS_ this' = Some r /\ vecp_ this' = Some v /\
    (forall e inv k, invs !! e = Some inv -> (k < np e)%nat ->
       v !! (poff np e + k)%nat = Some (inv_dot inv xP (poff np e) k)) /\
    length r = sm_height Mep /\
    (forall i, (i < sm_height Mep)%nat ->
       r !! i = Some (vnth xE i - sm_row_dot Mep v i)%S).
Proof.
  intros Hd Hpo Hlay Hinv Hlen Hfits HMep Hw Hvp Hvplen Hrr Hrrlen HxP HxPlen HxE HxElen.
  unfold EPMatrix_ReducedRHS. rewrite Hd. cbn [dofsL dofsR].
  unfold GetPrivateOffsets. rewrite Hpo, Hinv, Hvp, HxP.
  destruct (solve_private_loop invs po np (Z.to_nat (GetNElements d)) xP vp0 (Some xP))
    as (vp & Hrun & Hl & Hsolved & _); auto; try lia.
  cbv zeta in Hrun |- *.
  rewrite Hrun. cbn [mbind result_bind]. rewrite Hrr, HxE, HMep. cbn [deref mbind result_bind].
  rewrite Vector_Set_Ok by lia. cbn [mbind result_bind].
  rewrite SparseMatrix_AddMult_Ok by (rewrite ?length_imap; lia).
  cbn [mbind result_bind].
  eexists. eexists. exists vp. split; [reflexivity|]. cbn [reducedRHS_ vecp_].
  split; [reflexivity|]. split; [reflexivity|]. split; [exact Hsolved|].
  split; [rewrite !length_imap; exact Hrrlen|].
  intros i Hi.
  destruct (lookup_lt_is_Some_2 rr0 i ltac:(lia)) as [r0 Hr0].
  rewrite list_lookup_imap, list_lookup_imap, Hr0. simpl. f_equal. ring.
Qed.

End ReducedRHSTheorem.

(** C7 (as the code has it): ReducedRHS has no configuration check and
    there is no UnsupportedConfiguration error.  On an operator
    constructed with two different dof objects, assembled or not, the
    inverses and the work vector have never been allocated and the call
    dereferences a NULL pointer (undefined behaviour, no result).  With
    one dof object (left == right), on an operator of the assembled
    shape, it returns r = x.exposed - Mep * v, where on each element's
    private range v is the stored inverse of the element applied to
    that range of x.private. *)
Theorem C7_ReducedRHS_null_or_reduced {R : Type} `{!Scalar R}
    (Inverse : DenseMatrix R -> DenseMatrix R) (default_field : nat)
    (this : EPMatrix R) (x : EPField R) :
  (forall l r bfi, built_from Inverse (TwoDofs l r) bfi this ->
     EPMatrix_ReducedRHS default_field this x = Fail NullDereference) /\
  (forall d po np invs Mep rr0 vp0 xE xP,
     epdofs this = SameDofs d ->
     priOffset_ d = Some po ->
     private_layout po (Z.to_nat (GetNElements d)) np ->
     MppInv_ this = Some invs ->
     length invs = Z.to_nat (GetNElements d) ->
     (forall e inv, invs !! e = Some inv -> inverse_fits inv (np e)) ->
     Mep_ this = Some Mep ->
     sm_width Mep = poff np (Z.to_nat (GetNElements d)) ->
     vecp_ this = Some vp0 -> length vp0 = sm_width Mep ->
     reducedRHS_ this = Some rr0 -> length rr0 = sm_height Mep ->
     PrivateDoFs_const x 0 = Some xP -> length xP = sm_width Mep ->
     ExposedDoFs_const x default_field = Some xE -> length xE = sm_height Mep ->
     exists this' r v,
       EPMatrix_ReducedRHS default_field this x = Ok (this', r) /\
       reducedRHS_ this' = Some r /\ vecp_ this' = Some v /\
       (forall e inv k, invs !! e = Some inv -> (k < np e)%nat ->
          v !! (poff np e + k)%nat = Some (inv_dot inv xP (poff np e) k)) /\
       length r = sm_height Mep /\
       (forall i, (i < sm_height Mep)%nat ->
          r !! i = Some (vnth xE i - sm_row_dot Mep v i)%S)).
Proof.
  split.
  - intros l r bfi Hb. apply built_from_two_null in Hb as [H1 H2].
    apply ReducedRHS_null; assumption.
  - intros. eapply ReducedRHS_same; eassumption.
Qed.

(** The operator of the worked example with two dof objects, and the
    assembled operator of the worked example with one. *)
Lemma C7_ReducedRHS_witness :
  EPMatrix_ReducedRHS 0 epmatrix_quad_two field_quad = Fail NullDereference /\
  exists this' r v,
    EPMatrix_ReducedRHS 0 epmatrix_quad_assembled field_quad = Ok (this', r) /\
    reducedRHS_ this' = Some r /\ vecp_ this' = Some v /\
    (forall e inv k, MppInv_quad !! e = Some inv -> (k < 1)%nat ->
       v !! (poff (fun _ => 1%nat) e + k)%nat
         = Some (inv_dot inv [5%Z] (poff (fun _ => 1%nat) e) k)) /\
    length r = sm_height Mep_quad /\
    (forall i, (i < sm_height Mep_quad)%nat ->
       r !! i = Some (vnth [1; 2; 3; 4]%Z i - sm_row_dot Mep_quad v i)%S).
Proof.
  split.
  - apply (C7_ReducedRHS_null_or_reduced Inverse_unit 0 epmatrix_quad_two field_quad)
      with (l := EPDoFs_new fes_quad) (r := EPDoFs_new fes_quad)
           (bfi := fun _ => elmat_quad).
    left. reflexivity.
  - apply (proj2 (C7_ReducedRHS_null_or_reduced Inverse_unit 0
                    epmatrix_quad_assembled field_quad))
      with (d := dofs_quad_assembled) (po := [0; 1]%Z) (np := fun _ => 1%nat)
           (rr0 := [0; 0; 0; 0]%Z) (vp0 := [0%Z]).
    + vm_compute. reflexivity.
    + vm_compute. reflexivity.
    + split; [reflexivity|]. intros e He.
      change (Z.to_nat (GetNElements dofs_quad_assembled)) with 1%nat in He.
      destruct e as [|[|e]]; [reflexivity|reflexivity|lia].
    + vm_compute. reflexivity.
    + reflexivity.
    + intros e inv He. destruct e as [|e]; [|destruct e; discriminate He].
      vm_compute in He. injection He as <-. vm_compute. auto.
    + vm_compute. reflexivity.
    + reflexivity.
    + vm_compute. reflexivity.
    + reflexivity.
    + vm_compute. reflexivity.
    + reflexivity.
    + reflexivity.
    + reflexivity.
    + reflexivity.
    + reflexivity.
Defined.

(** C7 as stated fails: the operator of the worked example constructed
    with two dof objects does not raise UnsupportedConfiguration when
    ReducedRHS is called; the call ends in the NULL dereference. *)
Lemma C7_counterexample :
  built_from Inverse_unit (TwoDofs (EPDoFs_new fes_quad) (EPDoFs_new fes_quad))
    (fun _ => elmat_quad) epmatrix_quad_two /\
  EPMatrix_ReducedRHS 0 epmatrix_quad_two field_quad = Fail NullDereference /\
  EPMatrix_ReducedRHS 0 epmatrix_quad_two field_quad <> Fail UnsupportedConfiguration.
Proof.
  split; [left; reflexivity|]. split; [reflexivity|]. intros H. discriminate H.
Qed.

(** ** EPMatrix::Mult on fields *)

Section MultTheorem.
Context {R : Type} `{!Scalar R}.
Add Ring scalar_ring_mult : scalar_ring.

Variable Inverse : DenseMatrix R -> DenseMatrix R.
Variable default_num : nat.
Variable junkE junkP : nat -> nat -> R.

Lemma ExposedDoFs_holds (y : EPField R) vE vP :
  field_holds y vE vP -> ExposedDoFs default_num junkE junkP y 0 = (y, Some vE).
Proof.
  intros (Hn & (E & HE & HE0) & _). unfold ExposedDoFs. rewrite HE.
  rewrite bool_decide_false by lia. rewrite HE. simpl. rewrite HE0. reflexivity.
Qed.

Lemma PrivateDoFs_holds (y : EPField R) vE vP :
  field_holds y vE vP -> PrivateDoFs default_num junkE junkP y 0 = (y, Some vP).
Proof.
  intros (Hn & _ & (P & HP & HP0)). unfold PrivateDoFs. rewrite HP.
  rewrite bool_decide_false by lia. rewrite HP. simpl. rewrite HP0. reflexivity.
Qed.

Lemma field_holds_set_Exposed (y : EPField R) vE vP v :
  field_holds y vE vP -> field_holds (set_Exposed y 0 v) v vP.
Proof.
  intros (Hn & (E & HE & HE0) & HP). split; [exact Hn|]. split; [|exact HP].
  exists (<[0%nat := v]> E). simpl. rewrite HE. split; [reflexivity|].
  apply list_lookup_insert_eq. apply lookup_lt_Some in HE0. exact HE0.
Qed.

Lemma field_holds_set_Private (y : EPField R) vE vP v :
  field_holds y vE vP -> field_holds (set_Private y 0 v) vE v.
Proof.
  intros (Hn & HE & (P & HP & HP0)). split; [exact Hn|]. split; [exact HE|].
  exists (<[0%nat := v]> P). simpl. rewrite HP. split; [reflexivity|].
  apply list_lookup_insert_eq. apply lookup_lt_Some in HP0. exact HP0.
Qed.

(** The loop of Mult over the elements: the private block of each
    element is applied to its private range of x and the result is
    written to the same range of y.private. *)
Lemma private_blocks_loop (Mpps : list (DenseMatrix R)) (po : list Z)
    (np : nat -> nat) (n : nat) (xP : list R) (pxP : option (list R))
    (y : EPField R) (yE yP0 : list R) :
  pxP = Some xP ->
  private_layout po n np ->
  length Mpps = n ->
  (forall e A, Mpps !! e = Some A -> block_fits A (np e)) ->
  (poff np n <= length xP)%nat ->
  (poff np n <= length yP0)%nat ->
  field_holds y yE yP0 ->
  exists y' yP,
    for_upto n
      (fun i y =>
         Mpps0 ← deref (Some Mpps);
         Mpp ← aget Mpps0 (Z.of_nat i);
         xP0 ← deref pxP;
         poL ← deref (Some po);
         oL ← aget poL (Z.of_nat i);
         let '(y, pyP) := PrivateDoFs default_num junkE junkP y 0 in
         yP ← deref pyP;
         poR ← deref (Some po);
         oR ← aget poR (Z.of_nat i);
         xi ← view xP0 oL (dm_width Mpp);
         yi ← DenseMatrix_Mult Mpp xi;
         yP ← store yP oR yi;
         Ok (set_Private y 0 yP))
      y = Ok y' /\
    field_holds y' yE yP /\
    length yP = length yP0 /\
    (forall e A r, Mpps !! e = Some A -> (r < np e)%nat ->
       yP !! (poff np e + r)%nat = Some (block_dot A xP (poff np e) r)).
Proof.
  intros -> [Hpolen Hpo] Hlen Hfits HxP HyP Hy.
  destruct (for_upto_inv
    (fun m (st : EPField R) =>
       exists yP, field_holds st yE yP /\ length yP = length yP0 /\
         (forall e A r, (e < m)%nat -> Mpps !! e = Some A -> (r < np e)%nat ->
            yP !! (poff np e + r)%nat = Some (block_dot A xP (poff np e) r)))
    n
    (fun i y =>
         Mpps0 ← deref (Some Mpps);
         Mpp ← aget Mpps0 (Z.of_nat i);
         xP0 ← deref (Some xP);
         poL ← deref (Some po);
         oL ← aget poL (Z.of_nat i);
         let '(y, pyP) := PrivateDoFs default_num junkE junkP y 0 in
         yP ← deref pyP;
         poR ← deref (Some po);
         oR ← aget poR (Z.of_nat i);
         xi ← view xP0 oL (dm_width Mpp);
         yi ← DenseMatrix_Mult Mpp xi;
         yP ← store yP oR yi;
         Ok (set_Private y 0 yP))
    y) as (y' & Hrun & yP & Hy' & Hl & Hdone).
  - exists yP0. split; [exact Hy|]. split; [reflexivity|]. intros e A r He. lia.
  - intros i st Hi (yP & Hst & Hl & Hdone).
    destruct (lookup_lt_is_Some_2 Mpps i ltac:(lia)) as [A HA].
    destruct (Hfits i A HA) as (Hh & Hw & Hsized).
    pose proof (poff_S_le np i n Hi) as Hle.
    cbn [deref mbind result_bind].
    rewrite (aget_lookup _ _ _ HA). cbn [mbind result_bind].
    rewrite (aget_lookup _ _ _ (Hpo i ltac:(lia))). cbn [mbind result_bind].
    rewrite (PrivateDoFs_holds _ _ _ Hst). cbn [deref mbind result_bind].
    rewrite Hw. rewrite view_Ok by lia. cbn [mbind result_bind].
    rewrite DenseMatrix_Mult_Ok
      by (try exact Hsized; rewrite length_take, length_drop; lia).
    cbn [mbind result_bind]. rewrite Hh, Hw.
    set (w := map _ (seq 0 (np i))).
    assert (Hwlen : length w = np i) by (unfold w; rewrite length_map, length_seq; reflexivity).
    destruct (store_Ok yP w (poff np i)) as (yP' & Hstore & Hl' & Hblk & Hkeep); [lia|].
    rewrite Hstore. cbn [mbind result_bind].
    eexists. split; [reflexivity|]. exists yP'.
    split; [apply (field_holds_set_Private _ _ _ _ Hst)|].
    split; [lia|].
    intros e A' r He HA' Hr.
    destruct (decide (e = i)) as [->|Hne].
    + assert (A' = A) as -> by congruence.
      rewrite Hblk by lia. unfold w.
      rewrite list_lookup_fmap, lookup_seq_lt by exact Hr. simpl.
      f_equal. unfold block_dot. rewrite Hw. apply rsum_ext. intros l Hlt.
      rewrite vnth_take_drop by exact Hlt. reflexivity.
    + rewrite Hkeep; [apply Hdone; [lia|exact HA'|exact Hr]|].
      left. pose proof (poff_S_le np e i ltac:(lia)). lia.
  - exists y', yP. split; [exact Hrun|]. split; [exact Hy'|]. split; [exact Hl|].
    intros e A r HA Hr. apply Hdone; [|exact HA|exact Hr].
    apply lookup_lt_Some in HA. lia.
Qed.

Lemma EPMatrix_Mult_blocks (this : EPMatrix R) (x y : EPField R)
    Mee Mep Mpps po np xE xP yE yP :
  Mee_ this = Some Mee -> Mep_ this = Some Mep -> Mpp_ this = Some Mpps ->
  GetPrivateOffsets (dofsL (epdofs this)) = Some po ->
  GetPrivateOffsets (dofsR (epdofs this)) = Some po ->
  private_layout po (Z.to_nat (GetNElements (dofsR (epdofs this)))) np ->
  length Mpps = Z.to_nat (GetNElements (dofsR (epdofs this))) ->
  (forall e A, Mpps !! e = Some A -> block_fits A (np e)) ->
  ExposedDoFs_const x 0 = Some xE -> PrivateDoFs_const x 0 = Some xP ->
  field_holds y yE yP ->
  length xE = sm_width Mee -> length yE = sm_height Mee ->
  sm_height Mep = sm_height Mee -> sm_width Mep = length xP ->
  length xP = poff np (Z.to_nat (GetNElements (dofsR (epdofs this)))) ->
  length yP = length xP ->
  match Mpe_ this with
  | Some Mpe => sm_width Mpe = length xE /\ sm_height Mpe = length yP
  | None => sm_height Mep = length xE
  end ->
  exists y' yE' yP',
    EPMatrix_Mult default_num junkE junkP this x y = Ok y' /\
    field_holds y' yE' yP' /\
    length yE' = sm_height Mee /\
    (forall i, (i < sm_height Mee)%nat ->
       yE' !! i = Some (sm_row_dot Mee xE i + sm_row_dot Mep xP i)%S) /\
    (forall e A r, Mpps !! e = Some A -> (r < np e)%nat ->
       yP' !! (poff np e + r)%nat =
         Some (block_dot A xP (poff np e) r
               + coupling this Mep xE (poff np e + r))%S).
Proof.
  intros HMee HMep HMpp HpoL HpoR Hlay Hlen Hfits HxE HxP Hy
         HlxE HlyE HhMep HwMep HlxP HlyP Hpe.
  unfold EPMatrix_Mult. cbv zeta.
  rewrite HxE, HxP, HMee, HMep, HMpp, HpoL, HpoR.
  cbn [deref mbind result_bind].
  rewrite (ExposedDoFs_holds _ _ _ Hy). cbn [deref mbind result_bind].
  rewrite SparseMatrix_Mult_Ok by assumption. cbn [mbind result_bind].
  set (yE1 := map (sm_row_dot Mee xE) (seq 0 (sm_height Mee))).
  pose proof (field_holds_set_Exposed _ _ _ yE1 Hy) as Hy1.
  rewrite (ExposedDoFs_holds _ _ _ Hy1). cbn [deref mbind result_bind].
  assert (HlyE1 : length yE1 = sm_height Mee)
    by (unfold yE1; rewrite length_map, length_seq; reflexivity).
  rewrite SparseMatrix_AddMult_Ok by lia. cbn [mbind result_bind].
  set (yE2 := imap _ yE1).
  pose proof (field_holds_set_Exposed _ _ _ yE2 Hy1) as Hy2.
  destruct (private_blocks_loop Mpps po np _ xP (Some xP) _ yE2 yP
              eq_refl Hlay Hlen Hfits ltac:(lia) ltac:(lia) Hy2)
    as (y3 & yP3 & Hrun & Hy3 & Hl3 & Hblocks).
  match goal with
  | |- context [for_upto ?n ?b ?s] =>
    replace (for_upto n b s) with (Ok y3 : result (EPField R))
      by (symmetry; exact Hrun)
  end.
  cbn [mbind result_bind].
  rewrite (PrivateDoFs_holds _ _ _ Hy3). cbn [deref mbind result_bind].
  assert (HE2 : length yE2 = sm_height Mee /\
          forall i, (i < sm_height Mee)%nat ->
            yE2 !! i = Some (sm_row_dot Mee xE i + sm_row_dot Mep xP i)%S).
  { split; [unfold yE2; rewrite length_imap; exact HlyE1|].
    intros i Hi. unfold yE2. rewrite list_lookup_imap. unfold yE1 at 1.
    rewrite list_lookup_fmap, lookup_seq_lt by exact Hi. simpl. f_equal. ring. }
  destruct HE2 as [HlE2 HE2].
  unfold coupling. destruct (Mpe_ this) as [Mpe|].
  - destruct Hpe as [HwMpe HhMpe].
    rewrite SparseMatrix_AddMult_Ok by lia. cbn [mbind result_bind].
    eexists. eexists. eexists. split; [reflexivity|].
    split; [apply (field_holds_set_Private _ _ _ _ Hy3)|].
    split; [exact HlE2|]. split; [exact HE2|].
    intros e A r HA Hr. rewrite list_lookup_imap, (Hblocks e A r HA Hr). simpl.
    f_equal. ring.
  - rewrite SparseMatrix_AddMultTranspose_Ok by lia. cbn [mbind result_bind].
    eexists. eexists. eexists. split; [reflexivity|].
    split; [apply (field_holds_set_Private _ _ _ _ Hy3)|].
    split; [exact HlE2|]. split; [exact HE2|].
    intros e A r HA Hr. rewrite list_lookup_imap, (Hblocks e A r HA Hr). simpl.
    f_equal. ring.
Qed.

End MultTheorem.

(** Where the private ranges start at the same offsets on the left and
    on the right (as they do when left == right): on an operator of the
    assembled shape (global matrices Mee, Mep and square private blocks
    mpp(e) in place) and for every input field x of matching sizes,
    Mult(x, y) leaves
    y.exposed = Mee x.exposed + Mep x.private and, on the private range
    of each element e, y.private = mpp(e) x.private[range] plus the
    entries of Mpe x.exposed, or of Mep^t x.exposed when Mpe was not
    materialised. *)
Lemma Mult_exposed_private_blocks_same_offsets {R : Type} `{!Scalar R}
    (default_num : nat) (junkE junkP : nat -> nat -> R)
    (this : EPMatrix R) (x y : EPField R)
    (Mee Mep : SparseMatrix R) (Mpps : list (DenseMatrix R))
    (po : list Z) (np : nat -> nat) (xE xP yE yP : list R) :
  Mee_ this = Some Mee -> Mep_ this = Some Mep -> Mpp_ this = Some Mpps ->
  GetPrivateOffsets (dofsL (epdofs this)) = Some po ->
  GetPrivateOffsets (dofsR (epdofs this)) = Some po ->
  private_layout po (Z.to_nat (GetNElements (dofsR (epdofs this)))) np ->
  length Mpps = Z.to_nat (GetNElements (dofsR (epdofs this))) ->
  (forall e A, Mpps !! e = Some A -> block_fits A (np e)) ->
  ExposedDoFs_const x 0 = Some xE -> PrivateDoFs_const x 0 = Some xP ->
  field_holds y yE yP ->
  length xE = sm_width Mee -> length yE = sm_height Mee ->
  sm_height Mep = sm_height Mee -> sm_width Mep = length xP ->
  length xP = poff np (Z.to_nat (GetNElements (dofsR (epdofs this)))) ->
  length yP = length xP ->
  match Mpe_ this with
  | Some Mpe => sm_width Mpe = length xE /\ sm_height Mpe = length yP
  | None => sm_height Mep = length xE
  end ->
  exists y' yE' yP',
    EPMatrix_Mult default_num junkE junkP this x y = Ok y' /\
    field_holds y' yE' yP' /\
    length yE' = sm_height Mee /\
    (forall i, (i < sm_height Mee)%nat ->
       yE' !! i = Some (sm_row_dot Mee xE i + sm_row_dot Mep xP i)%S) /\
    (forall e A r, Mpps !! e = Some A -> (r < np e)%nat ->
       yP' !! (poff np e + r)%nat =
         Some (block_dot A xP (poff np e) r
               + match Mpe_ this with
                 | Some Mpe => sm_row_dot Mpe xE (poff np e + r)
                 | None => sm_col_dot Mep xE (poff np e + r)
                 end)%S).
Proof. intros. eapply EPMatrix_Mult_blocks; eassumption. Qed.

(** The assembled operator of the worked example applied to the field
    x.exposed = (1, 2, 3, 4), x.private = (5). *)
Example Mult_same_offsets_quad :
  exists y' yE' yP',
    EPMatrix_Mult 1 (fun _ _ => 0%Z) (fun _ _ => 0%Z)
      epmatrix_quad_assembled field_quad field_quad_out = Ok y' /\
    field_holds y' yE' yP' /\
    length yE' = sm_height Mee_quad /\
    (forall i, (i < sm_height Mee_quad)%nat ->
       yE' !! i = Some (sm_row_dot Mee_quad [1; 2; 3; 4]%Z i
                        + sm_row_dot Mep_quad [5%Z] i)%S) /\
    (forall e A r, Mpp_quad !! e = Some A -> (r < 1)%nat ->
       yP' !! (poff (fun _ => 1%nat) e + r)%nat =
         Some (block_dot A [5%Z] (poff (fun _ => 1%nat) e) r
               + match Mpe_ epmatrix_quad_assembled with
                 | Some Mpe => sm_row_dot Mpe [1; 2; 3; 4]%Z (poff (fun _ => 1%nat) e + r)
                 | None => sm_col_dot Mep_quad [1; 2; 3; 4]%Z (poff (fun _ => 1%nat) e + r)
                 end)%S).
Proof.
  apply (Mult_exposed_private_blocks_same_offsets 1 (fun _ _ => 0%Z) (fun _ _ => 0%Z)
           epmatrix_quad_assembled field_quad field_quad_out
           Mee_quad Mep_quad Mpp_quad [0; 1]%Z (fun _ => 1%nat)
           [1; 2; 3; 4]%Z [5%Z] [0; 0; 0; 0]%Z [0%Z]).
  - vm_compute. reflexivity.
  - vm_compute. reflexivity.
  - vm_compute. reflexivity.
  - vm_compute. reflexivity.
  - vm_compute. reflexivity.
  - split; [reflexivity|]. intros e He.
    change (Z.to_nat (GetNElements (dofsR (epdofs epmatrix_quad_assembled))))
      with 1%nat in He.
    destruct e as [|[|e]]; [reflexivity|reflexivity|lia].
  - reflexivity.
  - intros e A He. destruct e as [|e]; [|destruct e; discriminate He].
    vm_compute in He. injection He as <-. vm_compute. auto.
  - reflexivity.
  - reflexivity.
  - split; [simpl; lia|]. split; eexists; split; reflexivity.
  - reflexivity.
  - reflexivity.
  - reflexivity.
  - reflexivity.
  - reflexivity.
  - reflexivity.
  - vm_compute. reflexivity.
Qed.

(** C5 at its failing input, an operator assembled over two spaces.  Two
    segments without exposed dofs, one private dof per segment on the
    left and two on the right; every private block is the 1 x 2 matrix
    (2 3).  Assemble returns with Mpe in place, the private ranges
    start at 0, 1 on the left and at 0, 2 on the right.  For x over the
    right space with x.private = (1, 2 | 3, 4) and y over the left
    space, the claim gives y.private = (2*1 + 3*2 | 2*3 + 3*4) =
    (8 | 18); Mult reads x.private from the left offsets and writes
    y.private at the right offsets, and its second block falls outside
    y.private. *)
Theorem C5_Mult_swaps_private_offsets (junkR junkP : nat -> Z)
    (default_num : nat) (junkE junkP' : nat -> nat -> Z) :
  exists m Mee Mep Mpe,
    Assemble Inverse_unit epmatrix_left_right junkR junkP = Ok m /\
    Mee_ m = Some Mee /\ Mep_ m = Some Mep /\ Mpe_ m = Some Mpe /\
    Mpp_ m = Some [elmat_left_right; elmat_left_right] /\
    GetNElements (dofsR (epdofs m)) = 2%Z /\
    GetPrivateOffsets (dofsL (epdofs m)) = Some [0; 1; 2]%Z /\
    GetPrivateOffsets (dofsR (epdofs m)) = Some [0; 2; 4]%Z /\
    (sm_height Mee = 0 /\ sm_width Mee = 0 /\ sm_height Mep = 0 /\ sm_width Mep = 4 /\
     sm_height Mpe = 2 /\ sm_width Mpe = 0)%nat /\
    ExposedDoFs_const field_right 0 = Some [] /\
    PrivateDoFs_const field_right 0 = Some [1; 2; 3; 4]%Z /\
    field_holds field_left_out [] [0; 0]%Z /\
    DenseMatrix_Mult elmat_left_right [1; 2]%Z = Ok [8%Z] /\
    DenseMatrix_Mult elmat_left_right [3; 4]%Z = Ok [18%Z] /\
    EPMatrix_Mult default_num junkE junkP' m field_right field_left_out
      = Fail OutOfBounds.
Proof.
  eexists. eexists. eexists. eexists.
  split; [vm_compute; reflexivity|].
  split; [reflexivity|]. split; [reflexivity|]. split; [reflexivity|].
  split; [reflexivity|]. split; [reflexivity|].
  split; [reflexivity|]. split; [reflexivity|].
  split; [repeat split|].
  split; [reflexivity|]. split; [reflexivity|].
  split; [split; [simpl; lia|split; eexists; split; reflexivity]|].
  split; [vm_compute; reflexivity|].
  split; [vm_compute; reflexivity|].
  vm_compute. reflexivity.
Qed.

(** Where the swapped offsets stay inside the vectors, Mult returns
    other values than the blocks applied range by range: on the three
    elements of the mixed example, with x.private = (1, 2 | 3 | 4, 5),
    the blocks give (8 | 15, 21 | 109) and Mult leaves (8, 0, 10, 109),
    the second entry being the one y.private held before. *)
Example Mult_swapped_offsets_mixed (junkR junkP : nat -> Z)
    (default_num : nat) (junkE junkP' : nat -> nat -> Z) :
  exists m y',
    Assemble Inverse_unit epmatrix_mixed junkR junkP = Ok m /\
    Mpp_ m = Some [elmat_mixed 0; elmat_mixed 1; elmat_mixed 2] /\
    GetPrivateOffsets (dofsL (epdofs m)) = Some [0; 1; 3; 4]%Z /\
    GetPrivateOffsets (dofsR (epdofs m)) = Some [0; 2; 3; 5]%Z /\
    PrivateDoFs_const field_mixed_right 0 = Some [1; 2; 3; 4; 5]%Z /\
    field_holds field_mixed_left_out [] [0; 0; 0; 0]%Z /\
    DenseMatrix_Mult (elmat_mixed 0) [1; 2]%Z = Ok [8%Z] /\
    DenseMatrix_Mult (elmat_mixed 1) [3%Z] = Ok [15; 21]%Z /\
    DenseMatrix_Mult (elmat_mixed 2) [4; 5]%Z = Ok [109%Z] /\
    EPMatrix_Mult default_num junkE junkP' m field_mixed_right field_mixed_left_out
      = Ok y' /\
    field_holds y' [] [8; 0; 10; 109]%Z.
Proof.
  eexists. eexists.
  split; [vm_compute; reflexivity|].
  split; [reflexivity|]. split; [reflexivity|]. split; [reflexivity|].
  split; [reflexivity|].
  split; [split; [simpl; lia|split; eexists; split; reflexivity]|].
  split; [vm_compute; reflexivity|].
  split; [vm_compute; reflexivity|].
  split; [vm_compute; reflexivity|].
  split; [vm_compute; reflexivity|].
  split; [simpl; lia|split; eexists; split; reflexivity].
Qed.

(** ** Dense matrices *)

Section Dense.
Context {R : Type} `{!Scalar R}.
Add Ring scalar_ring_dense : scalar_ring.

Lemma flat_map_seq_S {A} (g : nat -> list A) n :
  flat_map g (seq 0 (S n)) = flat_map g (seq 0 n) ++ g n.
Proof. rewrite seq_S, flat_map_app. simpl. rewrite app_nil_r. reflexivity. Qed.

Lemma length_flat_map_blocks {A} (g : nat -> list A) h w :
  (forall j, (j < w)%nat -> length (g j) = h) ->
  length (flat_map g (seq 0 w)) = (w * h)%nat.
Proof.
  intros Hg. induction w as [|w IH]; [reflexivity|].
  rewrite flat_map_seq_S, length_app, IH, Hg by (intros; try apply Hg; lia). lia.
Qed.

Lemma lookup_flat_map_blocks {A} (g : nat -> list A) h w i j :
  (forall j', (j' < w)%nat -> length (g j') = h) ->
  (i < h)%nat -> (j < w)%nat ->
  flat_map g (seq 0 w) !! (i + j * h)%nat = g j !! i.
Proof.
  intros Hg Hi Hj. induction w as [|w IH]; [lia|].
  rewrite flat_map_seq_S.
  assert (Hlen : length (flat_map g (seq 0 w)) = (w * h)%nat)
    by (apply length_flat_map_blocks; intros; apply Hg; lia).
  destruct (decide (j = w)) as [->|Hne].
  - rewrite lookup_app_r by lia. rewrite Hlen. f_equal. lia.
  - rewrite lookup_app_l by nia. apply IH; [intros; apply Hg; lia|lia].
Qed.

Lemma dm_of_sized h w (v : nat -> nat -> R) : dm_sized (dm_of h w v).
Proof.
  unfold dm_sized, dm_of. simpl.
  rewrite (length_flat_map_blocks _ h w); [lia|].
  intros j _. rewrite length_map, length_seq. reflexivity.
Qed.

Lemma dm_at_dm_of h w (v : nat -> nat -> R) i j :
  (i < h)%nat -> (j < w)%nat -> dm_at (dm_of h w v) i j = v i j.
Proof.
  intros Hi Hj. unfold dm_at, vnth, dm_of. simpl.
  rewrite (lookup_flat_map_blocks _ h w i j); [| |exact Hi|exact Hj].
  - rewrite list_lookup_fmap, lookup_seq_lt by exact Hi. reflexivity.
  - intros j' _. rewrite length_map, length_seq. reflexivity.
Qed.

Lemma dm_of_ext h w (v v' : nat -> nat -> R) :
  (forall i j, (i < h)%nat -> (j < w)%nat -> v i j = v' i j) ->
  dm_of h w v = dm_of h w v'.
Proof.
  intros Hv. unfold dm_of. f_equal.
  induction w as [|w IH]; [reflexivity|].
  rewrite !flat_map_seq_S, IH by (intros; apply Hv; lia). f_equal.
  apply map_ext_in. intros i Hi. apply in_seq in Hi. apply Hv; lia.
Qed.

(** A column of [h] values appended to the storage. *)
Lemma append_column (h : nat) (f : nat -> result R) (d0 d1 : list R) :
  for_upto h (fun i d => v ← f i; Ok (d ++ [v])) d0 = Ok d1 ->
  (forall i, (i < h)%nat -> exists x, f i = Ok x) /\
  d1 = d0 ++ map (fun i => value_of (f i)) (seq 0 h).
Proof.
  intros H.
  apply (for_upto_post
    (fun m d => (forall i, (i < m)%nat -> exists x, f i = Ok x) /\
                d = d0 ++ map (fun i => value_of (f i)) (seq 0 m))) in H.
  - exact H.
  - split; [intros i Hi; lia|]. simpl. rewrite app_nil_r. reflexivity.
  - intros m s0 s1 Hm [Hok ->] Hstep.
    bind_inv Hstep. injection Hstep as <-. split.
    + intros i Hi. destruct (decide (i = m)) as [->|Hne]; [eauto|apply Hok; lia].
    + rewrite seq_S, map_app, app_assoc. simpl. rewrite Ha. reflexivity.
Qed.

Lemma dm_tabulate_Ok h w (f : nat -> nat -> result R) A :
  dm_tabulate h w f = Ok A ->
  (forall i j, (i < h)%nat -> (j < w)%nat -> exists x, f i j = Ok x) /\
  A = dm_of h w (fun i j => value_of (f i j)).
Proof.
  intros H. unfold dm_tabulate in H. bind_inv H. injection H as <-.
  apply (for_upto_post
    (fun m d => (forall i j, (i < h)%nat -> (j < m)%nat -> exists x, f i j = Ok x) /\
                d = flat_map (fun j => map (fun i => value_of (f i j)) (seq 0 h)) (seq 0 m)))
    in Ha.
  - destruct Ha as [Hok ->]. split; [exact Hok|reflexivity].
  - split; [intros i j _ Hj; lia|reflexivity].
  - intros m s0 s1 Hm [Hok ->] Hstep.
    apply append_column in Hstep as [Hcol ->]. split.
    + intros i j Hi Hj. destruct (decide (j = m)) as [->|Hne]; [apply Hcol; exact Hi|].
      apply Hok; lia.
    + rewrite flat_map_seq_S. reflexivity.
Qed.

Lemma dm_get_Ok (A : DenseMatrix R) (i j : nat) x :
  dm_get A (Z.of_nat i) (Z.of_nat j) = Ok x -> dm_at A i j = x.
Proof.
  unfold dm_get, dm_at. intros H. apply aget_Ok in H as [_ H].
  replace (Z.to_nat (Z.of_nat i + Z.of_nat j * Z.of_nat (dm_height A)))
    with (i + j * dm_height A)%nat in H by lia.
  apply vnth_lookup. exact H.
Qed.

(** [CopyMN] returns the block it is asked for. *)
Lemma DenseMatrix_CopyMN_Ok (A B : DenseMatrix R) (m n ro co : nat) :
  DenseMatrix_CopyMN A (Z.of_nat m) (Z.of_nat n) (Z.of_nat ro) (Z.of_nat co) = Ok B ->
  B = dm_of m n (fun i j => dm_at A (ro + i) (co + j)).
Proof.
  unfold DenseMatrix_CopyMN. rewrite !Nat2Z.id. intros H.
  apply dm_tabulate_Ok in H as [Hok ->]. apply dm_of_ext.
  intros i j Hi Hj. destruct (Hok i j Hi Hj) as [x Hx]. rewrite Hx. simpl.
  symmetry. apply dm_get_Ok.
  rewrite !Nat2Z.inj_add. exact Hx.
Qed.

Lemma DenseMatrix_add_Ok (A B C : DenseMatrix R) :
  DenseMatrix_add A B = Ok C ->
  C = dm_of (dm_height A) (dm_width A) (fun i j => (dm_at A i j + dm_at B i j)%S).
Proof.
  unfold DenseMatrix_add. intros H.
  apply dm_tabulate_Ok in H as [Hok ->]. apply dm_of_ext.
  intros i j Hi Hj. destruct (Hok i j Hi Hj) as [x Hx]. rewrite Hx. simpl.
  bind_inv Hx. bind_inv Hx. injection Hx as <-.
  rewrite (dm_get_Ok _ _ _ _ Ha), (dm_get_Ok _ _ _ _ Ha0). reflexivity.
Qed.

End Dense.

(** ** Sparse accumulation *)

Section Sparse.
Context {R : Type} `{!Scalar R}.
Add Ring scalar_ring_sparse : scalar_ring.

Lemma SparseMatrix_Add_Ok (A A' : SparseMatrix R) i j a :
  SparseMatrix_Add A i j a = Ok A' ->
  sm_height A' = sm_height A /\ sm_width A' = sm_width A /\
  forall r c, sm_elem A' r c =
    if bool_decide (r = Z.to_nat i /\ c = Z.to_nat j)
    then (sm_elem A r c + a)%S else sm_elem A r c.
Proof.
  unfold SparseMatrix_Add. case_bd; [|discriminate].
  intros [= <-]. simpl. auto.
Qed.

Lemma aget_nat_Ok {A} (a : list A) (i : nat) x :
  aget a (Z.of_nat i) = Ok x -> a !! i = Some x.
Proof. intros H. apply aget_Ok in H as [_ H]. rewrite Nat2Z.id in H. exact H. Qed.

Lemma AddSubMatrix_row (A A' : SparseMatrix R) rows cols (subm : DenseMatrix R)
    (ii : nat) gi0 :
  rows !! ii = Some gi0 ->
  for_upto (length cols)
    (fun j A1 =>
       gj0 ← aget cols (Z.of_nat j);
       let '(gj, t) :=
         if bool_decide (gj0 < 0)%Z
         then ((-1 - gj0)%Z, negb (negb (bool_decide (gi0 < 0)%Z)))
         else (gj0, negb (bool_decide (gi0 < 0)%Z)) in
       a ← dm_get subm (Z.of_nat ii) (Z.of_nat j);
       if bool_decide (a = rzero) then Ok A1
       else SparseMatrix_Add A1 (decode_id gi0) gj (if t then a else (- a)%S))
    A = Ok A' ->
  sm_height A' = sm_height A /\ sm_width A' = sm_width A /\
  forall r c, sm_elem A' r c =
    (sm_elem A r c + rsum (length cols) (contribution rows cols (dm_at subm) r c ii))%S.
Proof.
  intros Hgi H.
  apply (for_upto_post
    (fun m A1 => sm_height A1 = sm_height A /\ sm_width A1 = sm_width A /\
       forall r c, sm_elem A1 r c =
         (sm_elem A r c + rsum m (contribution rows cols (dm_at subm) r c ii))%S)) in H.
  - exact H.
  - split; [reflexivity|]. split; [reflexivity|]. intros r c. rewrite rsum_0. ring.
  - intros jj A0 A1 Hjj (Hh & Hw & Hel) Hstep.
    bind_inv Hstep. apply aget_nat_Ok in Ha.
    assert (Hc : forall r c,
      contribution rows cols (dm_at subm) r c ii jj =
      if bool_decide (Z.to_nat (decode_id gi0) = r /\ Z.to_nat (decode_id a) = c)
      then (if bool_decide (is_negated gi0 = is_negated a)
            then dm_at subm ii jj else (- dm_at subm ii jj)%S)
      else rzero).
    { intros r c. unfold contribution. rewrite Hgi, Ha. reflexivity. }
    destruct (if bool_decide (a < 0)%Z
              then ((-1 - a)%Z, negb (negb (bool_decide (gi0 < 0)%Z)))
              else (a, negb (bool_decide (gi0 < 0)%Z))) as [gj t] eqn:Hgj.
    assert (Hgjt : gj = decode_id a /\
                   t = bool_decide (is_negated gi0 = is_negated a)).
    { unfold decode_id, is_negated. revert Hgj.
      destruct (bool_decide (a < 0)%Z), (bool_decide (gi0 < 0)%Z);
        simpl; intros [= <- <-]; split; reflexivity. }
    destruct Hgjt as [-> ->].
    bind_inv Hstep. apply dm_get_Ok in Ha0. subst a0.
    revert Hstep. case_bd.
    + intros [= <-]. split; [exact Hh|]. split; [exact Hw|].
      intros r c. rewrite rsum_S, Hc, Hel.
      match goal with H : dm_at subm ii jj = rzero |- _ => rewrite H end.
      repeat case_bd; ring.
    + intros Hadd. apply SparseMatrix_Add_Ok in Hadd as (Hh' & Hw' & Hel').
      split; [congruence|]. split; [congruence|].
      intros r c. rewrite rsum_S, Hc, Hel', Hel.
      destruct (bool_decide (is_negated gi0 = is_negated a));
        repeat case_bd; try ring; exfalso;
        match goal with
        | H : ~ (_ /\ _) |- _ => apply H; split; lia || congruence
        | H1 : _ /\ _, H2 : ~ (_ /\ _) |- _ =>
            apply H2; destruct H1; split; lia || congruence
        end.
Qed.

Lemma AddSubMatrix_Ok (A A' : SparseMatrix R) rows cols (subm : DenseMatrix R) :
  SparseMatrix_AddSubMatrix A rows cols subm = Ok A' ->
  sm_height A' = sm_height A /\ sm_width A' = sm_width A /\
  forall r c, sm_elem A' r c =
    (sm_elem A r c + scatter rows cols (dm_at subm) r c)%S.
Proof.
  unfold SparseMatrix_AddSubMatrix. intros H.
  apply (for_upto_post
    (fun m A1 => sm_height A1 = sm_height A /\ sm_width A1 = sm_width A /\
       forall r c, sm_elem A1 r c =
         (sm_elem A r c
          + rsum m (fun ii => rsum (length cols)
                                (contribution rows cols (dm_at subm) r c ii)))%S)) in H.
  - exact H.
  - split; [reflexivity|]. split; [reflexivity|]. intros r c. rewrite rsum_0. ring.
  - intros ii A0 A1 Hii (Hh & Hw & Hel) Hstep.
    bind_inv Hstep. apply aget_nat_Ok in Ha.
    assert (Hrow :
      for_upto (length cols)
        (fun j A1 =>
           gj0 ← aget cols (Z.of_nat j);
           let '(gj, t) :=
             if bool_decide (gj0 < 0)%Z
             then ((-1 - gj0)%Z, negb (negb (bool_decide (a < 0)%Z)))
             else (gj0, negb (bool_decide (a < 0)%Z)) in
           a1 ← dm_get subm (Z.of_nat ii) (Z.of_nat j);
           if bool_decide (a1 = rzero) then Ok A1
           else SparseMatrix_Add A1 (decode_id a) gj (if t then a1 else (- a1)%S))
        A0 = Ok A1).
    { rewrite <- Hstep. unfold decode_id.
      destruct (bool_decide (a < 0)%Z); reflexivity. }
    apply (AddSubMatrix_row _ _ rows) in Hrow as (Hh' & Hw' & Hel'); [|exact Ha].
    split; [congruence|]. split; [congruence|].
    intros r c. rewrite rsum_S, Hel', Hel. ring.
Qed.

End Sparse.

(** ** The columns of the reduced element block *)

Section ReduceColumns.
Context {R : Type} `{!Scalar R}.
Add Ring scalar_ring_cols : scalar_ring.

Lemma view_inv (v w : list R) (off n : nat) :
  view v (Z.of_nat off) n = Ok w ->
  length w = n /\ forall l, (l < n)%nat -> vnth w l = vnth v (off + l).
Proof.
  unfold view. intros H.
  apply (for_upto_post
    (fun m acc => length acc = m /\
       forall l, (l < m)%nat -> vnth acc l = vnth v (off + l))) in H.
  - exact H.
  - split; [reflexivity|]. intros l Hl. lia.
  - intros m s0 s1 Hm [Hlen Hval] Hstep.
    bind_inv Hstep. injection Hstep as <-.
    replace (Z.of_nat off + Z.of_nat m)%Z with (Z.of_nat (off + m)) in Ha by lia.
    apply aget_nat_Ok in Ha.
    split; [rewrite length_app; simpl; lia|].
    intros l Hl. unfold vnth. destruct (decide (l = m)) as [->|Hne].
    + rewrite lookup_app_r by lia. rewrite Hlen, Nat.sub_diag, Ha. reflexivity.
    + rewrite lookup_app_l by lia. apply Hval. lia.
Qed.

Lemma DenseMatrix_Mult_inv (A : DenseMatrix R) (x y : list R) :
  DenseMatrix_Mult A x = Ok y ->
  dm_sized A /\ length x = dm_width A /\
  forall i, (i < dm_height A)%nat ->
    vnth y i = rsum (dm_width A) (fun j => (dm_at A i j * vnth x j)%S).
Proof.
  unfold DenseMatrix_Mult. case_bd; [|discriminate].
  intros [= <-]. destruct a as [Hs Hx]. split; [exact Hs|]. split; [exact Hx|].
  intros i Hi. unfold vnth at 1.
  rewrite list_lookup_fmap, lookup_seq_lt by exact Hi. reflexivity.
Qed.

Lemma DenseMatrixInverse_Mult_inv (inv : DenseMatrixInverse R) (x y : list R) :
  DenseMatrixInverse_Mult inv x = Ok y ->
  inverse_fits inv (inv_size inv) /\ length x = inv_size inv /\
  forall k, (k < inv_size inv)%nat ->
    vnth y k = rsum (inv_size inv) (fun l => (dm_at (inv_matrix inv) k l * vnth x l)%S).
Proof.
  unfold DenseMatrixInverse_Mult. case_bd; [|discriminate].
  destruct a as [Hh Hw]. intros H. apply DenseMatrix_Mult_inv in H as (Hs & Hx & Hy).
  rewrite Hw in Hx, Hy. rewrite Hh in Hy.
  split; [unfold inverse_fits; auto|]. split; [exact Hx|exact Hy].
Qed.

Lemma reduce_columns_Ok (inv : DenseMatrixInverse R) (mep : DenseMatrix R)
    (nL nR np : nat) (mrr0 : DenseMatrix R) :
  dm_height mep = nL -> dm_width mep = np -> inv_size inv = np ->
  reduce_columns inv mep nL nR (Z.of_nat np) = Ok mrr0 ->
  mrr0 = dm_of nL nR (reduced_entry inv mep np).
Proof.
  intros Hh Hw Hsz H. unfold reduce_columns in H. bind_inv H. injection H as <-.
  unfold dm_of. f_equal.
  apply (for_upto_post
    (fun m d => d = flat_map (fun jj => map (fun ii => reduced_entry inv mep np ii jj)
                                            (seq 0 nL)) (seq 0 m))) in Ha.
  - exact Ha.
  - reflexivity.
  - intros jj d0 d1 Hjj -> Hstep.
    bind_inv Hstep. bind_inv Hstep. bind_inv Hstep.
    rewrite <- Nat2Z.inj_mul in Ha0. apply view_inv in Ha0 as [Hvlen Hv].
    apply DenseMatrixInverse_Mult_inv in Ha1 as (_ & _ & Hvp).
    apply DenseMatrix_Mult_inv in Ha2 as (_ & _ & Hve).
    rewrite (for_upto_ext _
      (fun ii d => v ← (v0 ← aget a2 (Z.of_nat ii); Ok (- v0)%S); Ok (d ++ [v])))
      in Hstep.
    2:{ intros ii s0 _. destruct (aget a2 (Z.of_nat ii)); reflexivity. }
    apply append_column in Hstep as [Hok ->].
    rewrite flat_map_seq_S. f_equal.
    apply map_ext_in. intros ii Hii. apply in_seq in Hii.
    destruct (Hok ii ltac:(lia)) as [x Hx]. rewrite Hx. simpl.
    bind_inv Hx. injection Hx as <-.
    match goal with
    | H : aget a2 _ = Ok _ |- _ =>
      apply aget_nat_Ok, vnth_lookup in H; rewrite <- H
    end.
    rewrite Hve by lia. unfold reduced_entry. f_equal.
    rewrite Hw. apply rsum_ext. intros k Hk. f_equal.
    rewrite Hvp by lia. rewrite Hsz. apply rsum_ext. intros l Hl. f_equal.
    rewrite Hv by lia. reflexivity.
Qed.

End ReduceColumns.

(** ** The dof object during Assemble *)

Lemma same_space_refl d : same_space d d.
Proof. unfold same_space. auto. Qed.

Lemma same_space_trans d1 d2 d3 :
  same_space d1 d2 -> same_space d2 d3 -> same_space d1 d3.
Proof. unfold same_space. intros (?&?&?&?) (?&?&?&?). repeat split; congruence. Qed.

Lemma GetElementDofs_same_space d d' e old ids :
  same_space d d' ->
  GetElementDofs d e old = Ok (d, ids) -> GetElementDofs d' e old = Ok (d', ids).
Proof.
  intros (Hf & Ht & _ & _). unfold GetElementDofs. rewrite Ht, Hf.
  destruct (expDoFsByElem_ d) as [t|]; intros H; bind_inv H;
    injection H as <-; rewrite Ha; reflexivity.
Qed.

Lemma GetNElements_same_space d d' : same_space d d' -> GetNElements d' = GetNElements d.
Proof. intros (Hf & _). unfold GetNElements. rewrite Hf. reflexivity. Qed.

Lemma ids_known_same_space d d' ids :
  same_space d d' -> ids_known d ids -> ids_known d' ids.
Proof.
  intros Hs Hk e old He. rewrite (GetNElements_same_space _ _ Hs) in He.
  apply (GetElementDofs_same_space d d'); [exact Hs|]. apply Hk. exact He.
Qed.

(** What the four-argument GetElementDofs returns for element [e]. *)
Lemma GetElementDofsPri_inv d (e : nat) old d' l po np ids :
  ids_known d ids -> priOffset_ok d ->
  (Z.of_nat e < GetNElements d)%Z ->
  GetElementDofsPri d (Z.of_nat e) old = Ok (d', l, po, np) ->
  l = ids e /\ po = offset_of (fes_ d) e /\
  np = interiorDofs (fes_ d) (Z.of_nat e) /\
  same_space d d' /\ priOffset_ok d' /\
  exists tbl, priOffset_ d' = Some tbl /\ buildPriOffset (fes_ d) = Ok tbl.
Proof.
  intros Hids Hpo He H. unfold GetElementDofsPri in H.
  rewrite (Hids e old He) in H. cbn [mbind result_bind] in H.
  destruct (buildPriOffset_spec (fes_ d)) as (tbl & Htbl & Hlen & Hval).
  { unfold GetNElements in He. lia. }
  assert (Hd' : exists d1, d1 = d' /\ same_space d d1 /\ priOffset_ d1 = Some tbl /\
            aget tbl (Z.of_nat e) = Ok po /\
            (next ← aget tbl (Z.of_nat e + 1)%Z; Ok (next - po)%Z) = Ok np /\ l = ids e).
  { unfold priOffset_ok in Hpo. destruct (priOffset_ d) as [p|] eqn:Hp.
    - assert (p = tbl) as -> by congruence.
      cbn [mbind result_bind deref] in H. rewrite Hp in H. cbn [deref mbind result_bind] in H.
      bind_inv H. bind_inv H. injection H as <- <- <- <-.
      exists d. repeat split; auto. rewrite Ha0. reflexivity.
    - rewrite Htbl in H. cbn [mbind result_bind deref priOffset_] in H.
      bind_inv H. bind_inv H. injection H as <- <- <- <-.
      eexists. split; [reflexivity|]. repeat split; auto. rewrite Ha0. reflexivity. }
  destruct Hd' as (d1 & <- & Hs & Hp1 & Hget & Hnext & ->).
  unfold GetNElements in He.
  apply aget_nat_Ok in Hget. rewrite Hval in Hget by lia. injection Hget as <-.
  replace (Z.of_nat e + 1)%Z with (Z.of_nat (S e)) in Hnext by lia.
  bind_inv Hnext. apply aget_nat_Ok in Ha. rewrite Hval in Ha by lia.
  injection Ha as <-. injection Hnext as <-.
  split; [reflexivity|]. split; [reflexivity|].
  split; [rewrite offset_of_S; lia|]. split; [exact Hs|]. split.
  - unfold priOffset_ok. rewrite Hp1. destruct Hs as (-> & _). exact Htbl.
  - exists tbl. auto.
Qed.

(** ** Runs that return *)

Section Returns.
Context {R : Type} `{!Scalar R}.

Lemma dm_get_returns (A : DenseMatrix R) (i j : nat) :
  dm_sized A -> (i < dm_height A)%nat -> (j < dm_width A)%nat ->
  dm_get A (Z.of_nat i) (Z.of_nat j) = Ok (dm_at A i j).
Proof.
  intros Hs Hi Hj. unfold dm_get, dm_at, vnth.
  assert (Hlt : (i + j * dm_height A < length (dm_data A))%nat)
    by (unfold dm_sized in Hs; rewrite Hs; nia).
  destruct (lookup_lt_is_Some_2 _ _ Hlt) as [x Hx].
  replace (Z.of_nat i + Z.of_nat j * Z.of_nat (dm_height A))%Z
    with (Z.of_nat (i + j * dm_height A)) by lia.
  rewrite (aget_lookup _ _ _ Hx), Hx. reflexivity.
Qed.

Lemma dm_tabulate_returns h w (f : nat -> nat -> result R) :
  (forall i j, (i < h)%nat -> (j < w)%nat -> exists x, f i j = Ok x) ->
  exists A, dm_tabulate h w f = Ok A.
Proof.
  intros Hf. unfold dm_tabulate.
  destruct (for_upto_inv (fun _ _ => True) w
     (fun j d0 => for_upto h (fun i d1 => v ← f i j; Ok (d1 ++ [v])) d0) [])
    as (d & Hd & _).
  - exact I.
  - intros j d0 Hj _.
    destruct (for_upto_inv (fun _ _ => True) h
                (fun i d1 => v ← f i j; Ok (d1 ++ [v])) d0) as (d1 & Hd1 & _).
    + exact I.
    + intros i s0 Hi _. destruct (Hf i j Hi Hj) as [x Hx]. rewrite Hx. simpl. eauto.
    + eauto.
  - rewrite Hd. simpl. eauto.
Qed.

Lemma DenseMatrix_CopyMN_returns (A : DenseMatrix R) (m n ro co : nat) :
  dm_sized A -> (ro + m <= dm_height A)%nat -> (co + n <= dm_width A)%nat ->
  DenseMatrix_CopyMN A (Z.of_nat m) (Z.of_nat n) (Z.of_nat ro) (Z.of_nat co)
  = Ok (dm_of m n (fun i j => dm_at A (ro + i) (co + j))).
Proof.
  intros Hs Hm Hn.
  assert (exists B, DenseMatrix_CopyMN A (Z.of_nat m) (Z.of_nat n)
                      (Z.of_nat ro) (Z.of_nat co) = Ok B) as [B HB].
  { unfold DenseMatrix_CopyMN. rewrite !Nat2Z.id. apply dm_tabulate_returns.
    intros i j Hi Hj. rewrite <- !Nat2Z.inj_add.
    rewrite dm_get_returns by (assumption || lia). eauto. }
  rewrite HB. f_equal. apply DenseMatrix_CopyMN_Ok. exact HB.
Qed.

Lemma DenseMatrix_add_returns (A B : DenseMatrix R) :
  dm_sized A -> dm_sized B ->
  (dm_height A <= dm_height B)%nat -> (dm_width A <= dm_width B)%nat ->
  exists C, DenseMatrix_add A B = Ok C.
Proof.
  intros HA HB Hh Hw. unfold DenseMatrix_add. apply dm_tabulate_returns.
  intros i j Hi Hj.
  rewrite !dm_get_returns by (assumption || lia). simpl. eauto.
Qed.

Lemma SparseMatrix_Add_returns (A : SparseMatrix R) i j a :
  (0 <= i < Z.of_nat (sm_height A))%Z -> (0 <= j < Z.of_nat (sm_width A))%Z ->
  exists A', SparseMatrix_Add A i j a = Ok A' /\
    sm_height A' = sm_height A /\ sm_width A' = sm_width A.
Proof.
  intros Hi Hj. unfold SparseMatrix_Add. rewrite bool_decide_true by auto.
  eexists. split; [reflexivity|]. simpl. auto.
Qed.

Lemma AddSubMatrix_returns (A : SparseMatrix R) rows cols (subm : DenseMatrix R) :
  Forall (fun g => (0 <= decode_id g < Z.of_nat (sm_height A))%Z) rows ->
  Forall (fun g => (0 <= decode_id g < Z.of_nat (sm_width A))%Z) cols ->
  dm_sized subm ->
  (length rows <= dm_height subm)%nat -> (length cols <= dm_width subm)%nat ->
  exists A', SparseMatrix_AddSubMatrix A rows cols subm = Ok A' /\
    sm_height A' = sm_height A /\ sm_width A' = sm_width A.
Proof.
  intros Hrows Hcols Hs Hh Hw.
  cut (exists A', SparseMatrix_AddSubMatrix A rows cols subm = Ok A').
  { intros [A' HA']. exists A'. split; [exact HA'|].
    apply AddSubMatrix_Ok in HA' as (? & ? & _). auto. }
  unfold SparseMatrix_AddSubMatrix.
  destruct (for_upto_inv
    (fun _ A1 => sm_height A1 = sm_height A /\ sm_width A1 = sm_width A)
    (length rows)
    (fun i A0 =>
       gi0 ← aget rows (Z.of_nat i);
       let '(gi, s) :=
         if bool_decide (gi0 < 0)%Z then ((-1 - gi0)%Z, false) else (gi0, true) in
       for_upto (length cols)
         (fun j A1 =>
            gj0 ← aget cols (Z.of_nat j);
            let '(gj, t) :=
              if bool_decide (gj0 < 0)%Z then ((-1 - gj0)%Z, negb s) else (gj0, s) in
            a ← dm_get subm (Z.of_nat i) (Z.of_nat j);
            if bool_decide (a = rzero) then Ok A1
            else SparseMatrix_Add A1 gi gj (if t then a else (- a)%S))
         A0)
    A) as (A' & HA' & _); [auto| |eauto].
  intros i A0 Hi [Hh0 Hw0].
  destruct (lookup_lt_is_Some_2 rows i Hi) as [gi0 Hgi].
  rewrite (aget_lookup _ _ _ Hgi). cbn [mbind result_bind].
  pose proof (proj1 (Forall_lookup _ _) Hrows i gi0 Hgi) as Hgir.
  cbv beta in Hgir.
  assert (exists gi s,
    (if bool_decide (gi0 < 0)%Z then ((-1 - gi0)%Z, false) else (gi0, true)) = (gi, s) /\
    gi = decode_id gi0) as (gi & s & -> & ->).
  { unfold decode_id. destruct (bool_decide (gi0 < 0)%Z); eauto. }
  apply (for_upto_inv
    (fun _ A1 => sm_height A1 = sm_height A /\ sm_width A1 = sm_width A));
    [auto|].
  intros j A1 Hj [Hh1 Hw1].
  destruct (lookup_lt_is_Some_2 cols j Hj) as [gj0 Hgj].
  rewrite (aget_lookup _ _ _ Hgj). cbn [mbind result_bind].
  pose proof (proj1 (Forall_lookup _ _) Hcols j gj0 Hgj) as Hgjr.
  cbv beta in Hgjr.
  assert (exists gj t,
    (if bool_decide (gj0 < 0)%Z then ((-1 - gj0)%Z, negb s) else (gj0, s)) = (gj, t) /\
    gj = decode_id gj0) as (gj & t & -> & ->).
  { unfold decode_id. destruct (bool_decide (gj0 < 0)%Z); eauto. }
  rewrite dm_get_returns by (assumption || lia). cbn [mbind result_bind].
  case_bd; [eauto|].
  destruct (SparseMatrix_Add_returns A1 (decode_id gi0) (decode_id gj0)
              (if t then dm_at subm i j else (- dm_at subm i j)%S))
    as (A2 & HA2 & Hh2 & Hw2); [lia|lia|].
  exists A2. split; [exact HA2|]. split; congruence.
Qed.

Lemma add_entries_returns (M : SparseMatrix R) (m : DenseMatrix R) n1 n2
    (row col : nat -> nat -> result Z) :
  dm_sized m -> (n1 <= dm_height m)%nat -> (n2 <= dm_width m)%nat ->
  (forall ii jj, (ii < n1)%nat -> (jj < n2)%nat ->
     exists r c, row ii jj = Ok r /\ col ii jj = Ok c /\
       (0 <= r < Z.of_nat (sm_height M))%Z /\ (0 <= c < Z.of_nat (sm_width M))%Z) ->
  exists M', add_entries M m n1 n2 row col = Ok M'.
Proof.
  intros Hs Hh Hw Hrc. unfold add_entries.
  destruct (for_upto_inv
    (fun _ M1 => sm_height M1 = sm_height M /\ sm_width M1 = sm_width M) n1
    (fun ii M0 =>
       for_upto n2
         (fun jj M1 =>
            r ← row ii jj;
            c ← col ii jj;
            a ← dm_get m (Z.of_nat ii) (Z.of_nat jj);
            SparseMatrix_Add M1 r c a)
         M0) M) as (M' & HM' & _); [auto| |eauto].
  intros ii M0 Hii [Hh0 Hw0].
  apply (for_upto_inv
    (fun _ M1 => sm_height M1 = sm_height M /\ sm_width M1 = sm_width M));
    [auto|].
  intros jj M1 Hjj [Hh1 Hw1].
  destruct (Hrc ii jj Hii Hjj) as (r & c & -> & -> & Hr & Hc).
  cbn [mbind result_bind].
  rewrite dm_get_returns by (assumption || lia). cbn [mbind result_bind].
  destruct (SparseMatrix_Add_returns M1 r c (dm_at m ii jj))
    as (M2 & HM2 & Hh2 & Hw2); [lia|lia|].
  exists M2. split; [exact HM2|]. split; congruence.
Qed.

Lemma DenseMatrix_Mult_returns (A : DenseMatrix R) (x : list R) :
  dm_sized A -> length x = dm_width A ->
  exists y, DenseMatrix_Mult A x = Ok y /\ length y = dm_height A.
Proof.
  intros Hs Hx. unfold DenseMatrix_Mult. rewrite bool_decide_true by auto.
  eexists. split; [reflexivity|]. rewrite length_map, length_seq. reflexivity.
Qed.

Lemma DenseMatrixInverse_Mult_returns (inv : DenseMatrixInverse R) (x : list R) n :
  inverse_fits inv n -> length x = n ->
  exists y, DenseMatrixInverse_Mult inv x = Ok y /\ length y = n.
Proof.
  intros (Hsz & Hh & Hw & Hs) Hx. unfold DenseMatrixInverse_Mult.
  rewrite bool_decide_true by (split; congruence).
  destruct (DenseMatrix_Mult_returns (inv_matrix inv) x Hs ltac:(congruence))
    as (y & Hy & Hlen).
  exists y. split; [exact Hy|congruence].
Qed.

Lemma reduce_columns_returns (inv : DenseMatrixInverse R) (mep : DenseMatrix R)
    (n np : nat) :
  dm_sized mep -> dm_height mep = n -> dm_width mep = np ->
  inverse_fits inv np ->
  exists mrr0, reduce_columns inv mep n n (Z.of_nat np) = Ok mrr0.
Proof.
  intros Hs Hh Hw Hinv. unfold reduce_columns.
  destruct (for_upto_inv (fun _ _ => True) n
    (fun jj d0 =>
       vcMpe ← view (dm_data mep) (Z.of_nat jj * Z.of_nat np)%Z (inv_size inv);
       vpR ← DenseMatrixInverse_Mult inv vcMpe;
       veL ← DenseMatrix_Mult mep vpR;
       for_upto n
         (fun ii d1 => v ← aget veL (Z.of_nat ii); Ok (d1 ++ [(- v)%S]))
         d0) []) as (dd & Hdd & _); [exact I| |rewrite Hdd; simpl; eauto].
  intros jj d0 Hjj _.
  assert (Hsz : inv_size inv = np) by (destruct Hinv as (? & _); assumption).
  rewrite Hsz, <- Nat2Z.inj_mul.
  rewrite view_Ok by (unfold dm_sized in Hs; rewrite Hs, Hh, Hw; nia).
  cbn [mbind result_bind].
  destruct (DenseMatrixInverse_Mult_returns inv
              (take np (drop (jj * np) (dm_data mep))) np Hinv) as (vpR & HvpR & Hlen).
  { rewrite length_take, length_drop. unfold dm_sized in Hs. rewrite Hs, Hh, Hw. nia. }
  rewrite HvpR. cbn [mbind result_bind].
  destruct (DenseMatrix_Mult_returns mep vpR Hs ltac:(congruence)) as (veL & HveL & HlenL).
  rewrite HveL. cbn [mbind result_bind].
  destruct (for_upto_inv (fun _ _ => True) n
    (fun ii d1 => v ← aget veL (Z.of_nat ii); Ok (d1 ++ [(- v)%S])) d0)
    as (d1 & Hd1 & _); [exact I| |eauto].
  intros ii s0 Hii _.
  destruct (lookup_lt_is_Some_2 veL ii ltac:(lia)) as [v Hv].
  rewrite (aget_lookup _ _ _ Hv). simpl. eauto.
Qed.

End Returns.

Lemma GetElementDofsPri_returns d (e : nat) old ids :
  ids_known d ids -> priOffset_ok d -> (Z.of_nat e < GetNElements d)%Z ->
  exists d', GetElementDofsPri d (Z.of_nat e) old =
    Ok (d', ids e, offset_of (fes_ d) e, interiorDofs (fes_ d) (Z.of_nat e)).
Proof.
  intros Hids Hpo He.
  assert (exists r, GetElementDofsPri d (Z.of_nat e) old = Ok r) as [[[[d' l] po] np] Hr].
  { unfold GetElementDofsPri. rewrite (Hids e old He). cbn [mbind result_bind].
    destruct (buildPriOffset_spec (fes_ d)) as (tbl & Htbl & Hlen & Hval).
    { unfold GetNElements in He. lia. }
    unfold GetNElements in He.
    assert (Hg0 : aget tbl (Z.of_nat e) = Ok (offset_of (fes_ d) e))
      by (apply aget_lookup, Hval; lia).
    assert (Hg1 : aget tbl (Z.of_nat e + 1) = Ok (offset_of (fes_ d) (S e))).
    { replace (Z.of_nat e + 1)%Z with (Z.of_nat (S e)) by lia.
      apply aget_lookup, Hval. lia. }
    unfold priOffset_ok in Hpo. destruct (priOffset_ d) as [p|] eqn:Hp.
    - assert (p = tbl) as -> by congruence.
      cbn [mbind result_bind]. rewrite Hp. cbn [deref mbind result_bind].
      rewrite Hg0. cbn [mbind result_bind]. rewrite Hg1. cbn [mbind result_bind]. eauto.
    - rewrite Htbl. cbn [mbind result_bind priOffset_ deref].
      rewrite Hg0. cbn [mbind result_bind]. rewrite Hg1. cbn [mbind result_bind]. eauto. }
  pose proof Hr as Hr'.
  apply GetElementDofsPri_inv with (ids := ids) in Hr' as (-> & -> & -> & _); auto.
  eauto.
Qed.

(** ** One element of Assemble, one dof object *)

Section Assembly.
Context {R : Type} `{!Scalar R}.
Add Ring scalar_ring_asm : scalar_ring.

Variable Inverse : DenseMatrix R -> DenseMatrix R.
Variable bfi : Z -> DenseMatrix R.
Variable d : EPDoFs.
Variable ids : nat -> list Z.

Lemma scatter_ext rows cols (S S' : nat -> nat -> R) r c :
  (forall ii jj, (ii < length rows)%nat -> (jj < length cols)%nat -> S ii jj = S' ii jj) ->
  scatter rows cols S r c = scatter rows cols S' r c.
Proof.
  intros HS. unfold scatter. apply rsum_ext. intros ii Hii.
  apply rsum_ext. intros jj Hjj. rewrite HS by assumption. reflexivity.
Qed.

Lemma add_entries_dims (M M' : SparseMatrix R) m n1 n2 row col :
  add_entries M m n1 n2 row col = Ok M' ->
  sm_height M' = sm_height M /\ sm_width M' = sm_width M.
Proof.
  unfold add_entries. intros H.
  apply (for_upto_post
    (fun _ M1 => sm_height M1 = sm_height M /\ sm_width M1 = sm_width M)) in H;
    [exact H|auto|].
  intros ii M0 M1 _ [Hh Hw] Hrow.
  apply (for_upto_post
    (fun _ M2 => sm_height M2 = sm_height M /\ sm_width M2 = sm_width M)) in Hrow;
    [exact Hrow|auto|].
  intros jj M2 M3 _ [Hh2 Hw2] Hstep.
  do 3 bind_inv Hstep. apply SparseMatrix_Add_Ok in Hstep as (Hh3 & Hw3 & _).
  split; congruence.
Qed.

Lemma Assemble_element_same (e : nat) (st st' : AsmState R) d' invs :
  ids_known d ids ->
  (Z.of_nat e < GetNElements d)%Z ->
  (0 <= interiorDofs (fes_ d) (Z.of_nat e))%Z ->
  as_dofs st = SameDofs d' -> same_space d d' -> priOffset_ok d' ->
  as_Mpe st = None -> as_MppInv st = Some invs ->
  Assemble_element Inverse bfi e st = Ok st' ->
  (exists d'', as_dofs st' = SameDofs d'' /\ same_space d d'' /\ priOffset_ok d'' /\
     exists tbl, priOffset_ d'' = Some tbl /\ buildPriOffset (fes_ d) = Ok tbl) /\
  as_Mpe st' = None /\
  as_MppInv st' = Some (invs ++ [DenseMatrix_Inverse Inverse ((pp_block bfi d ids) e)]) /\
  as_Mpp st' = as_Mpp st ++ [(pp_block bfi d ids) e] /\
  (sm_height (as_Mee st') = sm_height (as_Mee st) /\
   sm_width (as_Mee st') = sm_width (as_Mee st) /\
   sm_height (as_Mep st') = sm_height (as_Mep st) /\
   sm_width (as_Mep st') = sm_width (as_Mep st)) /\
  forall r c, sm_elem (as_Mrr st') r c =
    (sm_elem (as_Mrr st) r c + scatter (ids e) (ids e) ((run_block Inverse bfi d ids) e) r c)%S.
Proof.
  intros Hids He Hnn Hdofs Hs Hpo HMpe HInv H.
  unfold Assemble_element in H. rewrite Hdofs in H. cbn [dofsL dofsR setL setR] in H.
  bind_inv H. destruct a as [[[dL expL] poL] nPriL].
  apply GetElementDofsPri_inv with (ids := ids) in Ha
    as (-> & -> & -> & HsL & HpoL & _);
    [|apply (ids_known_same_space d d'); assumption|exact Hpo
     |rewrite (GetNElements_same_space _ _ Hs); exact He].
  pose proof (same_space_trans _ _ _ Hs HsL) as Hs1.
  bind_inv H. destruct a as [[[dR expR] poR] nPriR].
  apply GetElementDofsPri_inv with (ids := ids) in Ha
    as (-> & -> & -> & HsR & HpoR & tbl & Htbl & Hbuild);
    [|apply (ids_known_same_space d dL); assumption|exact HpoL
     |rewrite (GetNElements_same_space _ _ Hs1); exact He].
  pose proof (same_space_trans _ _ _ Hs1 HsR) as Hs2.
  assert (Hfes' : fes_ d' = fes_ d) by (destruct Hs as (? & _); assumption).
  assert (HfesL : fes_ dL = fes_ d) by (destruct Hs1 as (? & _); assumption).
  rewrite Hfes', HfesL in H.
  set (n := length (ids e)) in *.
  set (np := numPri d e).
  assert (Hnp : interiorDofs (fes_ d) (Z.of_nat e) = Z.of_nat np)
    by (unfold np, numPri; lia).
  rewrite Hnp in H. rewrite Nat2Z.id in H.
  set (elmat := bfi (Z.of_nat e)) in *.
  bind_split H as mee Hmee. apply (DenseMatrix_CopyMN_Ok _ _ n n 0 0) in Hmee.
  bind_split H as Mee HMee. apply AddSubMatrix_Ok in HMee as (HhMee & HwMee & _).
  bind_split H as mep Hmep. apply (DenseMatrix_CopyMN_Ok _ _ n np 0 n) in Hmep.
  bind_split H as Mep HMep. apply add_entries_dims in HMep as (HhMep & HwMep).
  rewrite HMpe in H. cbn [mbind result_bind] in H.
  bind_split H as mpp Hmpp. apply (DenseMatrix_CopyMN_Ok _ _ np np n n) in Hmpp.
  rewrite HInv in H. cbn [mbind result_bind] in H.
  bind_split H as pr Hpr. destruct pr as [MppInv mrr0].
  bind_split Hpr as mrr1 Hmrr1. injection Hpr as <- <-.
  subst mee mep mpp.
  apply (reduce_columns_Ok _ _ n n np) in Hmrr1; [|reflexivity|reflexivity|reflexivity].
  bind_split H as mrr Hmrr. apply DenseMatrix_add_Ok in Hmrr.
  rewrite Hmrr1 in Hmrr. cbn [dm_height dm_width dm_of] in Hmrr.
  bind_split H as Mrr HMrr. apply AddSubMatrix_Ok in HMrr as (_ & _ & HMrr).
  injection H as <-. cbn [as_dofs as_Mpe as_MppInv as_Mpp as_Mee as_Mep as_Mrr].
  split; [exists dR; split; [reflexivity|]; split; [exact Hs2|]; split; [exact HpoR|];
          exists tbl; split; [exact Htbl|rewrite <- HfesL; exact Hbuild]|].
  split; [reflexivity|]. split; [reflexivity|]. split; [reflexivity|].
  split; [repeat split; congruence|].
  intros r c. rewrite HMrr. f_equal. apply scatter_ext. intros ii jj Hii Hjj.
  fold n in Hii, Hjj. rewrite Hmrr.
  rewrite !dm_at_dm_of by assumption.
  unfold run_block, schur_complement_run, schur_entry, reduced_entry, block_ee.
  fold n. fold np. fold elmat. cbn [inv_matrix DenseMatrix_Inverse].
  change (dm_of np np (fun i j => dm_at elmat (n + i) (n + j)))
    with (block_pp elmat n np).
  change (dm_of n np (fun i j => dm_at elmat (0 + i) (n + j)))
    with (dm_of n np (block_ep elmat n)).
  rewrite radd_opp_comm. f_equal. apply rsum_ext. intros k Hk.
  rewrite dm_at_dm_of by assumption. reflexivity.
Qed.

End Assembly.

(** ** One element of Assemble returns *)

Section AssemblyReturns.
Context {R : Type} `{!Scalar R}.
Variable Inverse : DenseMatrix R -> DenseMatrix R.
Variable bfi : Z -> DenseMatrix R.
Variable d : EPDoFs.
Variable ids : nat -> list Z.

Lemma Assemble_element_returns (e : nat) (st : AsmState R) d' invs nE :
  ids_known d ids ->
  (Z.of_nat e < GetNElements d)%Z ->
  (0 <= interiorDofs (fes_ d) (Z.of_nat e))%Z ->
  (0 <= offset_of (fes_ d) e)%Z ->
  (offset_of (fes_ d) (S e) <= Z.of_nat (sm_width (as_Mep st)))%Z ->
  as_dofs st = SameDofs d' -> same_space d d' -> priOffset_ok d' ->
  as_Mpe st = None -> as_MppInv st = Some invs ->
  element_fits bfi d ids nE e ->
  sm_height (as_Mee st) = nE -> sm_width (as_Mee st) = nE ->
  sm_height (as_Mep st) = nE ->
  sm_height (as_Mrr st) = nE -> sm_width (as_Mrr st) = nE ->
  (forall A n, block_fits A n -> inverse_fits (DenseMatrix_Inverse Inverse A) n) ->
  exists st', Assemble_element Inverse bfi e st = Ok st' /\
    sm_height (as_Mrr st') = nE /\ sm_width (as_Mrr st') = nE.
Proof.
  intros Hids He Hnn Hoff0 Hoff1 Hdofs Hs Hpo HMpe HInv Hfit
         HhMee HwMee HhMep HhMrr HwMrr Hinv.
  destruct Hfit as (Hsz & Hh & Hw & Hrange & Hpos).
  unfold Assemble_element. rewrite Hdofs. cbn [dofsL dofsR setL setR].
  assert (Hids' : ids_known d' ids) by (apply (ids_known_same_space d d'); assumption).
  assert (He' : (Z.of_nat e < GetNElements d')%Z)
    by (rewrite (GetNElements_same_space _ _ Hs); exact He).
  destruct (GetElementDofsPri_returns d' e (as_expL st) ids Hids' Hpo He') as [dL HL].
  rewrite HL. cbn [mbind result_bind].
  apply GetElementDofsPri_inv with (ids := ids) in HL as (_ & _ & _ & HsL & HpoL & _);
    [|assumption..].
  pose proof (same_space_trans _ _ _ Hs HsL) as Hs1.
  assert (HidsL : ids_known dL ids) by (apply (ids_known_same_space d dL); assumption).
  assert (HeL : (Z.of_nat e < GetNElements dL)%Z)
    by (rewrite (GetNElements_same_space _ _ Hs1); exact He).
  destruct (GetElementDofsPri_returns dL e (as_expR st) ids HidsL HpoL HeL) as [dR HR].
  rewrite HR. cbn [mbind result_bind].
  assert (Hfes' : fes_ d' = fes_ d) by (destruct Hs as (? & _); assumption).
  assert (HfesL : fes_ dL = fes_ d) by (destruct Hs1 as (? & _); assumption).
  rewrite Hfes', HfesL.
  set (n := length (ids e)) in *.
  set (np := numPri d e) in *.
  assert (Hnp : interiorDofs (fes_ d) (Z.of_nat e) = Z.of_nat np)
    by (unfold np, numPri; lia).
  rewrite offset_of_S, Hnp in Hoff1.
  rewrite Hnp. rewrite Nat2Z.id.
  set (elmat := bfi (Z.of_nat e)) in *.
  (* mee *)
  assert (Hmee : DenseMatrix_CopyMN elmat (Z.of_nat n) (Z.of_nat n) 0 0 =
                 Ok (dm_of n n (fun i j => dm_at elmat (0 + i) (0 + j))))
    by (apply (DenseMatrix_CopyMN_returns elmat n n 0 0); [assumption|lia|lia]).
  rewrite Hmee. cbn [mbind result_bind].
  set (mee := dm_of n n (fun i j => dm_at elmat (0 + i) (0 + j))).
  destruct (AddSubMatrix_returns (as_Mee st) (ids e) (ids e) mee)
    as (Mee & HMee & _ & _);
    [rewrite HhMee; exact Hrange|rewrite HwMee; exact Hrange|apply dm_of_sized
    |reflexivity|reflexivity|].
  rewrite HMee. cbn [mbind result_bind].
  (* mep *)
  assert (Hmep : DenseMatrix_CopyMN elmat (Z.of_nat n) (Z.of_nat np) 0 (Z.of_nat n) =
                 Ok (dm_of n np (fun i j => dm_at elmat (0 + i) (n + j))))
    by (apply (DenseMatrix_CopyMN_returns elmat n np 0 n); [assumption|lia|lia]).
  rewrite Hmep. cbn [mbind result_bind].
  set (mep := dm_of n np (fun i j => dm_at elmat (0 + i) (n + j))).
  destruct (add_entries_returns (as_Mep st) mep n np
              (fun ii _ => aget (ids e) (Z.of_nat ii))
              (fun _ jj => Ok (offset_of (fes_ d) e + Z.of_nat jj)%Z))
    as (Mep & HMep); [apply dm_of_sized|reflexivity|reflexivity| |].
  { intros ii jj Hii Hjj.
    destruct (lookup_lt_is_Some_2 (ids e) ii Hii) as [g Hg].
    exists g, (offset_of (fes_ d) e + Z.of_nat jj)%Z.
    split; [apply aget_lookup; exact Hg|]. split; [reflexivity|].
    pose proof (proj1 (Forall_lookup _ _) Hrange ii g Hg) as Hgr.
    pose proof (proj1 (Forall_lookup _ _) (Hpos ltac:(lia)) ii g Hg) as Hgp.
    cbv beta in Hgr, Hgp. unfold decode_id in Hgr.
    rewrite bool_decide_false in Hgr by lia. split; lia. }
  rewrite HMep. cbn [mbind result_bind].
  rewrite HMpe. cbn [mbind result_bind].
  (* mpp *)
  assert (Hmpp : DenseMatrix_CopyMN elmat (Z.of_nat np) (Z.of_nat np)
                   (Z.of_nat n) (Z.of_nat n) =
                 Ok (dm_of np np (fun i j => dm_at elmat (n + i) (n + j))))
    by (apply (DenseMatrix_CopyMN_returns elmat np np n n); [assumption|lia|lia]).
  rewrite Hmpp. cbn [mbind result_bind].
  set (mpp := dm_of np np (fun i j => dm_at elmat (n + i) (n + j))).
  rewrite HInv. cbn [mbind result_bind].
  destruct (reduce_columns_returns (DenseMatrix_Inverse Inverse mpp) mep n np)
    as (mrr0 & Hmrr0); [apply dm_of_sized|reflexivity|reflexivity| |].
  { apply Hinv. split; [reflexivity|]. split; [reflexivity|]. apply dm_of_sized. }
  rewrite Hmrr0. cbn [mbind result_bind].
  apply (reduce_columns_Ok _ _ n n np) in Hmrr0; [|reflexivity..].
  destruct (DenseMatrix_add_returns mrr0 mee) as (mrr & Hmrr);
    [rewrite Hmrr0; apply dm_of_sized|apply dm_of_sized
    |rewrite Hmrr0; reflexivity|rewrite Hmrr0; reflexivity|].
  rewrite Hmrr. cbn [mbind result_bind].
  apply DenseMatrix_add_Ok in Hmrr.
  rewrite Hmrr0 in Hmrr. cbn [dm_height dm_width dm_of] in Hmrr.
  destruct (AddSubMatrix_returns (as_Mrr st) (ids e) (ids e) mrr)
    as (Mrr & HMrr & HhMrr' & HwMrr');
    [rewrite HhMrr; exact Hrange|rewrite HwMrr; exact Hrange
    |rewrite Hmrr; apply dm_of_sized|rewrite Hmrr; reflexivity
    |rewrite Hmrr; reflexivity|].
  rewrite HMrr. cbn [mbind result_bind].
  eexists. split; [reflexivity|]. cbn [as_Mrr]. split; congruence.
Qed.

End AssemblyReturns.

(** ** Assemble on one dof object *)

Section AssembleLoop.
Context {R : Type} `{!Scalar R}.
Add Ring scalar_ring_loop : scalar_ring.

Variable Inverse : DenseMatrix R -> DenseMatrix R.
Variable bfi : Z -> DenseMatrix R.
Variable d : EPDoFs.
Variable ids : nat -> list Z.

Lemma assembled_upto_step (e : nat) (s0 s1 : AsmState R) :
  ids_known d ids ->
  (forall e : nat, (Z.of_nat e < GetNElements d)%Z ->
     (0 <= interiorDofs (fes_ d) (Z.of_nat e))%Z) ->
  (e < Z.to_nat (GetNElements d))%nat ->
  assembled_upto Inverse bfi d ids e s0 ->
  Assemble_element Inverse bfi e s0 = Ok s1 ->
  assembled_upto Inverse bfi d ids (S e) s1.
Proof.
  intros Hids Hnn He ((d' & Hd & Hs & Hpo' & _) & HMpe & HInv & HMpp & Hdims & HMrr) Hstep.
  eapply (Assemble_element_same Inverse bfi d ids e s0 s1 d') in Hstep;
    [|exact Hids|lia|apply Hnn; lia|exact Hd|exact Hs|exact Hpo'|exact HMpe|exact HInv].
  destruct Hstep
    as ((d'' & Hd'' & Hs'' & Hpo'' & Htbl) & HMpe' & HInv' & HMpp' & Hdims' & HMrr').
  split; [exists d''; auto|]. split; [exact HMpe'|].
  split; [rewrite HInv', seq_S, map_app; reflexivity|].
  split; [rewrite HMpp', HMpp, seq_S, map_app; reflexivity|].
  split; [destruct Hdims as (?&?&?&?), Hdims' as (?&?&?&?); repeat split; congruence|].
  intros r c. rewrite HMrr', HMrr. unfold sum_over_elements. rewrite rsum_S. reflexivity.
Qed.

Lemma assembled_upto_start :
  priOffset_ok d ->
  assembled_upto Inverse bfi d ids 0
    {| as_dofs := SameDofs d; as_expL := []; as_expR := [];
       as_Mee := SparseMatrix_new (GetNExposedDofs d) (GetNExposedDofs d);
       as_Mep := SparseMatrix_new (GetNExposedDofs d) (GetNPrivateDofs d);
       as_Mpe := None;
       as_Mrr := SparseMatrix_new (GetNExposedDofs d) (GetNExposedDofs d);
       as_Mpp := [];
       as_MppInv := Some [];
       as_mrr := {| dm_height := 0; dm_width := 0; dm_data := [] |} |}.
Proof.
  intros Hpo.
  split; [exists d; split; [reflexivity|]; split; [apply same_space_refl|];
          split; [exact Hpo|]; intros; lia|].
  split; [reflexivity|]. split; [reflexivity|]. split; [reflexivity|].
  split; [simpl; auto|].
  intros r c. reflexivity.
Qed.

Lemma Assemble_loop_same (st0 st : AsmState R) :
  ids_known d ids -> priOffset_ok d ->
  (forall e : nat, (Z.of_nat e < GetNElements d)%Z ->
     (0 <= interiorDofs (fes_ d) (Z.of_nat e))%Z) ->
  (assembled_upto Inverse bfi d ids) 0 st0 ->
  for_upto (Z.to_nat (GetNElements d)) (Assemble_element Inverse bfi) st0 = Ok st ->
  (assembled_upto Inverse bfi d ids) (Z.to_nat (GetNElements d)) st.
Proof.
  intros Hids Hpo Hnn H0 Hrun.
  apply (for_upto_post (assembled_upto Inverse bfi d ids)) in Hrun; [exact Hrun|exact H0|].
  intros e s0 s1 He Hup Hstep. apply (assembled_upto_step e s0 s1); assumption.
Qed.

(** The reduced matrix after Assemble, entry by entry. *)
Lemma Assemble_same_Mrr (junkR junkP : nat -> R) (m : EPMatrix R) :
  ids_known d ids -> priOffset_ok d ->
  (forall e : nat, (Z.of_nat e < GetNElements d)%Z ->
     (0 <= interiorDofs (fes_ d) (Z.of_nat e))%Z) ->
  Assemble Inverse (EPMatrix_new (SameDofs d) bfi) junkR junkP = Ok m ->
  exists st, (assembled_upto Inverse bfi d ids) (Z.to_nat (GetNElements d)) st /\
    epdofs m = as_dofs st /\
    Mee_ m = Some (SparseMatrix_Finalize (as_Mee st)) /\
    Mep_ m = Some (SparseMatrix_Finalize (as_Mep st)) /\
    Mpe_ m = None /\
    Mrr_ m = Some (SparseMatrix_Finalize (as_Mrr st)) /\
    Mpp_ m = Some (as_Mpp st) /\ MppInv_ m = as_MppInv st /\
    reducedRHS_ m = Some (Vector_new (GetNExposedDofs d) junkR) /\
    vecp_ m = Some (Vector_new (GetNPrivateDofs d) junkP).
Proof.
  intros Hids Hpo Hnn H. unfold Assemble in H.
  cbn [epdofs EPMatrix_new dofsL dofsR same_dofs bfi_] in H.
  bind_split H as st Hst. injection H as <-.
  apply Assemble_loop_same in Hst; [|exact Hids|exact Hpo|exact Hnn|].
  - exists st. split; [exact Hst|]. cbn.
    destruct Hst as (_ & HMpe & _). rewrite HMpe. repeat split; reflexivity.
  - apply assembled_upto_start. exact Hpo.
Qed.

(** Assemble over one dof object returns when every element matrix has
    the size of its element and the ids are rows of the global
    matrices. *)
Lemma Assemble_same_returns (junkR junkP : nat -> R) :
  ids_known d ids -> priOffset_ok d ->
  (forall e : nat, (Z.of_nat e < GetNElements d)%Z ->
     (0 <= interiorDofs (fes_ d) (Z.of_nat e))%Z) ->
  nPrivateDofs_ d = countPrivate (fes_ d) ->
  (forall e : nat, (Z.of_nat e < GetNElements d)%Z ->
     element_fits bfi d ids (Z.to_nat (GetNExposedDofs d)) e) ->
  (forall A n, block_fits A n -> inverse_fits (DenseMatrix_Inverse Inverse A) n) ->
  exists m, Assemble Inverse (EPMatrix_new (SameDofs d) bfi) junkR junkP = Ok m.
Proof.
  intros Hids Hpo Hnn HnP Hfit Hinv. unfold Assemble.
  cbn [epdofs EPMatrix_new dofsL dofsR same_dofs bfi_].
  set (N := Z.to_nat (GetNElements d)).
  set (nE := Z.to_nat (GetNExposedDofs d)).
  assert (Hmono : forall k, (k < N)%nat ->
            (offset_of (fes_ d) k <= offset_of (fes_ d) (S k))%Z).
  { intros k Hk. rewrite offset_of_S. specialize (Hnn k ltac:(lia)). lia. }
  destruct (for_upto_inv
    (fun m st => assembled_upto Inverse bfi d ids m st /\
                 sm_height (as_Mrr st) = nE /\ sm_width (as_Mrr st) = nE)
    N (Assemble_element Inverse bfi)
    {| as_dofs := SameDofs d; as_expL := []; as_expR := [];
       as_Mee := SparseMatrix_new (GetNExposedDofs d) (GetNExposedDofs d);
       as_Mep := SparseMatrix_new (GetNExposedDofs d) (GetNPrivateDofs d);
       as_Mpe := None;
       as_Mrr := SparseMatrix_new (GetNExposedDofs d) (GetNExposedDofs d);
       as_Mpp := [];
       as_MppInv := Some [];
       as_mrr := {| dm_height := 0; dm_width := 0; dm_data := [] |} |})
    as (st & Hst & _).
  - split; [apply assembled_upto_start; exact Hpo|]. split; reflexivity.
  - intros e s0 He (Hup & HhMrr & HwMrr).
    pose proof Hup as ((d' & Hd & Hs & Hpo' & _) & HMpe & HInv & _ & Hdims & _).
    destruct Hdims as (H1 & H2 & H3 & H4).
    destruct (Assemble_element_returns Inverse bfi d ids e s0 d'
                (map (fun e => DenseMatrix_Inverse Inverse (pp_block bfi d ids e))
                     (seq 0 e)) nE)
      as (s1 & Hs1 & Hh1 & Hw1); try assumption.
    + lia.
    + apply Hnn. lia.
    + pose proof (mono_le _ N Hmono 0%nat e ltac:(lia)) as H0.
      change (offset_of (fes_ d) 0) with 0%Z in H0. exact H0.
    + rewrite H4. unfold GetNPrivateDofs. rewrite HnP, countPrivate_offset.
      fold (GetNElements d). fold N.
      pose proof (mono_le _ N Hmono (S e) N ltac:(lia)).
      pose proof (mono_le _ N Hmono 0%nat (S e) ltac:(lia)) as H0.
      change (offset_of (fes_ d) 0) with 0%Z in H0. lia.
    + apply Hfit. lia.
    + exists s1. split; [exact Hs1|]. split; [|auto].
      apply (assembled_upto_step e s0 s1); assumption.
  - rewrite Hst. cbn [mbind result_bind]. eauto.
Qed.

(** Where an element has at most one private dof, or at most one
    exposed dof, the run of the storage of [mep] that Assemble reads
    for column jj is row jj of [mep]. *)
Lemma run_block_sym (e : nat) ii jj :
  (numPri d e <= 1 \/ length (ids e) <= 1)%nat ->
  (ii < length (ids e))%nat -> (jj < length (ids e))%nat ->
  run_block Inverse bfi d ids e ii jj =
  schur_complement_sym Inverse (bfi (Z.of_nat e)) (length (ids e)) (numPri d e) ii jj.
Proof.
  intros Hone Hii Hjj.
  unfold run_block, schur_complement_run, schur_complement_sym, schur_entry.
  f_equal. apply rsum_ext. intros k Hk. f_equal. apply rsum_ext. intros l Hl. f_equal.
  set (n := length (ids e)) in *. set (np := numPri d e) in *.
  pose proof (dm_at_dm_of n np (block_ep (bfi (Z.of_nat e)) n) jj l Hjj Hl) as Hat.
  rewrite <- Hat. unfold dm_at. cbn [dm_height dm_of]. f_equal.
  destruct Hone as [Hnp|Hn].
  - assert (np = 1%nat) by lia. assert (l = 0%nat) by lia. subst. lia.
  - assert (n = 1%nat) by lia. assert (jj = 0%nat) by lia. subst. lia.
Qed.

End AssembleLoop.

Lemma schur_complement_sym_eq {R : Type} `{!Scalar R}
    (Inverse : DenseMatrix R -> DenseMatrix R) elmat n np ii jj :
  (forall k, (k < np)%nat -> block_pe elmat n k jj = block_ep elmat n jj k) ->
  schur_complement_sym Inverse elmat n np ii jj =
  schur_complement Inverse elmat n np ii jj.
Proof.
  intros Hsym. unfold schur_complement_sym, schur_complement, schur_entry.
  f_equal. apply rsum_ext. intros k Hk. f_equal. apply rsum_ext. intros l Hl.
  rewrite Hsym by exact Hl. reflexivity.
Qed.

(** After Assemble over a left == right dof partition whose elements
    have at most one private dof each (or at most one exposed dof): the
    run of [mep.Data()] read for column jj is then row jj of mep, and
    every entry of the reduced matrix Mrr is the
    sum over the elements e of the block
    mee(e) - mep(e) mpp(e)^-1 mep(e)^t scattered through the exposed dof
    ids of e (sign applied); nothing else enters.  Assemble does not
    read mpe(e): the transpose of mep(e) stands in its place, so this is
    the block mee(e) - mep(e) mpp(e)^-1 mpe(e) of the claim wherever
    mpe(e) is the transpose of mep(e). *)
Lemma Mrr_sum_of_element_reductions_one_private {R : Type} `{!Scalar R}
    (Inverse : DenseMatrix R -> DenseMatrix R) (bfi : Z -> DenseMatrix R)
    (d : EPDoFs) (ids : nat -> list Z) (junkR junkP : nat -> R)
    (m : EPMatrix R) :
  ids_known d ids -> priOffset_ok d ->
  (forall e : nat, (Z.of_nat e < GetNElements d)%Z ->
     (0 <= interiorDofs (fes_ d) (Z.of_nat e))%Z /\
     (numPri d e <= 1 \/ length (ids e) <= 1)%nat) ->
  Assemble Inverse (EPMatrix_new (SameDofs d) bfi) junkR junkP = Ok m ->
  exists Mrr, Mrr_ m = Some Mrr /\
    (forall r c, sm_elem Mrr r c =
       sum_over_elements (Z.to_nat (GetNElements d)) ids
         (fun e => schur_complement_sym Inverse (bfi (Z.of_nat e))
                     (length (ids e)) (numPri d e)) r c) /\
    ((forall (e k jj : nat), (Z.of_nat e < GetNElements d)%Z ->
        (k < numPri d e)%nat -> (jj < length (ids e))%nat ->
        block_pe (bfi (Z.of_nat e)) (length (ids e)) k jj =
        block_ep (bfi (Z.of_nat e)) (length (ids e)) jj k) ->
     forall r c, sm_elem Mrr r c =
       sum_over_elements (Z.to_nat (GetNElements d)) ids
         (fun e => schur_complement Inverse (bfi (Z.of_nat e))
                     (length (ids e)) (numPri d e)) r c).
Proof.
  intros Hids Hpo Hel HA.
  apply (Assemble_same_Mrr Inverse bfi d ids) in HA
    as (st & Hup & _ & _ & _ & _ & HMrr & _); [|exact Hids|exact Hpo|apply Hel].
  destruct Hup as (_ & _ & _ & _ & _ & Hsum).
  exists (SparseMatrix_Finalize (as_Mrr st)). split; [exact HMrr|].
  assert (Hsym : forall r c, sm_elem (as_Mrr st) r c =
            sum_over_elements (Z.to_nat (GetNElements d)) ids
              (fun e => schur_complement_sym Inverse (bfi (Z.of_nat e))
                          (length (ids e)) (numPri d e)) r c).
  { intros r c. rewrite Hsum. unfold sum_over_elements.
    apply rsum_ext. intros e He. apply scatter_ext. intros ii jj Hii Hjj.
    apply run_block_sym; [|exact Hii|exact Hjj]. apply Hel. lia. }
  split; [exact Hsym|].
  intros Htr r c. cbn [sm_elem SparseMatrix_Finalize]. rewrite Hsym.
  unfold sum_over_elements. apply rsum_ext. intros e He.
  apply scatter_ext. intros ii jj Hii Hjj.
  apply schur_complement_sym_eq. intros k Hk. apply Htr; [lia|exact Hk|exact Hjj].
Qed.

Lemma fec_quad_nonneg : fec_counts_nonneg fec_quad.
Proof. intros g. destruct g; simpl; lia. Qed.

Lemma ids_known_quad : ids_known (EPDoFs_new fes_quad) (fun _ => [0; 1; 2; 3]%Z).
Proof.
  intros e old He. change (GetNElements (EPDoFs_new fes_quad)) with 1%Z in He.
  assert (e = 0%nat) as -> by lia.
  unfold GetElementDofs. cbn [expDoFsByElem_ EPDoFs_new fes_].
  rewrite (deriveElementDofs_any_array fes_quad _ old [] fec_quad_nonneg).
  vm_compute. reflexivity.
Qed.

(** The worked example: one element with one private dof. *)
Example Mrr_sum_quad :
  exists Mrr, Mrr_ epmatrix_quad_assembled = Some Mrr /\
    (forall r c, sm_elem Mrr r c =
       sum_over_elements 1 (fun _ => [0; 1; 2; 3]%Z)
         (fun e => schur_complement_sym Inverse_unit elmat_quad 4 1) r c) /\
    ((forall (e k jj : nat), (Z.of_nat e < 1)%Z -> (k < 1)%nat -> (jj < 4)%nat ->
        block_pe elmat_quad 4 k jj = block_ep elmat_quad 4 jj k) ->
     forall r c, sm_elem Mrr r c =
       sum_over_elements 1 (fun _ => [0; 1; 2; 3]%Z)
         (fun e => schur_complement Inverse_unit elmat_quad 4 1) r c).
Proof.
  apply (Mrr_sum_of_element_reductions_one_private Inverse_unit (fun _ => elmat_quad)
           (EPDoFs_new fes_quad) (fun _ => [0; 1; 2; 3]%Z)
           (fun _ => 0%Z) (fun _ => 0%Z) epmatrix_quad_assembled).
  - exact ids_known_quad.
  - exact I.
  - intros e He. change (GetNElements (EPDoFs_new fes_quad)) with 1%Z in He.
    assert (e = 0%nat) as -> by lia. split; [vm_compute; discriminate|].
    left. vm_compute. lia.
  - vm_compute. reflexivity.
Qed.

(** When left == right, Assemble does not read the lower-left block of
    the element matrix.  In the worked example, whose element matrix is
    not symmetric, mep = (2, 0, 1, 0)^t, mpe = (3, 0, 1, 0), mpp = (1)
    (its own inverse) and mee(0,0) = 4: mee - mep mpp^-1 mpe has the
    entry 4 - 2 * 3 = -2 at (0, 0), Assemble leaves 4 - 2 * 2 = 0. *)
Example Assemble_does_not_read_mpe :
  exists m Mrr,
    Assemble Inverse_unit epmatrix_quad (fun _ => 0%Z) (fun _ => 0%Z) = Ok m /\
    Mrr_ m = Some Mrr /\
    GetElementDofs (EPDoFs_new fes_quad) 0%Z [] = Ok (EPDoFs_new fes_quad, [0; 1; 2; 3]%Z) /\
    dm_data (block_pp elmat_quad 4 1) = [1%Z] /\
    dm_data (Inverse_unit (block_pp elmat_quad 4 1)) = [1%Z] /\
    sm_elem Mrr 0 0 = 0%Z /\
    sum_over_elements 1 (fun _ => [0; 1; 2; 3]%Z)
      (fun e => schur_complement Inverse_unit elmat_quad 4 1) 0 0 = (-2)%Z.
Proof.
  eexists. eexists. split; [vm_compute; reflexivity|].
  split; [reflexivity|]. split; [vm_compute; reflexivity|].
  split; [reflexivity|]. split; [reflexivity|]. split; vm_compute; reflexivity.
Qed.

(** ** The shape Assemble leaves, one dof object *)

Section AssembledShape.
Context {R : Type} `{!Scalar R}.
Variable Inverse : DenseMatrix R -> DenseMatrix R.
Variable bfi : Z -> DenseMatrix R.
Variable d : EPDoFs.
Variable ids : nat -> list Z.

Lemma offset_of_poff n :
  (forall e : nat, (e < n)%nat -> (0 <= interiorDofs (fes_ d) (Z.of_nat e))%Z) ->
  forall k, (k <= n)%nat -> offset_of (fes_ d) k = Z.of_nat (poff (numPri d) k).
Proof.
  intros Hnn k Hk. induction k as [|k IH]; [reflexivity|].
  rewrite offset_of_S, IH by lia.
  change (poff (numPri d) (S k)) with (poff (numPri d) k + numPri d k)%nat.
  specialize (Hnn k ltac:(lia)).
  assert (Z.of_nat (numPri d k) = interiorDofs (fes_ d) (Z.of_nat k))
    by (unfold numPri; lia).
  lia.
Qed.

Lemma private_layout_built tbl :
  (forall e : nat, (Z.of_nat e < GetNElements d)%Z ->
     (0 <= interiorDofs (fes_ d) (Z.of_nat e))%Z) ->
  (0 <= GetNElements d)%Z ->
  buildPriOffset (fes_ d) = Ok tbl ->
  private_layout tbl (Z.to_nat (GetNElements d)) (numPri d).
Proof.
  intros Hnn Hne Hb. unfold GetNElements in *.
  destruct (buildPriOffset_spec (fes_ d) Hne) as (tbl' & Hb' & Hlen & Hval).
  assert (tbl' = tbl) as -> by congruence.
  split; [exact Hlen|]. intros e He. rewrite Hval by exact He. f_equal.
  apply (offset_of_poff (Z.to_nat (fes_GetNE (fes_ d)))); [|exact He].
  intros e' He'. apply Hnn. lia.
Qed.

(** After Assemble over one dof object with at least one element, the
    operator has the shape that the statements on Mult and ReducedRHS
    ask for. *)
Lemma Assemble_same_shape (junkR junkP : nat -> R) (m : EPMatrix R) :
  ids_known d ids -> priOffset_ok d ->
  (forall e : nat, (Z.of_nat e < GetNElements d)%Z ->
     (0 <= interiorDofs (fes_ d) (Z.of_nat e))%Z) ->
  (0 < GetNElements d)%Z ->
  nPrivateDofs_ d = countPrivate (fes_ d) ->
  Assemble Inverse (EPMatrix_new (SameDofs d) bfi) junkR junkP = Ok m ->
  let n := Z.to_nat (GetNElements d) in
  exists Mee Mep po rr0 vp0 d',
    epdofs m = SameDofs d' /\ GetNElements d' = GetNElements d /\
    Mee_ m = Some Mee /\ Mep_ m = Some Mep /\ Mpe_ m = None /\
    Mpp_ m = Some (map (pp_block bfi d ids) (seq 0 n)) /\
    MppInv_ m =
      Some (map (fun e => DenseMatrix_Inverse Inverse (pp_block bfi d ids e)) (seq 0 n)) /\
    priOffset_ d' = Some po /\ private_layout po n (numPri d) /\
    Z.to_nat (nPrivateDofs_ d) = poff (numPri d) n /\
    sm_height Mee = Z.to_nat (nExposedDofs_ d) /\
    sm_width Mee = Z.to_nat (nExposedDofs_ d) /\
    sm_height Mep = Z.to_nat (nExposedDofs_ d) /\
    sm_width Mep = poff (numPri d) n /\
    reducedRHS_ m = Some rr0 /\ length rr0 = sm_height Mep /\
    vecp_ m = Some vp0 /\ length vp0 = sm_width Mep.
Proof.
  intros Hids Hpo Hnn Hpos HnP HA n.
  apply (Assemble_same_Mrr Inverse bfi d ids) in HA
    as (st & Hup & Hd & HMee & HMep & HMpe & _ & HMpp & HMppInv & Hrr & Hvp);
    [|exact Hids|exact Hpo|exact Hnn].
  destruct Hup as ((d' & Hd' & Hs & _ & Htbl) & _ & HInv & HMppl & Hdims & _).
  destruct Htbl as (tbl & Htbl & Hbuild); [lia|].
  destruct Hdims as (H1 & H2 & H3 & H4).
  assert (HP : Z.to_nat (GetNPrivateDofs d) = poff (numPri d) n).
  { unfold GetNPrivateDofs. rewrite HnP, countPrivate_offset.
    rewrite (offset_of_poff n); [apply Nat2Z.id| |reflexivity].
    intros e He. apply Hnn. unfold GetNElements in *. lia. }
  exists (SparseMatrix_Finalize (as_Mee st)), (SparseMatrix_Finalize (as_Mep st)),
         tbl, (Vector_new (GetNExposedDofs d) junkR),
         (Vector_new (GetNPrivateDofs d) junkP), d'.
  split; [congruence|]. split; [apply GetNElements_same_space; exact Hs|].
  split; [exact HMee|]. split; [exact HMep|]. split; [exact HMpe|].
  split; [rewrite HMpp, HMppl; reflexivity|]. split; [rewrite HMppInv; exact HInv|].
  split; [exact Htbl|].
  split; [apply private_layout_built; [exact Hnn|lia|exact Hbuild]|].
  split; [exact HP|].
  cbn [sm_height sm_width SparseMatrix_Finalize].
  unfold GetNExposedDofs in *. rewrite H1, H2, H3, H4, HP.
  split; [reflexivity|]. split; [reflexivity|]. split; [reflexivity|].
  split; [reflexivity|]. split; [exact Hrr|].
  split; [unfold Vector_new; rewrite length_map, length_seq; reflexivity|].
  split; [exact Hvp|].
  unfold Vector_new. rewrite length_map, length_seq. exact HP.
Qed.

Lemma pp_block_fits e : block_fits (pp_block bfi d ids e) (numPri d e).
Proof.
  unfold block_fits, pp_block, block_pp. cbn [dm_height dm_width dm_of].
  split; [reflexivity|]. split; [reflexivity|]. apply dm_of_sized.
Qed.

(** Mult on an operator assembled over one dof object, for fields of
    the sizes of the partition. *)
Lemma Mult_after_Assemble (default_num : nat) (junkE junkF : nat -> nat -> R)
    (junkR junkP : nat -> R) (m : EPMatrix R) (x y : EPField R)
    (xE xP yE yP : list R) :
  ids_known d ids -> priOffset_ok d ->
  (forall e : nat, (Z.of_nat e < GetNElements d)%Z ->
     (0 <= interiorDofs (fes_ d) (Z.of_nat e))%Z) ->
  (0 < GetNElements d)%Z ->
  nPrivateDofs_ d = countPrivate (fes_ d) ->
  Assemble Inverse (EPMatrix_new (SameDofs d) bfi) junkR junkP = Ok m ->
  ExposedDoFs_const x 0 = Some xE -> PrivateDoFs_const x 0 = Some xP ->
  field_holds y yE yP ->
  length xE = Z.to_nat (nExposedDofs_ d) -> length yE = Z.to_nat (nExposedDofs_ d) ->
  length xP = Z.to_nat (nPrivateDofs_ d) -> length yP = Z.to_nat (nPrivateDofs_ d) ->
  exists Mee Mep y' yE' yP',
    Mee_ m = Some Mee /\ Mep_ m = Some Mep /\ Mpe_ m = None /\
    EPMatrix_Mult default_num junkE junkF m x y = Ok y' /\
    field_holds y' yE' yP' /\
    (forall i, (i < Z.to_nat (nExposedDofs_ d))%nat ->
       yE' !! i = Some (sm_row_dot Mee xE i + sm_row_dot Mep xP i)%S) /\
    (forall e r, (e < Z.to_nat (GetNElements d))%nat -> (r < numPri d e)%nat ->
       yP' !! (poff (numPri d) e + r)%nat =
         Some (block_dot (pp_block bfi d ids e) xP (poff (numPri d) e) r
               + sm_col_dot Mep xE (poff (numPri d) e + r))%S).
Proof.
  intros Hids Hpo Hnn Hpos HnP HA HxE HxP Hy HlxE HlyE HlxP HlyP.
  destruct (Assemble_same_shape junkR junkP m Hids Hpo Hnn Hpos HnP HA)
    as (Mee & Mep & po & rr0 & vp0 & d' & Hd' & HN & HMee & HMep & HMpe & HMpp & _
        & Hpo' & Hlay & HP & HhMee & HwMee & HhMep & HwMep & _).
  set (n := Z.to_nat (GetNElements d)) in *.
  destruct (EPMatrix_Mult_blocks default_num junkE junkF m x y Mee Mep
              (map (pp_block bfi d ids) (seq 0 n)) po (numPri d) xE xP yE yP)
    as (y' & yE' & yP' & Hrun & Hy' & HlyE' & HE & HPr); try assumption.
  - rewrite Hd'. exact Hpo'.
  - rewrite Hd'. exact Hpo'.
  - rewrite Hd'. cbn [dofsR]. rewrite HN. exact Hlay.
  - rewrite Hd'. cbn [dofsR]. rewrite HN, length_map, length_seq. reflexivity.
  - intros e A HAe. apply list_lookup_fmap_Some in HAe as (e' & -> & He).
    apply lookup_seq in He as [-> _]. apply pp_block_fits.
  - congruence.
  - congruence.
  - congruence.
  - congruence.
  - rewrite Hd'. cbn [dofsR]. rewrite HN. fold n. congruence.
  - congruence.
  - rewrite HMpe. congruence.
  - exists Mee, Mep, y', yE', yP'.
    split; [exact HMee|]. split; [exact HMep|]. split; [exact HMpe|].
    split; [exact Hrun|]. split; [exact Hy'|]. split.
    + intros i Hi. apply HE. lia.
    + intros e r He Hr.
      rewrite (HPr e (pp_block bfi d ids e) r); [|
        rewrite list_lookup_fmap, lookup_seq_lt by exact He; reflexivity|exact Hr].
      unfold coupling. rewrite HMpe. reflexivity.
Qed.

(** ReducedRHS on an operator assembled over one dof object. *)
Lemma ReducedRHS_after_Assemble (default_field : nat)
    (junkR junkP : nat -> R) (m : EPMatrix R) (x : EPField R) (xE xP : list R) :
  ids_known d ids -> priOffset_ok d ->
  (forall e : nat, (Z.of_nat e < GetNElements d)%Z ->
     (0 <= interiorDofs (fes_ d) (Z.of_nat e))%Z) ->
  (0 < GetNElements d)%Z ->
  nPrivateDofs_ d = countPrivate (fes_ d) ->
  (forall A n, block_fits A n -> inverse_fits (DenseMatrix_Inverse Inverse A) n) ->
  Assemble Inverse (EPMatrix_new (SameDofs d) bfi) junkR junkP = Ok m ->
  ExposedDoFs_const x default_field = Some xE -> PrivateDoFs_const x 0 = Some xP ->
  length xE = Z.to_nat (nExposedDofs_ d) -> length xP = Z.to_nat (nPrivateDofs_ d) ->
  exists Mep m' r v,
    Mep_ m = Some Mep /\
    EPMatrix_ReducedRHS default_field m x = Ok (m', r) /\
    reducedRHS_ m' = Some r /\ vecp_ m' = Some v /\
    (forall e k, (e < Z.to_nat (GetNElements d))%nat -> (k < numPri d e)%nat ->
       v !! (poff (numPri d) e + k)%nat =
         Some (inv_dot (DenseMatrix_Inverse Inverse (pp_block bfi d ids e)) xP
                       (poff (numPri d) e) k)) /\
    length r = Z.to_nat (nExposedDofs_ d) /\
    (forall i, (i < Z.to_nat (nExposedDofs_ d))%nat ->
       r !! i = Some (vnth xE i - sm_row_dot Mep v i)%S).
Proof.
  intros Hids Hpo Hnn Hpos HnP Hinv HA HxE HxP HlxE HlxP.
  destruct (Assemble_same_shape junkR junkP m Hids Hpo Hnn Hpos HnP HA)
    as (Mee & Mep & po & rr0 & vp0 & d' & Hd' & HN & _ & HMep & _ & _ & HMppInv
        & Hpo' & Hlay & HP & _ & _ & HhMep & HwMep & Hrr & Hlrr & Hvp & Hlvp).
  set (n := Z.to_nat (GetNElements d)) in *.
  destruct (ReducedRHS_same default_field m x d' po (numPri d)
              (map (fun e => DenseMatrix_Inverse Inverse (pp_block bfi d ids e)) (seq 0 n))
              Mep rr0 vp0 xE xP)
    as (m' & r & v & Hrun & Hr & Hv & Hsolved & Hlr & Hval); try assumption.
  - rewrite HN. exact Hlay.
  - rewrite HN, length_map, length_seq. reflexivity.
  - intros e inv HI. apply list_lookup_fmap_Some in HI as (e' & -> & He).
    apply lookup_seq in He as [-> _]. apply Hinv, pp_block_fits.
  - rewrite HN. exact HwMep.
  - congruence.
  - congruence.
  - exists Mep, m', r, v.
    split; [exact HMep|]. split; [exact Hrun|]. split; [exact Hr|].
    split; [exact Hv|]. split.
    + intros e k He Hk. apply Hsolved; [|exact Hk].
      rewrite list_lookup_fmap, lookup_seq_lt by exact He. reflexivity.
    + split; [congruence|]. intros i Hi. apply Hval. lia.
Qed.

End AssembledShape.

(** With two private and two exposed dofs on an element the run of
    [mep.Data()] that Assemble reads is not a row of [mep]: on the
    symmetric element matrix of the second example,
    mee - mep mpp^-1 mpe has the entry 10 - (1*1 + 2*2) = 5 at (0, 0),
    and Assemble leaves 10 - (1*1 + 2*3) = 3 there. *)
Example run_is_not_a_row_of_mep :
  exists m Mrr,
    Assemble Inverse_unit epmatrix_cubic (fun _ => 0%Z) (fun _ => 0%Z) = Ok m /\
    Mrr_ m = Some Mrr /\
    GetElementDofs (EPDoFs_new fes_cubic) 0%Z [] = Ok (EPDoFs_new fes_cubic, [0; 1]%Z) /\
    numPri (EPDoFs_new fes_cubic) 0 = 2%nat /\
    sm_elem Mrr 0 0 = 3%Z /\
    sum_over_elements 1 (fun _ => [0; 1]%Z)
      (fun e => schur_complement Inverse_unit elmat_cubic 2 2) 0 0 = 5%Z /\
    sum_over_elements 1 (fun _ => [0; 1]%Z)
      (fun e => schur_complement_sym Inverse_unit elmat_cubic 2 2) 0 0 = 5%Z /\
    sum_over_elements 1 (fun _ => [0; 1]%Z)
      (fun e => schur_complement_run Inverse_unit elmat_cubic 2 2) 0 0 = 3%Z.
Proof.
  eexists. eexists. split; [vm_compute; reflexivity|].
  split; [reflexivity|]. split; [vm_compute; reflexivity|].
  split; [reflexivity|]. repeat split; vm_compute; reflexivity.
Qed.

(** C1 at its failing input, a self-adjoint element.  One segment with
    the exposed ids 0 and 1 and two private dofs, left == right; the
    element matrix has mee = (10 0; 0 10), mep = (1 2; 3 4), mpe the
    transpose of mep and mpp the identity, which the inverse used
    inverts.  Assemble returns, with Mrr = (3 -10; -15 -12), whereas
    the sum over the elements of mee - mep mpp^-1 mpe, scattered
    through the exposed ids, is (5 -11; -11 -15): the right-hand side
    of column jj is read from the storage of mep at jj * nPriR, which
    is column-major, and not from column jj of mpe. *)
Theorem C1_Mrr_is_not_the_sum_of_Schur_complements (junkR junkP : nat -> Z) :
  exists m Mrr,
    Assemble Inverse_unit epmatrix_cubic junkR junkP = Ok m /\
    Mrr_ m = Some Mrr /\
    same_dofs (epdofs epmatrix_cubic) = true /\
    GetNElements (dofsR (epdofs epmatrix_cubic)) = 1%Z /\
    GetElementDofs (EPDoFs_new fes_cubic) 0%Z [] = Ok (EPDoFs_new fes_cubic, [0; 1]%Z) /\
    numPri (EPDoFs_new fes_cubic) 0 = 2%nat /\
    (forall k jj, (k < 2)%nat -> (jj < 2)%nat ->
       block_pe elmat_cubic 2 k jj = block_ep elmat_cubic 2 jj k) /\
    right_inverse (DenseMatrix_Inverse Inverse_unit (block_pp elmat_cubic 2 2))
                  (block_pp elmat_cubic 2 2) 2 /\
    [sm_elem Mrr 0 0; sm_elem Mrr 0 1; sm_elem Mrr 1 0; sm_elem Mrr 1 1]
      = [3; -10; -15; -12]%Z /\
    (let S := sum_over_elements 1 (fun _ => [0; 1]%Z)
                (fun _ => schur_complement Inverse_unit elmat_cubic 2 2) in
     [S 0%nat 0%nat; S 0%nat 1%nat; S 1%nat 0%nat; S 1%nat 1%nat]
       = [5; -11; -11; -15]%Z).
Proof.
  eexists. eexists.
  split; [vm_compute; reflexivity|].
  split; [reflexivity|].
  split; [reflexivity|].
  split; [reflexivity|].
  split; [vm_compute; reflexivity|].
  split; [reflexivity|].
  split.
  { intros [|[|k]] [|[|jj]] ? ?; try lia; reflexivity. }
  split.
  { intros w [|[|r]] Hr; try lia; vm_compute; destruct (w 0%nat), (w 1%nat); reflexivity. }
  split; vm_compute; reflexivity.
Qed.

(** ** Reducing twice *)

Section MoreSums.
Context {R : Type} `{!Scalar R}.
Add Ring scalar_ring_more_sums : scalar_ring.

Lemma rsum_zero n : rsum n (fun _ => rzero) = rzero.
Proof. induction n as [|n IH]; [reflexivity|]. rewrite rsum_S, IH. ring. Qed.

Lemma rsum_plus n (f g : nat -> R) :
  rsum n (fun i => (f i + g i)%S) = (rsum n f + rsum n g)%S.
Proof.
  induction n as [|n IH]; [rewrite !rsum_0; ring|]. rewrite !rsum_S, IH. ring.
Qed.

Lemma rsum_mul_l n a (f : nat -> R) :
  (a * rsum n f)%S = rsum n (fun i => (a * f i)%S).
Proof.
  induction n as [|n IH]; [rewrite !rsum_0; ring|]. rewrite !rsum_S, <- IH. ring.
Qed.

Lemma rsum_mul_r n a (f : nat -> R) :
  (rsum n f * a)%S = rsum n (fun i => (f i * a)%S).
Proof.
  induction n as [|n IH]; [rewrite !rsum_0; ring|]. rewrite !rsum_S, <- IH. ring.
Qed.

Lemma rsum_swap n m (f : nat -> nat -> R) :
  rsum n (fun i => rsum m (f i)) = rsum m (fun j => rsum n (fun i => f i j)).
Proof.
  induction n as [|n IH].
  - rewrite rsum_0. symmetry. apply rsum_zero.
  - rewrite rsum_S, IH, <- rsum_plus. apply rsum_ext. intros j _.
    rewrite rsum_S. reflexivity.
Qed.

(** A sum that picks one term. *)
Lemma rsum_pick n j (t : nat -> R) :
  (j < n)%nat ->
  rsum n (fun j' => ((if bool_decide (j = j') then rone else rzero) * t j')%S) = t j.
Proof.
  intros Hj. induction n as [|n IH]; [lia|]. rewrite rsum_S.
  destruct (decide (j = n)) as [->|Hne].
  - rewrite bool_decide_true by reflexivity.
    rewrite (rsum_ext n _ (fun _ => rzero)).
    + rewrite rsum_zero. ring.
    + intros j' Hj'. rewrite bool_decide_false by lia. ring.
  - rewrite IH by lia. rewrite bool_decide_false by exact Hne. ring.
Qed.

Lemma times_S k (v : R) : times (S k) v = (times k v + v)%S.
Proof. unfold times. apply rsum_S. Qed.

Lemma times_1 (v : R) : times 1 v = v.
Proof. unfold times, rsum. simpl. ring. Qed.

(** A sum of copies of one value. *)
Lemma rsum_copies n (P : nat -> Prop) `{!forall i, Decision (P i)} (v : R) :
  rsum n (fun i => if decide (P i) then v else rzero)
  = times (length (filter P (seq 0 n))) v.
Proof.
  induction n as [|n IH]; [reflexivity|].
  rewrite rsum_S, IH, seq_S, list.filter_app, length_app.
  destruct (decide (P n)) as [Hp|Hp].
  - change (0 + n)%nat with n. rewrite filter_cons_True by exact Hp.
    cbn [length]. rewrite Nat.add_1_r, times_S. reflexivity.
  - change (0 + n)%nat with n. rewrite filter_cons_False by exact Hp.
    cbn [length]. rewrite Nat.add_0_r. ring.
Qed.

Lemma lookup_PeT (Pe : HypreParMatrix R) x j :
  (j < hp_cols Pe)%nat ->
  PeT Pe x !! j = Some (rsum (hp_rows Pe) (fun i => (hp_entry Pe i j * vnth x i)%S)).
Proof.
  intros Hj. unfold PeT. rewrite list_lookup_fmap, lookup_seq_lt by exact Hj. reflexivity.
Qed.

Lemma lookup_PeF (Pe : HypreParMatrix R) t i :
  (i < hp_rows Pe)%nat ->
  PeF Pe t !! i = Some (rsum (hp_cols Pe) (fun j => (hp_entry Pe i j * vnth t j)%S)).
Proof.
  intros Hi. unfold PeF. rewrite list_lookup_fmap, lookup_seq_lt by exact Hi. reflexivity.
Qed.

(** Without shared dofs, summing what was redistributed gives it
    back. *)
Lemma PeT_PeF_unshared (Pe : HypreParMatrix R) (t : list R) :
  unshared Pe -> length t = hp_cols Pe -> PeT Pe (PeF Pe t) = t.
Proof.
  intros Hun Hl. apply list_eq. intros j.
  destruct (decide (j < hp_cols Pe)%nat) as [Hj|Hj].
  - rewrite lookup_PeT by exact Hj.
    destruct (lookup_lt_is_Some_2 t j ltac:(lia)) as [tj Htj]. rewrite Htj. f_equal.
    rewrite (rsum_ext _ _
      (fun i => rsum (hp_cols Pe)
         (fun j' => (hp_entry Pe i j * hp_entry Pe i j' * vnth t j')%S))).
    + rewrite rsum_swap.
      rewrite (rsum_ext _ _
        (fun j' => ((if bool_decide (j = j') then rone else rzero) * vnth t j')%S)).
      * rewrite (rsum_pick _ j (vnth t)) by exact Hj. apply vnth_lookup. exact Htj.
      * intros j' Hj'. rewrite <- (Hun j j' Hj Hj'). symmetry. apply rsum_mul_r.
    + intros i Hi. rewrite (vnth_lookup _ _ _ (lookup_PeF Pe t i Hi)).
      rewrite rsum_mul_l. apply rsum_ext. intros j' _. ring.
  - rewrite !lookup_ge_None_2; [reflexivity|lia|rewrite length_PeT; lia].
Qed.

(** With copies, redistributing gives each copy the value of its true
    dof, and summing again counts the copies. *)
Lemma PeF_copies (Pe : HypreParMatrix R) owner (t : list R) i :
  copies_of Pe owner -> (i < hp_rows Pe)%nat ->
  PeF Pe t !! i = Some (vnth t (owner i)).
Proof.
  intros Hc Hi. rewrite lookup_PeF by exact Hi. f_equal.
  destruct (Hc i Hi) as [Ho He].
  rewrite (rsum_ext _ _
    (fun j => ((if bool_decide (owner i = j) then rone else rzero) * vnth t j)%S)).
  - apply rsum_pick. exact Ho.
  - intros j Hj. rewrite (He j Hj). reflexivity.
Qed.

Lemma PeT_PeF_copies (Pe : HypreParMatrix R) owner (t : list R) j :
  copies_of Pe owner -> (j < hp_cols Pe)%nat ->
  PeT Pe (PeF Pe t) !! j = Some (times (shared_by Pe owner j) (vnth t j)).
Proof.
  intros Hc Hj. rewrite lookup_PeT by exact Hj. f_equal.
  unfold shared_by. rewrite <- rsum_copies. apply rsum_ext. intros i Hi.
  rewrite (vnth_lookup _ _ _ (PeF_copies Pe owner t i Hc Hi)).
  destruct (Hc i Hi) as [_ He]. rewrite (He j Hj).
  destruct (decide (owner i = j)) as [Ho|Ho].
  - rewrite bool_decide_true by exact Ho. rewrite Ho. ring.
  - rewrite bool_decide_false by exact Ho. ring.
Qed.

End MoreSums.

Section ReduceTwice.
Context {R : Type} `{!Scalar R}.

Lemma reduced_twice_stable (s : ParEPField R) :
  let Pe := EDof_TrueEDof_Matrix s in
  reduced (reduced s) = reduced s <->
  Forall (fun e => PeT Pe (PeF Pe (PeT Pe e)) = PeT Pe e) (par_ExposedDoFs_ s).
Proof.
  intros Pe. split.
  - intros Heq. apply (f_equal ParExposedDoFs_) in Heq.
    unfold reduced in Heq. cbn in Heq. fold Pe in Heq.
    apply Forall_lookup. intros f e Hf.
    apply (f_equal (fun l => l !! f)) in Heq.
    rewrite !list_lookup_fmap, Hf in Heq. cbn in Heq. congruence.
  - intros Hst. unfold reduced. cbn. fold Pe. f_equal.
    + rewrite <- list_fmap_compose. apply Forall_fmap_ext_1.
      eapply List.Forall_impl; [|exact Hst]. intros e He. cbn in *. rewrite He. reflexivity.
    + rewrite <- list_fmap_compose. apply Forall_fmap_ext_1.
      eapply List.Forall_impl; [|exact Hst]. intros e He. cbn in *. exact He.
Qed.

Lemma reduced_twice_copies (s : ParEPField R) (owner : nat -> nat) f T1 E1 :
  let Pe := EDof_TrueEDof_Matrix s in
  copies_of Pe owner ->
  ParExposedDoFs_ (reduced s) !! f = Some T1 ->
  par_ExposedDoFs_ (reduced s) !! f = Some E1 ->
  exists T2 E2,
    ParExposedDoFs_ (reduced (reduced s)) !! f = Some T2 /\
    par_ExposedDoFs_ (reduced (reduced s)) !! f = Some E2 /\
    (forall j, (j < hp_cols Pe)%nat ->
       T2 !! j = Some (times (shared_by Pe owner j) (vnth T1 j))) /\
    (forall i, (i < hp_rows Pe)%nat ->
       E2 !! i = Some (times (shared_by Pe owner (owner i)) (vnth E1 i))).
Proof.
  intros Pe Hc HT1 HE1. unfold reduced in *. cbn in *. fold Pe in HT1, HE1 |- *.
  rewrite list_lookup_fmap in HT1, HE1.
  destruct (par_ExposedDoFs_ s !! f) as [e|] eqn:He; [|discriminate].
  cbn in HT1, HE1. injection HT1 as <-. injection HE1 as <-.
  exists (PeT Pe (PeF Pe (PeT Pe e))), (PeF Pe (PeT Pe (PeF Pe (PeT Pe e)))).
  split; [rewrite !list_lookup_fmap, He; reflexivity|].
  split; [rewrite !list_lookup_fmap, He; reflexivity|]. split.
  - intros j Hj. apply PeT_PeF_copies; assumption.
  - intros i Hi. destruct (Hc i Hi) as [Ho _].
    rewrite (PeF_copies Pe owner _ i Hc Hi).
    rewrite (vnth_lookup _ _ _ (PeT_PeF_copies Pe owner _ (owner i) Hc Ho)).
    rewrite (vnth_lookup _ _ _ (PeF_copies Pe owner (PeT Pe e) i Hc Hi)). reflexivity.
Qed.

End ReduceTwice.

Section ReduceMore.
Context {R : Type} `{!Scalar R}.

Lemma par_sized_iter_reduced n (s : ParEPField R) :
  par_sized s -> par_sized (Nat.iter n reduced s).
Proof.
  intros Hsz. induction n as [|n IH]; [exact Hsz|].
  rewrite Nat.iter_succ. apply par_sized_reduced. exact IH.
Qed.

Lemma Pe_iter_reduced n (s : ParEPField R) :
  EDof_TrueEDof_Matrix (Nat.iter n reduced s) = EDof_TrueEDof_Matrix s.
Proof. induction n as [|n IH]; [reflexivity|]. rewrite Nat.iter_succ. exact IH. Qed.

Lemma iter_reduced_comm n (s : ParEPField R) :
  Nat.iter n reduced (reduced s) = reduced (Nat.iter n reduced s).
Proof.
  induction n as [|n IH]; [reflexivity|]. rewrite !Nat.iter_succ, IH. reflexivity.
Qed.

Lemma reduce_calls_reduced n (s : ParEPField R) :
  par_sized s -> reduce_calls n s = Ok (Nat.iter n reduced s).
Proof.
  revert s. induction n as [|n IH]; intros s Hsz; [reflexivity|].
  cbn [reduce_calls]. rewrite updateParExposedDoFs_reduced by exact Hsz.
  cbn. rewrite IH by (apply par_sized_reduced; exact Hsz).
  rewrite iter_reduced_comm. reflexivity.
Qed.

Lemma iter_reduced_stable n (s : ParEPField R) :
  reduced (reduced s) = reduced s -> Nat.iter n reduced (reduced s) = reduced s.
Proof.
  intros Hst. induction n as [|n IH]; [reflexivity|].
  rewrite Nat.iter_succ, IH. exact Hst.
Qed.

Lemma iter_reduced_copies n (s : ParEPField R) (owner : nat -> nat) f T1 E1 :
  let Pe := EDof_TrueEDof_Matrix s in
  copies_of Pe owner ->
  ParExposedDoFs_ (reduced s) !! f = Some T1 ->
  par_ExposedDoFs_ (reduced s) !! f = Some E1 ->
  exists Tn En,
    ParExposedDoFs_ (Nat.iter n reduced (reduced s)) !! f = Some Tn /\
    par_ExposedDoFs_ (Nat.iter n reduced (reduced s)) !! f = Some En /\
    (forall j, (j < hp_cols Pe)%nat ->
       Tn !! j = Some (Nat.iter n (times (shared_by Pe owner j)) (vnth T1 j))) /\
    (forall i, (i < hp_rows Pe)%nat ->
       En !! i = Some (Nat.iter n (times (shared_by Pe owner (owner i))) (vnth E1 i))).
Proof.
  intros Pe Hc HT1 HE1. induction n as [|n IH].
  - exists T1, E1. split; [exact HT1|]. split; [exact HE1|].
    unfold reduced in HT1, HE1. cbn in HT1, HE1. fold Pe in HT1, HE1.
    rewrite list_lookup_fmap in HT1, HE1.
    destruct (par_ExposedDoFs_ s !! f) as [e|]; [|discriminate].
    cbn in HT1, HE1. injection HT1 as <-. injection HE1 as <-. split.
    + intros j Hj. cbn [Nat.iter]. rewrite (lookup_PeT Pe e j Hj).
      f_equal. symmetry. apply vnth_lookup. apply lookup_PeT. exact Hj.
    + intros i Hi. cbn [Nat.iter]. rewrite (lookup_PeF Pe _ i Hi).
      f_equal. symmetry. apply vnth_lookup. apply lookup_PeF. exact Hi.
  - destruct IH as (Tn & En & HTn & HEn & HTj & HEi).
    rewrite iter_reduced_comm in HTn, HEn.
    destruct (reduced_twice_copies (Nat.iter n reduced s) owner f Tn En)
      as (T' & E' & HT' & HE' & HT'j & HE'i).
    + rewrite Pe_iter_reduced. exact Hc.
    + exact HTn.
    + exact HEn.
    + rewrite Pe_iter_reduced in HT'j, HE'i. fold Pe in HT'j, HE'i.
      exists T', E'. rewrite !Nat.iter_succ, iter_reduced_comm.
      split; [exact HT'|]. split; [exact HE'|]. split.
      * intros j Hj. rewrite (HT'j j Hj). rewrite (vnth_lookup _ _ _ (HTj j Hj)).
        reflexivity.
      * intros i Hi. rewrite (HE'i i Hi). rewrite (vnth_lookup _ _ _ (HEi i Hi)).
        reflexivity.
Qed.

End ReduceMore.

(** C6 (as the code has it): on a state whose vectors have the sizes of
    Pe, reduce() returns, and so does every further call.  The second
    call returns the state the first call returned exactly when summing
    the redistributed values once more changes nothing, that is
    Pe^t (Pe (Pe^t e)) = Pe^t e for the exposed vector e of every
    field; this is so whenever no exposed dof is shared between ranks
    (Pe^t Pe is the identity), and then every further call returns that
    state.  Where every rank-local exposed dof is a copy of one true
    exposed dof (Pe has one entry 1 in each row), each further call
    multiplies the value of each true exposed dof, and of each of its
    copies, by the number of copies of that dof: once by the second
    call, n times by n further calls. *)
Theorem C6_reduce_twice_sums_again {R : Type} `{!Scalar R} (s : ParEPField R) :
  par_sized s ->
  let Pe := EDof_TrueEDof_Matrix s in
  exists s1 s2,
    updateParExposedDoFs s = Ok s1 /\ updateParExposedDoFs s1 = Ok s2 /\
    (s2 = s1 <->
     Forall (fun e => PeT Pe (PeF Pe (PeT Pe e)) = PeT Pe e) (par_ExposedDoFs_ s)) /\
    (unshared Pe -> s2 = s1) /\
    (forall owner, copies_of Pe owner ->
       forall f T1 E1,
         ParExposedDoFs_ s1 !! f = Some T1 -> par_ExposedDoFs_ s1 !! f = Some E1 ->
         exists T2 E2,
           ParExposedDoFs_ s2 !! f = Some T2 /\ par_ExposedDoFs_ s2 !! f = Some E2 /\
           (forall j, (j < hp_cols Pe)%nat ->
              T2 !! j = Some (times (shared_by Pe owner j) (vnth T1 j))) /\
           (forall i, (i < hp_rows Pe)%nat ->
              E2 !! i = Some (times (shared_by Pe owner (owner i)) (vnth E1 i)))) /\
    (forall n, exists sn,
       reduce_calls n s1 = Ok sn /\
       (unshared Pe -> sn = s1) /\
       (forall owner, copies_of Pe owner ->
          forall f T1 E1,
            ParExposedDoFs_ s1 !! f = Some T1 -> par_ExposedDoFs_ s1 !! f = Some E1 ->
            exists Tn En,
              ParExposedDoFs_ sn !! f = Some Tn /\ par_ExposedDoFs_ sn !! f = Some En /\
              (forall j, (j < hp_cols Pe)%nat ->
                 Tn !! j = Some (Nat.iter n (times (shared_by Pe owner j)) (vnth T1 j))) /\
              (forall i, (i < hp_rows Pe)%nat ->
                 En !! i = Some (Nat.iter n (times (shared_by Pe owner (owner i)))
                                          (vnth E1 i))))).
Proof.
  intros Hsz Pe. exists (reduced s), (reduced (reduced s)).
  assert (Hun : unshared Pe -> reduced (reduced s) = reduced s).
  { intros Hun. apply reduced_twice_stable. fold Pe.
    apply Forall_forall. intros e _.
    apply PeT_PeF_unshared; [exact Hun|apply length_PeT]. }
  split; [apply updateParExposedDoFs_reduced; exact Hsz|].
  split; [apply updateParExposedDoFs_reduced, par_sized_reduced; exact Hsz|].
  split; [apply reduced_twice_stable|].
  split; [exact Hun|]. split.
  - intros owner Hc f T1 E1. apply reduced_twice_copies. exact Hc.
  - intros n. exists (Nat.iter n reduced (reduced s)).
    split; [apply reduce_calls_reduced, par_sized_reduced; exact Hsz|]. split.
    + intros H. apply iter_reduced_stable, Hun, H.
    + intros owner Hc f T1 E1. apply iter_reduced_copies. exact Hc.
Qed.

Lemma unshared_Pe_unshared : unshared Pe_unshared.
Proof.
  intros j j' Hj Hj'. cbn in Hj, Hj'.
  destruct j as [|[|j]]; [| |lia]; (destruct j' as [|[|j']]; [| |lia]); reflexivity.
Qed.

Lemma copies_of_Pe_shared : copies_of Pe_shared (fun _ => 0%nat).
Proof.
  intros i Hi. split; [cbn; lia|]. intros j Hj. cbn in Hj.
  assert (j = 0%nat) as -> by lia. reflexivity.
Qed.

(** Two exposed dofs, none shared: the second call changes nothing.
    One dof shared by two ranks, exposed values (1, 0): the first call
    leaves the true value 1, the second call the value 1 + 1, and three
    further calls the value 8. *)
Lemma C6_reduce_twice_witness :
  (exists s1, updateParExposedDoFs field_unshared = Ok s1 /\
              updateParExposedDoFs s1 = Ok s1) /\
  (exists s1 s2 T2 s4 T4,
     updateParExposedDoFs field_shared = Ok s1 /\
     updateParExposedDoFs s1 = Ok s2 /\
     ParExposedDoFs_ s1 = [[1%Z]] /\
     ParExposedDoFs_ s2 !! 0%nat = Some T2 /\
     T2 !! 0%nat = Some (times 2 1%Z) /\
     reduce_calls 3 s1 = Ok s4 /\
     ParExposedDoFs_ s4 !! 0%nat = Some T4 /\
     T4 !! 0%nat = Some 8%Z).
Proof.
  split.
  - destruct (C6_reduce_twice_sums_again field_unshared)
      as (s1 & s2 & H1 & H2 & _ & Hun & _).
    + unfold par_sized. simpl. repeat split; repeat constructor.
    + exists s1. split; [exact H1|]. rewrite <- (Hun unshared_Pe_unshared) at 2. exact H2.
  - destruct (C6_reduce_twice_sums_again field_shared)
      as (s1 & s2 & H1 & H2 & _ & _ & Hc & Hn).
    + unfold par_sized. simpl. repeat split; repeat constructor.
    + assert (Hs1 : ParExposedDoFs_ s1 = [[1%Z]]).
      { vm_compute in H1. injection H1 as <-. reflexivity. }
      assert (HE1 : par_ExposedDoFs_ s1 = [[1; 1]%Z]).
      { vm_compute in H1. injection H1 as <-. reflexivity. }
      destruct (Hc (fun _ => 0%nat) copies_of_Pe_shared 0%nat [1%Z] [1; 1]%Z)
        as (T2 & E2 & HT2 & _ & HT2j & _).
      * rewrite Hs1. reflexivity.
      * rewrite HE1. reflexivity.
      * destruct (Hn 3%nat) as (s4 & H4 & _ & Hc4).
        destruct (Hc4 (fun _ => 0%nat) copies_of_Pe_shared 0%nat [1%Z] [1; 1]%Z)
          as (T4 & E4 & HT4 & _ & HT4j & _).
        -- rewrite Hs1. reflexivity.
        -- rewrite HE1. reflexivity.
        -- exists s1, s2, T2, s4, T4. split; [exact H1|]. split; [exact H2|].
           split; [exact Hs1|]. split; [exact HT2|].
           split; [apply (HT2j 0%nat); cbn; lia|].
           split; [exact H4|]. split; [exact HT4|].
           apply (HT4j 0%nat). cbn. lia.
Defined.

(** C6 as stated fails.  With one exposed dof shared by two ranks and
    the exposed values (1, 0), the first call leaves true-exposed = (1)
    and exposed = (1, 1); the second call sums the two copies again and
    leaves true-exposed = (2) and exposed = (2, 2). *)
Lemma C6_counterexample :
  exists s1 s2,
    updateParExposedDoFs field_shared = Ok s1 /\
    updateParExposedDoFs s1 = Ok s2 /\
    par_ExposedDoFs_ s1 = [[1; 1]%Z] /\ ParExposedDoFs_ s1 = [[1]%Z] /\
    par_ExposedDoFs_ s2 = [[2; 2]%Z] /\ ParExposedDoFs_ s2 = [[2]%Z] /\
    s2 <> s1.
Proof.
  eexists. eexists. split; [vm_compute; reflexivity|].
  split; [vm_compute; reflexivity|].
  repeat (split; [reflexivity|]). intros H. discriminate H.
Qed.

(** * The further code: what it does *)

(** ** The ids GetElementDofs derives *)

(** [fill_block] writes one block and leaves the rest of the array. *)
Lemma fill_block_spec (a : list Z) (b w : nat) (f : Z -> result Z) (g : nat -> Z) :
  (b + w <= length a)%nat ->
  (forall j, (j < w)%nat -> f (Z.of_nat j) = Ok (g j)) ->
  fill_block a (Z.of_nat b) (Z.of_nat w) f =
    Ok (take b a ++ map g (seq 0 w) ++ drop (b + w) a).
Proof.
  intros Hfit Hf. unfold fill_block. rewrite Nat2Z.id.
  destruct (for_upto_inv
    (fun j a0 => a0 = take b a ++ map g (seq 0 j) ++ drop (b + j) a) w
    (fun j a0 => v ← f (Z.of_nat j); aset a0 (Z.of_nat b + Z.of_nat j)%Z v) a)
    as (a' & Hrun & ->); [| |exact Hrun].
  - simpl. rewrite Nat.add_0_r, take_drop. reflexivity.
  - intros j a0 Hj ->. rewrite (Hf j Hj). cbn [mbind result_bind].
    destruct (lookup_lt_is_Some_2 a (b + j)) as [y Hy]; [lia|].
    eexists. split.
    + apply aset_Ok. split; [|reflexivity].
      rewrite !length_app, length_take, length_map, length_seq, length_drop. lia.
    + replace (Z.to_nat (Z.of_nat b + Z.of_nat j)) with (b + j)%nat by lia.
      rewrite insert_app_r_alt by (rewrite length_take; lia).
      rewrite length_take, Nat.min_l by lia.
      rewrite insert_app_r_alt by (rewrite length_map, length_seq; lia).
      rewrite length_map, length_seq.
      replace (b + j - b - j)%nat with 0%nat by lia.
      rewrite (drop_S a y (b + j) Hy). cbn [list_insert].
      rewrite seq_S, map_app. cbn [map]. rewrite <- !app_assoc. cbn [app].
      replace (b + S j)%nat with (S (b + j)) by lia. reflexivity.
Qed.

Lemma fill_block_at (a : list Z) (bz wz : Z) (b w : nat) (f : Z -> result Z)
    (g : nat -> Z) :
  bz = Z.of_nat b -> wz = Z.of_nat w ->
  (b + w <= length a)%nat ->
  (forall j, (j < w)%nat -> f (Z.of_nat j) = Ok (g j)) ->
  fill_block a bz wz f = Ok (take b a ++ map g (seq 0 w) ++ drop (b + w) a).
Proof. intros -> ->. apply fill_block_spec. Qed.

Lemma length_blocks K w g : length (blocks K w g) = (K * w)%nat.
Proof.
  unfold blocks. induction K as [|K IH]; [reflexivity|].
  rewrite seq_S, flat_map_app, length_app, IH. cbn [flat_map].
  rewrite app_nil_r, length_map, length_seq. lia.
Qed.

Lemma blocks_S K w g : blocks (S K) w g = blocks K w g ++ map (g K) (seq 0 w).
Proof. unfold blocks. rewrite seq_S, flat_map_app. cbn [flat_map]. rewrite app_nil_r. reflexivity. Qed.

(** A loop of block fills writes the blocks one after the other. *)
Lemma fill_blocks_spec (a : list Z) (b w K : nat)
    (body : nat -> list Z -> result (list Z)) (g : nat -> nat -> Z) :
  (b + K * w <= length a)%nat ->
  (forall k a0, (k < K)%nat -> length a0 = length a ->
     body k a0 = Ok (take (b + k * w) a0 ++ map (g k) (seq 0 w)
                     ++ drop (b + k * w + w) a0)) ->
  for_upto K body a = Ok (take b a ++ blocks K w g ++ drop (b + K * w) a).
Proof.
  intros Hfit Hbody.
  destruct (for_upto_inv
    (fun k a0 => a0 = take b a ++ blocks k w g ++ drop (b + k * w) a) K body a)
    as (a' & Hrun & ->); [| |exact Hrun].
  - cbn. rewrite Nat.add_0_r, take_drop. reflexivity.
  - intros k a0 Hk ->. eexists. split.
    + apply Hbody; [exact Hk|].
      rewrite !length_app, length_take, length_blocks, length_drop. nia.
    + rewrite blocks_S.
      assert (HlX : length (take b a ++ blocks k w g) = (b + k * w)%nat)
        by (rewrite length_app, length_take, length_blocks; nia).
      rewrite (app_assoc (take b a) (blocks k w g) (drop (b + k * w) a)).
      rewrite take_app, HlX, (take_ge (take b a ++ blocks k w g)) by lia.
      rewrite Nat.sub_diag, take_0, app_nil_r.
      rewrite drop_app_ge by lia. rewrite HlX, drop_drop.
      rewrite <- !app_assoc. do 3 f_equal. f_equal. nia.
Qed.

Lemma blocks_flat_map {A} (l : list A) (w : nat) (h : A -> nat -> Z) (g : nat -> nat -> Z) :
  (forall k x, l !! k = Some x -> forall j, (j < w)%nat -> g k j = h x j) ->
  blocks (length l) w g = flat_map (fun x => map (h x) (seq 0 w)) l.
Proof.
  revert g. induction l as [|x l IH]; intros g Hg; [reflexivity|].
  cbn [length flat_map]. unfold blocks. cbn [seq flat_map]. f_equal.
  - apply map_ext_in. intros j Hj. apply in_seq in Hj. apply (Hg 0%nat x eq_refl). lia.
  - rewrite <- (IH (fun k => g (S k))).
    + unfold blocks. rewrite <- seq_shift, flat_map_concat_map, map_map,
        <- flat_map_concat_map. reflexivity.
    + intros k y Hy j Hj. apply (Hg (S k) y Hy j Hj).
Qed.

Lemma bind_Ok_intro {A B} (m : result A) (k : A -> result B) a r :
  m = Ok a -> k a = Ok r -> (m ≫= k) = Ok r.
Proof. intros -> H. exact H. Qed.

Lemma blocks_width_0 K g : blocks K 0 g = [].
Proof.
  apply nil_length_inv. rewrite length_blocks. lia.
Qed.

Lemma length_ids_of_vertices nv V :
  length (ids_of_vertices nv V) = (length V * Z.to_nat nv)%nat.
Proof.
  unfold ids_of_vertices. induction V as [|v V IH]; [reflexivity|].
  cbn [flat_map length]. rewrite length_app, IH, length_map, length_seq. lia.
Qed.

Lemma length_ids_of_entities first n ind E Eo :
  length Eo = length E ->
  length (ids_of_entities first n ind E Eo) = (length E * Z.to_nat n)%nat.
Proof.
  unfold ids_of_entities. revert Eo. induction E as [|e E IH]; intros [|eo Eo] Hl;
    try discriminate; [reflexivity|].
  cbn [zip zip_with flat_map length]. rewrite length_app, IH, length_map, length_seq by
    (simpl in Hl; lia). lia.
Qed.

Lemma ids_of_vertices_blocks nv V :
  ids_of_vertices nv V =
    blocks (length V) (Z.to_nat nv)
      (fun k j => (default 0%Z (V !! k) * nv + Z.of_nat j)%Z).
Proof.
  symmetry. unfold ids_of_vertices.
  apply (blocks_flat_map V (Z.to_nat nv) (fun vk j => (vk * nv + Z.of_nat j)%Z)).
  intros k x Hx j _. rewrite Hx. reflexivity.
Qed.

Lemma ids_of_entities_blocks first n ind E Eo :
  length Eo = length E ->
  ids_of_entities first n ind E Eo =
    blocks (length E) (Z.to_nat n)
      (fun k j => match zip E Eo !! k with
                  | Some (ek, eo) =>
                    oriented_id first ek n (default 0%Z (ind ek eo !! j))
                  | None => 0%Z
                  end).
Proof.
  intros Hl. symmetry. unfold ids_of_entities.
  replace (length E) with (length (zip E Eo)) by (rewrite length_zip_with; lia).
  etrans.
  - apply (blocks_flat_map (zip E Eo) (Z.to_nat n)
             (fun p j => let '(ek, eo) := p in
                         oriented_id first ek n (default 0%Z (ind ek eo !! j)))).
    intros k [ek eo] Hx j _. rewrite Hx. reflexivity.
  - apply flat_map_ext. intros [ek eo]. reflexivity.
Qed.

(** The loop over the vertices. *)
Lemma vertex_phase (a : list Z) (nv : Z) (V : list Z) :
  (0 <= nv)%Z -> (length V * Z.to_nat nv <= length a)%nat ->
  for_upto (length V)
    (fun k a0 =>
       fill_block a0 (Z.of_nat k * nv)%Z nv
         (fun j => vk ← aget V (Z.of_nat k); Ok (vk * nv + j)%Z)) a
  = Ok (ids_of_vertices nv V ++ drop (length V * Z.to_nat nv) a).
Proof.
  intros Hnv Hfit. rewrite ids_of_vertices_blocks.
  change (blocks (length V) (Z.to_nat nv)
            (fun k j => (default 0%Z (V !! k) * nv + Z.of_nat j)%Z)
          ++ drop (length V * Z.to_nat nv) a)
    with (take 0 a ++ blocks (length V) (Z.to_nat nv)
            (fun k j => (default 0%Z (V !! k) * nv + Z.of_nat j)%Z)
          ++ drop (0 + length V * Z.to_nat nv) a).
  apply fill_blocks_spec; [lia|].
  intros k a0 Hk Hlen.
  destruct (lookup_lt_is_Some_2 V k Hk) as [vk Hvk].
  apply fill_block_at; [nia|lia|nia|].
  intros j Hj. rewrite (aget_lookup _ _ _ Hvk), Hvk. reflexivity.
Qed.

(** A loop over the edges or the faces of the element. *)
Lemma entity_phase (a : list Z) (b : nat) (first n : Z) (ind : Z -> Z -> list Z)
    (E Eo : list Z) (body : nat -> list Z -> result (list Z)) :
  (0 <= n)%Z -> orientations_fit n ind E Eo ->
  (b + length E * Z.to_nat n <= length a)%nat ->
  (forall k ek eo a0, E !! k = Some ek -> Eo !! k = Some eo ->
     (Z.to_nat n <= length (ind ek eo))%nat ->
     body k a0 =
       fill_block a0 (Z.of_nat b + Z.of_nat k * n)%Z n
         (fun j => ij ← aget (ind ek eo) j; Ok (oriented_id first ek n ij))) ->
  for_upto (length E) body a
  = Ok (take b a ++ ids_of_entities first n ind E Eo
        ++ drop (b + length E * Z.to_nat n) a).
Proof.
  intros Hn [Hl Hfitind] Hfit Hbody. rewrite ids_of_entities_blocks by exact Hl.
  apply fill_blocks_spec; [exact Hfit|].
  intros k a0 Hk Hlen.
  destruct (lookup_lt_is_Some_2 E k Hk) as [ek Hek].
  destruct (lookup_lt_is_Some_2 Eo k ltac:(lia)) as [eo Heo].
  assert (Hz : zip E Eo !! k = Some (ek, eo)).
  { rewrite lookup_zip_with, Hek. cbn. rewrite Heo. reflexivity. }
  pose proof (Forall_lookup_1 _ _ _ _ Hfitind Hz) as Hind. cbv beta iota in Hind.
  rewrite (Hbody k ek eo a0 Hek Heo Hind).
  rewrite Hz.
  apply fill_block_at; [nia|lia|nia|].
  intros j Hj.
  destruct (lookup_lt_is_Some_2 (ind ek eo) j ltac:(lia)) as [ij Hij].
  rewrite (aget_lookup _ _ _ Hij), Hij. reflexivity.
Qed.

Lemma three_groups (a0 Vb Eb Fb : list Z) :
  length a0 = (length Vb + length Eb + length Fb)%nat ->
  let a1 := Vb ++ drop (length Vb) a0 in
  let a2 := take (length Vb) a1 ++ Eb ++ drop (length Vb + length Eb) a1 in
  take (length Vb + length Eb) a2 ++ Fb
    ++ drop (length Vb + length Eb + length Fb) a2 = Vb ++ Eb ++ Fb.
Proof.
  intros Hlen a1 a2.
  assert (H1 : take (length Vb) a1 = Vb) by (unfold a1; apply take_app_length).
  assert (H2 : a2 = (Vb ++ Eb) ++ drop (length Vb + length Eb) a1)
    by (unfold a2; rewrite H1, <- app_assoc; reflexivity).
  assert (Hl1 : length a1 = length a0)
    by (unfold a1; rewrite length_app, length_drop; lia).
  assert (Hl2 : length a2 = length a0)
    by (rewrite H2, !length_app, length_drop; lia).
  rewrite (drop_ge a2) by lia. rewrite app_nil_r.
  rewrite H2. replace (length Vb + length Eb)%nat with (length (Vb ++ Eb))
    by (rewrite length_app; reflexivity).
  rewrite take_app_length, <- app_assoc. reflexivity.
Qed.

Lemma faces_looked_up fes elem :
  derivable fes elem ->
  (if bool_decide (Dimension (GetMesh fes) = 3)%Z
   then if HasFaceDofs (FEColl fes) (GetElementBaseGeometry (GetMesh fes) elem)
        then let '(F, Fo) := GetElementFaces (GetMesh fes) elem in
             F0 ← aget F 0%Z;
             Ok (F, Fo, DofForGeometry (FEColl fes) (GetFaceBaseGeometry (GetMesh fes) F0))
        else Ok ([], [], 0%Z)
   else Ok ([], [], 0%Z))
  = Ok ((faces_used fes elem).1, (faces_used fes elem).2, face_dofs fes elem).
Proof.
  intros (_ & _ & HF0). unfold face_dofs, faces_used.
  destruct (bool_decide (Dimension (GetMesh fes) = 3)%Z) eqn:Hd; [|reflexivity].
  apply bool_decide_eq_true in Hd.
  destruct (HasFaceDofs (FEColl fes) (GetElementBaseGeometry (GetMesh fes) elem)) eqn:Hh;
    [|reflexivity].
  specialize (HF0 Hd eq_refl).
  destruct (GetElementFaces (GetMesh fes) elem) as [F Fo]. cbn [fst snd] in *.
  destruct F as [|f0 F]; [congruence|]. reflexivity.
Qed.

Lemma edge_dofs_nonneg fes : fec_counts_nonneg (FEColl fes) -> (0 <= edge_dofs fes)%Z.
Proof. intros Hwf. unfold edge_dofs. case_bool_decide; [apply Hwf|lia]. Qed.

Lemma face_dofs_nonneg fes elem :
  fec_counts_nonneg (FEColl fes) -> (0 <= face_dofs fes elem)%Z.
Proof.
  intros Hwf. unfold face_dofs. destruct (faces_used fes elem).1; [lia|apply Hwf].
Qed.


Lemma fill_block_ext (a : list Z) (b n : Z) (f f' : Z -> result Z) :
  (forall j, f j = f' j) -> fill_block a b n f = fill_block a b n f'.
Proof.
  intros Hf. unfold fill_block. apply for_upto_ext. intros j a0 _. rewrite Hf. reflexivity.
Qed.

Lemma ids_of_vertices_used nv V :
  (0 <= nv)%Z ->
  ids_of_vertices nv (if bool_decide (nv > 0)%Z then V else []) = ids_of_vertices nv V.
Proof.
  intros Hnv. case_bool_decide; [reflexivity|].
  symmetry. apply nil_length_inv. rewrite length_ids_of_vertices. nia.
Qed.

Lemma nedofs_edge_dofs fes :
  (if bool_decide (Dimension (GetMesh fes) > 1)%Z
   then (GetNEdges (GetMesh fes) * DofForGeometry (FEColl fes) SEGMENT)%Z else 0%Z)
  = (GetNEdges (GetMesh fes) * edge_dofs fes)%Z.
Proof. unfold edge_dofs. case_bool_decide; lia. Qed.

Lemma derive_layout fes elem old :
  fec_counts_nonneg (FEColl fes) -> derivable fes elem ->
  deriveElementDofs fes elem old = Ok (derived_ids fes elem).
Proof.
  intros Hwf Hder. pose proof Hder as (HE & HF & _).
  pose proof (faces_looked_up fes elem Hder) as Hfaces.
  pose proof (edge_dofs_nonneg fes Hwf) as Hne.
  pose proof (face_dofs_nonneg fes elem Hwf) as Hnf.
  assert (Hnv : (0 <= DofForGeometry (FEColl fes) POINT)%Z) by apply Hwf.
  unfold deriveElementDofs, derived_ids.
  rewrite nedofs_edge_dofs.
  change (if bool_decide (Dimension (GetMesh fes) > 1)%Z
          then DofForGeometry (FEColl fes) SEGMENT else 0%Z) with (edge_dofs fes).
  change (if bool_decide (edge_dofs fes > 0)%Z
          then GetElementEdges (GetMesh fes) elem else ([], []))
    with (edges_used fes elem).
  rewrite Hfaces. clear Hfaces.
  rewrite <- (ids_of_vertices_used _ (GetElementVertices (GetMesh fes) elem) Hnv).
  remember (face_dofs fes elem) as nf eqn:Hnfeq.
  remember (edge_dofs fes) as ne eqn:Hneeq.
  remember (DofForGeometry (FEColl fes) POINT) as nv eqn:Hnveq.
  remember (if bool_decide (nv > 0)%Z then GetElementVertices (GetMesh fes) elem else [])
    as V eqn:HV.
  destruct (edges_used fes elem) as [E Eo].
  destruct (faces_used fes elem) as [F Fo].
  cbn [fst snd mbind result_bind] in *.
  destruct HE as [HlE HindE]. destruct HF as [HlF HindF].
  set (nd := (Z.of_nat (length V) * nv + Z.of_nat (length E) * ne
              + Z.of_nat (length F) * nf)%Z).
  set (a0 := Array_SetSize old nd).
  assert (Hla0 : length a0 = (length V * Z.to_nat nv + length E * Z.to_nat ne
                              + length F * Z.to_nat nf)%nat).
  { unfold a0. rewrite length_Array_SetSize. unfold nd. nia. }
  set (Vb := ids_of_vertices nv V).
  set (Eb := ids_of_entities (GetNV (GetMesh fes) * nv) ne (edge_order fes) E Eo).
  set (Fb := ids_of_entities (GetNV (GetMesh fes) * nv + GetNEdges (GetMesh fes) * ne)
               nf (face_order fes) F Fo).
  assert (HlVb : length Vb = (length V * Z.to_nat nv)%nat)
    by apply length_ids_of_vertices.
  assert (HlEb : length Eb = (length E * Z.to_nat ne)%nat)
    by (apply length_ids_of_entities; exact HlE).
  assert (HlFb : length Fb = (length F * Z.to_nat nf)%nat)
    by (apply length_ids_of_entities; exact HlF).
  set (a1 := Vb ++ drop (length Vb) a0).
  set (a2 := take (length Vb) a1 ++ Eb ++ drop (length Vb + length Eb) a1).
  (* the vertices *)
  match goal with |- (?m ≫= _) = _ =>
    assert (H1 : m = Ok (a1, Z.of_nat (length Vb))) end.
  { destruct (bool_decide (nv > 0)%Z) eqn:Hb.
    - rewrite vertex_phase by (try exact Hnv; lia). cbn [mbind result_bind].
      unfold a1. rewrite HlVb. do 2 f_equal. nia.
    - apply bool_decide_eq_false in Hb. subst V. unfold a1, Vb. cbn.
      do 2 f_equal. lia. }
  rewrite H1. clear H1. cbn [mbind result_bind].
  (* the edges *)
  match goal with |- (?m ≫= _) = _ => assert (H2 : m = Ok a2) end.
  { destruct (bool_decide (ne > 0)%Z) eqn:Hb.
    - unfold a2. rewrite HlEb.
      apply (entity_phase a1 (length Vb) _ ne (edge_order fes) E Eo);
        [exact Hne|split; assumption| |].
      + unfold a1. rewrite length_app, length_drop. lia.
      + intros k ek eo b0 Hek Heo Hind.
        rewrite (aget_lookup _ _ _ Heo). cbn [mbind result_bind].
        apply fill_block_ext. intros j. unfold edge_order.
        rewrite (aget_lookup _ _ _ Hek).
        destruct (aget (DofOrderForOrientation (FEColl fes) SEGMENT eo) j); reflexivity.
    - apply bool_decide_eq_false in Hb. assert (ne = 0%Z) as Hz by lia.
      unfold a2. rewrite Hz in HlEb.
      replace (length E * Z.to_nat 0)%nat with 0%nat in HlEb by lia.
      rewrite (nil_length_inv _ HlEb). cbn [length app].
      rewrite Nat.add_0_r, take_drop. reflexivity. }
  rewrite H2. clear H2. cbn [mbind result_bind].
  (* the faces *)
  rewrite <- (three_groups a0 Vb Eb Fb) by lia. fold a1. fold a2.
  destruct (bool_decide (nf > 0)%Z) eqn:Hb.
  - rewrite HlFb.
    apply (entity_phase a2 (length Vb + length Eb) _ nf (face_order fes) F Fo);
      [exact Hnf|split; assumption| |].
    + unfold a2, a1. rewrite !length_app, length_take, !length_drop, !length_app, length_drop.
      lia.
    + intros k fk fo b0 Hfk Hfo Hind.
      rewrite (aget_lookup _ _ _ Hfk). cbn [mbind result_bind].
      rewrite (aget_lookup _ _ _ Hfo). cbn [mbind result_bind].
      unfold face_order. f_equal. nia.
  - apply bool_decide_eq_false in Hb. assert (nf = 0%Z) as Hz by lia.
    rewrite Hz in HlFb.
    replace (length F * Z.to_nat 0)%nat with 0%nat in HlFb by lia.
    rewrite (nil_length_inv _ HlFb). cbn [length app].
    rewrite Nat.add_0_r, take_drop. reflexivity.
Qed.

(** X1: without a table, GetElementDofs returns the ids group
    after group: for each vertex its nv consecutive ids, then for each
    edge its ne ids in the order of the edge's orientation, then the
    same for the faces in dimension 3; the ids of the edges are
    numbered after all vertex ids and those of the faces after all edge
    ids, and a negative entry of a dof order stands for the negated dof
    -1 - entry and gives the id -1 - id.  What the array held before
    does not matter, and the object is left as it is. *)
Theorem GetElementDofs_layout (this : EPDoFs) (elem : Z) (old : list Z) :
  expDoFsByElem_ this = None ->
  fec_counts_nonneg (FEColl (fes_ this)) -> derivable (fes_ this) elem ->
  GetElementDofs this elem old = Ok (this, derived_ids (fes_ this) elem).
Proof.
  intros Hnone Hwf Hder. unfold GetElementDofs. rewrite Hnone.
  rewrite (derive_layout _ _ _ Hwf Hder). reflexivity.
Qed.

Lemma fec_edge_nonneg : fec_counts_nonneg fec_edge.
Proof. intros g. destruct g; simpl; lia. Qed.

Lemma derivable_edge : derivable fes_edge 0.
Proof.
  split; [|split].
  - split; [reflexivity|]. repeat constructor.
  - split; [reflexivity|]. constructor.
  - intros Hd. vm_compute in Hd. discriminate.
Qed.

Lemma GetElementDofs_layout_witness :
  GetElementDofs (EPDoFs_new fes_edge) 0 [7; 7]%Z
    = Ok (EPDoFs_new fes_edge, derived_ids fes_edge 0) /\
  derived_ids fes_edge 0 = [-1; 1; 2]%Z.
Proof.
  split; [|reflexivity].
  apply (GetElementDofs_layout (EPDoFs_new fes_edge) 0 [7; 7]%Z eq_refl
           fec_edge_nonneg derivable_edge).
Defined.

Lemma GetElementDofsPri_bounds (this : EPDoFs) (elem : Z) (old : list Z) x :
  (0 <= GetNElements this)%Z -> priOffset_ok this ->
  GetElementDofsPri this elem old = Ok x ->
  (0 <= elem < GetNElements this)%Z.
Proof.
  intros Hne Hpo H. unfold GetElementDofsPri in H.
  bind_inv H. destruct a as [this1 ids].
  assert (this1 = this) as ->.
  { unfold GetElementDofs in Ha. destruct (expDoFsByElem_ this);
      bind_inv Ha; injection Ha as <- _; reflexivity. }
  destruct (buildPriOffset_spec (fes_ this)) as (tbl & Htbl & Hlen & _).
  { exact Hne. }
  assert (Hpo' : exists this', (this' ← match priOffset_ this with
             | Some _ => Ok this
             | None => p ← buildPriOffset (fes_ this);
                       Ok {| fes_ := fes_ this; nExposedDofs_ := nExposedDofs_ this;
                             nPrivateDofs_ := nPrivateDofs_ this;
                             expDoFsByElem_ := expDoFsByElem_ this;
                             priOffset_ := Some p |}
             end; Ok this') = Ok this' /\ priOffset_ this' = Some tbl).
  { unfold priOffset_ok in Hpo. destruct (priOffset_ this) as [p|] eqn:Hp.
    - exists this. split; [reflexivity|]. congruence.
    - rewrite Htbl. cbn. eexists. split; reflexivity. }
  destruct Hpo' as (this' & Hrun & Hp').
  bind_inv H.
  assert (a = this') as ->.
  { destruct (priOffset_ this); cbn in Hrun; [congruence|].
    rewrite Htbl in Ha0, Hrun. cbn in Ha0, Hrun. congruence. }
  rewrite Hp' in H. cbn [deref mbind result_bind] in H.
  bind_inv H. bind_inv H.
  apply aget_Ok in Ha1 as [Hr1 _]. apply aget_Ok in Ha2 as [_ Hr2].
  apply lookup_lt_Some in Hr2. unfold GetNElements in *. lia.
Qed.

(** X2: the four-argument GetElementDofs reads
    priOffset_[elem] and priOffset_[elem+1] from an array of NE + 1
    entries without a test: it returns only for 0 <= elem < NE. *)
Theorem GetElementDofsPri_returns_only_in_range (this : EPDoFs) (elem : Z)
    (old : list Z) (x : EPDoFs * list Z * Z * Z) :
  (0 <= GetNElements this)%Z -> priOffset_ok this ->
  GetElementDofsPri this elem old = Ok x ->
  (0 <= elem < GetNElements this)%Z.
Proof. apply GetElementDofsPri_bounds. Qed.

Lemma GetElementDofsPri_returns_only_in_range_witness :
  (0 <= 0 < GetNElements (EPDoFs_new fes_quad))%Z /\
  GetElementDofsPri (EPDoFs_new fes_quad) 1 [] = Fail OutOfBounds.
Proof.
  split; [|reflexivity].
  destruct (GetElementDofsPri (EPDoFs_new fes_quad) 0 []) as [x|f] eqn:Hx;
    [|vm_compute in Hx; discriminate].
  apply (GetElementDofsPri_returns_only_in_range (EPDoFs_new fes_quad) 0 [] x);
    [vm_compute; discriminate|exact I|exact Hx].
Defined.

(** ** The constructor of ParEPDoFs on well-formed partitions *)

Lemma sum_below_S f k : sum_below f (S k) = (sum_below f k + f k)%Z.
Proof. unfold sum_below. rewrite seq_S, fold_left_app. reflexivity. Qed.

Lemma part_at_lookup T k b : T !! k = Some b -> part_at T k = b.
Proof. unfold part_at. intros ->. reflexivity. Qed.

Lemma lookup_part_at T k : (k < length T)%nat -> T !! k = Some (part_at T k).
Proof.
  intros Hk. destruct (lookup_lt_is_Some_2 T k Hk) as [b Hb].
  rewrite (part_at_lookup _ _ _ Hb). exact Hb.
Qed.

(** What MPI_Allgather leaves in [ExposedPart_]. *)
Lemma gather_spec (np : nat) (a : nat -> Z) (E0 : list Z) :
  length E0 = S np ->
  exists E1,
    for_upto np (fun p E => aset E (Z.of_nat p + 1)%Z (a p)) E0 = Ok E1 /\
    length E1 = S np /\ E1 !! 0%nat = E0 !! 0%nat /\
    forall p, (p < np)%nat -> E1 !! S p = Some (a p).
Proof.
  intros Hl.
  destruct (for_upto_inv
    (fun m E => length E = S np /\ E !! 0%nat = E0 !! 0%nat /\
                forall p, (p < m)%nat -> E !! S p = Some (a p))
    np (fun p E => aset E (Z.of_nat p + 1)%Z (a p)) E0) as (E1 & Hrun & H1).
  - split; [exact Hl|]. split; [reflexivity|]. intros; lia.
  - intros m E Hm (HlE & H0 & Hp).
    eexists. split; [apply aset_Ok; split; [lia|reflexivity]|].
    replace (Z.to_nat (Z.of_nat m + 1)) with (S m) by lia.
    split; [rewrite length_insert; exact HlE|]. split.
    + rewrite list_lookup_insert_ne by lia. exact H0.
    + intros p Hpm. destruct (decide (p = m)) as [->|Hne].
      * rewrite list_lookup_insert_eq by lia. reflexivity.
      * rewrite list_lookup_insert_ne by lia. apply Hp. lia.
  - exists E1. split; [exact Hrun|]. exact H1.
Qed.

(** The running sums of [ExposedPart_]. *)
Lemma prefix_sums_spec (np : nat) (a : nat -> Z) (E1 : list Z) :
  length E1 = S np -> E1 !! 0%nat = Some 0%Z ->
  (forall p, (p < np)%nat -> E1 !! S p = Some (a p)) ->
  exists E2,
    for_loop (fun p E =>
                prev ← aget E (Z.of_nat p - 1)%Z;
                cur ← aget E (Z.of_nat p);
                aset E (Z.of_nat p) (cur + prev)%Z)
             (seq 1 np) E1 = Ok E2 /\
    length E2 = S np /\
    forall k, (k <= np)%nat -> E2 !! k = Some (sum_below a k).
Proof.
  intros Hl H0 Hp.
  destruct (for_loop_inv
    (fun c E => length E = S np /\
                (forall k, (k <= c)%nat -> (k <= np)%nat -> E !! k = Some (sum_below a k)) /\
                (forall k, (c < k <= np)%nat -> E !! k = Some (a (k - 1)%nat)))
    (fun p E =>
       prev ← aget E (Z.of_nat p - 1)%Z;
       cur ← aget E (Z.of_nat p);
       aset E (Z.of_nat p) (cur + prev)%Z)
    (seq 1 np) E1) as (E2 & Hrun & HlE & Hsum & _).
  - split; [exact Hl|]. split.
    + intros k Hk _. assert (k = 0%nat) as -> by lia. exact H0.
    + intros k Hk. replace k with (S (k - 1)) at 1 by lia. apply Hp. lia.
  - intros c i E Hi (HlE & Hsum & Hrest).
    apply lookup_seq in Hi as [-> Hc].
    replace (Z.of_nat (1 + c) - 1)%Z with (Z.of_nat c) by lia.
    rewrite (aget_lookup _ _ _ (Hsum c ltac:(lia) ltac:(lia))). cbn [mbind result_bind].
    rewrite (aget_lookup _ _ _ (Hrest (1 + c)%nat ltac:(lia))). cbn [mbind result_bind].
    eexists. split; [apply aset_Ok; split; [lia|reflexivity]|].
    rewrite Nat2Z.id. split; [rewrite length_insert; exact HlE|]. split.
    + intros k Hk Hkn. destruct (decide (k = 1 + c)%nat) as [->|Hne].
      * rewrite list_lookup_insert_eq by lia.
        change (1 + c)%nat with (S c). rewrite sum_below_S.
        replace (S c - 1)%nat with c by lia. f_equal. lia.
      * rewrite list_lookup_insert_ne by lia. apply Hsum; lia.
    + intros k Hk. rewrite list_lookup_insert_ne by lia. apply Hrest. lia.
  - rewrite length_seq in Hsum. exists E2. split; [exact Hrun|]. split; [exact HlE|].
    intros k Hk. apply Hsum; lia.
Qed.

Section Partitions.
Context {R : Type}.
Variable env : ParEnv R.

(** The private counts and the running sums of [TExposedPart_]. *)
Lemma private_counts_spec (np : nat) (E2 T0 : list Z) :
  length (DoFPart env) = S np -> length (TDoFPart env) = S np ->
  length E2 = S np ->
  (forall k, (k <= np)%nat -> E2 !! k = Some (sum_below (allExposed env) k)) ->
  length T0 = S np -> T0 !! 0%nat = Some 0%Z ->
  exists nPri T1,
    for_upto np
      (fun p '(nPri, T) =>
         let zp := Z.of_nat p in
         d1 ← aget (DoFPart env) (zp + 1)%Z;
         d0 ← aget (DoFPart env) zp;
         e1 ← aget E2 (zp + 1)%Z;
         e0 ← aget E2 zp;
         nPri' ← aset nPri zp ((d1 - d0) - (e1 - e0))%Z;
         t0 ← aget T zp;
         c1 ← aget (TDoFPart env) (zp + 1)%Z;
         c0 ← aget (TDoFPart env) zp;
         np' ← aget nPri' zp;
         T' ← aset T (zp + 1)%Z (t0 + (c1 - c0) - np')%Z;
         Ok (nPri', T'))
      (replicate np 0%Z, T0) = Ok (nPri, T1) /\
    length nPri = np /\
    (forall q, (q < np)%nat -> nPri !! q = Some (nPri_of env q)) /\
    length T1 = S np /\
    (forall k, (k <= np)%nat -> T1 !! k = Some (sum_below (true_exposed_of env) k)).
Proof.
  intros HlD HlT HlE HE HlT0 HT0.
  destruct (for_upto_inv
    (fun m (st : list Z * list Z) =>
       let '(nPri, T) := st in
       length nPri = np /\
       (forall q, (q < m)%nat -> nPri !! q = Some (nPri_of env q)) /\
       length T = S np /\
       (forall k, (k <= m)%nat -> T !! k = Some (sum_below (true_exposed_of env) k)))
    np
    (fun p '(nPri, T) =>
         let zp := Z.of_nat p in
         d1 ← aget (DoFPart env) (zp + 1)%Z;
         d0 ← aget (DoFPart env) zp;
         e1 ← aget E2 (zp + 1)%Z;
         e0 ← aget E2 zp;
         nPri' ← aset nPri zp ((d1 - d0) - (e1 - e0))%Z;
         t0 ← aget T zp;
         c1 ← aget (TDoFPart env) (zp + 1)%Z;
         c0 ← aget (TDoFPart env) zp;
         np' ← aget nPri' zp;
         T' ← aset T (zp + 1)%Z (t0 + (c1 - c0) - np')%Z;
         Ok (nPri', T'))
    (replicate np 0%Z, T0)) as ([nPri T1] & Hrun & Hfin).
  - split; [apply length_replicate|]. split; [intros; lia|]. split; [exact HlT0|].
    intros k Hk. assert (k = 0%nat) as -> by lia. exact HT0.
  - intros m [nPri T] Hm (HlP & HP & HlTm & HT). cbv zeta.
    replace (Z.of_nat m + 1)%Z with (Z.of_nat (S m)) by lia.
    rewrite (aget_lookup _ _ _ (lookup_part_at (DoFPart env) (S m) ltac:(lia))).
    cbn [mbind result_bind].
    rewrite (aget_lookup _ _ _ (lookup_part_at (DoFPart env) m ltac:(lia))).
    cbn [mbind result_bind].
    rewrite (aget_lookup _ _ _ (HE (S m) ltac:(lia))). cbn [mbind result_bind].
    rewrite (aget_lookup _ _ _ (HE m ltac:(lia))). cbn [mbind result_bind].
    assert (Hset : aset nPri (Z.of_nat m)
              (part_at (DoFPart env) (S m) - part_at (DoFPart env) m
               - (sum_below (allExposed env) (S m) - sum_below (allExposed env) m))%Z
            = Ok (<[m := nPri_of env m]> nPri)).
    { apply aset_Ok. split; [lia|]. rewrite Nat2Z.id. f_equal.
      unfold nPri_of. rewrite sum_below_S. lia. }
    rewrite Hset. cbn [mbind result_bind].
    rewrite (aget_lookup _ _ _ (HT m ltac:(lia))). cbn [mbind result_bind].
    rewrite (aget_lookup _ _ _ (lookup_part_at (TDoFPart env) (S m) ltac:(lia))).
    cbn [mbind result_bind].
    rewrite (aget_lookup _ _ _ (lookup_part_at (TDoFPart env) m ltac:(lia))).
    cbn [mbind result_bind].
    assert (Hget : <[m := nPri_of env m]> nPri !! m = Some (nPri_of env m))
      by (apply list_lookup_insert_eq; lia).
    rewrite (aget_lookup _ _ _ Hget). cbn [mbind result_bind].
    eexists (_, _). split.
    + assert (Hset2 : forall v, aset T (Z.of_nat (S m)) v = Ok (<[S m := v]> T)).
      { intros v. apply aset_Ok. split; [lia|]. rewrite Nat2Z.id. reflexivity. }
      rewrite Hset2. cbn [mbind result_bind]. reflexivity.
    + split; [rewrite length_insert; exact HlP|]. split.
      * intros q Hq. destruct (decide (q = m)) as [->|Hne]; [exact Hget|].
        rewrite list_lookup_insert_ne by lia. apply HP. lia.
      * split; [rewrite length_insert; exact HlTm|].
        intros k Hk. destruct (decide (k = S m)) as [->|Hne].
        -- rewrite list_lookup_insert_eq by lia. rewrite sum_below_S.
           unfold true_exposed_of. f_equal. lia.
        -- rewrite list_lookup_insert_ne by lia. apply HT. lia.
  - exists nPri, T1. split; [exact Hrun|]. exact Hfin.
Qed.

(** The scan stops at the first boundary above the column. *)
Lemma scan_rank_first (bounds : list Z) (c : Z) (r0 : nat) :
  (exists i b, bounds !! i = Some b /\ (c < b)%Z) ->
  exists r, scan_rank bounds c r0 = Ok (r0 + r)%nat /\
    (forall q b, (q < r)%nat -> bounds !! q = Some b -> (b <= c)%Z) /\
    (exists b, bounds !! r = Some b /\ (c < b)%Z).
Proof.
  revert r0. induction bounds as [|b bounds IH]; intros r0 (i & b' & Hi & Hlt).
  - discriminate.
  - cbn [scan_rank]. case_bool_decide as Hc.
    + destruct i as [|i]; [simpl in Hi; injection Hi as ->; lia|].
      destruct (IH (S r0)) as (r & Hr & Hbelow & Habove); [exists i, b'; auto|].
      exists (S r). split; [rewrite Hr; f_equal; lia|]. split.
      * intros q bq Hq Hbq. destruct q as [|q]; [simpl in Hbq; injection Hbq as <-; lia|].
        apply (Hbelow q bq); [lia|exact Hbq].
      * exact Habove.
    + exists 0%nat. split; [f_equal; lia|]. split; [intros; lia|].
      exists b. split; [reflexivity|lia].
Qed.

(** [for (p = 0; p < r; p++) J[j] -= nPri[p]]. *)
Lemma subtract_private (nPri : list Z) (f : nat -> Z) (j r : nat) (J : list Z) c :
  (forall q, (q < r)%nat -> nPri !! q = Some (f q)) ->
  J !! j = Some c ->
  for_upto r
    (fun p J0 =>
       n ← aget nPri (Z.of_nat p);
       cur ← aget J0 (Z.of_nat j);
       aset J0 (Z.of_nat j) (cur - n)%Z)
    J = Ok (<[j := (c - sum_below f r)%Z]> J).
Proof.
  intros HP Hj.
  destruct (for_upto_inv
    (fun m J0 => J0 = <[j := (c - sum_below f m)%Z]> J) r
    (fun p J0 =>
       n ← aget nPri (Z.of_nat p);
       cur ← aget J0 (Z.of_nat j);
       aset J0 (Z.of_nat j) (cur - n)%Z)
    J) as (J' & Hrun & ->); [| |exact Hrun].
  - change (sum_below f 0) with 0%Z. rewrite Z.sub_0_r.
    symmetry. apply list_insert_id. exact Hj.
  - intros m J0 Hm ->. pose proof (lookup_lt_Some _ _ _ Hj) as Hlt.
    rewrite (aget_lookup _ _ _ (HP m Hm)). cbn [mbind result_bind].
    assert (Hcur : <[j := (c - sum_below f m)%Z]> J !! j = Some (c - sum_below f m)%Z)
      by (apply list_lookup_insert_eq; exact Hlt).
    rewrite (aget_lookup _ _ _ Hcur). cbn [mbind result_bind].
    eexists. split.
    + apply aset_Ok. split; [rewrite length_insert; lia|reflexivity].
    + rewrite Nat2Z.id, list_insert_insert_eq, sum_below_S. f_equal. lia.
Qed.

Lemma first_above_unique T c r r' : first_above T c r -> first_above T c r' -> r = r'.
Proof.
  intros [Hb Ha] [Hb' Ha'].
  destruct (lt_eq_lt_dec r r') as [[Hlt|Heq]|Hgt]; [|exact Heq|].
  - specialize (Hb' r Hlt). lia.
  - specialize (Hb r' Hgt). lia.
Qed.

(** The loop over the nonzeros: each column index is moved down by the
    private dofs of the ranks below its own. *)
Lemma rewrite_columns_spec (np : nat) (nPri : list Z) (nnz : Z) (J : list Z) :
  (0 < np)%nat -> length (TDoFPart env) = S np ->
  (forall q, (q < np)%nat -> nPri !! q = Some (nPri_of env q)) ->
  (Z.to_nat nnz <= length J)%nat ->
  (forall (j : nat) c, (j < Z.to_nat nnz)%nat -> J !! j = Some c ->
     (c < part_at (TDoFPart env) np)%Z) ->
  exists J',
    rewrite_columns (TDoFPart env) nPri nnz J = Ok J' /\
    length J' = length J /\
    (forall (j : nat) c r, (j < Z.to_nat nnz)%nat -> J !! j = Some c ->
       first_above (TDoFPart env) c r ->
       J' !! j = Some (c - sum_below (nPri_of env) r)%Z) /\
    (forall j : nat, (Z.to_nat nnz <= j)%nat -> J' !! j = J !! j).
Proof.
  intros Hnp HlT HP Hnnz Hcols. unfold rewrite_columns.
  destruct (for_upto_inv
    (fun m J0 =>
       length J0 = length J /\
       (forall (j : nat) c r, (j < m)%nat -> J !! j = Some c ->
          first_above (TDoFPart env) c r ->
          J0 !! j = Some (c - sum_below (nPri_of env) r)%Z) /\
       (forall j : nat, (m <= j)%nat -> J0 !! j = J !! j))
    (Z.to_nat nnz) (rewrite_column (TDoFPart env) nPri) J) as (J' & Hrun & Hfin).
  - split; [reflexivity|]. split; [intros; lia|]. reflexivity.
  - intros m J0 Hm (Hl & Hdone & Hrest).
    destruct (lookup_lt_is_Some_2 J m ltac:(lia)) as [c Hc].
    assert (Hc0 : J0 !! m = Some c) by (rewrite Hrest by lia; exact Hc).
    pose proof (Hcols m c Hm Hc) as Hlast.
    destruct (scan_rank_first (drop 1 (TDoFPart env)) c 0) as (r & Hscan & Hbelow & Habove).
    { exists (np - 1)%nat, (part_at (TDoFPart env) np).
      rewrite lookup_drop. replace (1 + (np - 1))%nat with np by lia.
      split; [apply lookup_part_at; lia|exact Hlast]. }
    destruct Habove as (b & Hb & Hcb).
    assert (Hr : (r < np)%nat).
    { apply lookup_lt_Some in Hb. rewrite length_drop in Hb. lia. }
    assert (Hfirst : first_above (TDoFPart env) c r).
    { split.
      - intros q Hq. apply (Hbelow q); [exact Hq|].
        rewrite lookup_drop. apply lookup_part_at. lia.
      - rewrite lookup_drop in Hb. change (1 + r)%nat with (S r) in Hb.
        rewrite (part_at_lookup _ _ _ Hb). exact Hcb. }
    exists (<[m := (c - sum_below (nPri_of env) r)%Z]> J0). split.
    + unfold rewrite_column. rewrite (aget_lookup _ _ _ Hc0). cbn [mbind result_bind].
      rewrite Hscan. cbn [mbind result_bind Nat.add].
      apply subtract_private; [|exact Hc0]. intros q Hq. apply HP. lia.
    + split; [rewrite length_insert; exact Hl|]. split.
      * intros j c' r' Hj Hc' Hfirst'. destruct (decide (j = m)) as [->|Hne].
        -- assert (c' = c) as -> by congruence.
           rewrite (first_above_unique _ _ _ _ Hfirst' Hfirst).
           apply list_lookup_insert_eq. lia.
        -- rewrite list_lookup_insert_ne by lia. apply (Hdone j c' r'); [lia|assumption..].
      * intros j Hj. rewrite list_lookup_insert_ne by lia. apply Hrest. lia.
  - exists J'. split; [exact Hrun|]. exact Hfin.
Qed.
End Partitions.

Lemma ParEPDoFs_new_spec {R} (fes : FiniteElementSpace) (env : ParEnv R) :
  well_partitioned env ->
  let np := Z.to_nat (numProcs env) in
  let me := Z.to_nat (myRank env) in
  let nnz := Z.to_nat (hypre_CSRMatrixNumNonzeros (csr_P env)) in
  let J := hypre_CSRMatrixJ (csr_P env) in
  exists p,
    ParEPDoFs_new fes env = Ok p /\
    par_base p = EPDoFs_new fes /\
    ExposedPart_ p = map (sum_below (allExposed env)) (seq 0 (S np)) /\
    TExposedPart_ p = map (sum_below (true_exposed_of env)) (seq 0 (S np)) /\
    nParExposedDofs_ p = true_exposed_of env me /\
    hpm_local_rows (Pe_ p) = allExposed env me /\
    hpm_glob_rows (Pe_ p) = sum_below (allExposed env) np /\
    hpm_glob_cols (Pe_ p) = sum_below (true_exposed_of env) np /\
    hpm_rows (Pe_ p) = ExposedPart_ p /\ hpm_cols (Pe_ p) = TExposedPart_ p /\
    hpm_I (Pe_ p) = hypre_CSRMatrixI (csr_P env) /\
    hpm_data (Pe_ p) = hypre_CSRMatrixData (csr_P env) /\
    length (hpm_J (Pe_ p)) = length J /\
    (forall (j : nat) c r, (j < nnz)%nat -> J !! j = Some c ->
       first_above (TDoFPart env) c r ->
       hpm_J (Pe_ p) !! j = Some (c - sum_below (nPri_of env) r)%Z) /\
    (forall j : nat, (nnz <= j)%nat -> hpm_J (Pe_ p) !! j = J !! j).
Proof.
  intros (Hrank & HlD & HlT & Hnnz & Hcols) np me nnz J.
  fold np in HlD, HlT, Hcols. unfold ParEPDoFs_new. fold np.
  replace (Z.to_nat (numProcs env + 1)) with (S np) by lia.
  assert (Hfresh : aset (replicate (S np) 0%Z) 0%Z 0%Z = Ok (replicate (S np) 0%Z)).
  { apply aset_Ok. split; [rewrite length_replicate; lia|].
    symmetry. apply list_insert_id. reflexivity. }
  rewrite Hfresh. cbn [mbind result_bind].
  destruct (gather_spec np (allExposed env) (replicate (S np) 0%Z))
    as (E1 & HE1 & HlE1 & HE10 & HE1p); [apply length_replicate|].
  rewrite HE1. cbn [mbind result_bind].
  destruct (prefix_sums_spec np (allExposed env) E1 HlE1) as (E2 & HE2 & HlE2 & HE2k).
  { rewrite HE10. reflexivity. } { exact HE1p. }
  rewrite HE2. cbn [mbind result_bind].
  destruct (private_counts_spec env np E2 (replicate (S np) 0%Z) HlD HlT HlE2 HE2k)
    as (nPri & T1 & HT1 & HlP & HPq & HlT1 & HT1k);
    [apply length_replicate|reflexivity|].
  match goal with |- context [for_upto ?n ?b ?s] =>
    replace (for_upto n b s) with (Ok (A:=list Z * list Z) (nPri, T1))
      by (symmetry; exact HT1) end.
  cbn [mbind result_bind].
  assert (Hz : forall k : nat, Z.of_nat k = Z.of_nat k) by reflexivity.
  replace (myRank env + 1)%Z with (Z.of_nat (S me)) by lia.
  replace (myRank env) with (Z.of_nat me) by lia.
  replace (numProcs env) with (Z.of_nat np) by lia.
  rewrite (aget_lookup _ _ _ (HT1k (S me) ltac:(lia))). cbn [mbind result_bind].
  rewrite (aget_lookup _ _ _ (HT1k me ltac:(lia))). cbn [mbind result_bind].
  destruct (rewrite_columns_spec env np nPri (hypre_CSRMatrixNumNonzeros (csr_P env)) J)
    as (J' & HJ' & HlJ' & HJ'c & HJ'r); [lia|exact HlT|exact HPq|exact Hnnz|exact Hcols|].
  fold J. rewrite HJ'. cbn [mbind result_bind].
  rewrite (aget_lookup _ _ _ (HE2k (S me) ltac:(lia))). cbn [mbind result_bind].
  rewrite (aget_lookup _ _ _ (HE2k me ltac:(lia))). cbn [mbind result_bind].
  rewrite (aget_lookup _ _ _ (HE2k np ltac:(lia))). cbn [mbind result_bind].
  rewrite (aget_lookup _ _ _ (HT1k np ltac:(lia))). cbn [mbind result_bind].
  assert (HE2eq : E2 = map (sum_below (allExposed env)) (seq 0 (S np))).
  { apply list_eq. intros k. destruct (decide (k <= np)%nat) as [Hk|Hk].
    - rewrite HE2k by exact Hk. rewrite list_lookup_fmap, lookup_seq_lt by lia. reflexivity.
    - rewrite !lookup_ge_None_2; [reflexivity| |lia].
      rewrite length_map, length_seq. lia. }
  assert (HT1eq : T1 = map (sum_below (true_exposed_of env)) (seq 0 (S np))).
  { apply list_eq. intros k. destruct (decide (k <= np)%nat) as [Hk|Hk].
    - rewrite HT1k by exact Hk. rewrite list_lookup_fmap, lookup_seq_lt by lia. reflexivity.
    - rewrite !lookup_ge_None_2; [reflexivity| |lia].
      rewrite length_map, length_seq. lia. }
  eexists. split; [reflexivity|].
  cbn [par_base ExposedPart_ TExposedPart_ nParExposedDofs_ Pe_ hpm_local_rows
       hpm_glob_rows hpm_glob_cols hpm_rows hpm_cols hpm_I hpm_data hpm_J].
  split; [reflexivity|]. split; [exact HE2eq|]. split; [exact HT1eq|].
  split; [rewrite sum_below_S; lia|]. split; [rewrite sum_below_S; lia|].
  split; [reflexivity|]. split; [reflexivity|]. split; [reflexivity|].
  split; [reflexivity|]. split; [reflexivity|]. split; [reflexivity|].
  split; [exact HlJ'|]. split; [exact HJ'c|exact HJ'r].
Qed.

(** X3: on well-formed partitions the constructor of
    ParEPDoFs returns.  ExposedPart_ holds the running sums of the
    ranks' exposed counts and TExposedPart_ those of their true exposed
    counts (true dofs less private dofs); nParExposedDofs_ is the true
    exposed count of this rank; Pe is given the local and global sizes
    that go with the two partitions, and the arrays of the merged
    matrix in which each column index has been moved down by the
    private dofs of the ranks below the first rank whose upper boundary
    is above it. *)
Theorem ParEPDoFs_new_compacts_columns {R} (fes : FiniteElementSpace)
    (env : ParEnv R) :
  well_partitioned env ->
  let np := Z.to_nat (numProcs env) in
  let me := Z.to_nat (myRank env) in
  let nnz := Z.to_nat (hypre_CSRMatrixNumNonzeros (csr_P env)) in
  let J := hypre_CSRMatrixJ (csr_P env) in
  exists p,
    ParEPDoFs_new fes env = Ok p /\
    par_base p = EPDoFs_new fes /\
    ExposedPart_ p = map (sum_below (allExposed env)) (seq 0 (S np)) /\
    TExposedPart_ p = map (sum_below (true_exposed_of env)) (seq 0 (S np)) /\
    nParExposedDofs_ p = true_exposed_of env me /\
    hpm_local_rows (Pe_ p) = allExposed env me /\
    hpm_glob_rows (Pe_ p) = sum_below (allExposed env) np /\
    hpm_glob_cols (Pe_ p) = sum_below (true_exposed_of env) np /\
    hpm_rows (Pe_ p) = ExposedPart_ p /\ hpm_cols (Pe_ p) = TExposedPart_ p /\
    hpm_I (Pe_ p) = hypre_CSRMatrixI (csr_P env) /\
    hpm_data (Pe_ p) = hypre_CSRMatrixData (csr_P env) /\
    length (hpm_J (Pe_ p)) = length J /\
    (forall (j : nat) c r, (j < nnz)%nat -> J !! j = Some c ->
       first_above (TDoFPart env) c r ->
       hpm_J (Pe_ p) !! j = Some (c - sum_below (nPri_of env) r)%Z) /\
    (forall j : nat, (nnz <= j)%nat -> hpm_J (Pe_ p) !! j = J !! j).
Proof. apply ParEPDoFs_new_spec. Qed.

Lemma well_partitioned_two_ranks : well_partitioned env_two_ranks.
Proof.
  split; [simpl; lia|]. split; [reflexivity|]. split; [reflexivity|].
  split; [simpl; lia|].
  intros j c Hj Hc. change (part_at (TDoFPart env_two_ranks) _) with 6%Z.
  destruct j as [|[|[|j]]]; simpl in Hc; try (injection Hc as <-; lia).
  simpl in Hj. lia.
Qed.

Lemma ParEPDoFs_new_compacts_columns_witness :
  exists p,
    ParEPDoFs_new fes_empty env_two_ranks = Ok p /\
    ExposedPart_ p = [0; 2; 4]%Z /\ TExposedPart_ p = [0; 2; 3]%Z /\
    nParExposedDofs_ p = 1%Z /\ hpm_J (Pe_ p) = [1; 2; 4]%Z.
Proof.
  destruct (ParEPDoFs_new_compacts_columns fes_empty env_two_ranks
              well_partitioned_two_ranks)
    as (p & Hp & _ & HE & HT & Hn & _).
  exists p. split; [exact Hp|]. split; [rewrite HE; reflexivity|].
  split; [rewrite HT; reflexivity|]. split; [rewrite Hn; reflexivity|].
  vm_compute in Hp. injection Hp as <-. reflexivity.
Defined.

(** ** operator-= of EPField *)

(** A loop that returns has run each of its steps. *)
Lemma for_upto_steps {St} (body : nat -> St -> result St) n s s' :
  for_upto n body s = Ok s' ->
  forall i, (i < n)%nat -> exists s0 s1, body i s0 = Ok s1.
Proof.
  revert s'. induction n as [|n IH]; intros s' Hrun i Hi; [lia|].
  rewrite for_upto_S in Hrun.
  destruct (for_upto n body s) as [s1|] eqn:Hs1; [simpl in Hrun|discriminate].
  destruct (decide (i = n)) as [->|Hne]; [eauto|].
  apply (IH s1 eq_refl). lia.
Qed.

Lemma insert_take_drop {A} (Rl El : list A) (m : nat) (x : A) :
  length Rl = length El -> Rl !! m = Some x ->
  <[m := x]> (take m Rl ++ drop m El) = take (S m) Rl ++ drop (S m) El.
Proof.
  intros Hl Hm. pose proof (lookup_lt_Some _ _ _ Hm) as Hlt.
  rewrite insert_app_r_alt by (rewrite length_take; lia).
  rewrite length_take, Nat.min_l, Nat.sub_diag by lia.
  destruct (lookup_lt_is_Some_2 El m ltac:(lia)) as [y Hy].
  rewrite (drop_S El y m Hy). cbn [list_insert].
  rewrite (take_S_r Rl m x Hm), <- app_assoc. reflexivity.
Qed.

Section Subtraction.
Context {R : Type} `{!Scalar R}.

Lemma length_sub_rows E vE : length (sub_rows E vE) = length E.
Proof. unfold sub_rows. apply length_imap. Qed.

Lemma lookup_sub_rows E vE i Ei :
  E !! i = Some Ei ->
  sub_rows E vE !! i =
    Some (imap (fun k a => (a - vnth (default [] (vE !! i)) k)%S) Ei).
Proof. intros H. unfold sub_rows. rewrite list_lookup_imap, H. reflexivity. Qed.

Lemma EPField_sub_rows (this v : EPField R) E P vE vP :
  ExposedDoFs_ this = Some E -> PrivateDoFs_ this = Some P ->
  length E = numFields_ this -> length P = numFields_ this ->
  (numFields_ this <= numFields_ v)%nat ->
  ExposedDoFs_ v = Some vE -> PrivateDoFs_ v = Some vP ->
  covers E vE -> covers P vP ->
  EPField_sub this v =
    Ok {| numFields_ := numFields_ this; epdofs_ := epdofs_ this;
          ExposedDoFs_ := Some (sub_rows E vE);
          PrivateDoFs_ := Some (sub_rows P vP) |}.
Proof.
  intros HE HP HlE HlP Hn HvE HvP HcE HcP. unfold EPField_sub.
  destruct (for_upto_inv
    (fun m st =>
       st = {| numFields_ := numFields_ this; epdofs_ := epdofs_ this;
               ExposedDoFs_ := Some (take m (sub_rows E vE) ++ drop m E);
               PrivateDoFs_ := Some (take m (sub_rows P vP) ++ drop m P) |})
    (numFields_ this)
    (fun i this0 =>
       E ← deref (ExposedDoFs_ this0);
       Ei ← aget E (Z.of_nat i);
       vE ← deref (ExposedDoFs_const v i);
       Ei ← Vector_sub Ei vE;
       let this1 := set_Exposed this0 i Ei in
       P ← deref (PrivateDoFs_ this1);
       Pi ← aget P (Z.of_nat i);
       vP ← deref (PrivateDoFs_const v i);
       Pi ← Vector_sub Pi vP;
       Ok (set_Private this1 i Pi))
    this) as (st & Hrun & ->).
  - cbn [take drop app]. rewrite !drop_0. destruct this; simpl in *. congruence.
  - intros m st Hm ->. cbn [ExposedDoFs_ deref mbind result_bind].
    destruct (lookup_lt_is_Some_2 E m ltac:(lia)) as [Ei HEi].
    destruct (lookup_lt_is_Some_2 P m ltac:(lia)) as [Pi HPi].
    destruct (HcE m Ei HEi) as (vEi & HvEi & HlvE).
    destruct (HcP m Pi HPi) as (vPi & HvPi & HlvP).
    assert (HgE : (take m (sub_rows E vE) ++ drop m E) !! m = Some Ei).
    { rewrite lookup_app_r by (rewrite length_take, length_sub_rows; lia).
      rewrite length_take, length_sub_rows, Nat.min_l, Nat.sub_diag by lia.
      rewrite lookup_drop, Nat.add_0_r. exact HEi. }
    rewrite (aget_lookup _ _ _ HgE). cbn [mbind result_bind].
    unfold ExposedDoFs_const. rewrite bool_decide_false by lia. rewrite HvE, HvEi.
    cbn [deref mbind result_bind].
    assert (HsE : Vector_sub Ei vEi = Ok (imap (fun k a => (a - vnth vEi k)%S) Ei))
      by (unfold Vector_sub; rewrite bool_decide_true by exact HlvE; reflexivity).
    rewrite HsE. cbn [mbind result_bind].
    cbn [set_Exposed PrivateDoFs_ ExposedDoFs_ numFields_ epdofs_ fmap option_fmap option_map
         deref mbind result_bind].
    assert (HgP : (take m (sub_rows P vP) ++ drop m P) !! m = Some Pi).
    { rewrite lookup_app_r by (rewrite length_take, length_sub_rows; lia).
      rewrite length_take, length_sub_rows, Nat.min_l, Nat.sub_diag by lia.
      rewrite lookup_drop, Nat.add_0_r. exact HPi. }
    rewrite (aget_lookup _ _ _ HgP). cbn [mbind result_bind].
    unfold PrivateDoFs_const. rewrite bool_decide_false by lia. rewrite HvP, HvPi.
    cbn [deref mbind result_bind].
    assert (HsP : Vector_sub Pi vPi = Ok (imap (fun k a => (a - vnth vPi k)%S) Pi))
      by (unfold Vector_sub; rewrite bool_decide_true by exact HlvP; reflexivity).
    rewrite HsP. cbn [mbind result_bind].
    eexists. split; [reflexivity|].
    unfold set_Private, set_Exposed.
    cbn [PrivateDoFs_ ExposedDoFs_ numFields_ epdofs_ fmap option_fmap option_map].
    f_equal; f_equal.
    + apply insert_take_drop; [apply length_sub_rows|].
      rewrite (lookup_sub_rows _ _ _ _ HEi), HvEi. reflexivity.
    + apply insert_take_drop; [apply length_sub_rows|].
      rewrite (lookup_sub_rows _ _ _ _ HPi), HvPi. reflexivity.
  - etrans; [exact Hrun|]. f_equal. f_equal; f_equal.
    + rewrite <- HlE, <- (length_sub_rows E vE), firstn_all, drop_ge, app_nil_r
        by (rewrite length_sub_rows; lia). reflexivity.
    + rewrite <- HlP, <- (length_sub_rows P vP), firstn_all, drop_ge, app_nil_r
        by (rewrite length_sub_rows; lia). reflexivity.
Qed.

Lemma EPField_sub_fewer_fields (this v r : EPField R) :
  (numFields_ v < numFields_ this)%nat -> EPField_sub this v <> Ok r.
Proof.
  intros Hn Hrun. unfold EPField_sub in Hrun.
  destruct (for_upto_steps _ _ _ _ Hrun (numFields_ v) Hn) as (s0 & s1 & Hstep).
  bind_inv Hstep. bind_inv Hstep. bind_inv Hstep.
  unfold ExposedDoFs_const in Ha1. rewrite bool_decide_true in Ha1 by lia.
  discriminate.
Qed.

End Subtraction.

(** X4: when [v] has a vector at least as long for every vector
    of [this], operator-= returns [this] with every entry of every
    exposed and private vector less the entry of [v] at the same
    place; the number of fields and the dof object stay. *)
Theorem EPField_sub_entrywise {R : Type} `{!Scalar R} (this v : EPField R)
    (E P vE vP : list (list R)) :
  ExposedDoFs_ this = Some E -> PrivateDoFs_ this = Some P ->
  length E = numFields_ this -> length P = numFields_ this ->
  (numFields_ this <= numFields_ v)%nat ->
  ExposedDoFs_ v = Some vE -> PrivateDoFs_ v = Some vP ->
  covers E vE -> covers P vP ->
  EPField_sub this v =
    Ok {| numFields_ := numFields_ this; epdofs_ := epdofs_ this;
          ExposedDoFs_ := Some (sub_rows E vE);
          PrivateDoFs_ := Some (sub_rows P vP) |}.
Proof. apply EPField_sub_rows. Qed.

Lemma covers_refl {R} (E : list (list R)) : covers E E.
Proof. intros i Ei Hi. exists Ei. split; [exact Hi|lia]. Qed.

Lemma EPField_sub_entrywise_witness :
  EPField_sub field_quad field_quad =
    Ok {| numFields_ := 1; epdofs_ := EPDoFs_new fes_quad;
          ExposedDoFs_ := Some [[0; 0; 0; 0]%Z];
          PrivateDoFs_ := Some [[0%Z]] |}.
Proof.
  etrans.
  - apply (EPField_sub_entrywise field_quad field_quad [[1; 2; 3; 4]%Z] [[5%Z]]
             [[1; 2; 3; 4]%Z] [[5%Z]] eq_refl eq_refl eq_refl eq_refl (le_n 1)
             eq_refl eq_refl (covers_refl _) (covers_refl _)).
  - vm_compute. reflexivity.
Defined.

(** X5: operator-= does not compare the numbers of fields
    (the assertion is commented out): when [v] has fewer fields than
    [this], the accessor of [v] returns NULL for the first field that
    [v] lacks and the subtraction dereferences it; the call does not
    return. *)
Theorem EPField_sub_needs_as_many_fields {R : Type} `{!Scalar R}
    (this v r : EPField R) :
  (numFields_ v < numFields_ this)%nat -> EPField_sub this v <> Ok r.
Proof. apply EPField_sub_fewer_fields. Qed.

Lemma EPField_sub_needs_as_many_fields_witness :
  EPField_sub field_quad (EPField_new (EPDoFs_new fes_quad)) <> Ok field_quad /\
  EPField_sub field_quad (EPField_new (EPDoFs_new fes_quad)) = Fail NullDereference.
Proof.
  split; [|reflexivity].
  apply (EPField_sub_needs_as_many_fields field_quad (EPField_new (EPDoFs_new fes_quad))
           field_quad).
  simpl. lia.
Defined.

(** ** initFromInterleavedVector on ids without sign tags *)

(** The loop over the private dofs of one element writes the range of
    the element and nothing else. *)
Lemma copyPrivate_spec {R} (x : list R) (priDoFs : list Z) (off np : nat) (xP : list R) :
  (np <= length priDoFs)%nat ->
  (off + np <= length xP)%nat ->
  Forall (fun q => (0 <= q < Z.of_nat (length x))%Z) priDoFs ->
  exists xP', copyPrivate x priDoFs (Z.of_nat off) (Z.of_nat np) xP = Ok xP' /\
    length xP' = length xP /\
    (forall j q, (j < np)%nat -> priDoFs !! j = Some q ->
       xP' !! (off + j)%nat = x !! Z.to_nat q) /\
    (forall p, (p < off \/ off + np <= p)%nat -> xP' !! p = xP !! p).
Proof.
  intros Hlen Hfit Hall. unfold copyPrivate. rewrite Nat2Z.id.
  destruct (for_upto_inv
    (fun m xP0 =>
       length xP0 = length xP /\
       (forall j q, (j < m)%nat -> priDoFs !! j = Some q ->
          xP0 !! (off + j)%nat = x !! Z.to_nat q) /\
       (forall p, (p < off \/ off + m <= p)%nat -> xP0 !! p = xP !! p))
    np
    (fun j xP0 =>
       p ← aget priDoFs (Z.of_nat j);
       v ← aget x p;
       aset xP0 (Z.of_nat off + Z.of_nat j)%Z v)
    xP) as (xP' & Hrun & Hl & Hset & Hkeep).
  - split; [reflexivity|]. split; [intros; lia|]. reflexivity.
  - intros m xP0 Hm (Hl0 & Hset0 & Hkeep0).
    destruct (lookup_lt_is_Some_2 priDoFs m ltac:(lia)) as [q Hq].
    pose proof (proj1 (Forall_lookup _ _) Hall m q Hq) as Hqr. cbv beta in Hqr.
    rewrite (aget_lookup _ _ _ Hq). cbn [mbind result_bind].
    destruct (lookup_lt_is_Some_2 x (Z.to_nat q) ltac:(lia)) as [v Hv].
    assert (Hget : aget x q = Ok v).
    { replace q with (Z.of_nat (Z.to_nat q)) at 1 by lia. apply aget_lookup. exact Hv. }
    rewrite Hget. cbn [mbind result_bind].
    eexists. split; [apply aset_Ok; split; [lia|reflexivity]|].
    replace (Z.to_nat (Z.of_nat off + Z.of_nat m)) with (off + m)%nat by lia.
    split; [rewrite length_insert; exact Hl0|]. split.
    + intros j q' Hj Hq'. destruct (decide (j = m)) as [->|Hne].
      * assert (q' = q) as -> by congruence.
        rewrite list_lookup_insert_eq by lia. symmetry. exact Hv.
      * rewrite list_lookup_insert_ne by lia. apply Hset0; [lia|exact Hq'].
    + intros p Hp. rewrite list_lookup_insert_ne by lia. apply Hkeep0. lia.
  - exists xP'. auto.
Qed.

(** The last place at which a value occurs in a list. *)
Lemma last_occurrence (l : list Z) (j : nat) (g : Z) :
  l !! j = Some g ->
  exists j', l !! j' = Some g /\ forall j'', (j' < j'')%nat -> l !! j'' <> Some g.
Proof.
  revert j. induction l as [|a l IH] using rev_ind; intros j Hj; [discriminate|].
  destruct (decide (a = g)) as [->|Hne].
  - exists (length l). split.
    + rewrite lookup_app_r by lia. rewrite Nat.sub_diag. reflexivity.
    + intros j'' Hj'' H. apply lookup_lt_Some in H. rewrite length_app in H. simpl in H. lia.
  - assert (Hjl : l !! j = Some g).
    { destruct (decide (j < length l)%nat) as [Hlt|Hge].
      - rewrite lookup_app_l in Hj by exact Hlt. exact Hj.
      - rewrite lookup_app_r in Hj by lia.
        destruct (j - length l)%nat; simpl in Hj; [congruence|discriminate]. }
    destruct (IH j Hjl) as (j' & Hj' & Hlast). exists j'. split.
    + rewrite lookup_app_l by (apply lookup_lt_Some in Hj'; exact Hj'). exact Hj'.
    + intros j'' Hj'' H. destruct (decide (j'' < length l)%nat) as [Hlt|Hge].
      * rewrite lookup_app_l in H by exact Hlt. exact (Hlast j'' Hj'' H).
      * rewrite lookup_app_r in H by lia.
        destruct (j'' - length l)%nat; simpl in H; [congruence|discriminate].
Qed.

Lemma offset_of_le fes (n : nat) :
  (forall e : nat, (e < n)%nat -> (0 <= interiorDofs fes (Z.of_nat e))%Z) ->
  forall a b, (a <= b <= n)%nat -> (offset_of fes a <= offset_of fes b)%Z.
Proof.
  intros Hnn. apply mono_le. intros k Hk. rewrite offset_of_S. specialize (Hnn k Hk). lia.
Qed.

Section Scatter.
Context {R : Type}.
Variable d : EPDoFs.
Variable ids : nat -> list Z.
Variable x : list R.
Variable sigma : Z -> Z.

Lemma split_step (m : nat) (st : EPDoFs * list Z * list R * list R) :
  ids_known d ids -> splittable d ids x sigma ->
  nPrivateDofs_ d = countPrivate (fes_ d) ->
  (m < Z.to_nat (GetNElements d))%nat ->
  split_upto d ids x sigma m st ->
  exists st',
    (let '(epdofs, expDoFs, xE, xP) := st in
     '(epdofs, expDoFs, priOffset, nPri) ←
        GetElementDofsPri epdofs (Z.of_nat m) expDoFs;
     xE ← copyExposed x (fes_GetElementDofs (fes_ d) (Z.of_nat m)) expDoFs xE;
     xP ← copyPrivate x (GetElementInteriorDofs (fes_ d) (Z.of_nat m)) priOffset nPri xP;
     Ok (epdofs, expDoFs, xE, xP)) = Ok st' /\
    split_upto d ids x sigma (S m) st'.
Proof.
  intros Hids Hsp HnP Hm. destruct st as [[[d' old] xE] xP].
  intros (Hs & Hpo & HlE & HlP & HE & HP).
  assert (Hids' : ids_known d' ids) by (apply (ids_known_same_space d d'); assumption).
  assert (Hm' : (Z.of_nat m < GetNElements d')%Z)
    by (rewrite (GetNElements_same_space _ _ Hs); lia).
  assert (Hfes : fes_ d' = fes_ d) by (destruct Hs as (? & _); assumption).
  destruct (GetElementDofsPri_returns d' m old ids Hids' Hpo Hm') as [d'' Hget].
  pose proof Hget as Hinv.
  apply GetElementDofsPri_inv with (ids := ids) in Hinv
    as (_ & _ & _ & Hs' & Hpo' & _); [|exact Hids'|exact Hpo|exact Hm'].
  rewrite Hget. cbn [mbind result_bind]. rewrite Hfes.
  destruct (Hsp m ltac:(lia)) as (Hlen & Hall & Hexp & Hsig & Hnn & Hlp & Hpri).
  cbv zeta in *.
  destruct (copyExposed_nonneg x (fes_GetElementDofs (fes_ d) (Z.of_nat m)) (ids m) xE)
    as (xE' & HcE & HlE' & HsetE & HkeepE).
  { exact Hlen. } { exact Hall. }
  { eapply Forall_impl; [|exact Hexp]. cbv beta. intros g Hg. lia. }
  rewrite HcE. cbn [mbind result_bind].
  assert (Hoff : (0 <= offset_of (fes_ d) m)%Z /\
                 (offset_of (fes_ d) (S m) <= GetNPrivateDofs d)%Z).
  { assert (Hmono : forall e : nat, (e < Z.to_nat (GetNElements d))%nat ->
                      (0 <= interiorDofs (fes_ d) (Z.of_nat e))%Z).
    { intros e He. destruct (Hsp e ltac:(lia)) as (_ & _ & _ & _ & H & _). exact H. }
    split.
    - change 0%Z with (offset_of (fes_ d) 0).
      apply (offset_of_le _ _ Hmono). lia.
    - unfold GetNPrivateDofs. rewrite HnP, countPrivate_offset.
      apply (offset_of_le _ _ Hmono). unfold GetNElements in *. lia. }
  destruct Hoff as [Hoff0 Hoff1]. rewrite offset_of_S in Hoff1.
  destruct (copyPrivate_spec x (GetElementInteriorDofs (fes_ d) (Z.of_nat m))
              (Z.to_nat (offset_of (fes_ d) m))
              (Z.to_nat (interiorDofs (fes_ d) (Z.of_nat m))) xP)
    as (xP' & HcP & HlP' & HsetP & HkeepP).
  { exact Hlp. } { lia. } { exact Hpri. }
  rewrite !Z2Nat.id in HcP by lia.
  rewrite HcP. cbn [mbind result_bind].
  eexists. split; [reflexivity|].
  split; [exact (same_space_trans _ _ _ Hs Hs')|]. split; [exact Hpo'|].
  split; [lia|]. split; [lia|]. split.
  - intros e j g He Hg.
    assert (Hgr : (0 <= g)%Z).
    { destruct (Hsp e ltac:(lia)) as (_ & _ & Hexp' & _).
      pose proof (proj1 (Forall_lookup _ _) Hexp' j g Hg) as Hr. cbv beta in Hr. lia. }
    destruct (decide (g ∈ ids m)) as [[j' Hj']%list_elem_of_lookup|Hno'].
    + destruct (last_occurrence _ _ _ Hj') as (jl & Hjl & Hlast).
      destruct (lookup_lt_is_Some_2 (fes_GetElementDofs (fes_ d) (Z.of_nat m)) jl) as [a Ha].
      { apply lookup_lt_Some in Hjl. lia. }
      rewrite (HsetE jl a g Ha Hjl Hlast). rewrite (Hsig jl a g Ha Hjl). reflexivity.
    + assert (Hno : ~ exists j', ids m !! j' = Some g).
      { intros [j' Hj']. apply Hno'. apply list_elem_of_lookup. eauto. }
      rewrite HkeepE.
      * destruct (decide (e = m)) as [->|Hne]; [exfalso; apply Hno; eauto|].
        apply (HE e j g); [lia|exact Hg].
      * intros j' Hj'. apply Hno. exists j'. rewrite Hj'. f_equal. lia.
  - intros e j q He Hj Hq. destruct (decide (e = m)) as [->|Hne].
    + apply HsetP; assumption.
    + rewrite HkeepP.
      * apply (HP e j q); [lia|exact Hj|exact Hq].
      * left.
        assert (Hmono : forall e : nat, (e < Z.to_nat (GetNElements d))%nat ->
                          (0 <= interiorDofs (fes_ d) (Z.of_nat e))%Z).
        { intros e' He'. destruct (Hsp e' ltac:(lia)) as (_ & _ & _ & _ & H & _). exact H. }
        pose proof (offset_of_le _ _ Hmono (S e) m ltac:(lia)) as Hle.
        pose proof (offset_of_le _ _ Hmono 0%nat e ltac:(lia)) as Hge.
        change (offset_of (fes_ d) 0) with 0%Z in Hge.
        rewrite offset_of_S in Hle. lia.
Qed.

End Scatter.

Lemma initFromInterleavedVector_split {R} (this : EPField R) (x : list R)
    (ids : nat -> list Z) (sigma : Z -> Z) (junkE junkP : nat -> nat -> R) :
  let d := epdofs_ this in
  ids_known d ids -> priOffset_ok d -> splittable d ids x sigma ->
  nPrivateDofs_ d = countPrivate (fes_ d) ->
  exists f xE xP,
    initFromInterleavedVector this x junkE junkP = Ok f /\
    numFields_ f = 1%nat /\
    ExposedDoFs_ f = Some [xE] /\ PrivateDoFs_ f = Some [xP] /\
    length xE = Z.to_nat (GetNExposedDofs d) /\
    length xP = Z.to_nat (GetNPrivateDofs d) /\
    (forall (e j : nat) g, (Z.of_nat e < GetNElements d)%Z -> ids e !! j = Some g ->
       xE !! Z.to_nat g = x !! Z.to_nat (sigma g)) /\
    (forall (e j : nat) q, (Z.of_nat e < GetNElements d)%Z ->
       (Z.of_nat j < interiorDofs (fes_ d) (Z.of_nat e))%Z ->
       GetElementInteriorDofs (fes_ d) (Z.of_nat e) !! j = Some q ->
       xP !! (Z.to_nat (offset_of (fes_ d) e) + j)%nat = x !! Z.to_nat q).
Proof.
  intros d Hids Hpo Hsp HnP. unfold initFromInterleavedVector.
  cbn [EPField_initVectors ExposedDoFs_ PrivateDoFs_ epdofs_ numFields_ deref
       mbind result_bind seq map].
  change (aget [Vector_new (GetNExposedDofs (epdofs_ this)) (junkE 0%nat)] 0%Z)
    with (Ok (A:=list R) (Vector_new (GetNExposedDofs d) (junkE 0%nat))).
  change (aget [Vector_new (GetNPrivateDofs (epdofs_ this)) (junkP 0%nat)] 0%Z)
    with (Ok (A:=list R) (Vector_new (GetNPrivateDofs d) (junkP 0%nat))).
  cbn [mbind result_bind]. fold d.
  match goal with |- context [for_upto ?n ?body ?s] =>
    destruct (for_upto_inv (split_upto d ids x sigma) n body s)
      as ([[[d' l] xE] xP] & Hrun & Hfin)
  end.
  - split; [apply same_space_refl|]. split; [exact Hpo|].
    unfold Vector_new. rewrite !length_map, !length_seq. split; [reflexivity|].
    split; [reflexivity|]. split; intros; lia.
  - intros m st Hm Hup. unfold GetNElements in *.
    destruct st as [[[d0 l0] xE0] xP0].
    apply (split_step d ids x sigma m (d0, l0, xE0, xP0) Hids Hsp HnP Hm Hup).
  - rewrite Hrun. cbn [mbind result_bind].
    destruct Hfin as (_ & _ & HlE & HlP & HE & HP).
    exists {| numFields_ := 1; epdofs_ := d'; ExposedDoFs_ := Some [xE];
              PrivateDoFs_ := Some [xP] |}, xE, xP.
    split; [reflexivity|]. split; [reflexivity|]. split; [reflexivity|].
    split; [reflexivity|]. split; [exact HlE|]. split; [exact HlP|].
    unfold GetNElements in *. split.
    + intros e j g He. apply HE. lia.
    + intros e j q He Hj. apply HP; lia.
Qed.

(** X6: on a space whose element ids carry no sign tag and name
    the same dofs in the space and in the partition,
    initFromInterleavedVector returns one field whose exposed vector
    has nExposed entries and holds, at each exposed id of each element,
    the entry of x with the interleaved id of that dof, and whose
    private vector has nPrivate entries and holds, in the range of each
    element, the entries of x at the element's interior dofs, in
    order. *)
Theorem initFromInterleavedVector_splits_plain_ids {R} (this : EPField R)
    (x : list R) (ids : nat -> list Z) (sigma : Z -> Z)
    (junkE junkP : nat -> nat -> R) :
  let d := epdofs_ this in
  ids_known d ids -> priOffset_ok d -> splittable d ids x sigma ->
  nPrivateDofs_ d = countPrivate (fes_ d) ->
  exists f xE xP,
    initFromInterleavedVector this x junkE junkP = Ok f /\
    numFields_ f = 1%nat /\
    ExposedDoFs_ f = Some [xE] /\ PrivateDoFs_ f = Some [xP] /\
    length xE = Z.to_nat (GetNExposedDofs d) /\
    length xP = Z.to_nat (GetNPrivateDofs d) /\
    (forall (e j : nat) g, (Z.of_nat e < GetNElements d)%Z -> ids e !! j = Some g ->
       xE !! Z.to_nat g = x !! Z.to_nat (sigma g)) /\
    (forall (e j : nat) q, (Z.of_nat e < GetNElements d)%Z ->
       (Z.of_nat j < interiorDofs (fes_ d) (Z.of_nat e))%Z ->
       GetElementInteriorDofs (fes_ d) (Z.of_nat e) !! j = Some q ->
       xP !! (Z.to_nat (offset_of (fes_ d) e) + j)%nat = x !! Z.to_nat q).
Proof. apply initFromInterleavedVector_split. Qed.

Lemma splittable_quad :
  splittable (EPDoFs_new fes_quad) (fun _ => [0; 1; 2; 3]%Z) [10; 20; 30; 40; 50]%Z
    (fun g => g).
Proof.
  intros e He. change (GetNElements (EPDoFs_new fes_quad)) with 1%Z in He.
  assert (e = 0%nat) as -> by lia. cbv zeta.
  split; [simpl; lia|].
  split; [repeat constructor; simpl; lia|].
  split; [repeat constructor; vm_compute; congruence|].
  split.
  - intros j a g Ha Hg. cbv beta.
    change (fes_GetElementDofs (fes_ (EPDoFs_new fes_quad)) (Z.of_nat 0))
      with [0; 1; 2; 3; 4]%Z in Ha.
    destruct j as [|[|[|[|j]]]]; cbn in Ha, Hg; try congruence.
    destruct j; discriminate.
  - split; [vm_compute; discriminate|]. split; [vm_compute; lia|].
    repeat constructor; simpl; lia.
Qed.

Lemma initFromInterleavedVector_splits_plain_ids_witness :
  exists f xE xP,
    initFromInterleavedVector (EPField_new (EPDoFs_new fes_quad))
      [10; 20; 30; 40; 50]%Z (fun _ _ => 7%Z) (fun _ _ => 7%Z) = Ok f /\
    numFields_ f = 1%nat /\
    ExposedDoFs_ f = Some [xE] /\ PrivateDoFs_ f = Some [xP] /\
    length xE = Z.to_nat (GetNExposedDofs (EPDoFs_new fes_quad)) /\
    length xP = Z.to_nat (GetNPrivateDofs (EPDoFs_new fes_quad)) /\
    (forall (e j : nat) g, (Z.of_nat e < GetNElements (EPDoFs_new fes_quad))%Z ->
       (fun _ : nat => [0; 1; 2; 3]%Z) e !! j = Some g ->
       xE !! Z.to_nat g = [10; 20; 30; 40; 50]%Z !! Z.to_nat ((fun g => g) g)) /\
    (forall (e j : nat) q, (Z.of_nat e < GetNElements (EPDoFs_new fes_quad))%Z ->
       (Z.of_nat j < interiorDofs (fes_ (EPDoFs_new fes_quad)) (Z.of_nat e))%Z ->
       GetElementInteriorDofs (fes_ (EPDoFs_new fes_quad)) (Z.of_nat e) !! j = Some q ->
       xP !! (Z.to_nat (offset_of (fes_ (EPDoFs_new fes_quad)) e) + j)%nat
         = [10; 20; 30; 40; 50]%Z !! Z.to_nat q).
Proof.
  apply (initFromInterleavedVector_splits_plain_ids (EPField_new (EPDoFs_new fes_quad))
           [10; 20; 30; 40; 50]%Z (fun _ => [0; 1; 2; 3]%Z) (fun g => g)
           (fun _ _ => 7%Z) (fun _ _ => 7%Z) ids_known_quad I splittable_quad eq_refl).
Defined.

(** ** Redistribution (ParEPField::updateExposedDoFs) *)

Section Redistribute.
Context {R : Type} `{!Scalar R}.

Lemma updateExposedDoFs_redistributed (s : ParEPField R) :
  par_sized s -> updateExposedDoFs s = Ok (redistributed s).
Proof.
  intros (HlE & HlT & HE & HT). unfold updateExposedDoFs.
  set (Pe := EDof_TrueEDof_Matrix s).
  set (n := par_numFields_ s) in *.
  destruct (for_upto_inv
    (fun i st =>
       par_numFields_ st = n /\ EDof_TrueEDof_Matrix st = Pe /\
       par_ExposedDoFs_ st =
         map (PeF Pe) (take i (ParExposedDoFs_ s)) ++ drop i (par_ExposedDoFs_ s) /\
       ParExposedDoFs_ st = ParExposedDoFs_ s)
    n
    (fun i st =>
       T ← aget (ParExposedDoFs_ st) (Z.of_nat i);
       E ← aget (par_ExposedDoFs_ st) (Z.of_nat i);
       E ← HypreParMatrix_Mult Pe T E;
       Ok {| par_numFields_ := par_numFields_ st;
             EDof_TrueEDof_Matrix := EDof_TrueEDof_Matrix st;
             par_ExposedDoFs_ := <[i := E]> (par_ExposedDoFs_ st);
             ParExposedDoFs_ := ParExposedDoFs_ st |})
    s) as (s' & Hrun & Hn & HPe & HE' & HT').
  - rewrite !take_0, !drop_0. simpl. auto.
  - intros i st Hi (Hn & HPe & HEi & HTi).
    destruct (lookup_lt_is_Some_2 (par_ExposedDoFs_ s) i ltac:(lia)) as [E HEs].
    destruct (lookup_lt_is_Some_2 (ParExposedDoFs_ s) i ltac:(lia)) as [T HTs].
    assert (HlenE : length E = hp_rows Pe).
    { eapply Forall_lookup_1 in HE; [exact HE|exact HEs]. }
    assert (HlenT : length T = hp_cols Pe).
    { eapply Forall_lookup_1 in HT; [exact HT|exact HTs]. }
    assert (Hti : length (take i (ParExposedDoFs_ s)) = i)
      by (rewrite length_take; lia).
    assert (HgE : par_ExposedDoFs_ st !! i = Some E).
    { rewrite HEi, lookup_app_r by (rewrite length_map; lia).
      rewrite length_map, Hti, lookup_drop, Nat.sub_diag, Nat.add_0_r. exact HEs. }
    rewrite HTi, (aget_lookup _ _ _ HTs), (aget_lookup _ _ _ HgE).
    cbn [mbind result_bind].
    rewrite (Mult_Ok Pe T E HlenT HlenE). cbn [mbind result_bind].
    eexists. split; [reflexivity|].
    cbn [ParExposedDoFs_ par_ExposedDoFs_ par_numFields_ EDof_TrueEDof_Matrix].
    split; [exact Hn|]. split; [exact HPe|]. split; [|reflexivity].
    rewrite (take_S_r _ _ _ HTs), !map_app. simpl. rewrite HEi.
    rewrite insert_app_r_alt by (rewrite length_map; lia).
    rewrite length_map, Hti, Nat.sub_diag.
    rewrite (drop_S _ _ _ HEs). simpl. rewrite <- app_assoc. reflexivity.
  - transitivity (Ok s'); [exact Hrun|]. f_equal. unfold redistributed. fold Pe. fold n.
    rewrite take_ge in HE' by lia. rewrite drop_ge, app_nil_r in HE' by lia.
    destruct s'. simpl in *. congruence.
Qed.

Lemma par_sized_redistributed (s : ParEPField R) :
  par_sized s -> par_sized (redistributed s).
Proof.
  intros (HlE & HlT & HE & HT). unfold par_sized, redistributed. simpl.
  rewrite !length_map. split; [exact HlT|]. split; [exact HlT|]. split; [|exact HT].
  apply Forall_map. apply Forall_true. intros E. apply length_PeF.
Qed.

End Redistribute.

(** X7: updateExposedDoFs overwrites every field's exposed
    vector with Pe applied to its true-exposed vector and leaves the
    true-exposed vectors as they are; a second call changes nothing
    more. *)
Theorem updateExposedDoFs_idempotent {R : Type} `{!Scalar R} (s : ParEPField R) :
  par_sized s ->
  exists s1, updateExposedDoFs s = Ok s1 /\
    ParExposedDoFs_ s1 = ParExposedDoFs_ s /\
    par_ExposedDoFs_ s1 = map (PeF (EDof_TrueEDof_Matrix s)) (ParExposedDoFs_ s) /\
    updateExposedDoFs s1 = Ok s1.
Proof.
  intros Hsz. exists (redistributed s).
  split; [apply updateExposedDoFs_redistributed; exact Hsz|].
  split; [reflexivity|]. split; [reflexivity|].
  rewrite updateExposedDoFs_redistributed by (apply par_sized_redistributed; exact Hsz).
  reflexivity.
Qed.

Lemma updateExposedDoFs_idempotent_witness :
  exists s1, updateExposedDoFs field_shared = Ok s1 /\
    ParExposedDoFs_ s1 = ParExposedDoFs_ field_shared /\
    par_ExposedDoFs_ s1 =
      map (PeF (EDof_TrueEDof_Matrix field_shared)) (ParExposedDoFs_ field_shared) /\
    updateExposedDoFs s1 = Ok s1.
Proof.
  apply (updateExposedDoFs_idempotent field_shared).
  unfold par_sized. simpl. repeat split; repeat constructor.
Defined.

(** X8: after updateParExposedDoFs the exposed vectors
    are the true-exposed vectors redistributed: a call of
    updateExposedDoFs after it changes nothing, also where dofs are
    shared between ranks (where a second updateParExposedDoFs would sum
    again). *)
Theorem updateExposedDoFs_after_reduce {R : Type} `{!Scalar R} (s : ParEPField R) :
  par_sized s ->
  exists s1, updateParExposedDoFs s = Ok s1 /\ updateExposedDoFs s1 = Ok s1 /\
    par_ExposedDoFs_ s1 = map (PeF (EDof_TrueEDof_Matrix s1)) (ParExposedDoFs_ s1).
Proof.
  intros Hsz. exists (reduced s).
  split; [apply updateParExposedDoFs_reduced; exact Hsz|].
  assert (Heq : redistributed (reduced s) = reduced s).
  { unfold redistributed, reduced. simpl. f_equal.
    rewrite <- list_fmap_compose. reflexivity. }
  split.
  - rewrite updateExposedDoFs_redistributed by (apply par_sized_reduced; exact Hsz).
    rewrite Heq. reflexivity.
  - unfold reduced. simpl. rewrite <- list_fmap_compose. reflexivity.
Qed.

Lemma updateExposedDoFs_after_reduce_witness :
  exists s1, updateParExposedDoFs field_shared = Ok s1 /\
    updateExposedDoFs s1 = Ok s1 /\
    par_ExposedDoFs_ s1 = map (PeF (EDof_TrueEDof_Matrix s1)) (ParExposedDoFs_ s1).
Proof.
  apply (updateExposedDoFs_after_reduce field_shared).
  unfold par_sized. simpl. repeat split; repeat constructor.
Defined.

(** ** Storage and accessors of EPField *)

Lemma Vector_new_length {R} (n : Z) (junk : nat -> R) :
  length (Vector_new n junk) = Z.to_nat n.
Proof. unfold Vector_new. rewrite length_map, length_seq. reflexivity. Qed.

Lemma initVectors_lookup {R} (this : EPField R) num junkE junkP i :
  (i < num)%nat ->
  ExposedDoFs_const (EPField_initVectors this num junkE junkP) i
    = Some (Vector_new (GetNExposedDofs (epdofs_ this)) (junkE i)) /\
  PrivateDoFs_const (EPField_initVectors this num junkE junkP) i
    = Some (Vector_new (GetNPrivateDofs (epdofs_ this)) (junkP i)).
Proof.
  intros Hi. unfold ExposedDoFs_const, PrivateDoFs_const, EPField_initVectors.
  cbn [numFields_ ExposedDoFs_ PrivateDoFs_ epdofs_].
  rewrite !bool_decide_false by lia.
  rewrite !list_lookup_fmap, !lookup_seq_lt by exact Hi. split; reflexivity.
Qed.

(** X9: the const accessors return NULL on a field that has
    no vectors yet, whatever the index; after initVectors(num) they
    return, for each index below [num], a vector of nExposed entries
    and a vector of nPrivate entries, and NULL for every other index. *)
Theorem accessors_after_initVectors {R} (d : EPDoFs) (this : EPField R)
    (num : nat) (junkE junkP : nat -> nat -> R) (i : nat) :
  ExposedDoFs_const (EPField_new (R:=R) d) i = None /\
  PrivateDoFs_const (EPField_new (R:=R) d) i = None /\
  let f := EPField_initVectors this num junkE junkP in
  ((i < num)%nat ->
     exists vE vP, ExposedDoFs_const f i = Some vE /\ PrivateDoFs_const f i = Some vP /\
       length vE = Z.to_nat (GetNExposedDofs (epdofs_ this)) /\
       length vP = Z.to_nat (GetNPrivateDofs (epdofs_ this))) /\
  ((num <= i)%nat -> ExposedDoFs_const f i = None /\ PrivateDoFs_const f i = None).
Proof.
  split; [reflexivity|]. split; [reflexivity|]. intros f. split.
  - intros Hi. destruct (initVectors_lookup this num junkE junkP i Hi) as [HE HP].
    eexists. eexists. split; [exact HE|]. split; [exact HP|].
    rewrite !Vector_new_length. auto.
  - intros Hi. unfold f, ExposedDoFs_const, PrivateDoFs_const, EPField_initVectors.
    cbn [numFields_]. rewrite !bool_decide_true by lia. auto.
Qed.

Lemma accessors_after_initVectors_witness :
  (exists vE vP,
     ExposedDoFs_const (EPField_initVectors (EPField_new (EPDoFs_new fes_quad)) 2
                          (fun _ _ => 0%Z) (fun _ _ => 0%Z)) 1 = Some vE /\
     PrivateDoFs_const (EPField_initVectors (EPField_new (EPDoFs_new fes_quad)) 2
                          (fun _ _ => 0%Z) (fun _ _ => 0%Z)) 1 = Some vP /\
     length vE = 4%nat /\ length vP = 1%nat) /\
  ExposedDoFs_const (EPField_initVectors (EPField_new (EPDoFs_new fes_quad)) 2
                       (fun _ _ => 0%Z) (fun _ _ => 0%Z)) 2 = None.
Proof.
  split.
  - apply (proj1 (proj2 (proj2 (accessors_after_initVectors (EPDoFs_new fes_quad)
             (EPField_new (EPDoFs_new fes_quad)) 2 (fun _ _ => 0%Z) (fun _ _ => 0%Z) 1)))).
    lia.
  - apply (proj2 (proj2 (proj2 (accessors_after_initVectors (EPDoFs_new fes_quad)
             (EPField_new (EPDoFs_new fes_quad)) 2 (fun _ _ => 0%Z) (fun _ _ => 0%Z) 2)))).
    lia.
Defined.

(** X10: the non-const accessors allocate first when there are no
    vectors: on a field that has none, ExposedDoFs(i) leaves the field
    as initVectors with its default argument leaves it (both arrays
    allocated) and returns the vector of index i when i is below that
    default, NULL otherwise; on a field whose vectors are there it
    leaves the field as it is and returns what the const accessor
    returns. *)
Theorem ExposedDoFs_allocates_once {R} (default_num : nat)
    (junkE junkP : nat -> nat -> R) (d : EPDoFs) (this : EPField R) (i : nat) :
  (let f := EPField_initVectors (EPField_new d) default_num junkE junkP in
   ExposedDoFs default_num junkE junkP (EPField_new d) i
   = (f, if bool_decide (i < default_num)%nat
         then Some (Vector_new (GetNExposedDofs d) (junkE i)) else None)) /\
  (forall E, ExposedDoFs_ this = Some E -> length E = numFields_ this ->
     ExposedDoFs default_num junkE junkP this i = (this, ExposedDoFs_const this i)).
Proof.
  split.
  - cbv zeta. unfold ExposedDoFs. cbn [ExposedDoFs_ EPField_new].
    cbn [numFields_ EPField_initVectors].
    destruct (decide (i < default_num)%nat) as [Hi|Hi].
    + rewrite bool_decide_false by lia. rewrite bool_decide_true by lia.
      f_equal. cbn [ExposedDoFs_ epdofs_]. simpl.
      rewrite list_lookup_fmap, lookup_seq_lt by exact Hi. reflexivity.
    + rewrite bool_decide_true by lia. rewrite bool_decide_false by lia. reflexivity.
  - intros E HE Hlen. unfold ExposedDoFs, ExposedDoFs_const. rewrite HE.
    case_bool_decide as Hc; [reflexivity|]. rewrite HE. reflexivity.
Qed.

Lemma ExposedDoFs_allocates_once_witness :
  ExposedDoFs 1 (fun _ _ => 0%Z) (fun _ _ => 0%Z) field_quad 0
  = (field_quad, ExposedDoFs_const field_quad 0).
Proof.
  apply (proj2 (ExposedDoFs_allocates_once 1 (fun _ _ => 0%Z) (fun _ _ => 0%Z)
                  (EPDoFs_new fes_quad) field_quad 0) [[1; 2; 3; 4]%Z]);
    reflexivity.
Defined.

(** ** Back substitution (EPMatrix::SolvePrivateDoFs) *)

Section BackSubstitution.
Context {R : Type} `{!Scalar R}.
Add Ring scalar_ring_solve : scalar_ring.

Variable default_num : nat.
Variable default_field : nat.
Variable junkE junkP : nat -> nat -> R.

Lemma field_holds_accessors (y : EPField R) vE vP :
  field_holds y vE vP ->
  ExposedDoFs_const y 0 = Some vE /\ PrivateDoFs_const y 0 = Some vP.
Proof.
  intros (Hn & (E & HE & HE0) & (P & HP & HP0)).
  unfold ExposedDoFs_const, PrivateDoFs_const.
  rewrite !bool_decide_false by lia. rewrite HE, HP. auto.
Qed.

(** The loop of SolvePrivateDoFs over the elements: the inverse of each
    element is applied to its range of the work vector and the result
    is written to the same range of y.private. *)
Lemma back_substitute_loop (invs : list (DenseMatrixInverse R)) (po : list Z)
    (np : nat -> nat) (n : nat) (w : list R) (y : EPField R) (yE yP0 : list R) :
  private_layout po n np ->
  length invs = n ->
  (forall e inv, invs !! e = Some inv -> inverse_fits inv (np e)) ->
  (poff np n <= length w)%nat ->
  (poff np n <= length yP0)%nat ->
  field_holds y yE yP0 ->
  exists y' yP,
    for_upto n
      (fun i y =>
         invs0 ← deref (Some invs);
         inv ← aget invs0 (Z.of_nat i);
         let size := inv_size inv in
         poL ← deref (Some po);
         oL ← aget poL (Z.of_nat i);
         v1 ← view w oL size;
         let '(y, pyP) := PrivateDoFs default_num junkE junkP y 0 in
         yP ← deref pyP;
         poR ← deref (Some po);
         oR ← aget poR (Z.of_nat i);
         v2 ← DenseMatrixInverse_Mult inv v1;
         yP ← store yP oR v2;
         Ok (set_Private y 0 yP))
      y = Ok y' /\
    field_holds y' yE yP /\
    length yP = length yP0 /\
    (forall e inv k, invs !! e = Some inv -> (k < np e)%nat ->
       yP !! (poff np e + k)%nat = Some (inv_dot inv w (poff np e) k)).
Proof.
  intros [Hpolen Hpo] Hlen Hfits Hw HyP Hy.
  destruct (for_upto_inv
    (fun m (st : EPField R) =>
       exists yP, field_holds st yE yP /\ length yP = length yP0 /\
         (forall e inv k, (e < m)%nat -> invs !! e = Some inv -> (k < np e)%nat ->
            yP !! (poff np e + k)%nat = Some (inv_dot inv w (poff np e) k)))
    n
    (fun i y =>
         invs0 ← deref (Some invs);
         inv ← aget invs0 (Z.of_nat i);
         let size := inv_size inv in
         poL ← deref (Some po);
         oL ← aget poL (Z.of_nat i);
         v1 ← view w oL size;
         let '(y, pyP) := PrivateDoFs default_num junkE junkP y 0 in
         yP ← deref pyP;
         poR ← deref (Some po);
         oR ← aget poR (Z.of_nat i);
         v2 ← DenseMatrixInverse_Mult inv v1;
         yP ← store yP oR v2;
         Ok (set_Private y 0 yP))
    y) as (y' & Hrun & yP & Hy' & Hl & Hdone).
  - exists yP0. split; [exact Hy|]. split; [reflexivity|]. intros e A r He. lia.
  - intros i st Hi (yP & Hst & Hl & Hdone).
    destruct (lookup_lt_is_Some_2 invs i ltac:(lia)) as [inv Hinv].
    destruct (Hfits i inv Hinv) as (Hsz & Hh & Hwd & Hsized).
    pose proof (poff_S_le np i n Hi) as Hle.
    cbn [deref mbind result_bind].
    rewrite (aget_lookup _ _ _ Hinv). cbn [mbind result_bind].
    rewrite (aget_lookup _ _ _ (Hpo i ltac:(lia))). cbn [mbind result_bind].
    rewrite Hsz. rewrite view_Ok by lia. cbn [mbind result_bind].
    rewrite (PrivateDoFs_holds _ _ _ _ _ _ Hst). cbn [deref mbind result_bind].
    unfold DenseMatrixInverse_Mult. rewrite bool_decide_true by (rewrite Hsz; auto).
    rewrite DenseMatrix_Mult_Ok
      by (try exact Hsized; rewrite length_take, length_drop; lia).
    cbn [mbind result_bind]. rewrite Hh, Hwd.
    set (v := map _ (seq 0 (np i))).
    assert (Hvlen : length v = np i) by (unfold v; rewrite length_map, length_seq; reflexivity).
    destruct (store_Ok yP v (poff np i)) as (yP' & Hstore & Hl' & Hblk & Hkeep); [lia|].
    rewrite Hstore. cbn [mbind result_bind].
    eexists. split; [reflexivity|]. exists yP'.
    split; [apply (field_holds_set_Private _ _ _ _ Hst)|].
    split; [lia|].
    intros e inv' k He Hinv' Hk.
    destruct (decide (e = i)) as [->|Hne].
    + assert (inv' = inv) as -> by congruence.
      rewrite Hblk by lia. unfold v.
      rewrite list_lookup_fmap, lookup_seq_lt by exact Hk. simpl.
      f_equal. unfold inv_dot. rewrite Hsz. apply rsum_ext. intros l Hlt.
      rewrite vnth_take_drop by exact Hlt. reflexivity.
    + rewrite Hkeep; [apply Hdone; [lia|exact Hinv'|exact Hk]|].
      left. pose proof (poff_S_le np e i ltac:(lia)). lia.
  - exists y', yP. split; [exact Hrun|]. split; [exact Hy'|]. split; [exact Hl|].
    intros e inv k Hinv Hk. apply Hdone; [|exact Hinv|exact Hk].
    apply lookup_lt_Some in Hinv. lia.
Qed.

Lemma SolvePrivateDoFs_same (this : EPMatrix R) (x : list R) (y : EPField R)
    d po np invs Mep vp0 yE yP :
  epdofs this = SameDofs d ->
  priOffset_ d = Some po ->
  private_layout po (Z.to_nat (GetNElements d)) np ->
  MppInv_ this = Some invs ->
  length invs = Z.to_nat (GetNElements d) ->
  (forall e inv, invs !! e = Some inv -> inverse_fits inv (np e)) ->
  Mpe_ this = None -> Mep_ this = Some Mep ->
  sm_width Mep = poff np (Z.to_nat (GetNElements d)) ->
  vecp_ this = Some vp0 -> length vp0 = sm_width Mep ->
  length x = sm_width Mep ->
  ExposedDoFs default_num junkE junkP y default_field = (y, Some yE) ->
  length yE = sm_height Mep ->
  field_holds y yE yP -> length yP = sm_width Mep ->
  exists this' y' w yP',
    EPMatrix_SolvePrivateDoFs default_num default_field junkE junkP this x y
      = Ok (this', y') /\
    vecp_ this' = Some w /\
    Mee_ this' = Mee_ this /\ Mep_ this' = Mep_ this /\ Mpe_ this' = Mpe_ this /\
    Mpp_ this' = Mpp_ this /\ epdofs this' = epdofs this /\
    length w = sm_width Mep /\
    (forall p, (p < sm_width Mep)%nat ->
       w !! p = Some (vnth x p - sm_col_dot Mep yE p)%S) /\
    field_holds y' yE yP' /\ length yP' = length yP /\
    (forall e inv k, invs !! e = Some inv -> (k < np e)%nat ->
       yP' !! (poff np e + k)%nat = Some (inv_dot inv w (poff np e) k)).
Proof.
  intros Hd Hpo Hlay Hinv Hlen Hfits HMpe HMep Hw Hvp Hvplen Hx HyE HyElen Hy HyPlen.
  unfold EPMatrix_SolvePrivateDoFs. rewrite Hvp. cbn [deref mbind result_bind].
  rewrite Vector_Set_Ok by lia. cbn [mbind result_bind].
  rewrite HMpe, HMep. cbn [deref mbind result_bind]. rewrite HyE.
  cbn [deref mbind result_bind].
  rewrite SparseMatrix_AddMultTranspose_Ok by (rewrite ?length_imap; lia).
  cbn [mbind result_bind].
  set (w := imap _ (imap _ vp0)).
  assert (Hwl : length w = sm_width Mep) by (unfold w; rewrite !length_imap; exact Hvplen).
  rewrite Hd. cbn [dofsL dofsR]. unfold GetPrivateOffsets. rewrite Hpo, Hinv.
  destruct (back_substitute_loop invs po np (Z.to_nat (GetNElements d)) w y yE yP)
    as (y' & yP' & Hrun & Hy' & Hl & Hsolved); auto; try lia.
  cbv zeta in Hrun |- *.
  match goal with
  | |- context [for_upto ?n ?b ?s] =>
    replace (for_upto n b s) with (Ok (A:=EPField R) y') by (symmetry; exact Hrun)
  end.
  cbn [mbind result_bind].
  eexists. exists y', w, yP'. split; [reflexivity|].
  cbn [vecp_ Mee_ Mep_ Mpe_ Mpp_ epdofs].
  repeat (split; [reflexivity|]). split; [exact Hwl|]. split.
  - intros p Hp. unfold w.
    destruct (lookup_lt_is_Some_2 vp0 p ltac:(lia)) as [v0 Hv0].
    rewrite list_lookup_imap, list_lookup_imap, Hv0. simpl. f_equal. ring.
  - split; [exact Hy'|]. split; [exact Hl|exact Hsolved].
Qed.

End BackSubstitution.

(** X11: on an operator of the assembled shape over one dof object
    SolvePrivateDoFs(x, y) returns; it leaves the work vector
    w = x - Mep^t y.exposed, leaves y.exposed as it is, and writes to
    each element's range of y.private the stored inverse of the element
    applied to that range of w. *)
Theorem SolvePrivateDoFs_back_substitutes {R : Type} `{!Scalar R}
    (default_num default_field : nat) (junkE junkP : nat -> nat -> R)
    (this : EPMatrix R) (x : list R) (y : EPField R)
    d po np invs Mep vp0 yE yP :
  epdofs this = SameDofs d ->
  priOffset_ d = Some po ->
  private_layout po (Z.to_nat (GetNElements d)) np ->
  MppInv_ this = Some invs ->
  length invs = Z.to_nat (GetNElements d) ->
  (forall e inv, invs !! e = Some inv -> inverse_fits inv (np e)) ->
  Mpe_ this = None -> Mep_ this = Some Mep ->
  sm_width Mep = poff np (Z.to_nat (GetNElements d)) ->
  vecp_ this = Some vp0 -> length vp0 = sm_width Mep ->
  length x = sm_width Mep ->
  ExposedDoFs default_num junkE junkP y default_field = (y, Some yE) ->
  length yE = sm_height Mep ->
  field_holds y yE yP -> length yP = sm_width Mep ->
  exists this' y' w yP',
    EPMatrix_SolvePrivateDoFs default_num default_field junkE junkP this x y
      = Ok (this', y') /\
    vecp_ this' = Some w /\
    (forall p, (p < sm_width Mep)%nat ->
       w !! p = Some (vnth x p - sm_col_dot Mep yE p)%S) /\
    field_holds y' yE yP' /\ length yP' = length yP /\
    (forall e inv k, invs !! e = Some inv -> (k < np e)%nat ->
       yP' !! (poff np e + k)%nat = Some (inv_dot inv w (poff np e) k)).
Proof.
  intros Hd Hpo Hlay Hinv Hlen Hfits HMpe HMep Hw Hvp Hvplen Hx HyE HyElen Hy HyPlen.
  destruct (SolvePrivateDoFs_same default_num default_field junkE junkP this x y
              d po np invs Mep vp0 yE yP) as
    (this' & y' & w & yP' & Hrun & Hvp' & _ & _ & _ & _ & _ & _ & Hwv & Hy' & Hl & Hs);
    try assumption.
  exists this', y', w, yP'. auto 10.
Qed.

Lemma field_quad_given :
  ExposedDoFs 1 (fun _ _ => 0%Z) (fun _ _ => 0%Z) field_quad 0
    = (field_quad, Some [1; 2; 3; 4]%Z) /\
  field_holds field_quad [1; 2; 3; 4]%Z [5%Z].
Proof.
  split; [reflexivity|]. split; [simpl; lia|]. split; eexists; split; reflexivity.
Qed.

Lemma quad_layout :
  private_layout [0; 1]%Z (Z.to_nat (GetNElements dofs_quad_assembled))
    (fun _ => 1%nat).
Proof.
  split; [reflexivity|]. intros e He.
  change (Z.to_nat (GetNElements dofs_quad_assembled)) with 1%nat in He.
  destruct e as [|[|e]]; [reflexivity|reflexivity|lia].
Qed.

Lemma quad_inverse_fits e inv :
  MppInv_quad !! e = Some inv -> inverse_fits inv 1.
Proof.
  intros He. destruct e as [|e]; [|destruct e; discriminate He].
  vm_compute in He. injection He as <-. vm_compute. auto.
Qed.

(** The assembled operator of the worked example, x = (7) and
    y.exposed = (1, 2, 3, 4). *)
Lemma SolvePrivateDoFs_back_substitutes_witness :
  exists this' y' w yP',
    EPMatrix_SolvePrivateDoFs 1 0 (fun _ _ => 0%Z) (fun _ _ => 0%Z)
      epmatrix_quad_assembled [7%Z] field_quad = Ok (this', y') /\
    vecp_ this' = Some w /\
    (forall p, (p < sm_width Mep_quad)%nat ->
       w !! p = Some (vnth [7%Z] p - sm_col_dot Mep_quad [1; 2; 3; 4]%Z p)%S) /\
    field_holds y' [1; 2; 3; 4]%Z yP' /\ length yP' = length [5%Z] /\
    (forall e inv k, MppInv_quad !! e = Some inv -> (k < 1)%nat ->
       yP' !! (poff (fun _ => 1%nat) e + k)%nat
         = Some (inv_dot inv w (poff (fun _ => 1%nat) e) k)).
Proof.
  apply (SolvePrivateDoFs_back_substitutes 1 0 (fun _ _ => 0%Z) (fun _ _ => 0%Z)
           epmatrix_quad_assembled [7%Z] field_quad
           dofs_quad_assembled [0; 1]%Z (fun _ => 1%nat) MppInv_quad Mep_quad
           [0%Z] [1; 2; 3; 4]%Z [5%Z]).
  - vm_compute. reflexivity.
  - vm_compute. reflexivity.
  - exact quad_layout.
  - vm_compute. reflexivity.
  - reflexivity.
  - exact quad_inverse_fits.
  - vm_compute. reflexivity.
  - vm_compute. reflexivity.
  - reflexivity.
  - vm_compute. reflexivity.
  - reflexivity.
  - reflexivity.
  - exact (proj1 field_quad_given).
  - reflexivity.
  - exact (proj2 field_quad_given).
  - reflexivity.
Defined.

Section SolveThenMult.
Context {R : Type} `{!Scalar R}.
Add Ring scalar_ring_solve_mult : scalar_ring.

Lemma back_substitution_private_rows
    (default_num default_field : nat) (junkE junkP : nat -> nat -> R)
    (this : EPMatrix R) (x : list R) (y z0 : EPField R)
    d po np invs Mee Mep Mpps vp0 yE yP zE0 zP0 :
  epdofs this = SameDofs d ->
  priOffset_ d = Some po ->
  private_layout po (Z.to_nat (GetNElements d)) np ->
  MppInv_ this = Some invs -> length invs = Z.to_nat (GetNElements d) ->
  (forall e inv, invs !! e = Some inv -> inverse_fits inv (np e)) ->
  Mpp_ this = Some Mpps -> length Mpps = Z.to_nat (GetNElements d) ->
  (forall e A, Mpps !! e = Some A -> block_fits A (np e)) ->
  (forall e inv A, invs !! e = Some inv -> Mpps !! e = Some A ->
     right_inverse inv A (np e)) ->
  Mpe_ this = None -> Mep_ this = Some Mep -> Mee_ this = Some Mee ->
  sm_width Mep = poff np (Z.to_nat (GetNElements d)) ->
  sm_height Mep = sm_height Mee -> sm_width Mee = sm_height Mee ->
  vecp_ this = Some vp0 -> length vp0 = sm_width Mep ->
  length x = sm_width Mep ->
  ExposedDoFs default_num junkE junkP y default_field = (y, Some yE) ->
  length yE = sm_height Mep ->
  field_holds y yE yP -> length yP = sm_width Mep ->
  field_holds z0 zE0 zP0 -> length zE0 = sm_height Mee -> length zP0 = sm_width Mep ->
  exists this' y' z zE zP,
    EPMatrix_SolvePrivateDoFs default_num default_field junkE junkP this x y
      = Ok (this', y') /\
    EPMatrix_Mult default_num junkE junkP this' y' z0 = Ok z /\
    field_holds z zE zP /\
    (forall e r, (e < Z.to_nat (GetNElements d))%nat -> (r < np e)%nat ->
       zP !! (poff np e + r)%nat = x !! (poff np e + r)%nat).
Proof.
  intros Hd Hpo Hlay Hinv Hlen Hfits HMpp HMlen HAfits Hri HMpe HMep HMee Hw
         HhMep HsqMee Hvp Hvplen Hx HyE HyElen Hy HyPlen Hz HzE HzP.
  destruct (SolvePrivateDoFs_same default_num default_field junkE junkP this x y
              d po np invs Mep vp0 yE yP) as
    (this' & y' & w & yP' & Hrun & Hvp' & HMee' & HMep' & HMpe' & HMpp' & Hd' & Hwl
     & Hwv & Hy' & Hl & Hs); try assumption.
  destruct (field_holds_accessors y' yE yP' Hy') as [HcE HcP].
  assert (G1 : Mee_ this' = Some Mee) by congruence.
  assert (G2 : Mep_ this' = Some Mep) by congruence.
  assert (G3 : Mpp_ this' = Some Mpps) by congruence.
  assert (G4 : GetPrivateOffsets (dofsL (epdofs this')) = Some po)
    by (rewrite Hd', Hd; exact Hpo).
  assert (G5 : GetPrivateOffsets (dofsR (epdofs this')) = Some po)
    by (rewrite Hd', Hd; exact Hpo).
  assert (G6 : private_layout po (Z.to_nat (GetNElements (dofsR (epdofs this')))) np)
    by (rewrite Hd', Hd; exact Hlay).
  assert (G7 : length Mpps = Z.to_nat (GetNElements (dofsR (epdofs this'))))
    by (rewrite Hd', Hd; exact HMlen).
  assert (G8 : length yP' = poff np (Z.to_nat (GetNElements (dofsR (epdofs this')))))
    by (rewrite Hd', Hd; cbn [dofsR]; congruence).
  assert (G9 : match Mpe_ this' with
               | Some Mpe => sm_width Mpe = length yE /\ sm_height Mpe = length zP0
               | None => sm_height Mep = length yE
               end) by (rewrite HMpe', HMpe; congruence).
  destruct (EPMatrix_Mult_blocks default_num junkE junkP this' y' z0
              Mee Mep Mpps po np yE yP' zE0 zP0 G1 G2 G3 G4 G5 G6 G7 HAfits HcE HcP Hz
              ltac:(congruence) ltac:(congruence) HhMep ltac:(congruence) G8
              ltac:(congruence) G9)
    as (z & zE & zP & Hmult & Hz' & _ & _ & Hpriv).
  exists this', y', z, zE, zP. split; [exact Hrun|]. split; [exact Hmult|].
  split; [exact Hz'|].
  intros e r He Hr.
    destruct (lookup_lt_is_Some_2 Mpps e ltac:(lia)) as [A HA].
    destruct (lookup_lt_is_Some_2 invs e ltac:(lia)) as [inv HI].
    destruct (HAfits e A HA) as (HAh & HAw & _).
    destruct (Hfits e inv HI) as (Hsz & _).
    pose proof (poff_S_le np e _ He) as Hle.
    rewrite (Hpriv e A r HA Hr). unfold coupling. rewrite HMpe', HMpe.
    assert (Hp : (poff np e + r < sm_width Mep)%nat) by lia.
    destruct (lookup_lt_is_Some_2 x (poff np e + r)%nat ltac:(lia)) as [xp Hxp].
    rewrite Hxp. f_equal.
    assert (Hblock : block_dot A yP' (poff np e) r = vnth w (poff np e + r)).
    { unfold block_dot. rewrite HAw.
      rewrite <- (Hri e inv A HI HA (fun l => vnth w (poff np e + l)) r Hr).
      apply rsum_ext. intros c Hc. f_equal.
      rewrite (vnth_lookup _ _ _ (Hs e inv c HI Hc)).
      unfold inv_dot. rewrite Hsz. reflexivity. }
    rewrite Hblock, (vnth_lookup _ _ _ (Hwv _ Hp)), (vnth_lookup _ _ _ Hxp). ring.
Qed.

End SolveThenMult.

(** X12: back substitution satisfies the private rows of the
    system.  On an operator of the assembled shape over one dof object
    whose stored inverses undo the private blocks, let
    SolvePrivateDoFs(x, y) fill y.private; then Mult applied to y
    returns, on every element's private range, the entries of x:
    Mpp y.private + Mep^t y.exposed = x. *)
Theorem SolvePrivateDoFs_then_Mult {R : Type} `{!Scalar R}
    (default_num default_field : nat) (junkE junkP : nat -> nat -> R)
    (this : EPMatrix R) (x : list R) (y z0 : EPField R)
    d po np invs Mee Mep Mpps vp0 yE yP zE0 zP0 :
  epdofs this = SameDofs d ->
  priOffset_ d = Some po ->
  private_layout po (Z.to_nat (GetNElements d)) np ->
  MppInv_ this = Some invs -> length invs = Z.to_nat (GetNElements d) ->
  (forall e inv, invs !! e = Some inv -> inverse_fits inv (np e)) ->
  Mpp_ this = Some Mpps -> length Mpps = Z.to_nat (GetNElements d) ->
  (forall e A, Mpps !! e = Some A -> block_fits A (np e)) ->
  (forall e inv A, invs !! e = Some inv -> Mpps !! e = Some A ->
     right_inverse inv A (np e)) ->
  Mpe_ this = None -> Mep_ this = Some Mep -> Mee_ this = Some Mee ->
  sm_width Mep = poff np (Z.to_nat (GetNElements d)) ->
  sm_height Mep = sm_height Mee -> sm_width Mee = sm_height Mee ->
  vecp_ this = Some vp0 -> length vp0 = sm_width Mep ->
  length x = sm_width Mep ->
  ExposedDoFs default_num junkE junkP y default_field = (y, Some yE) ->
  length yE = sm_height Mep ->
  field_holds y yE yP -> length yP = sm_width Mep ->
  field_holds z0 zE0 zP0 -> length zE0 = sm_height Mee -> length zP0 = sm_width Mep ->
  exists this' y' z zE zP,
    EPMatrix_SolvePrivateDoFs default_num default_field junkE junkP this x y
      = Ok (this', y') /\
    EPMatrix_Mult default_num junkE junkP this' y' z0 = Ok z /\
    field_holds z zE zP /\
    (forall e r, (e < Z.to_nat (GetNElements d))%nat -> (r < np e)%nat ->
       zP !! (poff np e + r)%nat = x !! (poff np e + r)%nat).
Proof. intros. eapply back_substitution_private_rows; eassumption. Qed.

Lemma quad_block_fits e A : Mpp_quad !! e = Some A -> block_fits A 1.
Proof.
  intros He. destruct e as [|e]; [|destruct e; discriminate He].
  vm_compute in He. injection He as <-. vm_compute. auto.
Qed.

Lemma quad_right_inverse e inv A :
  MppInv_quad !! e = Some inv -> Mpp_quad !! e = Some A -> right_inverse inv A 1.
Proof.
  intros HI HA. destruct e as [|e]; [|destruct e; discriminate HI].
  vm_compute in HI. injection HI as <-. vm_compute in HA. injection HA as <-.
  intros w r Hr. assert (r = 0%nat) as -> by lia.
  unfold rsum, dm_at, vnth. simpl. lia.
Qed.

Lemma SolvePrivateDoFs_then_Mult_witness :
  exists this' y' z zE zP,
    EPMatrix_SolvePrivateDoFs 1 0 (fun _ _ => 0%Z) (fun _ _ => 0%Z)
      epmatrix_quad_assembled [7%Z] field_quad = Ok (this', y') /\
    EPMatrix_Mult 1 (fun _ _ => 0%Z) (fun _ _ => 0%Z) this' y' field_quad_out = Ok z /\
    field_holds z zE zP /\
    (forall e r, (e < Z.to_nat (GetNElements dofs_quad_assembled))%nat -> (r < 1)%nat ->
       zP !! (poff (fun _ => 1%nat) e + r)%nat
         = [7%Z] !! (poff (fun _ => 1%nat) e + r)%nat).
Proof.
  apply (SolvePrivateDoFs_then_Mult 1 0 (fun _ _ => 0%Z) (fun _ _ => 0%Z)
           epmatrix_quad_assembled [7%Z] field_quad field_quad_out
           dofs_quad_assembled [0; 1]%Z (fun _ => 1%nat) MppInv_quad Mee_quad Mep_quad
           Mpp_quad [0%Z] [1; 2; 3; 4]%Z [5%Z] [0; 0; 0; 0]%Z [0%Z]).
  - vm_compute. reflexivity.
  - vm_compute. reflexivity.
  - exact quad_layout.
  - vm_compute. reflexivity.
  - reflexivity.
  - exact quad_inverse_fits.
  - vm_compute. reflexivity.
  - reflexivity.
  - exact quad_block_fits.
  - exact quad_right_inverse.
  - vm_compute. reflexivity.
  - vm_compute. reflexivity.
  - vm_compute. reflexivity.
  - reflexivity.
  - reflexivity.
  - reflexivity.
  - vm_compute. reflexivity.
  - reflexivity.
  - reflexivity.
  - exact (proj1 field_quad_given).
  - reflexivity.
  - exact (proj2 field_quad_given).
  - reflexivity.
  - split; [simpl; lia|]. split; eexists; split; reflexivity.
  - reflexivity.
  - reflexivity.
Defined.

(** ** Assemble, as a whole, and the destructor *)

(** X13: over one dof object, Assemble returns when every
    element matrix is square of the size of its element (exposed and
    private dofs together), every id decodes to a row of the global
    matrices and no id is sign-tagged on an element with private dofs.
    It leaves: no Mpe; for each element its private block of the
    element matrix and the inverse of that block; the private-offset
    table built; the global matrices nExposed x nExposed and
    nExposed x nPrivate; and the two work vectors of nExposed and
    nPrivate entries. *)
Theorem Assemble_returns_assembled {R : Type} `{!Scalar R}
    (Inverse : DenseMatrix R -> DenseMatrix R) (bfi : Z -> DenseMatrix R)
    (d : EPDoFs) (ids : nat -> list Z) (junkR junkP : nat -> R) :
  ids_known d ids -> priOffset_ok d ->
  (forall e : nat, (Z.of_nat e < GetNElements d)%Z ->
     (0 <= interiorDofs (fes_ d) (Z.of_nat e))%Z) ->
  (0 < GetNElements d)%Z ->
  nPrivateDofs_ d = countPrivate (fes_ d) ->
  (forall e : nat, (Z.of_nat e < GetNElements d)%Z ->
     element_fits bfi d ids (Z.to_nat (GetNExposedDofs d)) e) ->
  (forall A n, block_fits A n -> inverse_fits (DenseMatrix_Inverse Inverse A) n) ->
  let n := Z.to_nat (GetNElements d) in
  exists m Mee Mep po rr0 vp0 d',
    Assemble Inverse (EPMatrix_new (SameDofs d) bfi) junkR junkP = Ok m /\
    epdofs m = SameDofs d' /\ same_space d d' /\
    Mee_ m = Some Mee /\ Mep_ m = Some Mep /\ Mpe_ m = None /\
    Mpp_ m = Some (map (pp_block bfi d ids) (seq 0 n)) /\
    MppInv_ m =
      Some (map (fun e => DenseMatrix_Inverse Inverse (pp_block bfi d ids e)) (seq 0 n)) /\
    priOffset_ d' = Some po /\ private_layout po n (numPri d) /\
    sm_height Mee = Z.to_nat (nExposedDofs_ d) /\
    sm_width Mee = Z.to_nat (nExposedDofs_ d) /\
    sm_height Mep = Z.to_nat (nExposedDofs_ d) /\
    sm_width Mep = Z.to_nat (nPrivateDofs_ d) /\
    reducedRHS_ m = Some rr0 /\ length rr0 = Z.to_nat (nExposedDofs_ d) /\
    vecp_ m = Some vp0 /\ length vp0 = Z.to_nat (nPrivateDofs_ d).
Proof.
  intros Hids Hpo Hnn Hpos HnP Hfit Hinv n.
  destruct (Assemble_same_returns Inverse bfi d ids junkR junkP Hids Hpo Hnn HnP Hfit Hinv)
    as [m HA].
  pose proof HA as HA'.
  apply (Assemble_same_Mrr Inverse bfi d ids) in HA'
    as (st & Hup & Hd & HMee & HMep & HMpe & _ & HMpp & HMppInv & Hrr & Hvp);
    [|exact Hids|exact Hpo|exact Hnn].
  destruct Hup as ((d' & Hd' & Hs & _ & Htbl) & _ & HInv & HMppl & Hdims & _).
  destruct Htbl as (tbl & Htbl & Hbuild); [lia|].
  destruct Hdims as (H1 & H2 & H3 & H4).
  exists m, (SparseMatrix_Finalize (as_Mee st)), (SparseMatrix_Finalize (as_Mep st)),
         tbl, (Vector_new (GetNExposedDofs d) junkR),
         (Vector_new (GetNPrivateDofs d) junkP), d'.
  split; [exact HA|]. split; [congruence|]. split; [exact Hs|].
  split; [exact HMee|]. split; [exact HMep|]. split; [exact HMpe|].
  split; [rewrite HMpp, HMppl; reflexivity|]. split; [rewrite HMppInv; exact HInv|].
  split; [exact Htbl|].
  split; [apply private_layout_built; [exact Hnn|lia|exact Hbuild]|].
  cbn [sm_height sm_width SparseMatrix_Finalize].
  unfold GetNExposedDofs, GetNPrivateDofs in *.
  split; [exact H1|]. split; [exact H2|]. split; [exact H3|]. split; [exact H4|].
  split; [exact Hrr|]. split; [apply Vector_new_length|].
  split; [exact Hvp|apply Vector_new_length].
Qed.

Lemma element_fits_quad :
  element_fits (fun _ => elmat_quad) (EPDoFs_new fes_quad) (fun _ => [0; 1; 2; 3]%Z)
    (Z.to_nat (GetNExposedDofs (EPDoFs_new fes_quad))) 0.
Proof.
  unfold element_fits. cbv zeta.
  split; [reflexivity|]. split; [reflexivity|]. split; [reflexivity|].
  split; [|intros _]; repeat constructor; vm_compute; congruence.
Qed.

Lemma Inverse_unit_fits (A : DenseMatrix Z) n :
  block_fits A n -> inverse_fits (DenseMatrix_Inverse Inverse_unit A) n.
Proof.
  intros (Hh & Hw & Hs). unfold inverse_fits, DenseMatrix_Inverse, Inverse_unit.
  cbn [inv_size inv_matrix]. auto.
Qed.

Lemma Assemble_returns_assembled_witness :
  exists m Mee Mep po rr0 vp0 d',
    Assemble Inverse_unit (EPMatrix_new (SameDofs (EPDoFs_new fes_quad))
                             (fun _ => elmat_quad)) (fun _ => 0%Z) (fun _ => 0%Z) = Ok m /\
    epdofs m = SameDofs d' /\ same_space (EPDoFs_new fes_quad) d' /\
    Mee_ m = Some Mee /\ Mep_ m = Some Mep /\ Mpe_ m = None /\
    Mpp_ m = Some (map (pp_block (fun _ => elmat_quad) (EPDoFs_new fes_quad)
                          (fun _ => [0; 1; 2; 3]%Z))
                       (seq 0 (Z.to_nat (GetNElements (EPDoFs_new fes_quad))))) /\
    MppInv_ m =
      Some (map (fun e => DenseMatrix_Inverse Inverse_unit
                            (pp_block (fun _ => elmat_quad) (EPDoFs_new fes_quad)
                               (fun _ => [0; 1; 2; 3]%Z) e))
                (seq 0 (Z.to_nat (GetNElements (EPDoFs_new fes_quad))))) /\
    priOffset_ d' = Some po /\
    private_layout po (Z.to_nat (GetNElements (EPDoFs_new fes_quad)))
      (numPri (EPDoFs_new fes_quad)) /\
    sm_height Mee = Z.to_nat (nExposedDofs_ (EPDoFs_new fes_quad)) /\
    sm_width Mee = Z.to_nat (nExposedDofs_ (EPDoFs_new fes_quad)) /\
    sm_height Mep = Z.to_nat (nExposedDofs_ (EPDoFs_new fes_quad)) /\
    sm_width Mep = Z.to_nat (nPrivateDofs_ (EPDoFs_new fes_quad)) /\
    reducedRHS_ m = Some rr0 /\
    length rr0 = Z.to_nat (nExposedDofs_ (EPDoFs_new fes_quad)) /\
    vecp_ m = Some vp0 /\ length vp0 = Z.to_nat (nPrivateDofs_ (EPDoFs_new fes_quad)).
Proof.
  apply (Assemble_returns_assembled Inverse_unit (fun _ => elmat_quad)
           (EPDoFs_new fes_quad) (fun _ => [0; 1; 2; 3]%Z) (fun _ => 0%Z) (fun _ => 0%Z)).
  - exact ids_known_quad.
  - exact I.
  - intros e He. change (GetNElements (EPDoFs_new fes_quad)) with 1%Z in He.
    assert (e = 0%nat) as -> by lia. vm_compute. discriminate.
  - reflexivity.
  - reflexivity.
  - intros e He. change (GetNElements (EPDoFs_new fes_quad)) with 1%Z in He.
    assert (e = 0%nat) as -> by lia. exact element_fits_quad.
  - exact Inverse_unit_fits.
Defined.

Section Destructor.
Context {R : Type} `{!Scalar R}.

Lemma destroy_unassembled (p : DofPair) (bfi : Z -> DenseMatrix R) :
  (0 < GetNElements (dofsR p))%Z ->
  EPMatrix_destroy (EPMatrix_new p bfi) = Fail NullDereference.
Proof.
  intros Hne. unfold EPMatrix_destroy. cbn [epdofs EPMatrix_new Mpp_].
  destruct (Z.to_nat (GetNElements (dofsR p))) as [|n] eqn:Hn; [lia|].
  unfold for_upto. simpl. reflexivity.
Qed.

Lemma destroy_filled (m : EPMatrix R) (Mpps : list (DenseMatrix R))
    (invs : list (DenseMatrixInverse R)) :
  Mpp_ m = Some Mpps -> MppInv_ m = Some invs ->
  length Mpps = Z.to_nat (GetNElements (dofsR (epdofs m))) ->
  length invs = Z.to_nat (GetNElements (dofsR (epdofs m))) ->
  EPMatrix_destroy m = Ok tt.
Proof.
  intros HM HI HlM HlI. unfold EPMatrix_destroy. rewrite HM, HI.
  destruct (for_upto_inv (fun _ _ => True)
    (Z.to_nat (GetNElements (dofsR (epdofs m))))
    (fun i (_ : unit) =>
       Mpps0 ← deref (Some Mpps);
       _ ← aget Mpps0 (Z.of_nat i);
       invs0 ← deref (Some invs);
       _ ← aget invs0 (Z.of_nat i);
       Ok tt) tt) as ([] & Hrun & _); [exact I| |exact Hrun].
  intros i [] Hi _. cbn [deref mbind result_bind].
  destruct (lookup_lt_is_Some_2 Mpps i ltac:(lia)) as [A HA].
  destruct (lookup_lt_is_Some_2 invs i ltac:(lia)) as [inv Hinv].
  rewrite (aget_lookup _ _ _ HA). cbn [mbind result_bind].
  rewrite (aget_lookup _ _ _ Hinv). cbn [mbind result_bind]. eauto.
Qed.

Lemma destroy_two_objects (Inverse : DenseMatrix R -> DenseMatrix R)
    (bfi : Z -> DenseMatrix R) (p : DofPair) (junkR junkP : nat -> R) (m : EPMatrix R) :
  same_dofs p = false ->
  Assemble Inverse (EPMatrix_new p bfi) junkR junkP = Ok m ->
  (0 < GetNElements (dofsR (epdofs m)))%Z ->
  EPMatrix_destroy m <> Ok tt.
Proof.
  intros Hsame HA Hne Hrun.
  apply Assemble_two_keeps_null in HA as (_ & Hinv & _); [|exact Hsame].
  unfold EPMatrix_destroy in Hrun.
  destruct (for_upto_steps _ _ _ _ Hrun 0%nat ltac:(lia)) as (s0 & s1 & Hstep).
  bind_inv Hstep. bind_inv Hstep. bind_inv Hstep.
  rewrite Hinv in Ha1. discriminate.
Qed.

End Destructor.

(** X14: the destructor reads Mpp_[i] and MppInv_[i] for every
    element without testing the two arrays: on an operator that was
    never assembled it dereferences NULL as soon as the space has an
    element (it returns when the space has none); on an operator that
    Assemble returned over one dof object it returns; on an operator
    over two dof objects it does not return when there is an element,
    also after Assemble, which leaves MppInv_ NULL there. *)
Theorem destructor_needs_Assemble {R : Type} `{!Scalar R}
    (Inverse : DenseMatrix R -> DenseMatrix R) (bfi : Z -> DenseMatrix R)
    (p : DofPair) (d : EPDoFs) (ids : nat -> list Z) (junkR junkP : nat -> R)
    (m : EPMatrix R) :
  ((0 < GetNElements (dofsR p))%Z ->
     EPMatrix_destroy (EPMatrix_new p bfi) = Fail NullDereference) /\
  ((GetNElements (dofsR p) <= 0)%Z ->
     EPMatrix_destroy (EPMatrix_new p bfi) = Ok tt) /\
  (ids_known d ids -> priOffset_ok d ->
   (forall e : nat, (Z.of_nat e < GetNElements d)%Z ->
      (0 <= interiorDofs (fes_ d) (Z.of_nat e))%Z) ->
   Assemble Inverse (EPMatrix_new (SameDofs d) bfi) junkR junkP = Ok m ->
   EPMatrix_destroy m = Ok tt) /\
  (same_dofs p = false ->
   Assemble Inverse (EPMatrix_new p bfi) junkR junkP = Ok m ->
   (0 < GetNElements (dofsR (epdofs m)))%Z ->
   EPMatrix_destroy m <> Ok tt).
Proof.
  split; [apply destroy_unassembled|]. split; [|split; [|apply destroy_two_objects]].
  - intros Hne. unfold EPMatrix_destroy. cbn [epdofs EPMatrix_new].
    replace (Z.to_nat (GetNElements (dofsR p))) with 0%nat by lia. reflexivity.
  - intros Hids Hpo Hnn HA.
    apply (Assemble_same_Mrr Inverse bfi d ids) in HA
      as (st & Hup & Hd & _ & _ & _ & _ & HMpp & HMppInv & _);
      [|exact Hids|exact Hpo|exact Hnn].
    destruct Hup as ((d' & Hd' & Hs & _) & _ & HInv & HMppl & _).
    assert (HN : GetNElements (dofsR (epdofs m)) = GetNElements d).
    { rewrite Hd, Hd'. cbn [dofsR]. apply GetNElements_same_space. exact Hs. }
    apply (destroy_filled m (as_Mpp st)
             (map (fun e => DenseMatrix_Inverse Inverse (pp_block bfi d ids e))
                  (seq 0 (Z.to_nat (GetNElements d))))).
    + exact HMpp.
    + rewrite HMppInv. exact HInv.
    + rewrite HMppl, HN, length_map, length_seq. reflexivity.
    + rewrite HN, length_map, length_seq. reflexivity.
Qed.

Lemma destructor_needs_Assemble_witness :
  EPMatrix_destroy epmatrix_quad = Fail NullDereference /\
  EPMatrix_destroy epmatrix_quad_assembled = Ok tt /\
  (forall m, Assemble Inverse_unit epmatrix_dg_two (fun _ => 0%Z) (fun _ => 0%Z) = Ok m ->
     EPMatrix_destroy m <> Ok tt).
Proof.
  split; [|split].
  - apply (proj1 (destructor_needs_Assemble Inverse_unit (fun _ => elmat_quad)
                    (SameDofs (EPDoFs_new fes_quad)) (EPDoFs_new fes_quad)
                    (fun _ => [0; 1; 2; 3]%Z) (fun _ => 0%Z) (fun _ => 0%Z)
                    epmatrix_quad_assembled)).
    reflexivity.
  - apply (proj1 (proj2 (proj2 (destructor_needs_Assemble Inverse_unit (fun _ => elmat_quad)
                    (SameDofs (EPDoFs_new fes_quad)) (EPDoFs_new fes_quad)
                    (fun _ => [0; 1; 2; 3]%Z) (fun _ => 0%Z) (fun _ => 0%Z)
                    epmatrix_quad_assembled)))).
    + exact ids_known_quad.
    + exact I.
    + intros e He. change (GetNElements (EPDoFs_new fes_quad)) with 1%Z in He.
      assert (e = 0%nat) as -> by lia. vm_compute. discriminate.
    + vm_compute. reflexivity.
  - intros m HA.
    apply (proj2 (proj2 (proj2 (destructor_needs_Assemble Inverse_unit (fun _ => elmat_dg)
                    (TwoDofs (EPDoFs_new fes_dg) (EPDoFs_new fes_dg)) (EPDoFs_new fes_quad)
                    (fun _ => [0; 1; 2; 3]%Z) (fun _ => 0%Z) (fun _ => 0%Z) m)))
             eq_refl HA).
    vm_compute in HA. injection HA as <-. reflexivity.
Defined.

(** ** Which rows Assemble writes in Mep *)

Section MepRows.
Context {R : Type} `{!Scalar R}.
Variable Inverse : DenseMatrix R -> DenseMatrix R.
Variable bfi : Z -> DenseMatrix R.
Variable d : EPDoFs.
Variable ids : nat -> list Z.




End MepRows.



(** ** Assemble over two dof objects *)

Section TwoObjectsExposed.
Context {R : Type} `{!Scalar R}.
Variable Inverse : DenseMatrix R -> DenseMatrix R.
Variable bfi : Z -> DenseMatrix R.
Variable l r : EPDoFs.
Variable idsL idsR : nat -> list Z.

Lemma AddSubMatrix_unsized (A A' : SparseMatrix R) rows cols :
  SparseMatrix_AddSubMatrix A rows cols mrr_unsized = Ok A' ->
  rows = [] \/ cols = [].
Proof.
  destruct rows as [|g rows]; [auto|]. destruct cols as [|h cols]; [auto|].
  intros H. exfalso. unfold SparseMatrix_AddSubMatrix in H.
  cbn [length] in H. unfold for_upto in H. cbn [seq for_loop] in H.
  change (aget (g :: rows) (Z.of_nat 0)) with (Ok (A:=Z) g) in H.
  cbn [mbind result_bind] in H.
  destruct (bool_decide (g < 0)%Z);
    (change (aget (h :: cols) (Z.of_nat 0)) with (Ok (A:=Z) h) in H;
     cbn [mbind result_bind] in H;
     destruct (bool_decide (h < 0)%Z); cbn in H; discriminate).
Qed.

Lemma Assemble_element_unsized (e : nat) (s0 s1 : AsmState R) :
  ids_known l idsL -> ids_known r idsR ->
  (Z.of_nat e < GetNElements l)%Z -> (Z.of_nat e < GetNElements r)%Z ->
  two_upto l r s0 ->
  Assemble_element Inverse bfi e s0 = Ok s1 ->
  two_upto l r s1 /\ (idsL e = [] \/ idsR e = []).
Proof.
  intros HidsL HidsR HeL HeR ((l' & r' & Hdofs & HsL & HsR & HpoL & HpoR) & HInv & Hmrr) H.
  unfold Assemble_element in H. rewrite Hdofs in H. cbn [dofsL dofsR setL setR] in H.
  bind_inv H. destruct a as [[[dL expL] poL] nPriL].
  apply GetElementDofsPri_inv with (ids := idsL) in Ha
    as (-> & -> & -> & HsL' & HpoL' & _);
    [|apply (ids_known_same_space l l'); assumption|exact HpoL
     |rewrite (GetNElements_same_space _ _ HsL); exact HeL].
  bind_inv H. destruct a as [[[dR expR] poR] nPriR].
  apply GetElementDofsPri_inv with (ids := idsR) in Ha
    as (-> & -> & -> & HsR' & HpoR' & _);
    [|apply (ids_known_same_space r r'); assumption|exact HpoR
     |rewrite (GetNElements_same_space _ _ HsR); exact HeR].
  bind_split H as mee Hmee. bind_split H as Mee HMee.
  bind_split H as mep Hmep. bind_split H as Mep HMep.
  bind_split H as Mpe HMpe. bind_split H as mpp Hmpp.
  rewrite HInv, Hmrr in H. cbn [mbind result_bind] in H.
  change (DenseMatrix_add mrr_unsized mee) with (Ok (A:=DenseMatrix R) mrr_unsized) in H.
  cbn [mbind result_bind] in H.
  bind_split H as Mrr HMrr. injection H as <-.
  split.
  - split; [|split; reflexivity].
    exists dL, dR. cbn [as_dofs]. split; [reflexivity|].
    split; [exact (same_space_trans _ _ _ HsL HsL')|].
    split; [exact (same_space_trans _ _ _ HsR HsR')|]. auto.
  - apply (AddSubMatrix_unsized _ _ _ _ HMrr).
Qed.

Lemma Assemble_two_exposed (junkR junkP : nat -> R) (m : EPMatrix R) :
  ids_known l idsL -> ids_known r idsR -> priOffset_ok l -> priOffset_ok r ->
  (GetNElements r <= GetNElements l)%Z ->
  Assemble Inverse (EPMatrix_new (TwoDofs l r) bfi) junkR junkP = Ok m ->
  forall e : nat, (Z.of_nat e < GetNElements r)%Z -> idsL e = [] \/ idsR e = [].
Proof.
  intros HidsL HidsR HpoL HpoR Hle HA. unfold Assemble in HA.
  cbn [epdofs EPMatrix_new dofsL dofsR same_dofs bfi_] in HA.
  bind_split HA as st Hrun. clear HA.
  apply (for_upto_post
    (fun i s => two_upto l r s /\
       forall e : nat, (e < i)%nat -> idsL e = [] \/ idsR e = [])) in Hrun.
  - destruct Hrun as [_ Hrun]. intros e He. apply Hrun. lia.
  - split; [|intros; lia]. split; [|split; reflexivity].
    exists l, r. cbn [as_dofs]. split; [reflexivity|].
    split; [apply same_space_refl|]. split; [apply same_space_refl|]. auto.
  - intros i s0 s1 Hi [Hup Hdone] Hstep.
    destruct (Assemble_element_unsized i s0 s1 HidsL HidsR ltac:(lia) ltac:(lia) Hup Hstep)
      as [Hup' Hi'].
    split; [exact Hup'|]. intros e He.
    destruct (decide (e = i)) as [->|Hne]; [exact Hi'|apply Hdone; lia].
Qed.

End TwoObjectsExposed.

(** X16: with two dof objects Assemble never sizes [mrr]
    (that is done in the branch of the inverses), and scatters it for
    every element all the same: it returns only if no element has an
    exposed dof on the left and one on the right. *)
Theorem Assemble_two_objects_needs_no_exposed_pair {R : Type} `{!Scalar R}
    (Inverse : DenseMatrix R -> DenseMatrix R) (bfi : Z -> DenseMatrix R)
    (l r : EPDoFs) (idsL idsR : nat -> list Z) (junkR junkP : nat -> R)
    (m : EPMatrix R) :
  ids_known l idsL -> ids_known r idsR -> priOffset_ok l -> priOffset_ok r ->
  (GetNElements r <= GetNElements l)%Z ->
  Assemble Inverse (EPMatrix_new (TwoDofs l r) bfi) junkR junkP = Ok m ->
  forall e : nat, (Z.of_nat e < GetNElements r)%Z -> idsL e = [] \/ idsR e = [].
Proof. apply Assemble_two_exposed. Qed.

Lemma fec_dg_nonneg : fec_counts_nonneg fec_dg.
Proof. intros g. destruct g; simpl; lia. Qed.

Lemma ids_known_dg : ids_known (EPDoFs_new fes_dg) (fun _ => []).
Proof.
  intros e old He. change (GetNElements (EPDoFs_new fes_dg)) with 1%Z in He.
  assert (e = 0%nat) as -> by lia.
  unfold GetElementDofs. cbn [expDoFsByElem_ EPDoFs_new fes_].
  rewrite (deriveElementDofs_any_array fes_dg _ old [] fec_dg_nonneg).
  vm_compute. reflexivity.
Qed.

Lemma Assemble_two_objects_needs_no_exposed_pair_witness :
  (exists m, Assemble Inverse_unit epmatrix_dg_two (fun _ => 0%Z) (fun _ => 0%Z) = Ok m) /\
  ((fun _ : nat => @nil Z) 0%nat = [] \/ (fun _ : nat => @nil Z) 0%nat = []).
Proof.
  destruct (Assemble Inverse_unit epmatrix_dg_two (fun _ => 0%Z) (fun _ => 0%Z))
    as [m|f] eqn:HA; [|vm_compute in HA; discriminate].
  split; [exists m; reflexivity|].
  apply (Assemble_two_objects_needs_no_exposed_pair Inverse_unit (fun _ => elmat_dg)
           (EPDoFs_new fes_dg) (EPDoFs_new fes_dg) (fun _ => []) (fun _ => [])
           (fun _ => 0%Z) (fun _ => 0%Z) m ids_known_dg ids_known_dg I I) with (e := 0%nat).
  - reflexivity.
  - exact HA.
  - reflexivity.
Defined.

(** ** Nested loops *)

Lemma for_loop_shift {St} (body : nat -> St -> result St) (a n : nat) s :
  for_loop body (seq a n) s = for_upto n (fun i => body (a + i)%nat) s.
Proof.
  unfold for_upto.
  replace (seq a n) with (Nat.add a <$> seq 0 n)
    by (rewrite fmap_add_seq; f_equal; lia).
  generalize (seq 0 n) as l. intros l. revert s.
  induction l as [|i l IH]; intros s; simpl; [reflexivity|].
  destruct (body (a + i)%nat s); simpl; [apply IH|reflexivity].
Qed.

Lemma for_upto_add {St} (body : nat -> St -> result St) (a b : nat) s :
  for_upto (a + b) body s =
  for_upto a body s ≫= for_upto b (fun i => body (a + i)%nat).
Proof.
  unfold for_upto at 1. rewrite seq_app, for_loop_app. simpl.
  fold (for_upto a body s). destruct (for_upto a body s); simpl; [|reflexivity].
  apply for_loop_shift.
Qed.

(** Two nested loops are one loop over the pairs, in row order. *)
Lemma for_upto_nested {St} (body : nat -> nat -> St -> result St) (n m : nat) s :
  for_upto n (fun d s0 => for_upto m (body d) s0) s =
  for_upto (n * m) (fun q => body (q / m)%nat (q mod m)%nat) s.
Proof.
  induction n as [|n IH]; [reflexivity|].
  rewrite for_upto_S, IH.
  replace (S n * m)%nat with (n * m + m)%nat by lia.
  rewrite for_upto_add.
  destruct (for_upto (n * m) _ s) as [s1|]; simpl; [|reflexivity].
  apply for_upto_ext. intros i s0 Hi.
  replace ((n * m + i) / m)%nat with n.
  2:{ apply (Nat.div_unique _ _ _ i); [exact Hi|lia]. }
  replace ((n * m + i) mod m)%nat with i.
  2:{ apply (Nat.mod_unique _ _ n i); [exact Hi|lia]. }
  reflexivity.
Qed.

(** ** Reordering the node data (geometry.cpp) *)

Lemma copy_back_Ok {A} (n : nat) (temp data : list A) :
  (n <= length temp)%nat -> (n <= length data)%nat ->
  copy_back (Z.of_nat n) temp data = Ok (take n temp ++ drop n data).
Proof.
  intros Ht Hd. unfold copy_back. rewrite Nat2Z.id.
  destruct (for_upto_inv (fun m d0 => d0 = take m temp ++ drop m data) n
    (fun i data0 => t ← aget temp (Z.of_nat i); aset data0 (Z.of_nat i) t) data)
    as (d' & Hrun & ->); [reflexivity| |exact Hrun].
  intros i d0 Hi ->.
  destruct (lookup_lt_is_Some_2 temp i ltac:(lia)) as [t Hti].
  rewrite (aget_lookup _ _ _ Hti). cbn [mbind result_bind].
  unfold aset. rewrite bool_decide_true.
  2:{ rewrite length_app, length_take, length_drop. lia. }
  eexists. split; [reflexivity|]. rewrite Nat2Z.id.
  rewrite (take_S_r _ _ _ Hti).
  rewrite insert_app_r_alt by (rewrite length_take; lia).
  rewrite length_take, Nat.min_l by lia. rewrite Nat.sub_diag.
  destruct (lookup_lt_is_Some_2 data i ltac:(lia)) as [x Hx].
  rewrite (drop_S _ _ _ Hx). simpl. rewrite <- app_assoc. reflexivity.
Qed.

Lemma pair_index_lt (d v n m : nat) :
  (d < n)%nat -> (v < m)%nat -> (d + v * n < n * m)%nat.
Proof. intros Hd Hv. nia. Qed.

Lemma div_mod_lt (q n m : nat) :
  (q < n * m)%nat -> (q / m < n)%nat /\ (q mod m < m)%nat.
Proof.
  intros Hq. assert (m <> 0)%nat by lia. split.
  - apply Nat.Div0.div_lt_upper_bound. lia.
  - apply Nat.mod_upper_bound. assumption.
Qed.

Section Reorder.
Context {A : Type}.
Variable n m : nat.
Variable junk : nat -> A.
Variable data : list A.
Hypothesis Hdata : length data = (n * m)%nat.

(** The gather loop of ReorderByVDim. *)
Lemma gather_by_vdim :
  exists temp,
    for_upto n
      (fun d '(temp, k) =>
         for_upto m
           (fun v '(temp, k) =>
              x ← aget data (Z.of_nat d + Z.of_nat v * Z.of_nat n)%Z;
              temp' ← aset temp k x;
              Ok (temp', (k + 1)%Z))
           (temp, k))
      (new_array (Z.of_nat (n * m)) junk, 0%Z) = Ok (temp, Z.of_nat (n * m)) /\
    length temp = (n * m)%nat /\
    forall q, (q < n * m)%nat -> temp !! q = data !! (q / m + (q mod m) * n)%nat.
Proof using Type*.
  rewrite (for_upto_ext _
    (fun d s0 => for_upto m
       (fun v (st : list A * Z) =>
          x ← aget data (Z.of_nat d + Z.of_nat v * Z.of_nat n)%Z;
          temp' ← aset (fst st) (snd st) x;
          Ok (temp', (snd st + 1)%Z)) s0)).
  2:{ intros d [t k] _. apply for_upto_ext. intros v [t' k'] _. reflexivity. }
  rewrite (for_upto_nested
    (fun d v (st : list A * Z) =>
       x ← aget data (Z.of_nat d + Z.of_nat v * Z.of_nat n)%Z;
       temp' ← aset (fst st) (snd st) x;
       Ok (temp', (snd st + 1)%Z))).
  destruct (for_upto_inv
    (fun q (st : list A * Z) =>
       snd st = Z.of_nat q /\ length (fst st) = (n * m)%nat /\
       forall q', (q' < q)%nat -> fst st !! q' = data !! (q' / m + (q' mod m) * n)%nat)
    (n * m)
    (fun q (st : list A * Z) =>
       x ← aget data (Z.of_nat (q / m) + Z.of_nat (q mod m) * Z.of_nat n)%Z;
       temp' ← aset (fst st) (snd st) x;
       Ok (temp', (snd st + 1)%Z))
    (new_array (Z.of_nat (n * m)) junk, 0%Z))
    as ([temp k] & Hrun & Hk & Hlen & Hval).
  - split; [reflexivity|]. split; [|intros; lia].
    unfold new_array. simpl. rewrite length_map, length_seq, Nat2Z.id. reflexivity.
  - intros q [t k] Hq (Hk & Hlen & Hval). simpl in Hk, Hlen, Hval. subst k.
    destruct (div_mod_lt q n m Hq) as [Hd Hv].
    pose proof (pair_index_lt _ _ _ _ Hd Hv) as Hidx.
    destruct (lookup_lt_is_Some_2 data (q / m + (q mod m) * n)%nat ltac:(lia)) as [x Hx].
    replace (Z.of_nat (q / m) + Z.of_nat (q mod m) * Z.of_nat n)%Z
      with (Z.of_nat (q / m + (q mod m) * n)) by lia.
    rewrite (aget_lookup _ _ _ Hx). cbn [mbind result_bind fst snd].
    unfold aset. rewrite bool_decide_true by lia. cbn [mbind result_bind].
    eexists. split; [reflexivity|]. cbn [fst snd].
    split; [lia|]. split; [rewrite length_insert; exact Hlen|].
    intros q' Hq'. rewrite Nat2Z.id.
    destruct (decide (q' = q)) as [->|Hne].
    + rewrite list_lookup_insert_eq by lia. symmetry. exact Hx.
    + rewrite list_lookup_insert_ne by lia. apply Hval. lia.
  - simpl in Hk, Hlen, Hval. subst k. exists temp. auto.
Qed.

(** No two steps of the scatter loop of ReorderByNodes write the same
    place. *)
Lemma scatter_place_inj (q q' : nat) :
  (q < n * m)%nat -> (q' < n * m)%nat ->
  (q / m + (q mod m) * n = q' / m + (q' mod m) * n)%nat -> q = q'.
Proof using Type*.
  intros Hq Hq' Heq.
  destruct (div_mod_lt q n m Hq) as [Hd Hv].
  destruct (div_mod_lt q' n m Hq') as [Hd' Hv'].
  assert (Hm : (q mod m = q' mod m)%nat) by nia.
  assert (Hd2 : (q / m = q' / m)%nat) by nia.
  rewrite (Nat.div_mod_eq q m), (Nat.div_mod_eq q' m), Hm, Hd2. reflexivity.
Qed.

(** The scatter loop of ReorderByNodes. *)
Lemma scatter_by_nodes :
  exists temp,
    for_upto n
      (fun j '(temp, k) =>
         for_upto m
           (fun i '(temp, k) =>
              x ← aget data k;
              temp' ← aset temp (Z.of_nat j + Z.of_nat i * Z.of_nat n)%Z x;
              Ok (temp', (k + 1)%Z))
           (temp, k))
      (new_array (Z.of_nat (n * m)) junk, 0%Z) = Ok (temp, Z.of_nat (n * m)) /\
    length temp = (n * m)%nat /\
    forall q, (q < n * m)%nat -> temp !! (q / m + (q mod m) * n)%nat = data !! q.
Proof using Type*.
  rewrite (for_upto_ext _
    (fun j s0 => for_upto m
       (fun i (st : list A * Z) =>
          x ← aget data (snd st);
          temp' ← aset (fst st) (Z.of_nat j + Z.of_nat i * Z.of_nat n)%Z x;
          Ok (temp', (snd st + 1)%Z)) s0)).
  2:{ intros d [t k] _. apply for_upto_ext. intros v [t' k'] _. reflexivity. }
  rewrite (for_upto_nested
    (fun j i (st : list A * Z) =>
       x ← aget data (snd st);
       temp' ← aset (fst st) (Z.of_nat j + Z.of_nat i * Z.of_nat n)%Z x;
       Ok (temp', (snd st + 1)%Z))).
  destruct (for_upto_inv
    (fun q (st : list A * Z) =>
       snd st = Z.of_nat q /\ length (fst st) = (n * m)%nat /\
       forall q', (q' < q)%nat ->
         fst st !! (q' / m + (q' mod m) * n)%nat = data !! q')
    (n * m)
    (fun q (st : list A * Z) =>
       x ← aget data (snd st);
       temp' ← aset (fst st) (Z.of_nat (q / m) + Z.of_nat (q mod m) * Z.of_nat n)%Z x;
       Ok (temp', (snd st + 1)%Z))
    (new_array (Z.of_nat (n * m)) junk, 0%Z))
    as ([temp k] & Hrun & Hk & Hlen & Hval).
  - split; [reflexivity|]. split; [|intros; lia].
    unfold new_array. simpl. rewrite length_map, length_seq, Nat2Z.id. reflexivity.
  - intros q [t k] Hq (Hk & Hlen & Hval). simpl in Hk, Hlen, Hval. subst k.
    destruct (div_mod_lt q n m Hq) as [Hd Hv].
    pose proof (pair_index_lt _ _ _ _ Hd Hv) as Hidx.
    destruct (lookup_lt_is_Some_2 data q ltac:(lia)) as [x Hx].
    cbn [fst snd]. rewrite (aget_lookup _ _ _ Hx). cbn [mbind result_bind].
    replace (Z.of_nat (q / m) + Z.of_nat (q mod m) * Z.of_nat n)%Z
      with (Z.of_nat (q / m + (q mod m) * n)) by lia.
    unfold aset. rewrite bool_decide_true by lia. cbn [mbind result_bind].
    eexists. split; [reflexivity|]. cbn [fst snd].
    split; [lia|]. split; [rewrite length_insert; exact Hlen|].
    intros q' Hq'. rewrite Nat2Z.id.
    destruct (decide (q' = q)) as [->|Hne].
    + rewrite list_lookup_insert_eq by lia. symmetry. exact Hx.
    + rewrite list_lookup_insert_ne.
      * apply Hval. lia.
      * intros Heq. apply Hne. symmetry. apply scatter_place_inj; [lia|lia|exact Heq].
  - simpl in Hk, Hlen, Hval. subst k. exists temp. auto.
Qed.

End Reorder.

Lemma ReorderByVDim_spec {A} (size vdim ndofs : Z) (junk : nat -> A) (data : list A) :
  (0 <= vdim)%Z -> (0 <= ndofs)%Z -> size = (vdim * ndofs)%Z ->
  Z.of_nat (length data) = size ->
  exists data', ReorderByVDim size vdim ndofs junk data = Ok data' /\
    length data' = length data /\
    forall q, (q < length data)%nat ->
      data' !! q = data !! (q / Z.to_nat vdim + (q mod Z.to_nat vdim) * Z.to_nat ndofs)%nat.
Proof.
  intros Hv Hn Hsize Hlen.
  set (n := Z.to_nat ndofs). set (m := Z.to_nat vdim).
  assert (Hdata : length data = (n * m)%nat) by (unfold n, m; nia).
  destruct (gather_by_vdim n m junk data Hdata) as (temp & Hrun & Htl & Hval).
  unfold ReorderByVDim. fold n. fold m.
  replace ndofs with (Z.of_nat n) by (unfold n; lia).
  replace size with (Z.of_nat (n * m)) by (unfold n, m; nia).
  rewrite Hrun. cbn [mbind result_bind].
  rewrite copy_back_Ok by lia.
  rewrite take_ge, drop_ge, app_nil_r by lia.
  exists temp. split; [reflexivity|]. split; [lia|].
  intros q Hq. apply Hval. lia.
Qed.

Lemma ReorderByNodes_spec {A} (size vdim ndofs : Z) (junk : nat -> A) (data : list A) :
  (0 <= vdim)%Z -> (0 <= ndofs)%Z -> size = (vdim * ndofs)%Z ->
  Z.of_nat (length data) = size ->
  exists data', ReorderByNodes size vdim ndofs junk data = Ok data' /\
    length data' = length data /\
    forall q, (q < length data)%nat ->
      data' !! (q / Z.to_nat vdim + (q mod Z.to_nat vdim) * Z.to_nat ndofs)%nat = data !! q.
Proof.
  intros Hv Hn Hsize Hlen.
  set (n := Z.to_nat ndofs). set (m := Z.to_nat vdim).
  assert (Hdata : length data = (n * m)%nat) by (unfold n, m; nia).
  destruct (scatter_by_nodes n m junk data Hdata) as (temp & Hrun & Htl & Hval).
  unfold ReorderByNodes. fold n. fold m.
  replace ndofs with (Z.of_nat n) by (unfold n; lia).
  replace size with (Z.of_nat (n * m)) by (unfold n, m; nia).
  rewrite Hrun. cbn [mbind result_bind].
  rewrite copy_back_Ok by lia.
  rewrite take_ge, drop_ge, app_nil_r by lia.
  exists temp. split; [reflexivity|]. split; [lia|].
  intros q Hq. apply Hval. lia.
Qed.

(** Every place below n * m is the place of one pair (d, v). *)
Lemma place_of_pair (n m d v : nat) :
  (d < n)%nat -> (v < m)%nat ->
  ((d * m + v) / m = d /\ (d * m + v) mod m = v)%nat.
Proof.
  intros Hd Hv. split.
  - symmetry. apply (Nat.div_unique _ _ _ v); [exact Hv|lia].
  - symmetry. apply (Nat.mod_unique _ _ d v); [exact Hv|lia].
Qed.

Lemma reorder_round_trip_places (n m p : nat) :
  (p < n * m)%nat ->
  let q := ((p mod n) * m + p / n)%nat in
  (q < n * m /\ q / m + (q mod m) * n = p)%nat.
Proof.
  intros Hp q.
  assert (Hn : n <> 0%nat) by lia.
  assert (Hj : (p mod n < n)%nat) by (apply Nat.mod_upper_bound; exact Hn).
  assert (Hi : (p / n < m)%nat) by (apply Nat.Div0.div_lt_upper_bound; lia).
  destruct (place_of_pair n m (p mod n) (p / n) Hj Hi) as [H1 H2].
  unfold q. rewrite H1, H2. split; [nia|].
  pose proof (Nat.div_mod_eq p n). lia.
Qed.

(** X17: on node data of [vdim * ndofs] entries ReorderByVDim
    returns, and puts component v of node d, which the by-nodes layout
    keeps at [d + v * ndofs], at [d * vdim + v]; the length is kept. *)
Theorem ReorderByVDim_places {A} (size vdim ndofs : Z) (junk : nat -> A)
    (data : list A) :
  (0 <= vdim)%Z -> (0 <= ndofs)%Z -> size = (vdim * ndofs)%Z ->
  Z.of_nat (length data) = size ->
  exists data', ReorderByVDim size vdim ndofs junk data = Ok data' /\
    length data' = length data /\
    forall d v : nat, (Z.of_nat d < ndofs)%Z -> (Z.of_nat v < vdim)%Z ->
      data' !! (d * Z.to_nat vdim + v)%nat = data !! (d + v * Z.to_nat ndofs)%nat.
Proof.
  intros Hv Hn Hsize Hlen.
  destruct (ReorderByVDim_spec size vdim ndofs junk data Hv Hn Hsize Hlen)
    as (data' & Hrun & Hl & Hval).
  exists data'. split; [exact Hrun|]. split; [exact Hl|].
  intros d v Hd Hvv.
  destruct (place_of_pair (Z.to_nat ndofs) (Z.to_nat vdim) d v ltac:(lia) ltac:(lia))
    as [H1 H2].
  rewrite Hval by nia. rewrite H1, H2. reflexivity.
Qed.

Lemma ReorderByVDim_places_witness :
  exists data', ReorderByVDim 6 2 3 (fun _ => 0%Z) [1; 2; 3; 4; 5; 6]%Z = Ok data' /\
    length data' = 6%nat /\
    forall d v : nat, (Z.of_nat d < 3)%Z -> (Z.of_nat v < 2)%Z ->
      data' !! (d * 2 + v)%nat = [1; 2; 3; 4; 5; 6]%Z !! (d + v * 3)%nat.
Proof.
  apply (ReorderByVDim_places 6 2 3 (fun _ => 0%Z) [1; 2; 3; 4; 5; 6]%Z);
    [lia|lia|reflexivity|reflexivity].
Defined.

(** X18: on node data of [vdim * ndofs] entries ReorderByNodes
    returns, and puts component i of node j, which the by-vdim layout
    keeps at [j * vdim + i], at [j + i * ndofs]; the length is kept. *)
Theorem ReorderByNodes_places {A} (size vdim ndofs : Z) (junk : nat -> A)
    (data : list A) :
  (0 <= vdim)%Z -> (0 <= ndofs)%Z -> size = (vdim * ndofs)%Z ->
  Z.of_nat (length data) = size ->
  exists data', ReorderByNodes size vdim ndofs junk data = Ok data' /\
    length data' = length data /\
    forall j i : nat, (Z.of_nat j < ndofs)%Z -> (Z.of_nat i < vdim)%Z ->
      data' !! (j + i * Z.to_nat ndofs)%nat = data !! (j * Z.to_nat vdim + i)%nat.
Proof.
  intros Hv Hn Hsize Hlen.
  destruct (ReorderByNodes_spec size vdim ndofs junk data Hv Hn Hsize Hlen)
    as (data' & Hrun & Hl & Hval).
  exists data'. split; [exact Hrun|]. split; [exact Hl|].
  intros j i Hj Hi.
  destruct (place_of_pair (Z.to_nat ndofs) (Z.to_nat vdim) j i ltac:(lia) ltac:(lia))
    as [H1 H2].
  rewrite <- Hval by nia. rewrite H1, H2. reflexivity.
Qed.

Lemma ReorderByNodes_places_witness :
  exists data', ReorderByNodes 6 2 3 (fun _ => 0%Z) [1; 2; 3; 4; 5; 6]%Z = Ok data' /\
    length data' = 6%nat /\
    forall j i : nat, (Z.of_nat j < 3)%Z -> (Z.of_nat i < 2)%Z ->
      data' !! (j + i * 3)%nat = [1; 2; 3; 4; 5; 6]%Z !! (j * 2 + i)%nat.
Proof.
  apply (ReorderByNodes_places 6 2 3 (fun _ => 0%Z) [1; 2; 3; 4; 5; 6]%Z);
    [lia|lia|reflexivity|reflexivity].
Defined.

(** X19: ReorderByNodes undoes ReorderByVDim, as Geometry::Get
    relies on when it reorders the nodes of the mesh and then reorders
    "the original gf back", and ReorderByVDim undoes ReorderByNodes:
    on node data of [vdim * ndofs] entries either pair of calls returns
    the data it was given, whatever the scratch arrays held. *)
Theorem Reorder_round_trip {A} (size vdim ndofs : Z) (junk1 junk2 : nat -> A)
    (data : list A) :
  (0 <= vdim)%Z -> (0 <= ndofs)%Z -> size = (vdim * ndofs)%Z ->
  Z.of_nat (length data) = size ->
  (exists d1, ReorderByVDim size vdim ndofs junk1 data = Ok d1 /\
              ReorderByNodes size vdim ndofs junk2 d1 = Ok data) /\
  (exists d2, ReorderByNodes size vdim ndofs junk1 data = Ok d2 /\
              ReorderByVDim size vdim ndofs junk2 d2 = Ok data).
Proof.
  intros Hv Hn Hsize Hlen.
  set (n := Z.to_nat ndofs). set (m := Z.to_nat vdim).
  assert (Hdata : length data = (n * m)%nat) by (unfold n, m; nia).
  split.
  - destruct (ReorderByVDim_spec size vdim ndofs junk1 data Hv Hn Hsize Hlen)
      as (d1 & Hrun1 & Hl1 & Hval1).
    destruct (ReorderByNodes_spec size vdim ndofs junk2 d1 Hv Hn Hsize ltac:(lia))
      as (d2 & Hrun2 & Hl2 & Hval2).
    exists d1. split; [exact Hrun1|]. rewrite Hrun2. f_equal.
    apply list_eq. intros p.
    destruct (decide (p < n * m)%nat) as [Hp|Hp].
    + destruct (reorder_round_trip_places n m p Hp) as [Hq Hpq].
      fold n m in Hval1, Hval2.
      rewrite <- Hpq at 1. rewrite Hval2 by lia. rewrite Hval1 by lia.
      rewrite Hpq. reflexivity.
    + rewrite !lookup_ge_None_2 by lia. reflexivity.
  - destruct (ReorderByNodes_spec size vdim ndofs junk1 data Hv Hn Hsize Hlen)
      as (d1 & Hrun1 & Hl1 & Hval1).
    destruct (ReorderByVDim_spec size vdim ndofs junk2 d1 Hv Hn Hsize ltac:(lia))
      as (d2 & Hrun2 & Hl2 & Hval2).
    exists d1. split; [exact Hrun1|]. rewrite Hrun2. f_equal.
    apply list_eq. intros q.
    destruct (decide (q < n * m)%nat) as [Hq|Hq].
    + rewrite Hval2 by lia. apply Hval1. lia.
    + rewrite !lookup_ge_None_2 by lia. reflexivity.
Qed.

Lemma Reorder_round_trip_witness :
  (exists d1, ReorderByVDim 6 2 3 (fun _ => 0%Z) [1; 2; 3; 4; 5; 6]%Z = Ok d1 /\
              ReorderByNodes 6 2 3 (fun _ => 9%Z) d1 = Ok [1; 2; 3; 4; 5; 6]%Z) /\
  (exists d2, ReorderByNodes 6 2 3 (fun _ => 0%Z) [1; 2; 3; 4; 5; 6]%Z = Ok d2 /\
              ReorderByVDim 6 2 3 (fun _ => 9%Z) d2 = Ok [1; 2; 3; 4; 5; 6]%Z).
Proof.
  apply (Reorder_round_trip 6 2 3 (fun _ => 0%Z) (fun _ => 9%Z) [1; 2; 3; 4; 5; 6]%Z);
    [lia|lia|reflexivity|reflexivity].
Defined.

(** ** Gathering the nodes of the elements (geometry.cpp) *)

(** [for (v = 0; v < D; v++) dst[v + D*lid] = src[so + v*stride]]. *)
Lemma copy_node {A} (D lid so stride : nat) (src dst : list A) :
  (D * lid + D <= length dst)%nat ->
  (forall v, (v < D)%nat -> (so + v * stride < length src)%nat) ->
  exists dst',
    for_upto D
      (fun v dst0 =>
         x ← aget src (Z.of_nat so + Z.of_nat v * Z.of_nat stride)%Z;
         aset dst0 (Z.of_nat v + Z.of_nat D * Z.of_nat lid)%Z x) dst = Ok dst' /\
    length dst' = length dst /\
    (forall v, (v < D)%nat -> dst' !! (D * lid + v)%nat = src !! (so + v * stride)%nat) /\
    (forall p, (p < D * lid \/ D * lid + D <= p)%nat -> dst' !! p = dst !! p).
Proof.
  intros Hfit Hsrc.
  destruct (for_upto_inv
    (fun m d0 => length d0 = length dst /\
       (forall v, (v < m)%nat -> d0 !! (D * lid + v)%nat = src !! (so + v * stride)%nat) /\
       (forall p, (p < D * lid \/ D * lid + m <= p)%nat -> d0 !! p = dst !! p))
    D
    (fun v dst0 =>
       x ← aget src (Z.of_nat so + Z.of_nat v * Z.of_nat stride)%Z;
       aset dst0 (Z.of_nat v + Z.of_nat D * Z.of_nat lid)%Z x) dst)
    as (dst' & Hrun & Hl & Hval & Hkeep).
  - split; [reflexivity|]. split; [intros; lia|]. reflexivity.
  - intros v d0 Hv (Hl & Hval & Hkeep).
    destruct (lookup_lt_is_Some_2 src (so + v * stride)%nat (Hsrc v Hv)) as [x Hx].
    replace (Z.of_nat so + Z.of_nat v * Z.of_nat stride)%Z
      with (Z.of_nat (so + v * stride)) by lia.
    rewrite (aget_lookup _ _ _ Hx). cbn [mbind result_bind].
    replace (Z.of_nat v + Z.of_nat D * Z.of_nat lid)%Z
      with (Z.of_nat (D * lid + v)) by lia.
    unfold aset. rewrite bool_decide_true by lia.
    eexists. split; [reflexivity|]. rewrite Nat2Z.id.
    split; [rewrite length_insert; exact Hl|]. split.
    + intros v' Hv'. destruct (decide (v' = v)) as [->|Hne].
      * rewrite list_lookup_insert_eq by lia. symmetry. exact Hx.
      * rewrite list_lookup_insert_ne by lia. apply Hval. lia.
    + intros p Hp. rewrite list_lookup_insert_ne by lia. apply Hkeep. lia.
  - exists dst'. split; [exact Hrun|]. split; [exact Hl|]. split; [exact Hval|].
    intros p Hp. apply Hkeep. lia.
Qed.

Lemma GeomFill_spec {A} (dims : Z) (elements numDofs : nat)
    (elementMap eMap : list Z) (nodes meshNodes : list A) :
  (0 <= dims)%Z ->
  (elements * numDofs <= length elementMap)%nat ->
  (elements * numDofs <= length eMap)%nat ->
  (Z.to_nat dims * (elements * numDofs) <= length meshNodes)%nat ->
  (forall lid gid, (lid < elements * numDofs)%nat -> elementMap !! lid = Some gid ->
     (0 <= gid)%Z /\ (dims * gid + dims <= Z.of_nat (length nodes))%Z) ->
  exists eMap' meshNodes',
    GeomFill dims elements numDofs elementMap eMap nodes meshNodes
      = Ok (eMap', meshNodes') /\
    length eMap' = length eMap /\ length meshNodes' = length meshNodes /\
    (forall lid, (lid < elements * numDofs)%nat -> eMap' !! lid = elementMap !! lid) /\
    (forall lid, (elements * numDofs <= lid)%nat -> eMap' !! lid = eMap !! lid) /\
    (forall lid gid v, (lid < elements * numDofs)%nat -> elementMap !! lid = Some gid ->
       (v < Z.to_nat dims)%nat ->
       meshNodes' !! (Z.to_nat dims * lid + v)%nat
         = nodes !! (Z.to_nat dims * Z.to_nat gid + v)%nat) /\
    (forall p, (Z.to_nat dims * (elements * numDofs) <= p)%nat ->
       meshNodes' !! p = meshNodes !! p).
Proof.
  intros Hdims HlM Hle Hlm Hgid.
  set (D := Z.to_nat dims). fold D in Hlm.
  unfold GeomFill.
  rewrite (for_upto_nested
    (fun e d (st : list Z * list A) =>
       let '(eMap, meshNodes) := st in
       let lid := (Z.of_nat d + Z.of_nat numDofs * Z.of_nat e)%Z in
       gid ← aget elementMap lid;
       eMap ← aset eMap lid gid;
       meshNodes ← for_upto (Z.to_nat dims)
         (fun v meshNodes =>
            let moffset := (Z.of_nat v + dims * lid)%Z in
            let xoffset := (Z.of_nat v + dims * gid)%Z in
            x ← aget nodes xoffset;
            aset meshNodes moffset x)
         meshNodes;
       Ok (eMap, meshNodes))).
  destruct (for_upto_inv
    (fun q (st : list Z * list A) =>
       length (fst st) = length eMap /\ length (snd st) = length meshNodes /\
       (forall lid, (lid < q)%nat -> fst st !! lid = elementMap !! lid) /\
       (forall lid, (q <= lid)%nat -> fst st !! lid = eMap !! lid) /\
       (forall lid gid v, (lid < q)%nat -> elementMap !! lid = Some gid ->
          (v < D)%nat ->
          snd st !! (D * lid + v)%nat = nodes !! (D * Z.to_nat gid + v)%nat) /\
       (forall p, (D * q <= p)%nat -> snd st !! p = meshNodes !! p))
    (elements * numDofs)
    (fun q (st : list Z * list A) =>
       let '(eMap, meshNodes) := st in
       let lid := (Z.of_nat (q mod numDofs) + Z.of_nat numDofs * Z.of_nat (q / numDofs))%Z in
       gid ← aget elementMap lid;
       eMap ← aset eMap lid gid;
       meshNodes ← for_upto (Z.to_nat dims)
         (fun v meshNodes =>
            let moffset := (Z.of_nat v + dims * lid)%Z in
            let xoffset := (Z.of_nat v + dims * gid)%Z in
            x ← aget nodes xoffset;
            aset meshNodes moffset x)
         meshNodes;
       Ok (eMap, meshNodes))
    (eMap, meshNodes))
    as ([eMap' mn'] & Hrun & Hl1 & Hl2 & He1 & He2 & Hm1 & Hm2).
  - cbn [fst snd]. repeat split; auto; intros; lia.
  - intros q [em mn] Hq (Hl1 & Hl2 & He1 & He2 & Hm1 & Hm2). cbn [fst snd] in *.
    cbv zeta.
    replace (Z.of_nat (q mod numDofs) + Z.of_nat numDofs * Z.of_nat (q / numDofs))%Z
      with (Z.of_nat q) by (pose proof (Nat.div_mod_eq q numDofs); lia).
    destruct (lookup_lt_is_Some_2 elementMap q ltac:(lia)) as [gid Hg].
    rewrite (aget_lookup _ _ _ Hg). cbn [mbind result_bind].
    assert (Hset : aset em (Z.of_nat q) gid = Ok (<[q := gid]> em)).
    { unfold aset. rewrite bool_decide_true by lia. rewrite Nat2Z.id. reflexivity. }
    rewrite Hset. cbn [mbind result_bind].
    destruct (Hgid q gid Hq Hg) as [Hg0 Hg1].
    destruct (copy_node D q (D * Z.to_nat gid) 1 nodes mn) as (mn1 & Hmn1 & Hlmn1 & Hv1 & Hk1).
    { nia. }
    { intros v Hv. unfold D in *. nia. }
    rewrite (for_upto_ext _
      (fun v dst0 =>
         x ← aget nodes (Z.of_nat (D * Z.to_nat gid) + Z.of_nat v * Z.of_nat 1)%Z;
         aset dst0 (Z.of_nat v + Z.of_nat D * Z.of_nat q)%Z x)).
    2:{ intros v s0 Hv.
        replace (Z.of_nat (D * Z.to_nat gid) + Z.of_nat v * Z.of_nat 1)%Z
          with (Z.of_nat v + dims * gid)%Z by (unfold D; lia).
        replace (Z.of_nat D) with dims by (unfold D; lia). reflexivity. }
    fold D. rewrite Hmn1. cbn [mbind result_bind].
    eexists. split; [reflexivity|]. cbn [fst snd].
    split; [rewrite length_insert; exact Hl1|]. split; [lia|]. split.
    { intros lid Hlid. destruct (decide (lid = q)) as [->|Hne].
      - rewrite list_lookup_insert_eq by lia. symmetry. exact Hg.
      - rewrite list_lookup_insert_ne by lia. apply He1. lia. }
    split.
    { intros lid Hlid. rewrite list_lookup_insert_ne by lia. apply He2. lia. }
    split.
    { intros lid gid' v Hlid Hg' Hv. destruct (decide (lid = q)) as [->|Hne].
      - assert (gid' = gid) as -> by congruence.
        rewrite Hv1 by exact Hv. f_equal. lia.
      - rewrite Hk1 by nia. apply (Hm1 lid gid' v); [lia|exact Hg'|exact Hv]. }
    { intros p Hp. rewrite Hk1 by nia. apply Hm2. nia. }
  - cbn [fst snd] in *. exists eMap', mn'. split; [exact Hrun|]. auto 10.
Qed.

Lemma NodeCopyByVDim_spec {A} (elements numDofs ndofs dims : Z)
    (eMap : list Z) (Sx nodes : list A) :
  (0 <= elements)%Z -> (0 <= numDofs)%Z -> (0 <= ndofs)%Z -> (0 <= dims)%Z ->
  (elements * numDofs <= Z.of_nat (length eMap))%Z ->
  (dims * (elements * numDofs) <= Z.of_nat (length nodes))%Z ->
  (dims * ndofs <= Z.of_nat (length Sx))%Z ->
  (forall lid gid, (Z.of_nat lid < elements * numDofs)%Z -> eMap !! lid = Some gid ->
     (0 <= gid < ndofs)%Z) ->
  exists nodes',
    NodeCopyByVDim elements numDofs ndofs dims eMap Sx nodes = Ok nodes' /\
    length nodes' = length nodes /\
    (forall lid gid v, (Z.of_nat lid < elements * numDofs)%Z -> eMap !! lid = Some gid ->
       (v < Z.to_nat dims)%nat ->
       nodes' !! (Z.to_nat dims * lid + v)%nat
         = Sx !! (Z.to_nat gid + v * Z.to_nat ndofs)%nat) /\
    (forall p, (Z.to_nat dims * Z.to_nat (elements * numDofs) <= p)%nat ->
       nodes' !! p = nodes !! p).
Proof.
  intros HE HN Hnd HD Hle Hln HlS Hgid.
  set (D := Z.to_nat dims). set (E := Z.to_nat elements). set (N := Z.to_nat numDofs).
  assert (HEN : Z.to_nat (elements * numDofs) = (E * N)%nat) by (unfold E, N; nia).
  unfold NodeCopyByVDim. fold E N.
  rewrite (for_upto_nested
    (fun e dof (nodes : list A) =>
       let lid := (Z.of_nat dof + numDofs * Z.of_nat e)%Z in
       gid ← aget eMap lid;
       for_upto (Z.to_nat dims)
         (fun v nodes =>
            let moffset := (Z.of_nat v + dims * lid)%Z in
            let voffset := (gid + Z.of_nat v * ndofs)%Z in
            x ← aget Sx voffset;
            aset nodes moffset x)
         nodes)).
  destruct (for_upto_inv
    (fun q (nd : list A) =>
       length nd = length nodes /\
       (forall lid gid v, (lid < q)%nat -> eMap !! lid = Some gid -> (v < D)%nat ->
          nd !! (D * lid + v)%nat = Sx !! (Z.to_nat gid + v * Z.to_nat ndofs)%nat) /\
       (forall p, (D * q <= p)%nat -> nd !! p = nodes !! p))
    (E * N)
    (fun q (nodes : list A) =>
       let lid := (Z.of_nat (q mod N) + numDofs * Z.of_nat (q / N))%Z in
       gid ← aget eMap lid;
       for_upto (Z.to_nat dims)
         (fun v nodes =>
            let moffset := (Z.of_nat v + dims * lid)%Z in
            let voffset := (gid + Z.of_nat v * ndofs)%Z in
            x ← aget Sx voffset;
            aset nodes moffset x)
         nodes)
    nodes) as (nodes' & Hrun & Hl & Hval & Hkeep).
  - repeat split; auto; intros; lia.
  - intros q nd Hq (Hl & Hval & Hkeep). cbv zeta.
    replace (Z.of_nat (q mod N) + numDofs * Z.of_nat (q / N))%Z with (Z.of_nat q).
    2:{ pose proof (Nat.div_mod_eq q N). unfold N in *. nia. }
    destruct (lookup_lt_is_Some_2 eMap q ltac:(nia)) as [gid Hg].
    rewrite (aget_lookup _ _ _ Hg). cbn [mbind result_bind].
    destruct (Hgid q gid ltac:(nia) Hg) as [Hg0 Hg1].
    destruct (copy_node D q (Z.to_nat gid) (Z.to_nat ndofs) Sx nd)
      as (nd1 & Hnd1 & Hlnd1 & Hv1 & Hk1).
    { unfold D in *. nia. }
    { intros v Hv. unfold D in *. nia. }
    rewrite (for_upto_ext _
      (fun v dst0 =>
         x ← aget Sx (Z.of_nat (Z.to_nat gid) + Z.of_nat v * Z.of_nat (Z.to_nat ndofs))%Z;
         aset dst0 (Z.of_nat v + Z.of_nat D * Z.of_nat q)%Z x)).
    2:{ intros v s0 Hv. rewrite !Z2Nat.id by lia.
        replace (Z.of_nat D) with dims by (unfold D; lia). reflexivity. }
    fold D. rewrite Hnd1.
    eexists. split; [reflexivity|].
    split; [lia|]. split.
    { intros lid gid' v Hlid Hg' Hv. destruct (decide (lid = q)) as [->|Hne].
      - assert (gid' = gid) as -> by congruence. apply Hv1. exact Hv.
      - rewrite Hk1 by nia. apply (Hval lid gid' v); [lia|exact Hg'|exact Hv]. }
    { intros p Hp. rewrite Hk1 by nia. apply Hkeep. nia. }
  - exists nodes'. split; [exact Hrun|]. split; [exact Hl|]. split.
    + intros lid gid v Hlid Hg Hv. apply (Hval lid gid v); [nia|exact Hg|exact Hv].
    + intros p Hp. apply Hkeep. rewrite HEN in Hp. exact Hp.
Qed.

(** X20: GeomFill returns when the arrays are long enough and
    every entry of the element map names a node of [nodes]; it copies
    the first [elements * numDofs] entries of the element map into
    [eMap] and, for each of them, the [dims] coordinates of the node it
    names into [meshNodes], element after element; what lies beyond in
    the two arrays is left as it was. *)
Theorem GeomFill_gathers {A} (dims : Z) (elements numDofs : nat)
    (elementMap eMap : list Z) (nodes meshNodes : list A) :
  (0 <= dims)%Z ->
  (elements * numDofs <= length elementMap)%nat ->
  (elements * numDofs <= length eMap)%nat ->
  (Z.to_nat dims * (elements * numDofs) <= length meshNodes)%nat ->
  (forall lid gid, (lid < elements * numDofs)%nat -> elementMap !! lid = Some gid ->
     (0 <= gid)%Z /\ (dims * gid + dims <= Z.of_nat (length nodes))%Z) ->
  exists eMap' meshNodes',
    GeomFill dims elements numDofs elementMap eMap nodes meshNodes
      = Ok (eMap', meshNodes') /\
    length eMap' = length eMap /\ length meshNodes' = length meshNodes /\
    (forall lid, (lid < elements * numDofs)%nat -> eMap' !! lid = elementMap !! lid) /\
    (forall lid, (elements * numDofs <= lid)%nat -> eMap' !! lid = eMap !! lid) /\
    (forall lid gid v, (lid < elements * numDofs)%nat -> elementMap !! lid = Some gid ->
       (v < Z.to_nat dims)%nat ->
       meshNodes' !! (Z.to_nat dims * lid + v)%nat
         = nodes !! (Z.to_nat dims * Z.to_nat gid + v)%nat) /\
    (forall p, (Z.to_nat dims * (elements * numDofs) <= p)%nat ->
       meshNodes' !! p = meshNodes !! p).
Proof. intros. apply GeomFill_spec; assumption. Qed.

(** Two segments with two nodes each over three nodes in the plane. *)
Lemma GeomFill_gathers_witness :
  exists eMap' meshNodes',
    GeomFill 2 2 2 [0; 1; 1; 2]%Z [9; 9; 9; 9]%Z
      [10; 11; 20; 21; 30; 31]%Z [0; 0; 0; 0; 0; 0; 0; 0]%Z
      = Ok (eMap', meshNodes') /\
    length eMap' = 4%nat /\ length meshNodes' = 8%nat /\
    (forall lid, (lid < 2 * 2)%nat -> eMap' !! lid = [0; 1; 1; 2]%Z !! lid) /\
    (forall lid, (2 * 2 <= lid)%nat -> eMap' !! lid = [9; 9; 9; 9]%Z !! lid) /\
    (forall lid gid v, (lid < 2 * 2)%nat -> [0; 1; 1; 2]%Z !! lid = Some gid ->
       (v < Z.to_nat 2)%nat ->
       meshNodes' !! (Z.to_nat 2 * lid + v)%nat
         = [10; 11; 20; 21; 30; 31]%Z !! (Z.to_nat 2 * Z.to_nat gid + v)%nat) /\
    (forall p, (Z.to_nat 2 * (2 * 2) <= p)%nat ->
       meshNodes' !! p = [0; 0; 0; 0; 0; 0; 0; 0]%Z !! p).
Proof.
  apply (GeomFill_gathers 2 2 2 [0; 1; 1; 2]%Z [9; 9; 9; 9]%Z
           [10; 11; 20; 21; 30; 31]%Z [0; 0; 0; 0; 0; 0; 0; 0]%Z).
  - lia.
  - simpl. lia.
  - simpl. lia.
  - simpl. lia.
  - intros lid gid Hlid Hg.
    destruct lid as [|[|[|[|lid]]]]; simpl in Hg; try (simpl in Hlid; lia);
      injection Hg as <-; simpl; lia.
Defined.

(** X21: the two ways Geometry::Get has of filling the nodes of
    the elements agree.  For a vector [Sx] of [dims * ndofs] entries in
    the by-nodes layout and an element map whose entries are node
    numbers below [ndofs], NodeCopyByVDim returns, and it leaves in
    [nodes] what GeomFill leaves when it is given [Sx] reordered by
    ReorderByVDim: for each entry of the element map, coordinate v of
    the node gid it names, [Sx[gid + v * ndofs]]. *)
Theorem NodeCopyByVDim_is_GeomFill_of_reordered {A} (elements numDofs : nat)
    (ndofs dims : Z) (junk : nat -> A) (eMap eMap0 : list Z) (Sx nodes : list A) :
  (0 <= ndofs)%Z -> (0 <= dims)%Z ->
  (elements * numDofs <= length eMap)%nat ->
  (elements * numDofs <= length eMap0)%nat ->
  (Z.to_nat dims * (elements * numDofs) <= length nodes)%nat ->
  Z.of_nat (length Sx) = (dims * ndofs)%Z ->
  (forall lid gid, (lid < elements * numDofs)%nat -> eMap !! lid = Some gid ->
     (0 <= gid < ndofs)%Z) ->
  exists Rx eMap' nodes',
    ReorderByVDim (dims * ndofs) dims ndofs junk Sx = Ok Rx /\
    NodeCopyByVDim (Z.of_nat elements) (Z.of_nat numDofs) ndofs dims eMap Sx nodes
      = Ok nodes' /\
    GeomFill dims elements numDofs eMap eMap0 Rx nodes = Ok (eMap', nodes') /\
    forall lid gid v, (lid < elements * numDofs)%nat -> eMap !! lid = Some gid ->
      (v < Z.to_nat dims)%nat ->
      nodes' !! (Z.to_nat dims * lid + v)%nat
        = Sx !! (Z.to_nat gid + v * Z.to_nat ndofs)%nat.
Proof.
  intros Hnd HD Hle Hle0 Hln HlS Hgid.
  set (D := Z.to_nat dims) in *. set (n := Z.to_nat ndofs).
  destruct (ReorderByVDim_spec (dims * ndofs) dims ndofs junk Sx HD Hnd eq_refl HlS)
    as (Rx & HR & HlR & HvalR).
  fold D n in HvalR.
  assert (Hle1 : (Z.of_nat elements * Z.of_nat numDofs <= Z.of_nat (length eMap))%Z) by nia.
  assert (Hln1 : (dims * (Z.of_nat elements * Z.of_nat numDofs)
                  <= Z.of_nat (length nodes))%Z) by (unfold D in Hln; nia).
  assert (Hgid1 : forall lid gid,
            (Z.of_nat lid < Z.of_nat elements * Z.of_nat numDofs)%Z ->
            eMap !! lid = Some gid -> (0 <= gid < ndofs)%Z).
  { intros lid gid Hlid Hg. apply (Hgid lid gid); [nia|exact Hg]. }
  destruct (NodeCopyByVDim_spec (Z.of_nat elements) (Z.of_nat numDofs) ndofs dims
              eMap Sx nodes ltac:(lia) ltac:(lia) Hnd HD Hle1 Hln1 ltac:(lia) Hgid1)
    as (nodes1 & Hrun1 & Hl1 & Hval1 & Hkeep1).
  destruct (GeomFill_spec dims elements numDofs eMap eMap0 Rx nodes)
    as (eMap' & nodes2 & Hrun2 & _ & Hl2 & _ & _ & Hval2 & Hkeep2); try assumption.
  { intros lid gid Hlid Hg. destruct (Hgid lid gid Hlid Hg). split; [lia|]. nia. }
  fold D in Hval1, Hkeep1, Hval2, Hkeep2.
  assert (Heq : nodes1 = nodes2).
  { apply list_eq. intros p.
    destruct (decide (p < D * (elements * numDofs))%nat) as [Hp|Hp].
    - assert (HD0 : D <> 0%nat) by lia.
      assert (Hlid : (p / D < elements * numDofs)%nat)
        by (apply Nat.Div0.div_lt_upper_bound; lia).
      assert (Hv : (p mod D < D)%nat) by (apply Nat.mod_upper_bound; exact HD0).
      destruct (lookup_lt_is_Some_2 eMap (p / D) ltac:(lia)) as [gid Hg].
      destruct (Hgid _ _ Hlid Hg) as [Hg0 Hg1].
      rewrite (Nat.div_mod_eq p D).
      rewrite (Hval1 (p / D)%nat gid (p mod D)%nat); [|nia|exact Hg|exact Hv].
      rewrite (Hval2 (p / D)%nat gid (p mod D)%nat); [|exact Hlid|exact Hg|exact Hv].
      rewrite HvalR by nia.
      destruct (place_of_pair n D (Z.to_nat gid) (p mod D)%nat ltac:(lia) Hv) as [H1 H2].
      replace (D * Z.to_nat gid + p mod D)%nat with (Z.to_nat gid * D + p mod D)%nat by lia.
      rewrite H1, H2. reflexivity.
    - rewrite Hkeep1, Hkeep2; [reflexivity|lia|].
      replace (Z.to_nat (Z.of_nat elements * Z.of_nat numDofs)) with (elements * numDofs)%nat
        by nia.
      lia. }
  subst nodes2.
  exists Rx, eMap', nodes1. split; [exact HR|]. split; [exact Hrun1|].
  split; [exact Hrun2|].
  intros lid gid v Hlid Hg Hv. apply (Hval1 lid gid v); [nia|exact Hg|exact Hv].
Qed.

Lemma NodeCopyByVDim_is_GeomFill_witness :
  exists Rx eMap' nodes',
    ReorderByVDim (2 * 3) 2 3 (fun _ => 0%Z) [10; 20; 30; 11; 21; 31]%Z = Ok Rx /\
    NodeCopyByVDim (Z.of_nat 2) (Z.of_nat 2) 3 2 [0; 1; 1; 2]%Z
      [10; 20; 30; 11; 21; 31]%Z [0; 0; 0; 0; 0; 0; 0; 0]%Z = Ok nodes' /\
    GeomFill 2 2 2 [0; 1; 1; 2]%Z [9; 9; 9; 9]%Z Rx [0; 0; 0; 0; 0; 0; 0; 0]%Z
      = Ok (eMap', nodes') /\
    forall lid gid v, (lid < 2 * 2)%nat -> [0; 1; 1; 2]%Z !! lid = Some gid ->
      (v < Z.to_nat 2)%nat ->
      nodes' !! (Z.to_nat 2 * lid + v)%nat
        = [10; 20; 30; 11; 21; 31]%Z !! (Z.to_nat gid + v * Z.to_nat 3)%nat.
Proof.
  apply (NodeCopyByVDim_is_GeomFill_of_reordered 2 2 3 2 (fun _ => 0%Z)
           [0; 1; 1; 2]%Z [9; 9; 9; 9]%Z [10; 20; 30; 11; 21; 31]%Z
           [0; 0; 0; 0; 0; 0; 0; 0]%Z).
  - lia.
  - lia.
  - simpl. lia.
  - simpl. lia.
  - simpl. lia.
  - reflexivity.
  - intros lid gid Hlid Hg.
    destruct lid as [|[|[|[|lid]]]]; simpl in Hg; try (simpl in Hlid; lia);
      injection Hg as <-; lia.
Defined.

